(** * Drift Guardian: the fact-comparison core, embedded in Rocq

    A shallow embedding of the comparison engine of drift-guardian
    (src/detectors/docsDrift.js and src/detectors/logicDrift.js):
    parameter-list and path normalisation, best-match selection among
    documented function variants, the payload-key rename detector, the
    deterministic value comparator and the regex safety validator.

    JavaScript strings are modelled by [string], a sequence of 8-bit code
    units; the functions below agree with their JavaScript counterparts on
    text in the Latin-1 range.  Mutable locals of a loop become an explicit
    loop state that is threaded through a fold over the iterated list. *)

From Stdlib Require Import Ascii String ZArith Lia Bool.
From stdpp Require Import gmap strings list pretty.

Local Open Scope string_scope.

(** ** Completions: values, exceptions, non-termination *)

Inductive exn : Type :=
| TypeError (msg : string)
| Error (msg : string).

Inductive completion (A : Type) : Type :=
| Normal (a : A)
| Throw (e : exn)
| Diverge.

Arguments Normal {A} a.
Arguments Throw {A} e.
Arguments Diverge {A}.

#[global] Instance completion_ret : MRet completion := fun A a => Normal a.

#[global] Instance completion_bind : MBind completion := fun A B f c =>
  match c with
  | Normal a => f a
  | Throw e => Throw e
  | Diverge => Diverge
  end.

#[global] Instance completion_fmap : FMap completion := fun A B f c =>
  match c with
  | Normal a => Normal (f a)
  | Throw e => Throw e
  | Diverge => Diverge
  end.

(** A [for ... of] loop whose body may throw. *)
Fixpoint foldM {A B : Type} (f : A -> B -> completion A) (a : A) (l : list B)
  : completion A :=
  match l with
  | [] => Normal a
  | x :: l' => a' ← f a x; foldM f a' l'
  end.

(** ** Records of the detectors *)

(** A code fact, as built by [buildEntity]. *)
Module Entity.
Record t : Type := {
  type : string;
  name : string;
  signature : string;
  file : string;
  line : nat
}.
End Entity.

(** A documentation file that was read: [{ file, content }]. *)
Module DocEntry.
Record t : Type := {
  file : string;
  content : string
}.
End DocEntry.

(** A drift result. [rule] is set by the logic-drift detector only. *)
Module Finding.
Record t : Type := {
  source : string;
  type : string;
  severity : string;
  deterministic : bool;
  rule : option string;
  file : string;
  explanation : string;
  suggestion : string
}.
End Finding.

(** The part of the configuration the comparisons read:
    [config.output.severity] and [config.docsDrift.payloadKeysAllowlist].
    An absent value is the empty string. *)
Module Config.
Record t : Type := {
  severity_docsDrift : string;
  severity_logicDrift : string
}.
End Config.

(** ** JavaScript string primitives *)

Module JsString.

Definition code (c : ascii) : nat := nat_of_ascii c.

Definition in_range (lo hi : nat) (c : ascii) : bool :=
  (lo <=? code c)%nat && (code c <=? hi)%nat.

(** [\s] of a regular expression and the characters removed by [trim]:
    tab, line feed, vertical tab, form feed, carriage return, space, and the
    no-break space of Latin-1. *)
Definition is_ws (c : ascii) : bool :=
  in_range 9 13 c || (code c =? 32)%nat || (code c =? 160)%nat.

Definition is_upper (c : ascii) : bool := in_range 65 90 c.
Definition is_lower (c : ascii) : bool := in_range 97 122 c.
Definition is_digit (c : ascii) : bool := in_range 48 57 c.

(** [\w]: [A-Za-z0-9_]. *)
Definition is_word (c : ascii) : bool :=
  is_upper c || is_lower c || is_digit c || (code c =? 95)%nat.

(** The double quote. *)
Definition dquote : ascii := ascii_of_nat 34.

Definition char_in (cs : string) (c : ascii) : bool :=
  existsb (Ascii.eqb c) (list_ascii_of_string cs).

Fixpoint sall (p : ascii -> bool) (s : string) : bool :=
  match s with
  | EmptyString => true
  | String c s' => p c && sall p s'
  end.

Fixpoint sany (p : ascii -> bool) (s : string) : bool :=
  match s with
  | EmptyString => false
  | String c s' => p c || sany p s'
  end.

(** [s.replace(/[class]/g, '')] keeps the characters outside the class. *)
Fixpoint sfilter (p : ascii -> bool) (s : string) : string :=
  match s with
  | EmptyString => EmptyString
  | String c s' => if p c then String c (sfilter p s') else sfilter p s'
  end.

Fixpoint smap (f : ascii -> ascii) (s : string) : string :=
  match s with
  | EmptyString => EmptyString
  | String c s' => String (f c) (smap f s')
  end.

(** [s.replace(/^[class]+/, '')]. *)
Fixpoint drop_while (p : ascii -> bool) (s : string) : string :=
  match s with
  | EmptyString => EmptyString
  | String c s' => if p c then drop_while p s' else s
  end.

Definition is_empty (s : string) : bool :=
  match s with EmptyString => true | _ => false end.

(** JavaScript truthiness of a string, as used by [filter(Boolean)],
    [if (!text)] and [a || b]. *)
Definition truthy (s : string) : bool := negb (is_empty s).

Definition trimStart (s : string) : string := drop_while is_ws s.

(** [s.replace(/[class]+$/, '')]. *)
Fixpoint drop_while_end (p : ascii -> bool) (s : string) : string :=
  match s with
  | EmptyString => EmptyString
  | String c s' =>
      match drop_while_end p s' with
      | EmptyString => if p c then EmptyString else String c EmptyString
      | t => String c t
      end
  end.

Definition trimEnd (s : string) : string := drop_while_end is_ws s.

Definition trim (s : string) : string := trimEnd (trimStart s).

Definition startsWith (p s : string) : bool := String.prefix p s.

Fixpoint endsWith_from (p s : string) : bool :=
  String.eqb p s ||
  match s with
  | EmptyString => false
  | String _ s' => endsWith_from p s'
  end.

Definition endsWith (p s : string) : bool := endsWith_from p s.

(** [s.includes(sub)]. *)
Fixpoint includes (sub s : string) : bool :=
  String.prefix sub s ||
  match s with
  | EmptyString => false
  | String _ s' => includes sub s'
  end.

(** [s.split(sep)] for a one-character separator. *)
Fixpoint split_char (sep : ascii) (s : string) : list string :=
  match s with
  | EmptyString => [EmptyString]
  | String c s' =>
      if Ascii.eqb c sep then EmptyString :: split_char sep s'
      else match split_char sep s' with
           | h :: t => String c h :: t
           | [] => [String c EmptyString]
           end
  end.

(** [s.split(/\s+/)]: the flag tells whether the previous character
    belonged to the separator run that is being skipped. *)
Fixpoint split_ws_from (in_sep : bool) (s : string) : list string :=
  match s with
  | EmptyString => [EmptyString]
  | String c s' =>
      if is_ws c then
        if in_sep then split_ws_from true s'
        else EmptyString :: split_ws_from true s'
      else match split_ws_from false s' with
           | h :: t => String c h :: t
           | [] => [String c EmptyString]
           end
  end.

Definition split_ws (s : string) : list string := split_ws_from false s.

(** [s.replace(/^prefix/, '')] for a literal prefix. *)
Fixpoint strip_prefix (p s : string) : option string :=
  match p, s with
  | EmptyString, _ => Some s
  | String a p', String b s' => if Ascii.eqb a b then strip_prefix p' s' else None
  | String _ _, EmptyString => None
  end.

Definition remove_prefix (p s : string) : string :=
  match strip_prefix p s with
  | Some r => r
  | None => s
  end.

(** [s.lastIndexOf(c)] for a character; [None] is -1. *)
Fixpoint lastIndexOf_from (c : ascii) (i : nat) (s : string) : option nat :=
  match s with
  | EmptyString => None
  | String d s' =>
      match lastIndexOf_from c (S i) s' with
      | Some j => Some j
      | None => if Ascii.eqb d c then Some i else None
      end
  end.

Definition lastIndexOf (c : ascii) (s : string) : option nat := lastIndexOf_from c 0 s.

(** [s.slice(from, to)] and [s.slice(from)] for indices within the string. *)
Definition slice (from to : nat) (s : string) : string := String.substring from (to - from) s.
Definition slice_from (from : nat) (s : string) : string :=
  String.substring from (String.length s - from) s.

(** [arr.join(sep)]. *)
Definition join (sep : string) (l : list string) : string := String.concat sep l.

Definition toLowerChar (c : ascii) : ascii :=
  if is_upper c || (in_range 192 222 c && negb (code c =? 215)%nat)
  then ascii_of_nat (code c + 32) else c.

(** The upper case of a character of Latin-1 that has one in Latin-1. The
    sharp s, the micro sign and the y with diaeresis stay as they are:
    their upper case (SS, U+039C, U+0178) is no character of Latin-1, so a
    text with one of them is outside of what [toUpperCase] models. *)
Definition toUpperChar (c : ascii) : ascii :=
  if is_lower c || (in_range 224 254 c && negb (code c =? 247)%nat)
  then ascii_of_nat (code c - 32) else c.

Definition toLowerCase (s : string) : string := smap toLowerChar s.
Definition toUpperCase (s : string) : string := smap toUpperChar s.

(** [arr.includes(x)] / [set.has(x)] on a literal list of strings. *)
Definition mem (x : string) (l : list string) : bool := existsb (String.eqb x) l.

(** [Array.from(new Set(keys))]: first occurrences, in insertion order. *)
Fixpoint uniq_from (seen : list string) (l : list string) : list string :=
  match l with
  | [] => []
  | x :: l' => if mem x seen then uniq_from seen l' else x :: uniq_from (x :: seen) l'
  end.

Definition uniq (l : list string) : list string := uniq_from [] l.

End JsString.

Import JsString.

(** ** Regular expressions

    A backtracking matcher with the priorities of ECMAScript: greedy
    quantifiers, leftmost alternative first, first position that matches.
    A regular expression literal of the source is written as a term of
    [re]; the flags [i] and [m] are part of that term ([lit_ci], [Bol true]),
    the flags [g] and [y] and the [lastIndex] slot live in [RegExp].
    Where a comment quotes a regular expression of the source, a space
    separates a star from a closing parenthesis that follows it and [Q]
    stands for the double quote. *)

Module JsRegExp.

Inductive re : Type :=
| Eps
| Chr (p : ascii -> bool)
| Seq (a b : re)
| Alt (a b : re)
| Star (a : re)
| Group (n : nat) (a : re)
| WordBoundary
| Bol (multiline : bool)
| Eol (multiline : bool).

Definition seq (rs : list re) : re := List.fold_right Seq Eps rs.
Definition alt (r : re) (rs : list re) : re := List.fold_left Alt rs r.
Definition plus (a : re) : re := Seq a (Star a).
Definition opt (a : re) : re := Alt a Eps.
Definition chr (c : ascii) : re := Chr (Ascii.eqb c).
Definition lit (s : string) : re := seq (List.map chr (list_ascii_of_string s)).
Definition chr_ci (c : ascii) : re :=
  Chr (fun d => Ascii.eqb (toUpperChar d) (toUpperChar c)).
Definition lit_ci (s : string) : re := seq (List.map chr_ci (list_ascii_of_string s)).
Definition none_of (cs : string) : re := Chr (fun c => negb (char_in cs c)).
Definition one_of (cs : string) : re := Chr (char_in cs).

Definition is_line_terminator (c : ascii) : bool := char_in (String "010" (String "013" "")) c.

(** [\s], [\d], [\w] and [.] *)
Definition ws : re := Chr is_ws.
Definition digit : re := Chr is_digit.
Definition word : re := Chr is_word.
Definition dot : re := Chr (fun c => negb (is_line_terminator c)).

Record mstate : Type := {
  m_prev : option ascii;
  m_rest : list ascii;
  m_pos : nat;
  m_caps : list (nat * string)
}.

Definition is_word_opt (c : option ascii) : bool :=
  match c with Some c => is_word c | None => false end.

Definition is_line_terminator_opt (c : option ascii) : bool :=
  match c with Some c => is_line_terminator c | None => false end.

Definition advance (c : ascii) (t : list ascii) (s : mstate) : mstate :=
  {| m_prev := Some c; m_rest := t; m_pos := S (m_pos s); m_caps := m_caps s |}.

Definition capture (n : nat) (from to : mstate) : mstate :=
  {| m_prev := m_prev to; m_rest := m_rest to; m_pos := m_pos to;
     m_caps := (n, string_of_list_ascii (take (m_pos to - m_pos from) (m_rest from)))
               :: m_caps to |}.

(** The groups of a regular expression, and a state with the captures of
    these groups cleared. *)
Fixpoint groups_in (r : re) : list nat :=
  match r with
  | Seq a b | Alt a b => (groups_in a ++ groups_in b)%list
  | Star a => groups_in a
  | Group n a => n :: groups_in a
  | Eps | Chr _ | WordBoundary | Bol _ | Eol _ => []
  end.

Definition clear_captures (a : re) (s : mstate) : mstate :=
  match groups_in a with
  | [] => s
  | ns =>
      {| m_prev := m_prev s; m_rest := m_rest s; m_pos := m_pos s;
         m_caps := List.filter (fun g => negb (existsb (Nat.eqb (fst g)) ns)) (m_caps s) |}
  end.

(** [run r s k]: match [r] at state [s], then continue with [k]; a failing
    continuation makes the matcher try its next choice. An iteration of
    [Star] that consumes nothing is not taken, and each iteration starts
    with the captures of the groups under the star undefined
    (RepeatMatcher). *)
Fixpoint run (r : re) (s : mstate) (k : mstate -> option mstate) : option mstate :=
  match r with
  | Eps => k s
  | Chr p =>
      match m_rest s with
      | c :: t => if p c then k (advance c t s) else None
      | [] => None
      end
  | Seq a b => run a s (fun s1 => run b s1 k)
  | Alt a b =>
      match run a s k with
      | Some out => Some out
      | None => run b s k
      end
  | Star a =>
      (fix iterate (fuel : nat) (s : mstate) : option mstate :=
         match fuel with
         | O => k s
         | S fuel' =>
             match run a (clear_captures a s) (fun s1 =>
                     if (length (m_rest s1) <? length (m_rest s))%nat
                     then iterate fuel' s1 else None) with
             | Some out => Some out
             | None => k s
             end
         end) (length (m_rest s)) s
  | Group n a => run a s (fun s1 => k (capture n s s1))
  | WordBoundary =>
      if xorb (is_word_opt (m_prev s)) (is_word_opt (head (m_rest s)))
      then k s else None
  | Bol multiline =>
      match m_prev s with
      | None => k s
      | Some c => if multiline && is_line_terminator c then k s else None
      end
  | Eol multiline =>
      match m_rest s with
      | [] => k s
      | c :: _ => if multiline && is_line_terminator c then k s else None
      end
  end.

(** Whether [r] can match the empty string at some position. *)
Fixpoint nullable (r : re) : bool :=
  match r with
  | Chr _ => false
  | Seq a b => nullable a && nullable b
  | Alt a b => nullable a || nullable b
  | Group _ a => nullable a
  | Eps | Star _ | WordBoundary | Bol _ | Eol _ => true
  end.

Definition match_at (r : re) (prev : option ascii) (rest : list ascii) (pos : nat)
  : option mstate :=
  run r {| m_prev := prev; m_rest := rest; m_pos := pos; m_caps := [] |} Some.

(** The first position at or after [pos] where [r] matches. *)
Fixpoint search (r : re) (prev : option ascii) (rest : list ascii) (pos : nat)
  : option (nat * mstate) :=
  match match_at r prev rest pos with
  | Some out => Some (pos, out)
  | None =>
      match rest with
      | [] => None
      | c :: t => search r (Some c) t (S pos)
      end
  end.

Record RegExp : Type := {
  source : re;
  global : bool;
  sticky : bool;
  lastIndex : nat
}.

Definition regexp (r : re) (g : bool) : RegExp :=
  {| source := r; global := g; sticky := false; lastIndex := 0 |}.

Definition set_lastIndex (i : nat) (R : RegExp) : RegExp :=
  {| source := source R; global := global R; sticky := sticky R; lastIndex := i |}.

(** The array returned by [exec]: [index], element 0 and the groups. *)
Record MatchResult : Type := {
  index : nat;
  matched : string;
  groups : list (nat * string)
}.

(** [match[n]]; [None] is [undefined]. *)
Definition group (n : nat) (mr : MatchResult) : option string :=
  snd <$> List.find (fun g => (fst g =? n)%nat) (groups mr).

(** [match[n] || ''] *)
Definition group_or_empty (n : nat) (mr : MatchResult) : string :=
  default EmptyString (group n mr).

(** [regex.exec(text)] (RegExpBuiltinExec): a global or sticky regex starts
    at [lastIndex] and stores the end of the match there, or 0 on failure. *)
Definition exec (R : RegExp) (text : string) : option MatchResult * RegExp :=
  let chars := list_ascii_of_string text in
  let stateful := global R || sticky R in
  let start := if stateful then lastIndex R else 0 in
  if (length chars <? start)%nat
  then (None, if stateful then set_lastIndex 0 R else R)
  else
    let prev := match start with O => None | S i => chars !! i end in
    let rest := drop start chars in
    let found :=
      if sticky R
      then (fun out => (start, out)) <$> match_at (source R) prev rest start
      else search (source R) prev rest start in
    match found with
    | None => (None, if stateful then set_lastIndex 0 R else R)
    | Some (i, out) =>
        (Some {| index := i;
                 matched := string_of_list_ascii (take (m_pos out - i) (drop i chars));
                 groups := m_caps out |},
         if stateful then set_lastIndex (m_pos out) R else R)
    end.

(** [regex.test(text)] *)
Definition test (R : RegExp) (text : string) : bool * RegExp :=
  let '(m, R') := exec R text in (bool_decide (is_Some m), R').

(** [while ((match = regex.exec(text)) !== null) { ... }] with a body that
    does not leave the loop: the matches in the order the body sees them.
    When a call leaves [lastIndex] where it was (an empty match there, or a
    regex without [g] and [y] that matches), every later call returns the same
    match and the loop never ends. *)
Fixpoint exec_loop (fuel : nat) (R : RegExp) (text : string)
  : completion (list MatchResult * RegExp) :=
  match fuel with
  | O => Diverge
  | S fuel' =>
      match exec R text with
      | (None, R') => Normal ([], R')
      | (Some mr, R') =>
          if (lastIndex R' <=? lastIndex R)%nat then Diverge
          else
            '(more, R'') ← exec_loop fuel' R' text;
            Normal (mr :: more, R'')
      end
  end.

Definition exec_all (R : RegExp) (text : string) : completion (list MatchResult * RegExp) :=
  exec_loop (String.length text + 2) R text.

(** The matches that [text.replace(regex, ...)] replaces: all of them for
    a regex with the flag [g], found from position 0 and stepping over an
    empty match, and the first one otherwise. *)
Fixpoint replace_matches (fuel : nat) (R : RegExp) (text : string) : list MatchResult :=
  match fuel with
  | O => []
  | S fuel' =>
      match exec R text with
      | (None, _) => []
      | (Some mr, R') =>
          let R'' := if is_empty (matched mr) then set_lastIndex (S (lastIndex R')) R'
                     else R' in
          mr :: replace_matches fuel' R'' text
      end
  end.

(** The text with each match replaced, [from] being the position up to
    which the text is already copied. *)
Fixpoint substitute (ms : list MatchResult) (replacement text : string) (from : nat)
  : string :=
  match ms with
  | [] => String.substring from (String.length text - from) text
  | mr :: ms' =>
      String.substring from (index mr - from) text ++ replacement
      ++ substitute ms' replacement text (index mr + String.length (matched mr))
  end.

(** [text.replace(regex, replacement)] for a replacement without [$]. *)
Definition replace (R : RegExp) (replacement text : string) : string :=
  if global R then
    substitute (replace_matches (String.length text + 2) (set_lastIndex 0 R) text)
               replacement text 0
  else
    match fst (exec R text) with
    | Some mr => substitute [mr] replacement text 0
    | None => text
    end.

(** The same loop when the regex is a fresh literal that the caller drops. *)
Definition matches (R : RegExp) (text : string) : completion (list MatchResult) :=
  fst <$> exec_all R text.

End JsRegExp.

Import JsRegExp.

(** ** Numbers

    The Number type restricted to what [Number(string)], [Number.isFinite]
    and the relational operators need: a finite double is the exact value
    [m * 2^e]; [Number(string)] rounds the literal to the nearest double,
    ties to even. The sign of zero is not kept: [===] and [<] ignore it. *)

Module JsNumber.

Inductive number : Type :=
| NaN
| Infinity (negative : bool)
| Finite (m e : Z).

Definition isFinite (x : number) : bool :=
  match x with Finite _ _ => true | _ => false end.

Definition isNaN (x : number) : bool :=
  match x with NaN => true | _ => false end.

(** Compare [m1 * 2^e1] with [m2 * 2^e2]. *)
Definition compare_finite (m1 e1 m2 e2 : Z) : comparison :=
  let e := Z.min e1 e2 in
  Z.compare (m1 * 2 ^ (e1 - e)) (m2 * 2 ^ (e2 - e)).

(** [None] when an operand is NaN: every relation is then false. *)
Definition compare (x y : number) : option comparison :=
  match x, y with
  | NaN, _ | _, NaN => None
  | Infinity a, Infinity b =>
      Some (if a then (if b then Eq else Lt) else (if b then Gt else Eq))
  | Infinity a, Finite _ _ => Some (if a then Lt else Gt)
  | Finite _ _, Infinity b => Some (if b then Gt else Lt)
  | Finite m1 e1, Finite m2 e2 => Some (compare_finite m1 e1 m2 e2)
  end.

Definition strict_eq (x y : number) : bool :=
  match compare x y with Some Eq => true | _ => false end.
Definition strict_ne (x y : number) : bool := negb (strict_eq x y).
Definition lt (x y : number) : bool :=
  match compare x y with Some Lt => true | _ => false end.
Definition gt (x y : number) : bool :=
  match compare x y with Some Gt => true | _ => false end.
Definition le (x y : number) : bool :=
  match compare x y with Some Lt | Some Eq => true | _ => false end.
Definition ge (x y : number) : bool :=
  match compare x y with Some Gt | Some Eq => true | _ => false end.

Definition neg (x : number) : number :=
  match x with
  | NaN => NaN
  | Infinity b => Infinity (negb b)
  | Finite m e => Finite (- m) e
  end.

(** The double nearest to [n / d], for [0 <= n] and [0 < d]. *)
Definition round_ratio (n d : Z) : number :=
  if (n =? 0)%Z then Finite 0 0
  else
    let e := (Z.log2 n - Z.log2 d)%Z in
    let below :=
      if (0 <=? e)%Z then (n <? d * 2 ^ e)%Z else (n * 2 ^ (- e) <? d)%Z in
    let ex := if below then (e - 1)%Z else e in
    let sh := Z.max (ex - 52) (-1074) in
    let num := if (0 <=? sh)%Z then n else (n * 2 ^ (- sh))%Z in
    let den := if (0 <=? sh)%Z then (d * 2 ^ sh)%Z else d in
    let q := (num / den)%Z in
    let r := (num mod den)%Z in
    let up := (den <? 2 * r)%Z || ((den =? 2 * r)%Z && Z.odd q) in
    let m := if up then (q + 1)%Z else q in
    if (0 <=? sh)%Z && (2 ^ 1024 <=? m * 2 ^ sh)%Z then Infinity false
    else Finite m sh.

Definition digit_value (c : ascii) : option Z :=
  if is_digit c then Some (Z.of_nat (code c - 48))
  else if in_range 97 102 c then Some (Z.of_nat (code c - 87))
  else if in_range 65 70 c then Some (Z.of_nat (code c - 55))
  else None.

(** The longest prefix of digits in [base]: its value, its length, the rest. *)
Fixpoint digits (base : Z) (acc : Z) (count : nat) (s : list ascii)
  : Z * nat * list ascii :=
  match s with
  | [] => (acc, count, [])
  | c :: t =>
      match digit_value c with
      | Some v =>
          if (v <? base)%Z then digits base (acc * base + v)%Z (S count) t
          else (acc, count, s)
      | None => (acc, count, s)
      end
  end.

(** ExponentPart, or nothing: the exponent and what follows; [None] when
    an [e] is not followed by digits. *)
Definition exponent_part (s : list ascii) : option (Z * list ascii) :=
  match s with
  | [] => Some (0%Z, [])
  | c :: t =>
      if char_in "eE" c then
        let '(negative, t) :=
          match t with
          | "-"%char :: t' => (true, t')
          | "+"%char :: t' => (false, t')
          | _ => (false, t)
          end in
        let '(v, count, rest) := digits 10 0 0 t in
        if (count =? 0)%nat then None
        else Some (if negative then (- v)%Z else v, rest)
      else Some (0%Z, s)
  end.

Definition scale (mantissa exponent : Z) : number :=
  if (0 <=? exponent)%Z then round_ratio (mantissa * 10 ^ exponent) 1
  else round_ratio mantissa (10 ^ (- exponent)).

(** StrUnsignedDecimalLiteral *)
Definition unsigned_decimal (s : list ascii) : number :=
  if String.eqb (string_of_list_ascii s) "Infinity" then Infinity false
  else
    let '(int_value, int_count, rest) := digits 10 0 0 s in
    let '(mantissa, frac_count, rest) :=
      match rest with
      | "."%char :: t =>
          let '(v, count, rest') := digits 10 int_value 0 t in (v, Some count, rest')
      | _ => (int_value, None, rest)
      end in
    if (int_count =? 0)%nat && (default 0%nat frac_count =? 0)%nat then NaN
    else
      match exponent_part rest with
      | Some (ex, []) => scale mantissa (ex - Z.of_nat (default 0%nat frac_count))
      | _ => NaN
      end.

Definition non_decimal (base : Z) (s : list ascii) : number :=
  match digits base 0 0 s with
  | (v, S _, []) => round_ratio v 1
  | _ => NaN
  end.

(** [Number(text)] for a string (StringToNumber). *)
Definition Number (text : string) : number :=
  match list_ascii_of_string (trim text) with
  | [] => Finite 0 0
  | "0"%char :: x :: t =>
      if char_in "xX" x then non_decimal 16 t
      else if char_in "oO" x then non_decimal 8 t
      else if char_in "bB" x then non_decimal 2 t
      else unsigned_decimal ("0"%char :: x :: t)
  | "-"%char :: t => neg (unsigned_decimal t)
  | "+"%char :: t => unsigned_decimal t
  | s => unsigned_decimal s
  end.

End JsNumber.

(** ** utils/severity.js *)

Module Severity.

Definition normalize (value : string) : string :=
  if negb (truthy value) then EmptyString
  else
    let v := toLowerCase value in
    if mem v ["critical"; "error"; "warning"; "info"] then v else EmptyString.

Definition normalizeSeverity (value fallback : string) : string :=
  let normalized := normalize value in
  if truthy normalized then normalized
  else
    let fallbackNormalized := normalize fallback in
    if truthy fallbackNormalized then fallbackNormalized else "warning".

End Severity.

Import Severity.

(** ** utils/glob.js *)

Module Glob.

(** The loop of [globToRegExp] from position [i] on, as the pieces it
    appends to [re] and the closing [$]: [**/] gives [(?:.*\/)?], any other
    [**] gives [.*], a single star gives [[^/]*], the question mark gives
    [.], and every other character gives the pattern that matches that
    character ([\.], [\/], or what [escapeRegExp] returns for it). *)
Fixpoint globToRegExp_from (glob : list ascii) : list re :=
  match glob with
  | [] => [Eol false]
  | char :: rest =>
      if Ascii.eqb char "*" then
        match rest with
        | next :: rest' =>
            if Ascii.eqb next "*" then
              match rest' with
              | third :: rest'' =>
                  if Ascii.eqb third "/"
                  then opt (Seq (Star dot) (chr "/")) :: globToRegExp_from rest''
                  else Star dot :: globToRegExp_from rest'
              | [] => Star dot :: globToRegExp_from rest'
              end
            else Star (none_of "/") :: globToRegExp_from rest
        | [] => Star (none_of "/") :: globToRegExp_from rest
        end
      else if Ascii.eqb char "?" then dot :: globToRegExp_from rest
      else if Ascii.eqb char "." then chr "." :: globToRegExp_from rest
      else if Ascii.eqb char "/" then chr "/" :: globToRegExp_from rest
      else chr char :: globToRegExp_from rest
  end.

Definition globToRegExp (glob : string) : RegExp :=
  regexp (seq (Bol false :: globToRegExp_from (list_ascii_of_string glob))) false.

(** [filePath.replace(/\\/g, '/')] *)
Definition normalizePath (filePath : string) : string :=
  smap (fun c => if Ascii.eqb c "\" then "/"%char else c) filePath.

(** [match], on the module-level [cache]: the regex that is tested is the
    object the cache holds for the pattern. *)
Definition match_ (cache : gmap string RegExp) (filePath pattern : string)
  : bool * gmap string RegExp :=
  let regex := default (globToRegExp pattern) (cache !! pattern) in
  let '(ok, regex') := test regex filePath in
  (ok, <[ pattern := regex' ]> cache).

(** [patterns.some((pattern) => match(normalized, pattern))] *)
Fixpoint some_match (cache : gmap string RegExp) (filePath : string)
  (patterns : list string) : bool * gmap string RegExp :=
  match patterns with
  | [] => (false, cache)
  | pattern :: rest =>
      let '(ok, cache') := match_ cache filePath pattern in
      if ok then (true, cache') else some_match cache' filePath rest
  end.

Definition matchAny (cache : gmap string RegExp) (filePath : string)
  (patterns : list string) : bool * gmap string RegExp :=
  if (length patterns =? 0)%nat then (false, cache)
  else some_match cache (normalizePath filePath) patterns.

End Glob.

(** ** utils/text.js *)

Module Text.

(** [text.slice(0, end)] for an integer [end]: a negative [end] counts from
    the end of the text. *)
Definition slice_to (to : Z) (text : string) : string :=
  let len := Z.of_nat (String.length text) in
  let to := if (to <? 0)%Z then Z.max (len + to) 0 else Z.min to len in
  String.substring 0 (Z.to_nat to) text.

(** [truncateText], for an integer [maxChars]. *)
Definition truncateText (text : string) (maxChars : Z) : string :=
  if (maxChars =? 0)%Z || (Z.of_nat (String.length text) <=? maxChars)%Z then text
  else slice_to maxChars text ++ String "010" "[truncated]".

End Text.

(** ** utils/yaml.js *)

Module Yaml.

(** The loop of [stripComments], with the locals [inSingle] and [inDouble]
    as arguments; the result is what the loop appends to [result]. *)
Fixpoint stripComments_loop (line : string) (inSingle inDouble : bool) : string :=
  match line with
  | EmptyString => EmptyString
  | String char rest =>
      if Ascii.eqb char "'" && negb inDouble
      then String char (stripComments_loop rest (negb inSingle) inDouble)
      else if Ascii.eqb char dquote && negb inSingle
      then String char (stripComments_loop rest inSingle (negb inDouble))
      else if Ascii.eqb char "#" && negb inSingle && negb inDouble
      then EmptyString
      else String char (stripComments_loop rest inSingle inDouble)
  end.

Definition stripComments (line : string) : string :=
  stripComments_loop line false false.

(** [line.indexOf(':')]; [None] is -1. *)
Fixpoint indexOf (c : ascii) (s : string) : option nat :=
  match s with
  | EmptyString => None
  | String d s' => if Ascii.eqb d c then Some 0 else S <$> indexOf c s'
  end.

(** The object returned by [parseKeyValue]. *)
Module KeyValue.
Record t : Type := {
  key : string;
  value : string;
  hasValue : bool
}.
End KeyValue.

Definition parseKeyValue (line : string) : completion KeyValue.t :=
  match indexOf ":" line with
  | None => Throw (Error ("Invalid YAML line: " ++ line))
  | Some index =>
      let key := trim (slice 0 index line) in
      let value := trim (slice_from (index + 1) line) in
      Normal {| KeyValue.key := key; KeyValue.value := value;
                KeyValue.hasValue := negb (String.eqb value EmptyString) |}
  end.

(** What [parseScalar] returns: [null], a boolean, a number or a string. *)
Inductive scalar : Type :=
| SNull
| SBool (b : bool)
| SNumber (n : JsNumber.number)
| SString (s : string).

(** [/^[-+]?[0-9]*\.?[0-9]+$/] *)
Definition decimalPattern : RegExp :=
  regexp (seq [Bol false; opt (one_of "-+"); Star digit; opt (chr "."); plus digit;
               Eol false]) false.

(** [value.slice(1, -1)] *)
Definition unquote (value : string) : string :=
  String.substring 1 (String.length value - 2) value.

Definition parseScalar (value : string) : scalar :=
  if negb (truthy value) then SString EmptyString
  else if String.eqb value "null" || String.eqb value "~" then SNull
  else if String.eqb value "true" then SBool true
  else if String.eqb value "false" then SBool false
  else if startsWith (String dquote EmptyString) value
          && endsWith (String dquote EmptyString) value
  then SString (unquote value)
  else if startsWith "'" value && endsWith "'" value then SString (unquote value)
  else
    let numberValue := JsNumber.Number value in
    if negb (JsNumber.isNaN numberValue) && fst (test decimalPattern value)
    then SNumber numberValue
    else SString value.

End Yaml.

(** ** detectors/docsDrift.js *)

Module DocsDrift.

(** [splitParams]: the body of the [for] loop, with the locals [parts],
    [current] and [depth] as arguments. *)
Definition is_open (c : ascii) : bool := char_in "([{<" c.
Definition is_close (c : ascii) : bool := char_in ")]}>" c.

Fixpoint splitParams_loop (text : string) (parts : list string)
  (current : string) (depth : nat) : list string :=
  match text with
  | EmptyString => if truthy current then (parts ++ [current])%list else parts
  | String char text' =>
      let depth' :=
        if is_open char then S depth
        else if is_close char then Nat.max 0 (depth - 1)
        else depth in
      if Ascii.eqb char "," && (depth' =? 0)%nat
      then splitParams_loop text' (parts ++ [current])%list EmptyString depth'
      else splitParams_loop text' parts (current ++ String char EmptyString) depth'
  end.

Definition splitParams (text : string) : list string :=
  splitParams_loop text [] EmptyString 0.

(** [/[^A-Za-z0-9_$-]/] negated: the characters [stripToken] keeps. *)
Definition is_token_char (c : ascii) : bool :=
  is_upper c || is_lower c || is_digit c || char_in "_$-" c.

Definition stripToken (token : string) : string :=
  sfilter is_token_char (drop_while (fun c => Ascii.eqb c "." || is_ws c) token).

Definition goTypes : list string :=
  [ "string"; "int"; "int64"; "int32"; "int16"; "int8";
    "uint"; "uint64"; "uint32"; "uint16"; "uint8";
    "float64"; "float32"; "bool"; "error"; "byte"; "rune"; "any" ].

Definition isGoTypeToken (token : string) : bool :=
  if negb (truthy token) then false
  else
    let normalized := sfilter (fun c => negb (char_in ",)" c)) token in
    if mem normalized goTypes then true
    else if startsWith "[]" normalized || startsWith "map[" normalized
            || startsWith "*" normalized then true
    else if includes "." normalized || includes "[" normalized
            || includes "]" normalized then true
    else false.

Definition isTypeToken (token : string) : bool :=
  if negb (truthy token) then false
  else
    let normalized := sfilter (fun c => negb (char_in ",)" c)) token in
    if startsWith "[]" normalized || startsWith "*" normalized
       || startsWith "map[" normalized then true
    else if sany (char_in ".<>[]") normalized then true
    else match normalized with
         | String c _ => is_upper c
         | EmptyString => false
         end.

(** [tokens[0]] and [tokens[tokens.length - 1]]; [None] is [undefined]. *)
Definition first_token (tokens : list string) : option string := head tokens.
Definition last_token (tokens : list string) : option string := last tokens.

(** [stripToken(undefined)] throws: [undefined] has no [replace]. *)
Definition stripToken_opt (token : option string) : completion string :=
  match token with
  | Some t => Normal (stripToken t)
  | None => Throw (TypeError "Cannot read properties of undefined (reading 'replace')")
  end.

Definition isGoTypeToken_opt (token : option string) : bool :=
  match token with Some t => isGoTypeToken t | None => false end.

Definition isTypeToken_opt (token : option string) : bool :=
  match token with Some t => isTypeToken t | None => false end.

Definition normalizeParamName (text : string) : completion string :=
  if negb (truthy text) then Normal EmptyString
  else
    let cleaned := trim text in
    if negb (truthy cleaned) then Normal EmptyString
    else
      let cleaned := remove_prefix "..." cleaned in
      let cleaned := sfilter (fun c => negb (Ascii.eqb c "?")) cleaned in
      let cleaned := trim (hd EmptyString (split_char "=" cleaned)) in
      if negb (truthy cleaned) then Normal EmptyString
      else
        let cleaned :=
          if includes ":" cleaned
          then trim (hd EmptyString (split_char ":" cleaned))
          else cleaned in
        let tokens := List.filter truthy (split_ws cleaned) in
        match tokens with
        | [t] => Normal (stripToken t)
        | _ =>
            let first := first_token tokens in
            let last := last_token tokens in
            if isGoTypeToken_opt last then stripToken_opt first
            else if isTypeToken_opt first && negb (isTypeToken_opt last)
            then stripToken_opt last
            else if isTypeToken_opt last && negb (isTypeToken_opt first)
            then stripToken_opt first
            else stripToken_opt last
        end.

Definition normalizeParamList (text : string) : completion (list string) :=
  if negb (truthy text) then Normal []
  else
    names ← mapM normalizeParamName (splitParams text);
    Normal (List.filter truthy names).

Definition paramKey (params : list string) : string := join "," params.


(** *** Fact extraction *)

Definition getLineNumber (content : string) (index : nat) : nat :=
  length (split_char "010" (slice 0 index content)).

Definition buildEntity (type name params file content : string) (index : nat) : Entity.t :=
  let signature :=
    if truthy params
    then name ++ "("
         ++ join ", " (List.filter truthy (List.map trim (split_char "," params))) ++ ")"
    else name in
  {| Entity.type := type;
     Entity.name := name;
     Entity.signature := signature;
     Entity.file := file;
     Entity.line := getLineNumber content index |}.

(** [[A-Za-z0-9_$]] *)
Definition ident : re := Chr (fun c => is_word c || char_in "$" c).

(** [(?:keyword\s+)?] *)
Definition opt_kw (keyword : string) : re := opt (seq [lit keyword; plus ws]).

(** [\s*\(([^)]* )\)], the parameter list as group 2 *)
Definition paramList : list re :=
  [Star ws; chr "("; Group 2 (Star (none_of ")")); chr ")"].

(** [(?:const|let|var)] *)
Definition declKeyword : re := alt (lit "const") [lit "let"; lit "var"].

(** The seven patterns of [extractJsFunctions], in the order of the array:
    - [/\b(?:export\s+)?(?:default\s+)?(?:async\s+)?function\s+([A-Za-z0-9_$]+)\s*\(([^)]* )\)/g]
    - [/\b(?:export\s+)?(?:const|let|var)\s+([A-Za-z0-9_$]+)\s*=\s*(?:async\s* )?\(([^)]* )\)\s*=>/g]
    - [/\b(?:export\s+)?(?:const|let|var)\s+([A-Za-z0-9_$]+)\s*=\s*(?:async\s+)?([A-Za-z0-9_$]+)\s*=>/g]
    - [/^\s*(?:async\s+)?(?:static\s+)?(?:private\s+|public\s+|protected\s+)?(?:async\s+)?([A-Za-z0-9_$]+)\s*\(([^)]* )\)\s*\{/gm]
    - [/^\s*([A-Za-z0-9_$]+)\s*\(([^)]* )\)\s*\{/gm]
    - [/\b(?:async\s+)?function\s+([A-Za-z0-9_$]+)\s*\(([^)]* )\)\s*:\s*[A-Za-z0-9_$<>[\]|&\s]+\s*\{/g]
    - [/\b(?:const|let|var)\s+([A-Za-z0-9_$]+)\s*:\s*[^=]+=\s*(?:async\s* )?\(([^)]* )\)\s*=>/g] *)
Definition jsFunctionPatterns : list RegExp :=
  [ regexp (seq ([WordBoundary; opt_kw "export"; opt_kw "default"; opt_kw "async";
                  lit "function"; plus ws; Group 1 (plus ident)] ++ paramList)%list) true;
    regexp (seq ([WordBoundary; opt_kw "export"; declKeyword; plus ws;
                  Group 1 (plus ident); Star ws; chr "="; Star ws;
                  opt (seq [lit "async"; Star ws]);
                  chr "("; Group 2 (Star (none_of ")")); chr ")"; Star ws; lit "=>"])) true;
    regexp (seq [WordBoundary; opt_kw "export"; declKeyword; plus ws;
                 Group 1 (plus ident); Star ws; chr "="; Star ws; opt_kw "async";
                 Group 2 (plus ident); Star ws; lit "=>"]) true;
    regexp (seq ([Bol true; Star ws; opt_kw "async"; opt_kw "static";
                  opt (alt (seq [lit "private"; plus ws])
                           [seq [lit "public"; plus ws]; seq [lit "protected"; plus ws]]);
                  opt_kw "async"; Group 1 (plus ident)] ++ paramList
                 ++ [Star ws; chr "{"])%list) true;
    regexp (seq ([Bol true; Star ws; Group 1 (plus ident)] ++ paramList
                 ++ [Star ws; chr "{"])%list) true;
    regexp (seq ([WordBoundary; opt_kw "async"; lit "function"; plus ws;
                  Group 1 (plus ident)] ++ paramList
                 ++ [Star ws; chr ":"; Star ws;
                     plus (Chr (fun c => is_word c || char_in "$<>[]|&" c || is_ws c));
                     Star ws; chr "{"])%list) true;
    regexp (seq [WordBoundary; declKeyword; plus ws; Group 1 (plus ident); Star ws;
                 chr ":"; Star ws; plus (none_of "="); chr "="; Star ws;
                 opt (seq [lit "async"; Star ws]);
                 chr "("; Group 2 (Star (none_of ")")); chr ")"; Star ws; lit "=>"]) true ].

Definition jsFalsePositives : list string :=
  ["if"; "for"; "while"; "switch"; "catch"; "with"; "function"; "return"; "new";
   "throw"; "typeof"; "void"; "delete"; "in"; "of"].

(** The key of the [seen] set of [extractJsFunctions]. *)
Definition jsSeenKey (m : MatchResult) : string :=
  group_or_empty 1 m ++ ":" ++ pretty (index m).

(** The body of the [while] loop of [extractJsFunctions], on the matches
    the loop keeps and its [seen] set. [buildEntity] is applied to the kept
    matches afterwards: it reads nothing that the loop changes. *)
Definition jsFunction_step (acc : list MatchResult * gset string) (m : MatchResult)
  : list MatchResult * gset string :=
  let name := group_or_empty 1 m in
  if mem name jsFalsePositives then acc
  else
    let key := jsSeenKey m in
    if bool_decide (key ∈ snd acc) then acc
    else ((fst acc ++ [m])%list, {[ key ]} ∪ snd acc).

(** The matches of all patterns, in the order the two nested loops visit them. *)
Definition allMatches (patterns : list RegExp) (content : string)
  : completion (list MatchResult) :=
  foldM (fun found pattern =>
           ms ← matches pattern content;
           Normal (found ++ ms)%list) [] patterns.

Definition jsKeptMatches (content : string) : completion (list MatchResult) :=
  found ← allMatches jsFunctionPatterns content;
  Normal (fst (List.fold_left jsFunction_step found ([], ∅))).

Definition functionOfMatch (file content : string) (m : MatchResult) : Entity.t :=
  buildEntity "function" (group_or_empty 1 m) (group_or_empty 2 m) file content (index m).

(** [extractJsFunctions]: the entities it pushes onto [results]. *)
Definition extractJsFunctions (content file : string) : completion (list Entity.t) :=
  kept ← jsKeptMatches content;
  Normal (List.map (functionOfMatch file content) kept).

(** [/\bdef\s+(?:self\.)?([A-Za-z0-9_?!]+)\s*\(([^)]* )\)/g] *)
Definition rubyParenPattern : RegExp :=
  regexp (seq ([WordBoundary; lit "def"; plus ws; opt (lit "self.");
                Group 1 (plus (Chr (fun c => is_word c || char_in "?!" c)))]
               ++ paramList)%list) true.

(** [/\bdef\s+(?:self\.)?([A-Za-z0-9_?!]+)\s+([A-Za-z0-9_?!,\s]+)$/gm] *)
Definition rubyBarePattern : RegExp :=
  regexp (seq [WordBoundary; lit "def"; plus ws; opt (lit "self.");
               Group 1 (plus (Chr (fun c => is_word c || char_in "?!" c)));
               plus ws;
               Group 2 (plus (Chr (fun c => is_word c || char_in "?!," c || is_ws c)));
               Eol true]) true.

(** [extractRubyFunctions]: the entities it pushes onto [results]. *)
Definition extractRubyFunctions (content file : string) : completion (list Entity.t) :=
  paren ← matches rubyParenPattern content;
  bare ← matches rubyBarePattern content;
  Normal (List.map (functionOfMatch file content) (paren ++ bare)%list).

(** [/\bclass\s+([A-Za-z0-9_]+)/g] *)
Definition classPattern : RegExp :=
  regexp (seq [WordBoundary; lit "class"; plus ws; Group 1 (plus word)]) true.

(** [extractClassNames]: the entities it pushes onto [results]. *)
Definition extractClassNames (content file : string) : completion (list Entity.t) :=
  ms ← matches classPattern content;
  Normal (List.map (fun m => buildEntity "class" (group_or_empty 1 m) EmptyString
                                file content (index m)) ms).

(** *** Function signatures *)

(** [/\((.* )\)/] *)
Definition signatureParamsPattern : RegExp :=
  regexp (seq [chr "("; Group 1 (Star dot); chr ")"]) false.

Definition extractSignatureParams (signature : string) : string :=
  match fst (exec signatureParamsPattern signature) with
  | Some m => group_or_empty 1 m
  | None => EmptyString
  end.

(** An element of [extractDocFunctions]' result. *)
Module DocFunction.
Record t : Type := {
  name : string;
  params : string;
  signature : string;
  file : string
}.
End DocFunction.

(** [/\b([A-Za-z_][A-Za-z0-9_]* )\s*\(([^)]* )\)/g] *)
Definition docFunctionPattern : RegExp :=
  regexp (seq [WordBoundary;
               Group 1 (Seq (Chr (fun c => is_upper c || is_lower c || char_in "_" c))
                            (Star word));
               Star ws; chr "("; Group 2 (Star (none_of ")")); chr ")"]) true.

Definition ignoredDocNames : list string :=
  ["if"; "for"; "while"; "switch"; "catch"; "return"; "function"; "class"; "def"].

Definition docFunctionOfMatch (file : string) (m : MatchResult) : list DocFunction.t :=
  let name := group_or_empty 1 m in
  if mem name ignoredDocNames then []
  else
    let params := group_or_empty 2 m in
    [ {| DocFunction.name := name;
         DocFunction.params := params;
         DocFunction.signature := name ++ "(" ++ params ++ ")";
         DocFunction.file := file |} ].

Definition extractDocFunctions (docEntries : list DocEntry.t)
  : completion (list DocFunction.t) :=
  foldM (fun results entry =>
           ms ← matches docFunctionPattern (DocEntry.content entry);
           Normal (results ++ flat_map (docFunctionOfMatch (DocEntry.file entry)) ms)%list)
        [] docEntries.

(** An element of the arrays stored in [docByName]. *)
Module Variant.
Record t : Type := {
  params : list string;
  file : string;
  signature : string
}.
End Variant.

Definition intersectionSize (a b : list string) : nat :=
  length (List.filter (fun item => mem item b) a).

Definition difference (a b : list string) : list string :=
  List.filter (fun item => negb (mem item b)) a.

Definition paramScore (codeParams : list string) (variant : Variant.t) : Z :=
  let overlap := intersectionSize codeParams (Variant.params variant) in
  let totalDiff :=
    (length (difference codeParams (Variant.params variant))
     + length (difference (Variant.params variant) codeParams))%nat in
  (Z.of_nat overlap * 2 - Z.of_nat totalDiff)%Z.

(** The loop of [chooseBestParamMatch] on the pair ([best], [bestScore]). *)
Definition chooseBest_step (codeParams : list string)
  (acc : option Variant.t * Z) (variant : Variant.t) : option Variant.t * Z :=
  let score := paramScore codeParams variant in
  if (snd acc <? score)%Z then (Some variant, score) else acc.

(** [None] is [undefined], the value of [docVariants[0]] on an empty array. *)
Definition chooseBestParamMatch (codeParams : list string) (docVariants : list Variant.t)
  : option Variant.t :=
  fst (List.fold_left (chooseBest_step codeParams) docVariants (head docVariants, (-1)%Z)).

Definition docsFinding (config : Config.t) (type file explanation suggestion : string)
  : Finding.t :=
  {| Finding.source := "docs-drift";
     Finding.type := type;
     Finding.severity := normalizeSeverity (Config.severity_docsDrift config) "warning";
     Finding.deterministic := true;
     Finding.rule := None;
     Finding.file := file;
     Finding.explanation := explanation;
     Finding.suggestion := suggestion |}.

(** [docByName]: insertion of one documented function. *)
Definition addDocVariant (docByName : gmap string (list Variant.t)) (docFn : DocFunction.t)
  : completion (gmap string (list Variant.t)) :=
  params ← normalizeParamList (DocFunction.params docFn);
  let entry := default [] (docByName !! DocFunction.name docFn) in
  Normal (<[ DocFunction.name docFn :=
             (entry ++ [ {| Variant.params := params;
                            Variant.file := DocFunction.file docFn;
                            Variant.signature := DocFunction.signature docFn |} ])%list ]>
          docByName).

(** The mutable locals of the main loop of [compareFunctions]. *)
Record FnLoop : Type := {
  results : list Finding.t;
  codeNames : gset string;
  seen : gset string
}.

(** The three-way classification once a best variant is chosen. *)
Definition mismatchFinding (config : Config.t) (fn : Entity.t)
  (codeParams : list string) (best : Variant.t) : Finding.t :=
  let missing := difference codeParams (Variant.params best) in
  let extra := difference (Variant.params best) codeParams in
  if (0 <? length missing)%nat && (length extra =? 0)%nat then
    docsFinding config "function-missing-params" (Entity.file fn)
      ("Docs for " ++ Entity.name fn ++ " are missing params: " ++ join ", " missing ++ ".")
      "Update docs to include the missing parameters."
  else if (0 <? length extra)%nat && (length missing =? 0)%nat then
    docsFinding config "function-extra-params" (Entity.file fn)
      ("Docs for " ++ Entity.name fn ++ " include removed params: " ++ join ", " extra ++ ".")
      "Update docs to remove parameters that no longer exist."
  else
    docsFinding config "function-signature-mismatch" (Entity.file fn)
      ("Docs mention " ++ Variant.signature best ++ " but code uses "
       ++ Entity.signature fn ++ ".")
      "Update docs or code to align parameters.".

(** The body of [for (const fn of codeFunctions)]. *)
Definition compareFunctions_step (docByName : gmap string (list Variant.t))
  (config : Config.t) (st : FnLoop) (fn : Entity.t) : completion FnLoop :=
  let codeNames' := {[ Entity.name fn ]} ∪ codeNames st in
  codeParams ← normalizeParamList (extractSignatureParams (Entity.signature fn));
  let codeKey := paramKey codeParams in
  let docVariants := docByName !! Entity.name fn in
  let seenKey := Entity.name fn ++ ":" ++ codeKey in
  if bool_decide (seenKey ∈ seen st) then
    Normal {| results := results st; codeNames := codeNames'; seen := seen st |}
  else
    let seen' := {[ seenKey ]} ∪ seen st in
    let push f :=
      Normal {| results := (results st ++ [f])%list; codeNames := codeNames';
                seen := seen' |} in
    match docVariants with
    | None | Some [] =>
        push (docsFinding config "function-missing-doc" (Entity.file fn)
                ("Function " ++ Entity.signature fn ++ " is not documented.")
                "Add or update docs to include this function.")
    | Some docVariants =>
        if existsb (fun variant => String.eqb (paramKey (Variant.params variant)) codeKey)
                   docVariants
        then Normal {| results := results st; codeNames := codeNames'; seen := seen' |}
        else
          match chooseBestParamMatch codeParams docVariants with
          | Some best => push (mismatchFinding config fn codeParams best)
          | None => Throw (TypeError "Cannot read properties of undefined (reading 'params')")
          end
    end.

(** The [if (fullScan)] loop, on the pair ([results], [docSeen]). *)
Definition missingFunction_step (config : Config.t) (codeNames : gset string)
  (acc : list Finding.t * gset string) (docFn : DocFunction.t)
  : list Finding.t * gset string :=
  if bool_decide (DocFunction.name docFn ∈ codeNames) then acc
  else if bool_decide (DocFunction.name docFn ∈ snd acc) then acc
  else
    ((fst acc ++
       [ docsFinding config "docs-mentions-missing-function" (DocFunction.file docFn)
           ("Docs mention " ++ DocFunction.signature docFn
            ++ " but no matching code was found.")
           "Remove or update the docs, or restore the missing function." ])%list,
     {[ DocFunction.name docFn ]} ∪ snd acc).

Definition compareFunctions (entities : list Entity.t) (docEntries : list DocEntry.t)
  (config : Config.t) (fullScan : bool) : completion (list Finding.t) :=
  let codeFunctions :=
    List.filter (fun entity => String.eqb (Entity.type entity) "function") entities in
  if (length codeFunctions =? 0)%nat then Normal []
  else
    docFunctions ← extractDocFunctions docEntries;
    docByName ← foldM addDocVariant ∅ docFunctions;
    st ← foldM (compareFunctions_step docByName config)
               {| results := []; codeNames := ∅; seen := ∅ |} codeFunctions;
    if fullScan
    then Normal (fst (List.fold_left (missingFunction_step config (codeNames st))
                                     docFunctions (results st, ∅)))
    else Normal (results st).


(** *** Endpoints *)

(** [s.replace(/\{[^}]+\}/g, ':param')]. A match starts at an opening brace
    that is followed by a character other than the closing brace and,
    later, by a closing brace; it ends at the first closing brace. The flag
    tells that the scan is inside a match. *)
Fixpoint replaceBraces_from (inside : bool) (s : string) : string :=
  match s with
  | EmptyString => EmptyString
  | String c s' =>
      if inside then
        if Ascii.eqb c "}" then replaceBraces_from false s'
        else replaceBraces_from true s'
      else if Ascii.eqb c "{"
              && match s' with
                 | String d _ => negb (Ascii.eqb d "}")
                 | EmptyString => false
                 end
              && sany (Ascii.eqb "}") s'
      then ":param" ++ replaceBraces_from true s'
      else String c (replaceBraces_from false s')
  end.

Definition replaceBraces (s : string) : string := replaceBraces_from false s.

(** [s.replace(/:[^/]+/g, ':param')]. A match starts at a colon followed by
    a character other than the slash and ends before the next slash. *)
Fixpoint replaceColons_from (inside : bool) (s : string) : string :=
  match s with
  | EmptyString => EmptyString
  | String c s' =>
      if inside then
        if Ascii.eqb c "/" then String c (replaceColons_from false s')
        else replaceColons_from true s'
      else if Ascii.eqb c ":"
              && match s' with
                 | String d _ => negb (Ascii.eqb d "/")
                 | EmptyString => false
                 end
      then ":param" ++ replaceColons_from true s'
      else String c (replaceColons_from false s')
  end.

Definition replaceColons (s : string) : string := replaceColons_from false s.

Definition normalizePath (pathValue : string) : string :=
  if negb (truthy pathValue) then EmptyString
  else
    let normalized := trim pathValue in
    let normalized := drop_while_end (Ascii.eqb "/") normalized in
    let normalized := replaceBraces normalized in
    let normalized := replaceColons normalized in
    if String.eqb normalized EmptyString then "/" else normalized.

(** The result of [parseEndpointName]; [None] is [null]. *)
Module Endpoint.
Record t : Type := {
  method : string;
  path : string
}.
End Endpoint.

Definition parseEndpointName (name : string) : option Endpoint.t :=
  if negb (truthy name) then None
  else
    match split_ws (trim name) with
    | method :: part :: parts =>
        Some {| Endpoint.method := toUpperCase method;
                Endpoint.path := join " " (part :: parts) |}
    | _ => None
    end.

(** An element of [extractDocEndpoints]' result. *)
Module DocEndpoint.
Record t : Type := {
  method : string;
  path : string;
  file : string
}.
End DocEndpoint.

(** [/\b(GET|POST|PUT|PATCH|DELETE)\s+([^\s`Q'()]+)/gi], where [Q] stands
    for the double quote. *)
Definition docEndpointPattern : RegExp :=
  regexp (seq [WordBoundary;
               Group 1 (alt (lit_ci "GET")
                            [lit_ci "POST"; lit_ci "PUT"; lit_ci "PATCH"; lit_ci "DELETE"]);
               plus ws;
               Group 2 (plus (Chr (fun c =>
                  negb (is_ws c || char_in "`'()" c || Ascii.eqb c dquote))))]) true.

Definition docEndpointOfMatch (file : string) (m : MatchResult) : list DocEndpoint.t :=
  let method := toUpperCase (group_or_empty 1 m) in
  let pathValue := group_or_empty 2 m in
  if negb (startsWith "/" pathValue) then []
  else [ {| DocEndpoint.method := method;
            DocEndpoint.path := pathValue;
            DocEndpoint.file := file |} ].

(** The pattern is created once, before the loop over the entries: its
    [lastIndex] is carried from one entry to the next. *)
Definition extractDocEndpoints (docEntries : list DocEntry.t)
  : completion (list DocEndpoint.t) :=
  fst <$>
  foldM (fun '(results, pattern) entry =>
           '(ms, pattern') ← exec_all pattern (DocEntry.content entry);
           Normal ((results ++ flat_map (docEndpointOfMatch (DocEntry.file entry)) ms)%list,
                   pattern'))
        ([], docEndpointPattern) docEntries.

(** [set.add(x)] on a [Set] whose iteration order is observed. *)
Definition set_add (x : string) (l : list string) : list string :=
  if mem x l then l else (l ++ [x])%list.

(** [docMap]: insertion of one documented endpoint. *)
Definition addDocEndpoint (docMap : gmap string (list string)) (doc : DocEndpoint.t)
  : gmap string (list string) :=
  let normalizedPath := normalizePath (DocEndpoint.path doc) in
  let entry := default [] (docMap !! normalizedPath) in
  <[ normalizedPath := set_add (DocEndpoint.method doc) entry ]> docMap.

(** The mutable locals of the main loop of [compareEndpoints]. *)
Record EpLoop : Type := {
  ep_results : list Finding.t;
  codeEndpointSet : gset string;
  ep_seen : gset string
}.

(** The body of [for (const endpoint of codeEndpoints)]. *)
Definition compareEndpoints_step (docMap : gmap string (list string))
  (config : Config.t) (st : EpLoop) (endpoint : Entity.t) : EpLoop :=
  match parseEndpointName (Entity.name endpoint) with
  | None => st
  | Some parsed =>
      let normalizedPath := normalizePath (Endpoint.path parsed) in
      let key := Endpoint.method parsed ++ " " ++ normalizedPath in
      let codeEndpointSet' := {[ key ]} ∪ codeEndpointSet st in
      if bool_decide (key ∈ ep_seen st) then
        {| ep_results := ep_results st; codeEndpointSet := codeEndpointSet';
           ep_seen := ep_seen st |}
      else
        let seen' := {[ key ]} ∪ ep_seen st in
        match docMap !! normalizedPath with
        | None =>
            {| ep_results :=
                 (ep_results st ++
                  [ docsFinding config "endpoint-missing-doc" (Entity.file endpoint)
                      ("Endpoint " ++ Endpoint.method parsed ++ " " ++ Endpoint.path parsed
                       ++ " is not documented.")
                      "Update docs to include this endpoint." ])%list;
               codeEndpointSet := codeEndpointSet'; ep_seen := seen' |}
        | Some docMethods =>
            if negb (mem (Endpoint.method parsed) docMethods) then
              {| ep_results :=
                   (ep_results st ++
                    [ docsFinding config "endpoint-method-mismatch" (Entity.file endpoint)
                        ("Docs list " ++ join ", " docMethods ++ " for "
                         ++ Endpoint.path parsed ++ ", but code uses "
                         ++ Endpoint.method parsed ++ ".")
                        "Align the documented method with code." ])%list;
                 codeEndpointSet := codeEndpointSet'; ep_seen := seen' |}
            else
              {| ep_results := ep_results st; codeEndpointSet := codeEndpointSet';
                 ep_seen := seen' |}
        end
  end.

(** The body of the [if (fullScan)] loop. *)
Definition missingEndpoint (config : Config.t) (codeEndpointSet : gset string)
  (doc : DocEndpoint.t) : list Finding.t :=
  let normalizedPath := normalizePath (DocEndpoint.path doc) in
  let key := DocEndpoint.method doc ++ " " ++ normalizedPath in
  if bool_decide (key ∈ codeEndpointSet) then []
  else [ docsFinding config "docs-mentions-missing-endpoint" (DocEndpoint.file doc)
           ("Docs mention " ++ DocEndpoint.method doc ++ " " ++ DocEndpoint.path doc
            ++ " but no matching code was found.")
           "Remove or update the docs, or restore the endpoint." ].

Definition compareEndpoints (entities : list Entity.t) (docEntries : list DocEntry.t)
  (config : Config.t) (fullScan : bool) : completion (list Finding.t) :=
  let codeEndpoints :=
    List.filter (fun entity => String.eqb (Entity.type entity) "endpoint") entities in
  if (length codeEndpoints =? 0)%nat then Normal []
  else
    docEndpoints ← extractDocEndpoints docEntries;
    let docMap := List.fold_left addDocEndpoint docEndpoints ∅ in
    let st := List.fold_left (compareEndpoints_step docMap config) codeEndpoints
                {| ep_results := []; codeEndpointSet := ∅; ep_seen := ∅ |} in
    if fullScan
    then Normal (ep_results st
                 ++ flat_map (missingEndpoint config (codeEndpointSet st)) docEndpoints)%list
    else Normal (ep_results st).


(** *** Payload key renames *)

Definition EXCLUDED_PAYLOAD_KEYS : list string :=
  ["case"; "default"; "return"; "break"; "continue"; "if"; "else"; "for"; "while"; "switch"].

(** [stripStringLiterals]: the body of the loop, with the locals [inSingle],
    [inDouble], [inBacktick] and [escaped] as arguments; the result is what
    the loop appends to [result]. *)
Fixpoint stripStringLiterals_loop (line : string)
  (inSingle inDouble inBacktick escaped : bool) : string :=
  match line with
  | EmptyString => EmptyString
  | String char line' =>
      if escaped then
        String " " (stripStringLiterals_loop line' inSingle inDouble inBacktick false)
      else if Ascii.eqb char "\" then
        String " " (stripStringLiterals_loop line' inSingle inDouble inBacktick true)
      else if inSingle then
        String " " (stripStringLiterals_loop line'
                      (if Ascii.eqb char "'" then false else inSingle)
                      inDouble inBacktick false)
      else if inDouble then
        String " " (stripStringLiterals_loop line' inSingle
                      (if Ascii.eqb char dquote then false else inDouble)
                      inBacktick false)
      else if inBacktick then
        String " " (stripStringLiterals_loop line' inSingle inDouble
                      (if Ascii.eqb char "`" then false else inBacktick) false)
      else if Ascii.eqb char "'" then
        String " " (stripStringLiterals_loop line' true inDouble inBacktick false)
      else if Ascii.eqb char dquote then
        String " " (stripStringLiterals_loop line' inSingle true inBacktick false)
      else if Ascii.eqb char "`" then
        String " " (stripStringLiterals_loop line' inSingle inDouble true false)
      else
        String char (stripStringLiterals_loop line' inSingle inDouble inBacktick false)
  end.

Definition stripStringLiterals (line : string) : string :=
  stripStringLiterals_loop line false false false false.

Definition is_quote3 (c : ascii) : bool := Ascii.eqb c dquote || char_in "'`" c.
Definition is_quote2 (c : ascii) : bool := Ascii.eqb c dquote || char_in "'" c.

(** [/[Q'`]([A-Za-z0-9_.-]+)[Q'`]\s*:/g] *)
Definition quotedKeyPattern : RegExp :=
  regexp (seq [Chr is_quote3;
               Group 1 (plus (Chr (fun c => is_word c || char_in ".-" c)));
               Chr is_quote3; Star ws; chr ":"]) true.

(** [/\b([A-Za-z_][A-Za-z0-9_-]* )\s*:/g] *)
Definition unquotedKeyPattern : RegExp :=
  regexp (seq [WordBoundary;
               Group 1 (Seq (Chr (fun c => is_upper c || is_lower c || char_in "_" c))
                            (Star (Chr (fun c => is_word c || char_in "-" c))));
               Star ws; chr ":"]) true.

(** [/\bjson\s*:\s*[Q']([^,Q']+)/g] *)
Definition jsonTagPattern : RegExp :=
  regexp (seq [WordBoundary; lit "json"; Star ws; chr ":"; Star ws; Chr is_quote2;
               Group 1 (plus (Chr (fun c => negb (is_quote2 c || char_in "," c))))]) true.

(** [/(?:@|\[)\s*(?:JsonProperty(?:Name)?|SerializedName)\s*\(([^)]* )\)/g] *)
Definition annotationPattern : RegExp :=
  regexp (seq [Alt (chr "@") (chr "[");
               Star ws;
               Alt (Seq (lit "JsonProperty") (opt (lit "Name"))) (lit "SerializedName");
               Star ws; chr "("; Group 1 (Star (none_of ")")); chr ")"]) true.

(** [/[Q']([^Q']+)[Q']/] *)
Definition annotationLiteralPattern : RegExp :=
  regexp (seq [Chr is_quote2; Group 1 (plus (Chr (fun c => negb (is_quote2 c))));
               Chr is_quote2]) false.

(** [/^(case|default)\b/] *)
Definition caseDefaultPattern : RegExp :=
  regexp (seq [Bol false; Group 1 (Alt (lit "case") (lit "default")); WordBoundary]) false.

(** [pushKey]: what one call appends to [keys]. [/^\d+$/] holds of a
    non-empty string of digits. *)
Definition pushKey (key : option string) : list string :=
  match key with
  | None => []
  | Some key =>
      if negb (truthy key) then []
      else
        let cleaned := trim key in
        if negb (truthy cleaned) || String.eqb cleaned "-" then []
        else if sall is_digit cleaned then []
        else [cleaned]
  end.

Definition extractPayloadKeysFromLine (line : string) : completion (list string) :=
  let trimmed := trim line in
  if negb (truthy trimmed) then Normal []
  else if startsWith "//" trimmed || startsWith "#" trimmed then Normal []
  else if startsWith "/*" trimmed || startsWith "*" trimmed then Normal []
  else if fst (test caseDefaultPattern trimmed) then Normal []
  else
    quoted ← matches quotedKeyPattern line;
    let keys1 := flat_map (fun m => pushKey (group 1 m)) quoted in
    let unquotedTarget := stripStringLiterals line in
    unquoted ← matches unquotedKeyPattern unquotedTarget;
    let keys2 :=
      flat_map (fun m =>
                  match group 1 m with
                  | Some key =>
                      if negb (truthy key) || mem key EXCLUDED_PAYLOAD_KEYS then []
                      else pushKey (Some key)
                  | None => []
                  end) unquoted in
    tags ← matches jsonTagPattern line;
    let keys3 := flat_map (fun m => pushKey (group 1 m)) tags in
    annotations ← matches annotationPattern line;
    let keys4 :=
      flat_map (fun m =>
                  let args := group_or_empty 1 m in
                  match fst (exec annotationLiteralPattern args) with
                  | Some literal => pushKey (group 1 literal)
                  | None => []
                  end) annotations in
    Normal (uniq (keys1 ++ keys2 ++ keys3 ++ keys4)%list).

Definition uniqueKeys (keys : list string) : list string := uniq keys.

(** An allowlist entry of the configuration: a [RegExp] object or a string. *)
Inductive AllowEntry : Type :=
| EntryRegExp (R : RegExp)
| EntryString (raw : string).

(** [escapeRegExp] quotes every character that is special in a pattern
    except the star, so [new RegExp(`^${escapeRegExp(raw)}$`)] matches the
    string [raw] and nothing else when [raw] has no star. *)
Definition literalRegExp (raw : string) : RegExp :=
  regexp (seq [Bol false; lit raw; Eol false]) false.

(** [wildcardToRegExp]: the first [replace] quotes the special characters,
    the question mark among them; the second turns each star into [.*];
    the third turns the question mark of each quoted [\?] into a dot, which
    leaves [\.], the literal dot. *)
Definition wildcardChar (c : ascii) : re :=
  if Ascii.eqb c "*" then Star dot
  else if Ascii.eqb c "?" then chr "."
  else chr c.

Definition wildcardToRegExp (value : string) : RegExp :=
  regexp (seq ([Bol false] ++ List.map wildcardChar (list_ascii_of_string value)
               ++ [Eol false])%list) false.

(** [compileAllowlist]; [new_RegExp body flags] is the constructor
    [new RegExp(body, flags)] of the host, which throws on a malformed
    pattern. *)
Definition compileEntry (new_RegExp : string -> string -> completion RegExp)
  (entry : AllowEntry) : completion (list RegExp) :=
  match entry with
  | EntryRegExp R => Normal [R]
  | EntryString entry =>
      if negb (truthy entry) then Normal []
      else
        let raw := trim entry in
        if negb (truthy raw) then Normal []
        else
          match lastIndexOf "/" raw with
          | Some (S lastSlash') =>
              if startsWith "/" raw then
                let lastSlash := S lastSlash' in
                R ← new_RegExp (slice 1 lastSlash raw) (slice_from (lastSlash + 1) raw);
                Normal [R]
              else if includes "*" raw || includes "?" raw then Normal [wildcardToRegExp raw]
              else Normal [literalRegExp raw]
          | _ =>
              if includes "*" raw || includes "?" raw then Normal [wildcardToRegExp raw]
              else Normal [literalRegExp raw]
          end
  end.

Definition compileAllowlist (new_RegExp : string -> string -> completion RegExp)
  (allowlist : list AllowEntry) : completion (list RegExp) :=
  foldM (fun matchers entry =>
           more ← compileEntry new_RegExp entry;
           Normal (matchers ++ more)%list)
        [] allowlist.

(** [allowlist.some((matcher) => matcher.test(key))]: the matchers are tried
    in order until one accepts; [test] updates the [lastIndex] of a matcher
    with the flag [g] or [y]. *)
Fixpoint some_test (key : string) (allowlist : list RegExp) : bool * list RegExp :=
  match allowlist with
  | [] => (false, [])
  | matcher :: rest =>
      let '(ok, matcher') := test matcher key in
      if ok then (true, matcher' :: rest)
      else let '(ok', rest') := some_test key rest in (ok', matcher' :: rest')
  end.

Definition matchesAllowlist (key : string) (allowlist : list RegExp) : bool * list RegExp :=
  if (length allowlist =? 0)%nat then (true, allowlist)
  else some_test key allowlist.

Module Rename.
Record t : Type := {
  oldKey : string;
  newKey : string
}.
End Rename.

(** The mutable state of [findPayloadKeyRenames]: its locals [renames],
    [removed] and [added], and the matchers of the allowlist. *)
Record HunkState : Type := {
  renames : list Rename.t;
  removed : list string;
  added : list string;
  matchers : list RegExp
}.

Definition finalizeHunk (st : HunkState) : HunkState :=
  if (length (removed st) =? 0)%nat && (length (added st) =? 0)%nat then st
  else
    let uniqueRemoved := uniqueKeys (removed st) in
    let uniqueAdded := uniqueKeys (added st) in
    match uniqueRemoved, uniqueAdded with
    | [oldKey], [newKey] =>
        if negb (String.eqb oldKey newKey) then
          let '(okOld, matchers1) := matchesAllowlist oldKey (matchers st) in
          if okOld then
            {| renames := (renames st
                           ++ [ {| Rename.oldKey := oldKey; Rename.newKey := newKey |} ])%list;
               removed := []; added := []; matchers := matchers1 |}
          else
            let '(okNew, matchers2) := matchesAllowlist newKey matchers1 in
            {| renames :=
                 if okNew
                 then (renames st
                       ++ [ {| Rename.oldKey := oldKey; Rename.newKey := newKey |} ])%list
                 else renames st;
               removed := []; added := []; matchers := matchers2 |}
        else
          {| renames := renames st; removed := []; added := []; matchers := matchers st |}
    | _, _ =>
        {| renames := renames st; removed := []; added := []; matchers := matchers st |}
    end.

(** The body of [for (const line of lines)]. *)
Definition diffLine_step (st : HunkState) (line : string) : completion HunkState :=
  if startsWith "@@" line then Normal (finalizeHunk st)
  else if startsWith "+++" line || startsWith "---" line then Normal st
  else if startsWith "+" line then
    keys ← extractPayloadKeysFromLine (slice_from 1 line);
    Normal {| renames := renames st; removed := removed st;
              added := (added st ++ keys)%list; matchers := matchers st |}
  else if startsWith "-" line then
    keys ← extractPayloadKeysFromLine (slice_from 1 line);
    Normal {| renames := renames st; removed := (removed st ++ keys)%list;
              added := added st; matchers := matchers st |}
  else Normal st.

(** [findPayloadKeyRenames]: the renames, and the matchers as the calls of
    [test] left them. *)
Definition findPayloadKeyRenames (diffText : string) (allowlist : list RegExp)
  : completion (list Rename.t * list RegExp) :=
  let lines := split_char "010" diffText in
  st ← foldM diffLine_step
         {| renames := []; removed := []; added := []; matchers := allowlist |} lines;
  let st := finalizeHunk st in
  Normal (renames st, matchers st).

(** [extractDocPayloadKeys]: the files that mention each key, in the order
    in which they were first seen. *)
Definition addDocKey (file : string) (keyMap : gmap string (list string)) (key : string)
  : gmap string (list string) :=
  <[ key := set_add file (default [] (keyMap !! key)) ]> keyMap.

Definition extractDocPayloadKeys (docEntries : list DocEntry.t)
  : completion (gmap string (list string)) :=
  foldM (fun keyMap entry =>
           foldM (fun keyMap line =>
                    keys ← extractPayloadKeysFromLine line;
                    Normal (List.fold_left (addDocKey (DocEntry.file entry)) keys keyMap))
                 keyMap (split_char "010" (DocEntry.content entry)))
        ∅ docEntries.

(** The body of [for (const rename of renames)]. *)
Definition renameFinding (config : Config.t) (docPayloadKeys : gmap string (list string))
  (file : string) (rename : Rename.t) : list Finding.t :=
  match docPayloadKeys !! Rename.oldKey rename with
  | None => []
  | Some files =>
      if bool_decide (is_Some (docPayloadKeys !! Rename.newKey rename)) then []
      else
        let docFiles := take 3 files in
        let docHint :=
          if (0 <? length docFiles)%nat
          then " Docs mention " ++ Rename.oldKey rename ++ " in " ++ join ", " docFiles ++ "."
          else EmptyString in
        [ docsFinding config "payload-key-rename" file
            ("Payload key renamed from " ++ Rename.oldKey rename ++ " to "
             ++ Rename.newKey rename ++ "." ++ docHint)
            "Update docs to use the new payload field name or preserve a compatibility alias." ]
  end.

(** [comparePayloadKeyRenames]. [getFileDiff file] is the diff of [file]
    between the two commits of the run; [ruleAllowlist] is
    [rule.payloadKeysAllowlist] and [configAllowlist] is
    [config.docsDrift.payloadKeysAllowlist], [None] when absent (an empty
    array is truthy and is not replaced by the next alternative). *)
Definition comparePayloadKeyRenames
  (new_RegExp : string -> string -> completion RegExp)
  (changedCodeFiles : list string) (getFileDiff : string -> string)
  (docPayloadKeys : gmap string (list string)) (config : Config.t)
  (ruleAllowlist configAllowlist : option (list AllowEntry))
  : completion (list Finding.t) :=
  let entries :=
    match ruleAllowlist with
    | Some l => l
    | None => default [] configAllowlist
    end in
  allowlist ← compileAllowlist new_RegExp entries;
  fst <$>
  foldM (fun '(results, allowlist) file =>
           let diff := getFileDiff file in
           if negb (truthy diff) then Normal (results, allowlist)
           else
             '(renames, allowlist') ← findPayloadKeyRenames diff allowlist;
             Normal ((results
                      ++ flat_map (renameFinding config docPayloadKeys file) renames)%list,
                     allowlist'))
        ([], allowlist) changedCodeFiles.

(** *** Limits on the extracted facts

    [maxPerType] and [maxTotal] are integers, as the defaults and the
    configuration of the tests have them. *)

(** [entity.type || 'unknown'] *)
Definition typeOrUnknown (entity : Entity.t) : string :=
  if truthy (Entity.type entity) then Entity.type entity else "unknown".

(** The body of the loop of [limitEntitiesByType], on the pair
    ([limits], [limited]). *)
Definition limitByType_step (maxPerType : Z) (acc : gmap string nat * list Entity.t)
  (entity : Entity.t) : gmap string nat * list Entity.t :=
  let type := typeOrUnknown entity in
  let count := default 0%nat (fst acc !! type) in
  if (maxPerType <=? Z.of_nat count)%Z then acc
  else (<[ type := S count ]> (fst acc), (snd acc ++ [entity])%list).

Definition limitEntitiesByType (entities : list Entity.t) (maxPerType : Z)
  : list Entity.t :=
  snd (List.fold_left (limitByType_step maxPerType) entities (∅, [])).

(** [byType], a [Map] whose keys are read in insertion order:
    [list.push(entity); byType.set(type, list)]. *)
Fixpoint byType_push (type : string) (entity : Entity.t)
  (byType : list (string * list Entity.t)) : list (string * list Entity.t) :=
  match byType with
  | [] => [(type, [entity])]
  | (key, list) :: rest =>
      if String.eqb key type then (key, (list ++ [entity])%list) :: rest
      else (key, list) :: byType_push type entity rest
  end.

(** The [for (const type of types)] loop of one round, on the pair
    ([result], [added]); [lists] are the values of [byType] in the order of
    [types]. The loop is left as soon as [result] is full. *)
Fixpoint llmRound (index : nat) (maxTotal : Z) (lists : list (list Entity.t))
  (result : list Entity.t) (added : bool) : list Entity.t * bool :=
  match lists with
  | [] => (result, added)
  | list :: rest =>
      match list !! index with
      | Some entity =>
          let result' := (result ++ [entity])%list in
          if (maxTotal <=? Z.of_nat (length result'))%Z then (result', true)
          else llmRound index maxTotal rest result' true
      | None => llmRound index maxTotal rest result added
      end
  end.

(** The [while (result.length < maxTotal)] loop. *)
Fixpoint llmRounds (fuel : nat) (maxTotal : Z) (lists : list (list Entity.t))
  (index : nat) (result : list Entity.t) : completion (list Entity.t) :=
  if (Z.of_nat (length result) <? maxTotal)%Z then
    match fuel with
    | O => Diverge
    | S fuel' =>
        let '(result', added) := llmRound index maxTotal lists result false in
        if negb added then Normal result'
        else llmRounds fuel' maxTotal lists (S index) result'
    end
  else Normal result.

Definition limitEntitiesForLlm (entities : list Entity.t) (maxTotal : Z)
  : completion (list Entity.t) :=
  if (Z.of_nat (length entities) <=? maxTotal)%Z then Normal entities
  else
    let byType :=
      List.fold_left (fun byType entity => byType_push (typeOrUnknown entity) entity byType)
                     entities [] in
    llmRounds (S (length entities)) maxTotal (List.map snd byType) 0 [].

(** *** GraphQL and WebSocket names *)

(** [normalizeGraphQLOpType]; [None] is [undefined], the value of a group
    that took no part in a match. *)
Definition normalizeGraphQLOpType (value : option string) : string :=
  match value with
  | None => EmptyString
  | Some value =>
      if negb (truthy value) then EmptyString
      else
        let normalized := toLowerCase (trim value) in
        if String.eqb normalized "query" then "Query"
        else if String.eqb normalized "mutation" then "Mutation"
        else if String.eqb normalized "subscription" then "Subscription"
        else EmptyString
  end.

Definition normalizeWebSocketEventName (value : string) : string :=
  if negb (truthy value) then EmptyString
  else
    let normalized := trim value in
    let lower := toLowerCase normalized in
    if String.eqb lower "onopen" then "open"
    else if String.eqb lower "onclose" then "close"
    else if String.eqb lower "onmessage" then "message"
    else if String.eqb lower "onerror" then "error"
    else normalized.

(** *** Braced blocks *)

(** The [while] loop of [extractBracedBlock]: the position of the first
    opening brace at or after [index]; [rest] is the text from [index] on. *)
Fixpoint skipToBrace (rest : string) (index : nat) : option nat :=
  match rest with
  | EmptyString => None
  | String char rest' =>
      if Ascii.eqb char "{" then Some index else skipToBrace rest' (S index)
  end.

(** The [for] loop of [extractBracedBlock]: the position of the closing
    brace that brings [depth] back to 0. *)
Fixpoint closingBrace (rest : string) (i : nat) (depth : Z) : option nat :=
  match rest with
  | EmptyString => None
  | String char rest' =>
      if Ascii.eqb char "{" then closingBrace rest' (S i) (depth + 1)
      else if Ascii.eqb char "}" then
        if (depth - 1 =? 0)%Z then Some i else closingBrace rest' (S i) (depth - 1)
      else closingBrace rest' (S i) depth
  end.

(** [extractBracedBlock]: the pair ([block], [endIndex]); [None] is [null]. *)
Definition extractBracedBlock (content : string) (startIndex : Z) : option (string * nat) :=
  if (startIndex <? 0)%Z || (Z.of_nat (String.length content) <=? startIndex)%Z then None
  else
    match skipToBrace (slice_from (Z.to_nat startIndex) content) (Z.to_nat startIndex) with
    | None => None
    | Some start =>
        match closingBrace (slice_from start content) start 0 with
        | Some i => Some (slice (start + 1) i content, i)
        | None => None
        end
    end.

(** *** Command-line flags *)

Definition cliFlagFinding (config : Config.t) (flag : Entity.t) : Finding.t :=
  docsFinding config "cli-flag-missing-doc" (Entity.file flag)
    ("CLI flag " ++ Entity.name flag ++ " is not documented.")
    "Add it to CLI usage docs.".

(** The body of the loop of [compareCliFlags], on the pair ([results],
    [seen]). *)
Definition cliFlag_step (config : Config.t) (docsText : string)
  (acc : list Finding.t * gset string) (flag : Entity.t) : list Finding.t * gset string :=
  let normalized := toLowerCase (Entity.name flag) in
  if bool_decide (normalized ∈ snd acc) then acc
  else
    let seen' := {[ normalized ]} ∪ snd acc in
    if includes normalized (toLowerCase docsText) then (fst acc, seen')
    else ((fst acc ++ [cliFlagFinding config flag])%list, seen').

Definition compareCliFlags (entities : list Entity.t) (docsText : string)
  (config : Config.t) : list Finding.t :=
  let flags :=
    List.filter (fun entity => String.eqb (Entity.type entity) "cli-flag") entities in
  if (length flags =? 0)%nat then []
  else fst (List.fold_left (cliFlag_step config docsText) flags ([], ∅)).

(** *** Spring request methods *)

(** [/RequestMethod\.(GET|POST|PUT|DELETE|PATCH)/g] *)
Definition springMethodPattern : RegExp :=
  regexp (seq [lit "RequestMethod.";
               Group 1 (alt (lit "GET") [lit "POST"; lit "PUT"; lit "DELETE"; lit "PATCH"])])
         true.

(** The body of the loop of [parseSpringMethods] on [methods]. *)
Definition springMethod_step (methods : list string) (m : MatchResult) : list string :=
  if mem (group_or_empty 1 m) methods then methods
  else (methods ++ [group_or_empty 1 m])%list.

Definition parseSpringMethods (text : string) : completion (list string) :=
  if negb (truthy text) then Normal []
  else
    ms ← matches springMethodPattern text;
    Normal (List.fold_left springMethod_step ms []).

End DocsDrift.

Import DocsDrift.

(** ** detectors/logicDrift.js *)

Module LogicDrift.

Definition MAX_REGEX_TIME_MS : nat := 100.

(** ['a'.repeat(n)] *)
Fixpoint repeat_a (n : nat) : string :=
  match n with
  | O => EmptyString
  | S n' => String "a" (repeat_a n')
  end.

Definition testCases : list string :=
  [ repeat_a 50; "aaaaaaaaaaaaaaaaaX"; repeat_a 30 ++ "b" ].

Definition redosMessage (elapsed : nat) : string :=
  "Regex pattern is too complex (took " ++ pretty elapsed ++ "ms, max "
  ++ pretty MAX_REGEX_TIME_MS ++ "ms). Potential ReDoS vulnerability detected.".

(** One turn of the loop of [validateRegexSafety]. [elapsedMs regex testCase]
    is the difference of the two readings of [Date.now()] around
    [regex.test(testCase)]. The handler of the [try] lets an error through
    when its message mentions ReDoS and drops any other. *)
Definition probe (elapsedMs : RegExp -> string -> nat) (shouldReset : bool)
  (regex : RegExp) (testCase : string) : completion RegExp :=
  let regex := if shouldReset then set_lastIndex 0 regex else regex in
  let elapsed := elapsedMs regex testCase in
  let '(_, regex') := test regex testCase in
  let attempt : completion RegExp :=
    if (MAX_REGEX_TIME_MS <? elapsed)%nat then Throw (Error (redosMessage elapsed))
    else Normal regex' in
  match attempt with
  | Throw (Error message) | Throw (TypeError message) =>
      if includes "ReDoS" message then attempt else Normal regex'
  | _ => attempt
  end.

Definition validateRegexSafety (elapsedMs : RegExp -> string -> nat) (regex : RegExp)
  : completion RegExp :=
  let shouldReset := global regex || sticky regex in
  regex ← foldM (probe elapsedMs shouldReset) regex testCases;
  Normal (if shouldReset then set_lastIndex 0 regex else regex).

(** A pattern of a comparison: a [RegExp] object or a string. *)
Inductive Pattern : Type :=
| PatternRegExp (R : RegExp)
| PatternString (text : string).

(** [a || b] on strings. *)
Definition or_else (a b : string) : string := if truthy a then a else b.

(** [buildRegex]; the exception of [new RegExp] is thrown again with the
    message of [buildRegex]. *)
Definition buildRegex (new_RegExp : string -> string -> completion RegExp)
  (elapsedMs : RegExp -> string -> nat) (pattern : Pattern) (flags : string)
  : completion RegExp :=
  match pattern with
  | PatternRegExp R => validateRegexSafety elapsedMs R
  | PatternString pattern =>
      let built :=
        match lastIndexOf "/" pattern with
        | Some (S lastSlash') =>
            if startsWith "/" pattern then
              let lastSlash := S lastSlash' in
              let body := slice 1 lastSlash pattern in
              let finalFlags :=
                or_else (slice_from (lastSlash + 1) pattern) (or_else flags "g") in
              new_RegExp body finalFlags
            else new_RegExp pattern (or_else flags "g")
        | _ => new_RegExp pattern (or_else flags "g")
        end in
      match built with
      | Normal regex => validateRegexSafety elapsedMs regex
      | Throw (Error message) | Throw (TypeError message) =>
          Throw (Error ("Invalid regex pattern " ++ String dquote pattern
                        ++ String dquote (": " ++ message)))
      | Diverge => Diverge
      end
  end.

(** [match[1] !== undefined ? match[1] : match[0]], trimmed. *)
Definition matchValue (m : MatchResult) : string :=
  trim (default (matched m) (group 1 m)).

(** [extractMatches]: the values, and the regex as the loop leaves it. *)
Definition extractMatches (text : string) (regex : RegExp)
  : completion (list string * RegExp) :=
  if global regex then
    '(ms, regex') ← exec_all regex text;
    Normal (List.map matchValue ms, regex')
  else
    match exec regex text with
    | (Some m, regex') => Normal ([matchValue m], regex')
    | (None, regex') => Normal ([], regex')
    end.

Definition parseNumber (value : string) : JsNumber.number :=
  let cleaned := sfilter (fun c => negb (char_in ", _" c)) value in
  let parsed := JsNumber.Number cleaned in
  if JsNumber.isNaN parsed then JsNumber.NaN else parsed.

(** The object returned by [normalizeValue]. *)
Module Value.
Record t : Type := {
  numeric : JsNumber.number;
  text : string
}.
End Value.

Definition normalizeValue (value valueType : string) : Value.t :=
  if String.eqb valueType "string" then
    {| Value.numeric := JsNumber.NaN; Value.text := trim value |}
  else if mem valueType ["number"; "int"; "float"] then
    {| Value.numeric := parseNumber value; Value.text := trim value |}
  else
    let num := parseNumber value in
    if JsNumber.isFinite num then {| Value.numeric := num; Value.text := trim value |}
    else {| Value.numeric := JsNumber.NaN; Value.text := trim value |}.

Definition compareValues (codeValue policyValue compare valueType : string) : bool :=
  let code := normalizeValue codeValue valueType in
  let policy := normalizeValue policyValue valueType in
  let codeNum := Value.numeric code in
  let policyNum := Value.numeric policy in
  let numericCompare := JsNumber.isFinite codeNum && JsNumber.isFinite policyNum in
  if numericCompare then
    if mem compare ["eq"; "equals"] then JsNumber.strict_eq codeNum policyNum
    else if mem compare ["not_equals"; "ne"] then JsNumber.strict_ne codeNum policyNum
    else if mem compare ["gt"] then JsNumber.gt codeNum policyNum
    else if mem compare ["gte"; "ge"] then JsNumber.ge codeNum policyNum
    else if mem compare ["lt"] then JsNumber.lt codeNum policyNum
    else if mem compare ["lte"; "le"] then JsNumber.le codeNum policyNum
    else JsNumber.strict_eq codeNum policyNum
  else
    let left := toLowerCase (Value.text code) in
    let right := toLowerCase (Value.text policy) in
    if mem compare ["not_equals"; "ne"] then negb (String.eqb left right)
    else if mem compare ["contains"] then includes right left || includes left right
    else String.eqb left right.

(** A configured comparison. A field the configuration leaves out is the
    empty string, or [None] for a pattern; [codePattern] is
    [comparison.code_pattern || comparison.codePattern], and likewise for the
    other fields with two spellings. *)
Module Comparison.
Record t : Type := {
  codePattern : option Pattern;
  policyPattern : option Pattern;
  codeFlags : string;
  policyFlags : string;
  compare : string;
  valueType : string;
  severity : string;
  name : string;
  label : string
}.
End Comparison.

Definition pattern_truthy (pattern : option Pattern) : option Pattern :=
  match pattern with
  | Some (PatternString text) => if truthy text then pattern else None
  | _ => pattern
  end.

Definition logicFinding (type severity ruleName file explanation suggestion : string)
  : Finding.t :=
  {| Finding.source := "logic-drift";
     Finding.type := type;
     Finding.severity := severity;
     Finding.deterministic := true;
     Finding.rule := Some ruleName;
     Finding.file := file;
     Finding.explanation := explanation;
     Finding.suggestion := suggestion |}.

(** The mutable locals of [runDeterministicComparisons]. *)
Record CmpLoop : Type := {
  results : list Finding.t;
  seen : gset string
}.

Definition missingFinding (severity ruleName file label : string) (codeValues : list string)
  : Finding.t :=
  logicFinding "policy-value-missing" severity ruleName file
    ("Policy value missing for " ++ label ++ ". Code changed to " ++ join ", " codeValues
     ++ " but no matching policy value was found.")
    "Update policy docs to include the value or adjust the code.".

Definition mismatchFinding (severity ruleName file label : string)
  (policyValues : list string) (codeValue : string) : Finding.t :=
  logicFinding "policy-value-mismatch" severity ruleName file
    ("Policy mismatch for " ++ label ++ ". Code uses " ++ codeValue ++ ", policy says "
     ++ join ", " policyValues ++ ".")
    "Align code and policy to the same value.".

(** The body of [for (const codeValue of codeValues)]. *)
Definition codeValue_step (compare valueType severity ruleName file label : string)
  (policyValues : list string) (st : CmpLoop) (codeValue : string) : CmpLoop :=
  let satisfied :=
    existsb (fun policyValue => compareValues codeValue policyValue compare valueType)
            policyValues in
  if satisfied then st
  else
    let key := label ++ ":mismatch:" ++ codeValue ++ ":" ++ join "," policyValues in
    if bool_decide (key ∈ seen st) then st
    else {| results := (results st
                        ++ [mismatchFinding severity ruleName file label policyValues
                              codeValue])%list;
            seen := {[ key ]} ∪ seen st |}.

(** What a comparison does once both value lists are extracted. *)
Definition compareExtracted (config : Config.t) (ruleName file : string)
  (comparison : Comparison.t) (codeValues policyValues : list string) (st : CmpLoop)
  : CmpLoop :=
  let compare := toLowerCase (or_else (Comparison.compare comparison) "equals") in
  let valueType := toLowerCase (or_else (Comparison.valueType comparison) "auto") in
  let severity :=
    normalizeSeverity (Comparison.severity comparison) (Config.severity_logicDrift config) in
  let label :=
    or_else (Comparison.name comparison) (or_else (Comparison.label comparison) ruleName) in
  if (length policyValues =? 0)%nat then
    let key := label ++ ":missing:" ++ join "," codeValues in
    if bool_decide (key ∈ seen st) then st
    else {| results := (results st
                        ++ [missingFinding severity ruleName file label codeValues])%list;
            seen := {[ key ]} ∪ seen st |}
  else
    List.fold_left
      (codeValue_step compare valueType severity ruleName file label policyValues)
      codeValues st.

(** The body of [for (const comparison of comparisons)]. *)
Definition comparison_step (new_RegExp : string -> string -> completion RegExp)
  (elapsedMs : RegExp -> string -> nat) (diffText policyText : string)
  (config : Config.t) (ruleName file : string)
  (st : CmpLoop) (comparison : Comparison.t) : completion CmpLoop :=
  match pattern_truthy (Comparison.codePattern comparison),
        pattern_truthy (Comparison.policyPattern comparison) with
  | Some codePattern, Some policyPattern =>
      codeRegex ← buildRegex new_RegExp elapsedMs codePattern
                    (Comparison.codeFlags comparison);
      policyRegex ← buildRegex new_RegExp elapsedMs policyPattern
                      (Comparison.policyFlags comparison);
      '(codeValues, _) ← extractMatches diffText codeRegex;
      if (length codeValues =? 0)%nat then Normal st
      else
        '(policyValues, _) ← extractMatches policyText policyRegex;
        Normal (compareExtracted config ruleName file comparison codeValues policyValues st)
  | _, _ => Normal st
  end.

(** [runDeterministicComparisons], with [params.diffText || ''] and
    [params.policyText || ''] as strings. *)
Definition runDeterministicComparisons
  (new_RegExp : string -> string -> completion RegExp)
  (elapsedMs : RegExp -> string -> nat)
  (comparisons : list Comparison.t) (diffText policyText : string)
  (config : Config.t) (ruleName file : string) : completion (list Finding.t) :=
  results <$>
  foldM (comparison_step new_RegExp elapsedMs diffText policyText config ruleName file)
        {| results := []; seen := ∅ |} comparisons.

End LogicDrift.

(** ** The verdict of a run (src/index.js and src/cli.js)

    [failOnError] and [allowNonDeterministicFail] are the two flags of
    [config.output], as booleans. *)

Module Verdict.

Definition shouldFail (results : list Finding.t)
  (failOnError allowNonDeterministicFail : bool) : bool :=
  if negb failOnError then false
  else
    existsb (fun r =>
               let isDeterministic := Finding.deterministic r in
               if negb isDeterministic && negb allowNonDeterministicFail then false
               else String.eqb (Finding.severity r) "error"
                    || String.eqb (Finding.severity r) "critical")
            results.

End Verdict.

(** ** config.js: references to the environment

    [process.env] is a map from names to strings, and the value given to
    [resolveEnv] is a string (any other value is returned as it is). *)

Module LoadConfig.

(** [[A-Z0-9_]] *)
Definition isEnvNameChar (c : ascii) : bool :=
  is_upper c || is_digit c || Ascii.eqb c "_".

(** [/^\$\{\{\s*env\.([A-Z0-9_]+)\s*\}\}$/] *)
Definition actionsReferencePattern : RegExp :=
  regexp (seq [Bol false; lit "${{"; Star ws; lit "env.";
               Group 1 (plus (Chr isEnvNameChar)); Star ws; lit "}}"; Eol false])
         false.

(** [/^\$\{([A-Z0-9_]+)\}$/] *)
Definition shellReferencePattern : RegExp :=
  regexp (seq [Bol false; lit "${"; Group 1 (plus (Chr isEnvNameChar)); lit "}";
               Eol false])
         false.

(** [process.env[name] || ''] *)
Definition envOrEmpty (env : gmap string string) (name : string) : string :=
  match env !! name with
  | Some value => if truthy value then value else EmptyString
  | None => EmptyString
  end.

Definition resolveEnv (env : gmap string string) (value : string) : string :=
  match fst (exec actionsReferencePattern value) with
  | Some envMatch => envOrEmpty env (group_or_empty 1 envMatch)
  | None =>
      match fst (exec shellReferencePattern value) with
      | Some simpleMatch => envOrEmpty env (group_or_empty 1 simpleMatch)
      | None => value
      end
  end.

End LoadConfig.


(** * Vocabulary of the properties

    Notions the statements below need and the source has no name for. *)

(** A name as [stripToken] leaves it: characters of [A-Za-z0-9_$-] only. *)
Definition clean_name (s : string) : Prop := sall is_token_char s = true.

(** The names [normalizeParamList] returns are clean and non-empty. *)
Definition good_names (names : list string) : Prop :=
  Forall (fun s => clean_name s /\ truthy s = true) names.

(** A path template: static segments and placeholders. The two notations
    for a placeholder and the canonical key differ in how a placeholder is
    written. *)
Inductive segment : Type :=
| Static (text : string)
| Placeholder (name : string).

Definition segment_text (style : string -> string) (seg : segment) : string :=
  match seg with
  | Static text => text
  | Placeholder name => style name
  end.

Fixpoint render (style : string -> string) (template : list segment) : string :=
  match template with
  | [] => EmptyString
  | seg :: rest => "/" ++ segment_text style seg ++ render style rest
  end.

Definition colonStyle : list segment -> string := render (fun name => ":" ++ name).
Definition braceStyle : list segment -> string := render (fun name => "{" ++ name ++ "}").
Definition canonicalPath : list segment -> string := render (fun _ => ":param").

(** The characters of a segment text or of a placeholder name. *)
Definition plain_char (c : ascii) : bool := negb (is_ws c || char_in "/:{}" c).

Definition wf_segment (seg : segment) : Prop :=
  match seg with
  | Static text => truthy text = true /\ sall plain_char text = true
  | Placeholder name => truthy name = true /\ sall plain_char name = true
  end.

Fixpoint slashes (n : nat) : string :=
  match n with
  | O => EmptyString
  | S n' => String "/" (slashes n')
  end.

(** A key is present in a compiled allowlist when one of its matchers
    accepts the key. *)
Definition in_allowlist (key : string) (allowlist : list RegExp) : bool :=
  existsb (fun matcher => fst (test matcher key)) allowlist.

(** Matchers without the flags [g] and [y]: [test] leaves them as they are. *)
Definition stateless (allowlist : list RegExp) : Prop :=
  Forall (fun matcher => global matcher = false /\ sticky matcher = false) allowlist.

(** A diff as the rename detector is specified on it. The hunks of a diff
    are the runs of lines between the lines that start with [@@]; the lines
    before the first such line form a hunk of their own. The removed lines
    of a hunk start with a minus sign, its added lines with a plus sign;
    the field tokens of a changed line are the payload keys of its text,
    the sign left out, and the tokens of some lines are their distinct
    field tokens. *)
Fixpoint hunksOf (lines : list string) : list (list string) :=
  match lines with
  | [] => [[]]
  | line :: rest =>
      if startsWith "@@" line then [] :: hunksOf rest
      else
        match hunksOf rest with
        | hunk :: hunks => (line :: hunk) :: hunks
        | [] => [[line]]
        end
  end.

Definition removedLines (hunk : list string) : list string :=
  List.filter (startsWith "-") hunk.

Definition addedLines (hunk : list string) : list string :=
  List.filter (startsWith "+") hunk.

Definition changedLineKeys (line : string) : list string :=
  match extractPayloadKeysFromLine (slice_from 1 line) with
  | Normal keys => keys
  | _ => []
  end.

Definition fieldTokens (lines : list string) : list string :=
  uniqueKeys (flat_map changedLineKeys lines).

(** A hunk without a line that starts with three minus signs or three
    plus signs, the mark of the two lines that name the files of a diff. *)
Definition noFileHeader (hunk : list string) : Prop :=
  Forall (fun line => startsWith "+++" line = false /\ startsWith "---" line = false) hunk.

(** The candidate of a hunk, from the keys of its removed and of its added
    lines: none or one. *)
Definition renameCandidate (allowlist : list RegExp) (removedKeys addedKeys : list string)
  : list Rename.t :=
  match uniqueKeys removedKeys, uniqueKeys addedKeys with
  | [oldKey], [newKey] =>
      if negb (String.eqb oldKey newKey)
         && (bool_decide (allowlist = []) || in_allowlist oldKey allowlist
             || in_allowlist newKey allowlist)
      then [ {| Rename.oldKey := oldKey; Rename.newKey := newKey |} ]
      else []
  | _, _ => []
  end.

(** The lines [findPayloadKeyRenames] reads as removed and as added, a
    line with three signs being passed over, and the candidate it declares
    for a hunk. *)
Definition readAsRemoved (line : string) : bool :=
  startsWith "-" line && negb (startsWith "---" line).

Definition readAsAdded (line : string) : bool :=
  startsWith "+" line && negb (startsWith "+++" line).

Definition keysRead (read : string -> bool) (hunk : list string) : list string :=
  flat_map changedLineKeys (List.filter read hunk).

Definition candidateOf (allowlist : list RegExp) (hunk : list string) : list Rename.t :=
  renameCandidate allowlist (keysRead readAsRemoved hunk) (keysRead readAsAdded hunk).

(** The renames of a diff: the candidates of its hunks, in their order. *)
Definition renamesOf (allowlist : list RegExp) (diffText : string) : list Rename.t :=
  flat_map (candidateOf allowlist) (hunksOf (split_char "010" diffText)).

(** The key of a mismatch in the [seen] set of [runDeterministicComparisons],
    and the invariant of its inner loop: [seen] holds the keys of the code
    values that have a finding. *)
Definition mismatchKey (label : string) (policyValues : list string) (codeValue : string)
  : string :=
  label ++ ":mismatch:" ++ codeValue ++ ":" ++ join "," policyValues.

Definition seen_matches_results (severity ruleName file label : string)
  (policyValues : list string) (st : LogicDrift.CmpLoop) : Prop :=
  forall v, mismatchKey label policyValues v ∈ LogicDrift.seen st
            <-> In (LogicDrift.mismatchFinding severity ruleName file label policyValues v)
                   (LogicDrift.results st).

(** Two regex objects that differ in [lastIndex] at most. *)
Definition same_regex (R R' : RegExp) : Prop :=
  source R' = source R /\ global R' = global R /\ sticky R' = sticky R.

(** The comparison of test/detectors-logicDrift.test.js:
    [code_pattern: 'refundWindowDays\s*=\s*(\d+)'],
    [policy_pattern: '(\d+)\s*days?'], both compiled with the flag [g]. *)
Definition refundCodeRegex : RegExp :=
  regexp (seq [lit "refundWindowDays"; Star ws; chr "="; Star ws; Group 1 (plus digit)]) true.

Definition refundPolicyRegex : RegExp :=
  regexp (seq [Group 1 (plus digit); Star ws; lit "day"; opt (chr "s")]) true.

(** The constructor [new RegExp] on the two patterns of that comparison. *)
Definition refund_RegExp (body flags : string) : completion RegExp :=
  if String.eqb flags "g" && String.eqb body "refundWindowDays\s*=\s*(\d+)"
  then Normal refundCodeRegex
  else if String.eqb flags "g" && String.eqb body "(\d+)\s*days?"
  then Normal refundPolicyRegex
  else Throw (Error "Invalid regular expression").

Definition refundComparison (compare valueType : string) : LogicDrift.Comparison.t :=
  {| LogicDrift.Comparison.codePattern :=
       Some (LogicDrift.PatternString "refundWindowDays\s*=\s*(\d+)");
     LogicDrift.Comparison.policyPattern := Some (LogicDrift.PatternString "(\d+)\s*days?");
     LogicDrift.Comparison.codeFlags := EmptyString;
     LogicDrift.Comparison.policyFlags := EmptyString;
     LogicDrift.Comparison.compare := compare;
     LogicDrift.Comparison.valueType := valueType;
     LogicDrift.Comparison.severity := EmptyString;
     LogicDrift.Comparison.name := "Refund window (days)";
     LogicDrift.Comparison.label := EmptyString |}.

Definition refundDiff : string :=
  "diff --git a/refund.js b/refund.js" ++ String "010" "+const refundWindowDays = 7;".

Definition testConfig : Config.t :=
  {| Config.severity_docsDrift := "warning"; Config.severity_logicDrift := "error" |}.

(** Every probe of the safety check takes no measurable time. *)
Definition instant : RegExp -> string -> nat := fun _ _ => 0.

(** [/a+/g], the code pattern of the test that checks the reset. *)
Definition aPlusRegex : RegExp := regexp (plus (chr "a")) true.

(** The regular expressions that the string functions of the embedding
    stand for, in the order in which the lemma [scanners_agree_with_regexps]
    uses them: [/\{[^}]+\}/g], [/:[^/]+/g], [/\/+$/], [/^\.\.\./],
    [/[?]/g], [/^[.\s]+/], [/[^A-Za-z0-9_$-]/g] and [/[,)]/g]. *)
Definition bracesPattern : RegExp :=
  regexp (seq [chr "{"; plus (none_of "}"); chr "}"]) true.
Definition colonsPattern : RegExp := regexp (seq [chr ":"; plus (none_of "/")]) true.
Definition trailingSlashesPattern : RegExp := regexp (seq [plus (chr "/"); Eol false]) false.
Definition restPattern : RegExp := regexp (seq [Bol false; lit "..."]) false.
Definition questionPattern : RegExp := regexp (chr "?") true.
Definition leadingDotsPattern : RegExp :=
  regexp (seq [Bol false; plus (Chr (fun c => Ascii.eqb c "." || is_ws c))]) false.
Definition nonTokenPattern : RegExp := regexp (Chr (fun c => negb (is_token_char c))) true.
Definition commaParenPattern : RegExp := regexp (one_of ",)") true.

Definition sampleTexts : list string :=
  [ ""; "/"; "//"; "/users/:id"; "/users/{id}/"; " /a/{x}.{y}/:z// "; "{}"; "/a/{b";
    "/a/:/b:c"; "/a/{}}/{{x}"; "...rest"; "..x"; "opt?: string"; "a ? b ? c";
    ".. .name"; "cfg map[string]int"; "int64,"; "x)"; "user-name$1"; "a, b)" ].

(** ** Vocabulary of the further properties *)

(** The state after the characters [w] were read from [s], if they are next. *)
Fixpoint advance_by (w : list ascii) (s : mstate) : option mstate :=
  match w with
  | [] => Some s
  | c :: w' =>
      match m_rest s with
      | d :: t => if Ascii.eqb c d then advance_by w' (advance d t s) else None
      | [] => None
      end
  end.

(** The greedy loop of [Star] over a character class, by recursion on the
    text that is left. *)
Fixpoint star_chr (p : ascii -> bool) (k : mstate -> option mstate)
  (rest : list ascii) (s : mstate) : option mstate :=
  match rest with
  | c :: t =>
      if p c then
        match star_chr p k t (advance c t s) with
        | Some out => Some out
        | None => k s
        end
      else k s
  | [] => k s
  end.

(** What the cache of utils/glob.js holds: for each pattern it knows, the
    regex [globToRegExp] builds for it. *)
Definition coherent (cache : gmap string RegExp) : Prop :=
  forall pattern regex, cache !! pattern = Some regex -> regex = Glob.globToRegExp pattern.

(** A glob without a star and without a question mark. *)
Definition plain_glob (glob : string) : Prop :=
  sall (fun c => negb (char_in "*?" c)) glob = true.

(** A text without a slash: what stays within one path segment. *)
Definition within_segment (text : string) : Prop :=
  sall (fun c => negb (char_in "/" c)) text = true.

(** A text without a line break: what [.*] can match. *)
Definition within_line (text : string) : Prop :=
  sall (fun c => negb (is_line_terminator c)) text = true.

(** The one key an allowlist entry without a star stands for: the entry
    with a dot in place of each question mark. *)
Definition question_as_dot (raw : string) : string :=
  smap (fun c => if Ascii.eqb c "?" then "."%char else c) raw.

(** The facts of one type, in their order. *)
Definition ofType (type : string) (entities : list Entity.t) : list Entity.t :=
  List.filter (fun entity => String.eqb (typeOrUnknown entity) type) entities.

(** The types of the facts, in the order of their first occurrence, and
    the facts grouped by type in that order. *)
Definition typesOf (entities : list Entity.t) : list string :=
  uniq (List.map typeOrUnknown entities).

Definition groupsByType (entities : list Entity.t) : list (list Entity.t) :=
  List.map (fun type => ofType type entities) (typesOf entities).

(** Round robin over lists: the elements at position 0 of each list that
    has one, then those at position 1, and so on for [rounds] positions. *)
Definition column (index : nat) (lists : list (list Entity.t)) : list Entity.t :=
  omap (fun list => list !! index) lists.

Definition roundRobin (lists : list (list Entity.t)) (rounds : nat) : list Entity.t :=
  concat (List.map (fun index => column index lists) (List.seq 0 rounds)).

(** One string is the beginning of another. *)
Definition is_prefix_of (p s : string) : Prop := exists rest, s = p ++ rest.

(** The severities a result can carry. *)
Definition severityLevels : list string := ["critical"; "error"; "warning"; "info"].

(** The number of line feeds in a text. *)
Definition lineBreaks (text : string) : nat :=
  String.length (sfilter (fun c => Ascii.eqb c "010") text).

(** A text whose braces are balanced once [depth] braces are open: no
    closing brace comes without an open one, and none stays open. *)
Fixpoint balanced_from (depth : nat) (text : string) : bool :=
  match text with
  | EmptyString => (depth =? 0)%nat
  | String c text' =>
      if Ascii.eqb c "{" then balanced_from (S depth) text'
      else if Ascii.eqb c "}" then
        match depth with
        | O => false
        | S depth' => balanced_from depth' text'
        end
      else balanced_from depth text'
  end.

Definition balanced (text : string) : Prop := balanced_from 0 text = true.

(** A flag is documented when the docs contain its name, whatever the
    case of the letters. *)
Definition flagDocumented (docsText : string) (flag : Entity.t) : bool :=
  includes (toLowerCase (Entity.name flag)) (toLowerCase docsText).

(** What every result of the deterministic docs comparisons carries: the
    source, the severity the configuration gives to docs drift, and the
    mark of a deterministic result. *)
Definition docsDriftResult (config : Config.t) (f : Finding.t) : Prop :=
  Finding.source f = "docs-drift"
  /\ Finding.severity f = normalizeSeverity (Config.severity_docsDrift config) "warning"
  /\ Finding.deterministic f = true.

(** * Properties *)

(** ** Strings *)

#[local] Arguments Ascii.eqb : simpl never.
#[local] Arguments String.eqb : simpl never.
#[local] Arguments is_ws : simpl never.
#[local] Arguments is_token_char : simpl never.

Lemma sapp_cons (c : ascii) (s t : string) : String c s ++ t = String c (s ++ t).
Proof. reflexivity. Qed.

Lemma sapp_nil_l (s : string) : "" ++ s = s.
Proof. reflexivity. Qed.

Lemma sapp_nil_r (s : string) : s ++ "" = s.
Proof. induction s as [|c s IH]; [done|]. by rewrite sapp_cons, IH. Qed.

Lemma sapp_assoc (s t u : string) : (s ++ t) ++ u = s ++ (t ++ u).
Proof. induction s as [|c s IH]; [done|]. by rewrite !sapp_cons, IH. Qed.

Lemma sall_app (p : ascii -> bool) (s t : string) :
  sall p (s ++ t) = sall p s && sall p t.
Proof.
  induction s as [|c s IH]; [done|].
  rewrite sapp_cons. simpl. by rewrite IH, andb_assoc.
Qed.

Lemma sall_impl (p q : ascii -> bool) (s : string) :
  (forall c, p c = true -> q c = true) -> sall p s = true -> sall q s = true.
Proof.
  intros Hpq. induction s as [|c s IH]; simpl; [done|].
  rewrite !andb_true_iff. intros [Hc Hs]. auto.
Qed.

Lemma sall_sfilter (p : ascii -> bool) (s : string) : sall p (sfilter p s) = true.
Proof.
  induction s as [|c s IH]; simpl; [done|].
  destruct (p c) eqn:Hc; simpl; [rewrite Hc|]; done.
Qed.

Lemma sfilter_id (p : ascii -> bool) (s : string) :
  sall p s = true -> sfilter p s = s.
Proof.
  induction s as [|c s IH]; simpl; [done|].
  rewrite andb_true_iff. intros [-> Hs]. by rewrite IH.
Qed.

Lemma drop_while_id (p : ascii -> bool) (s : string) :
  sall (fun c => negb (p c)) s = true -> drop_while p s = s.
Proof.
  destruct s as [|c s]; simpl; [done|].
  rewrite andb_true_iff, negb_true_iff. by intros [-> _].
Qed.

Lemma drop_while_end_id (p : ascii -> bool) (s : string) :
  sall (fun c => negb (p c)) s = true -> drop_while_end p s = s.
Proof.
  induction s as [|c s IH]; simpl; [done|].
  rewrite andb_true_iff, negb_true_iff. intros [Hc Hs].
  rewrite IH by done. destruct s; [by rewrite Hc | done].
Qed.

Lemma trim_id (s : string) :
  sall (fun c => negb (is_ws c)) s = true -> trim s = s.
Proof.
  intros Hs. unfold trim, trimStart, trimEnd.
  rewrite drop_while_id by done. by apply drop_while_end_id.
Qed.

Lemma split_char_id (sep : ascii) (s : string) :
  sall (fun c => negb (Ascii.eqb c sep)) s = true -> split_char sep s = [s].
Proof.
  induction s as [|c s IH]; simpl; [done|].
  rewrite andb_true_iff, negb_true_iff. intros [-> Hs]. by rewrite IH.
Qed.

Lemma split_ws_id (s : string) :
  sall (fun c => negb (is_ws c)) s = true -> split_ws s = [s].
Proof.
  unfold split_ws. induction s as [|c s IH]; simpl; [done|].
  rewrite andb_true_iff, negb_true_iff. intros [-> Hs]. by rewrite IH.
Qed.

Lemma includes_char_false (x : ascii) (s : string) :
  sall (fun c => negb (Ascii.eqb c x)) s = true -> includes (String x EmptyString) s = false.
Proof.
  induction s as [|c s IH]; simpl; [done|].
  rewrite andb_true_iff, negb_true_iff. intros [Hc Hs].
  rewrite IH by done. destruct (ascii_dec x c) as [->|Hne].
  - by rewrite Ascii.eqb_refl in Hc.
  - done.
Qed.

(** ** The regular expression loops *)

Lemma length_list_ascii_of_string (s : string) :
  length (list_ascii_of_string s) = String.length s.
Proof. induction s as [|c s IH]; simpl; [done|]. by rewrite IH. Qed.

(** A regex without the flags [g] and [y] is not changed by [exec]. *)
Lemma exec_stateless (R : RegExp) (text : string) :
  global R = false -> sticky R = false -> snd (exec R text) = R.
Proof.
  intros Hg Hy. unfold exec. rewrite Hg, Hy. simpl. rewrite drop_0.
  by destruct (search _ _ _ _) as [[i out]|].
Qed.

(** Past the end of the text a regex with the flag [g] or [y] fails. *)
Lemma exec_past_end (R : RegExp) (text : string) :
  global R || sticky R = true -> (String.length text < lastIndex R)%nat ->
  fst (exec R text) = None.
Proof.
  intros Hflags Hlen. unfold exec. rewrite Hflags, length_list_ascii_of_string.
  apply Nat.ltb_lt in Hlen. by rewrite Hlen.
Qed.

Lemma exec_loop_S (fuel : nat) (R : RegExp) (text : string) :
  exec_loop (S fuel) R text
  = match exec R text with
    | (None, R') => Normal ([], R')
    | (Some mr, R') =>
        if (lastIndex R' <=? lastIndex R)%nat then Diverge
        else '(more, R'') ← exec_loop fuel R' text; Normal (mr :: more, R'')
    end.
Proof. reflexivity. Qed.

(** The fuel of [exec_all] is enough: more fuel gives the same result, so
    [Diverge] stands for a loop that makes no progress and never for a loop
    that was cut short. *)
Lemma exec_loop_more_fuel (text : string) (fuel : nat) (R : RegExp) :
  (String.length text + 2 <= fuel + lastIndex R)%nat -> (1 <= fuel)%nat ->
  exec_loop (S fuel) R text = exec_loop fuel R text.
Proof.
  revert R. induction fuel as [|fuel IH]; intros R Hfuel Hpos; [lia|].
  rewrite (exec_loop_S (S fuel)), (exec_loop_S fuel).
  destruct (exec R text) as [[mr|] R'] eqn:Hexec; [|done].
  destruct (lastIndex R' <=? lastIndex R)%nat eqn:Hle; [done|].
  apply Nat.leb_gt in Hle.
  destruct fuel as [|fuel].
  - exfalso. destruct (global R || sticky R) eqn:Hflags.
    + assert (fst (exec R text) = None) as Hnone by (apply exec_past_end; [done|lia]).
      by rewrite Hexec in Hnone.
    + apply orb_false_iff in Hflags as [Hg Hy].
      pose proof (exec_stateless R text Hg Hy) as Hsame.
      rewrite Hexec in Hsame. simpl in Hsame. subst R'. lia.
  - rewrite IH by lia. done.
Qed.

Lemma exec_all_fuel (text : string) (R : RegExp) (extra : nat) :
  exec_loop (String.length text + 2 + extra) R text = exec_all R text.
Proof.
  unfold exec_all. induction extra as [|extra IH]; [by rewrite Nat.add_0_r|].
  rewrite Nat.add_succ_r, exec_loop_more_fuel by lia. exact IH.
Qed.

Lemma same_regex_refl (R : RegExp) : same_regex R R.
Proof. done. Qed.

Lemma same_regex_trans (R1 R2 R3 : RegExp) :
  same_regex R1 R2 -> same_regex R2 R3 -> same_regex R1 R3.
Proof. unfold same_regex. intros (-> & -> & ->) (-> & -> & ->). done. Qed.


Lemma exec_same_regex (R : RegExp) (text : string) : same_regex R (snd (exec R text)).
Proof.
  unfold exec. repeat case_match; simpl; try done.
Qed.


(** A group under a star holds what its last iteration captured, and is
    undefined when the last iteration did not go through it: the regex
    [(?:(a)|b)*] matches the whole of [ab] and of [ba], with group 1
    undefined on the first and [a] on the second. *)
Lemma star_clears_captures :
  let R := regexp (Star (Alt (Group 1 (chr "a")) (chr "b"))) false in
  ((fun m => (matched m, group 1 m)) <$> fst (exec R "ab")) = Some ("ab", None)
  /\ ((fun m => (matched m, group 1 m)) <$> fst (exec R "ba")) = Some ("ba", Some "a")
  /\ ((fun m => (matched m, group 1 m)) <$> fst (exec R "aa")) = Some ("aa", Some "a").
Proof. vm_compute. repeat split; reflexivity. Qed.

(** The string functions that stand for a [replace] with a regular
    expression agree with that regular expression on the sample texts. *)
Lemma scanners_agree_with_regexps :
  List.map replaceBraces sampleTexts
  = List.map (replace bracesPattern ":param") sampleTexts
  /\ List.map replaceColons sampleTexts
     = List.map (replace colonsPattern ":param") sampleTexts
  /\ List.map (drop_while_end (Ascii.eqb "/")) sampleTexts
     = List.map (replace trailingSlashesPattern EmptyString) sampleTexts
  /\ List.map (remove_prefix "...") sampleTexts
     = List.map (replace restPattern EmptyString) sampleTexts
  /\ List.map (sfilter (fun c => negb (Ascii.eqb c "?"))) sampleTexts
     = List.map (replace questionPattern EmptyString) sampleTexts
  /\ List.map (drop_while (fun c => Ascii.eqb c "." || is_ws c)) sampleTexts
     = List.map (replace leadingDotsPattern EmptyString) sampleTexts
  /\ List.map (sfilter is_token_char) sampleTexts
     = List.map (replace nonTokenPattern EmptyString) sampleTexts
  /\ List.map (sfilter (fun c => negb (char_in ",)" c))) sampleTexts
     = List.map (replace commaParenPattern EmptyString) sampleTexts.
Proof. vm_compute. repeat split; reflexivity. Qed.

(** *** Termination of the loops *)

Lemma clear_captures_state (a : re) (s : mstate) :
  m_prev (clear_captures a s) = m_prev s
  /\ m_rest (clear_captures a s) = m_rest s
  /\ m_pos (clear_captures a s) = m_pos s.
Proof. unfold clear_captures. by destruct (groups_in a). Qed.

Lemma run_progress (r : re) :
  forall (s : mstate) (k : mstate -> option mstate) (out : mstate),
    run r s k = Some out ->
    exists s', k s' = Some out
               /\ (m_pos s <= m_pos s')%nat
               /\ (nullable r = false -> (m_pos s < m_pos s')%nat).
Proof.
  induction r as [|p|a IHa b IHb|a IHa b IHb|a IHa|n a IHa| | |];
    intros s k out Hrun; simpl in Hrun.
  - exists s. by repeat split.
  - destruct (m_rest s) as [|c t]; [done|]. destruct (p c); [|done].
    exists (advance c t s). simpl. repeat split; [done|lia|]. intros _. lia.
  - apply IHa in Hrun as (s1 & Hb & Hle1 & Hlt1).
    apply IHb in Hb as (s2 & Hk & Hle2 & Hlt2).
    exists s2. repeat split; [done|lia|].
    simpl. intros [Ha|Hb']%andb_false_iff; [specialize (Hlt1 Ha)|specialize (Hlt2 Hb')]; lia.
  - destruct (run a s k) as [o|] eqn:Ha.
    + injection Hrun as ->. apply IHa in Ha as (s1 & Hk & Hle & Hlt).
      exists s1. repeat split; [done..|].
      simpl. intros [Hna _]%orb_false_iff. auto.
    + apply IHb in Hrun as (s1 & Hk & Hle & Hlt).
      exists s1. repeat split; [done..|].
      simpl. intros [_ Hnb]%orb_false_iff. auto.
  - assert (Hloop : forall fuel s0,
              (fix iterate (fuel : nat) (s : mstate) : option mstate :=
                 match fuel with
                 | O => k s
                 | S fuel' =>
                     match run a (clear_captures a s) (fun s1 =>
                             if (length (m_rest s1) <? length (m_rest s))%nat
                             then iterate fuel' s1 else None) with
                     | Some out => Some out
                     | None => k s
                     end
                 end) fuel s0 = Some out ->
              exists s', k s' = Some out /\ (m_pos s0 <= m_pos s')%nat).
    { induction fuel as [|fuel IHf]; intros s0 Hit.
      - by exists s0.
      - match type of Hit with
        | match ?x with _ => _ end = _ => destruct x as [o|] eqn:Ha
        end.
        + injection Hit as ->. apply IHa in Ha as (s1 & Hk & Hle & _).
          destruct (clear_captures_state a s0) as (_ & _ & Hpos). rewrite Hpos in Hle.
          destruct (length (m_rest s1) <? length (m_rest s0))%nat; [|done].
          apply IHf in Hk as (s2 & Hk & Hle2). exists s2. split; [done|lia].
        + by exists s0. }
    apply Hloop in Hrun as (s' & Hk & Hle). exists s'. by repeat split.
  - apply IHa in Hrun as (s1 & Hk & Hle & Hlt).
    exists (capture n s s1). by repeat split.
  - destruct (xorb _ _); [|done]. exists s. by repeat split.
  - exists s. repeat split; [|done..]. by repeat case_match.
  - exists s. repeat split; [|done..]. by repeat case_match.
Qed.

Lemma match_at_progress (r : re) (prev : option ascii) (rest : list ascii) (pos : nat)
  (out : mstate) :
  match_at r prev rest pos = Some out ->
  (pos <= m_pos out)%nat /\ (nullable r = false -> (pos < m_pos out)%nat).
Proof.
  unfold match_at. intros Hrun.
  apply run_progress in Hrun as (s' & [= ->] & Hle & Hlt). by split.
Qed.

Lemma search_progress (r : re) (rest : list ascii) :
  forall (prev : option ascii) (pos i : nat) (out : mstate),
    search r prev rest pos = Some (i, out) ->
    (pos <= i)%nat /\ (nullable r = false -> (i < m_pos out)%nat).
Proof.
  induction rest as [|c t IH]; intros prev pos i out; simpl.
  - destruct (match_at r prev [] pos) as [o|] eqn:Hm; [|done].
    intros [= <- <-]. apply match_at_progress in Hm as [_ Hlt]. by split.
  - destruct (match_at r prev (c :: t) pos) as [o|] eqn:Hm.
    + intros [= <- <-]. apply match_at_progress in Hm as [_ Hlt]. by split.
    + intros Hs. apply IH in Hs as [Hle Hlt]. split; [lia|done].
Qed.

(** A successful [exec] of a regex with the flag [g] that cannot match the
    empty string moves [lastIndex] forward. *)
Lemma exec_progress (R R' : RegExp) (text : string) (mr : MatchResult) :
  global R = true -> nullable (source R) = false ->
  exec R text = (Some mr, R') -> (lastIndex R < lastIndex R')%nat.
Proof.
  intros Hg Hnull. unfold exec. rewrite Hg. simpl.
  destruct (length (list_ascii_of_string text) <? lastIndex R)%nat; [done|].
  destruct (sticky R).
  - destruct (match_at _ _ _ _) as [out|] eqn:Hm; simpl; [|done].
    intros [= _ <-]. simpl. apply match_at_progress in Hm as [_ Hlt]. auto.
  - destruct (search _ _ _ _) as [[i out]|] eqn:Hs; [|done].
    intros [= _ <-]. simpl. apply search_progress in Hs as [Hle Hlt].
    specialize (Hlt Hnull). lia.
Qed.

Lemma exec_loop_total (text : string) (fuel : nat) :
  forall R : RegExp,
    global R = true -> nullable (source R) = false ->
    (1 <= fuel)%nat -> (String.length text + 2 <= fuel + lastIndex R)%nat ->
    exists ms R', exec_loop fuel R text = Normal (ms, R') /\ same_regex R R'.
Proof.
  induction fuel as [|fuel IH]; intros R Hg Hnull Hpos Hfuel; [lia|].
  rewrite exec_loop_S. pose proof (exec_same_regex R text) as Hsame.
  destruct (exec R text) as [[mr|] R1] eqn:Hexec; simpl in Hsame.
  - pose proof (exec_progress R R1 text mr Hg Hnull Hexec) as Hlt.
    assert ((lastIndex R1 <=? lastIndex R)%nat = false) as -> by (apply Nat.leb_gt; lia).
    destruct Hsame as (Hsrc & Hgl & Hst).
    destruct fuel as [|fuel].
    + exfalso.
      assert (fst (exec R text) = None) as Hnone.
      { apply exec_past_end; [by rewrite Hg | lia]. }
      by rewrite Hexec in Hnone.
    + destruct (IH R1) as (ms & R2 & -> & Hsame2); try lia; try congruence.
      simpl. eexists _, _. split; [done|].
      eapply same_regex_trans; [|exact Hsame2]. by repeat split.
  - by eexists _, _.
Qed.

(** The loop over the matches of a regex with the flag [g] that cannot
    match the empty string ends. *)
Lemma exec_all_total (R : RegExp) (text : string) :
  global R = true -> nullable (source R) = false ->
  exists ms R', exec_all R text = Normal (ms, R') /\ same_regex R R'.
Proof.
  intros Hg Hnull. unfold exec_all. apply exec_loop_total; try done; lia.
Qed.

Lemma matches_total (R : RegExp) (text : string) :
  global R = true -> nullable (source R) = false ->
  exists ms, matches R text = Normal ms.
Proof.
  intros Hg Hnull. unfold matches.
  destruct (exec_all_total R text Hg Hnull) as (ms & R' & -> & _). by eexists.
Qed.

(** The built-in extraction loops end on every text. *)
Lemma allMatches_total (patterns : list RegExp) (content : string) :
  Forall (fun R => global R = true /\ nullable (source R) = false) patterns ->
  exists found, allMatches patterns content = Normal found.
Proof.
  intros Hall. unfold allMatches.
  assert (Hfold : forall acc, exists found,
            foldM (fun found pattern =>
                     ms ← matches pattern content; Normal (found ++ ms)%list)
                  acc patterns = Normal found).
  { induction Hall as [|R l [Hg Hnull] _ IH]; intros acc; [by eexists|].
    cbn [foldM]. destruct (matches_total R content Hg Hnull) as [ms ->]. simpl. apply IH. }
  apply Hfold.
Qed.

Lemma jsFunctionPatterns_progress :
  Forall (fun R => global R = true /\ nullable (source R) = false) jsFunctionPatterns.
Proof. repeat constructor. Qed.

Lemma extractJsFunctions_total (content file : string) :
  exists entities, extractJsFunctions content file = Normal entities.
Proof.
  unfold extractJsFunctions, jsKeptMatches.
  destruct (allMatches_total jsFunctionPatterns content jsFunctionPatterns_progress)
    as [found ->].
  by eexists.
Qed.

Lemma extractClassNames_total (content file : string) :
  exists entities, extractClassNames content file = Normal entities.
Proof.
  unfold extractClassNames.
  destruct (matches_total classPattern content) as [ms ->]; [done..|]. by eexists.
Qed.

Lemma extractRubyFunctions_total (content file : string) :
  exists entities, extractRubyFunctions content file = Normal entities.
Proof.
  unfold extractRubyFunctions.
  destruct (matches_total rubyParenPattern content) as [paren ->]; [done..|].
  destruct (matches_total rubyBarePattern content) as [bare ->]; [done..|].
  by eexists.
Qed.

Lemma extractPayloadKeysFromLine_total (line : string) :
  exists keys, extractPayloadKeysFromLine line = Normal keys.
Proof.
  unfold extractPayloadKeysFromLine.
  repeat (match goal with
          | |- exists _, (if ?b then _ else _) = _ => destruct b; [by eexists|]
          end).
  destruct (matches_total quotedKeyPattern line) as [quoted ->]; [done..|].
  destruct (matches_total unquotedKeyPattern (stripStringLiterals line))
    as [unquoted ->]; [done..|].
  destruct (matches_total jsonTagPattern line) as [tags ->]; [done..|].
  destruct (matches_total annotationPattern line) as [annotations ->]; [done..|].
  by eexists.
Qed.

Lemma extractDocFunctions_total (docEntries : list DocEntry.t) :
  exists docFunctions, extractDocFunctions docEntries = Normal docFunctions.
Proof.
  unfold extractDocFunctions. generalize (@nil DocFunction.t).
  induction docEntries as [|entry l IH]; intros acc; [by eexists|].
  cbn [foldM].
  destruct (matches_total docFunctionPattern (DocEntry.content entry)) as [ms ->];
    [done..|].
  simpl. apply IH.
Qed.

Lemma diffLine_step_total (st : HunkState) (line : string) :
  exists st', diffLine_step st line = Normal st'.
Proof.
  unfold diffLine_step.
  repeat (match goal with
          | |- exists _, (if ?b then _ else _) = _ => destruct b; [try by eexists|]
          end);
    try by eexists.
  all: destruct (extractPayloadKeysFromLine_total (slice_from 1 line)) as [keys ->];
    by eexists.
Qed.

(** [findPayloadKeyRenames] returns on every diff. *)
Lemma findPayloadKeyRenames_total (diffText : string) (allowlist : list RegExp) :
  exists result, findPayloadKeyRenames diffText allowlist = Normal result.
Proof.
  unfold findPayloadKeyRenames.
  generalize {| renames := []; removed := []; added := []; matchers := allowlist |}.
  induction (split_char "010" diffText) as [|line lines IH]; intros st; [by eexists|].
  cbn [foldM]. destruct (diffLine_step_total st line) as [st' ->]. simpl. apply IH.
Qed.

(** ** Parameter lists *)

Lemma token_char_plain (c : ascii) :
  is_token_char c = true ->
  is_ws c = false /\ char_in ".?=:," c = false
  /\ is_open c = false /\ is_close c = false.
Proof.
  destruct c as [[] [] [] [] [] [] [] []]; vm_compute; intuition congruence.
Qed.

Lemma clean_name_no (x : ascii) (s : string) :
  char_in ".?=:," x = true -> clean_name s ->
  sall (fun c => negb (Ascii.eqb c x)) s = true.
Proof.
  intros Hx. apply sall_impl. intros c Hc.
  destruct (token_char_plain c Hc) as (_ & Hp & _).
  apply negb_true_iff. destruct (Ascii.eqb_spec c x) as [->|]; [congruence | done].
Qed.

Lemma clean_name_no_ws (s : string) :
  clean_name s -> sall (fun c => negb (is_ws c)) s = true.
Proof.
  apply sall_impl. intros c Hc.
  destruct (token_char_plain c Hc) as (-> & _). done.
Qed.

Lemma stripToken_clean (t : string) : clean_name (stripToken t).
Proof. apply sall_sfilter. Qed.

Lemma stripToken_id (s : string) : clean_name s -> stripToken s = s.
Proof.
  intros Hs. unfold stripToken. rewrite drop_while_id.
  - by apply sfilter_id.
  - revert Hs. apply sall_impl. intros c Hc.
    destruct (token_char_plain c Hc) as (-> & Hp & _).
    destruct (Ascii.eqb_spec c ".") as [->|]; [discriminate Hp | done].
Qed.

(** [normalizeParamName] returns a clean name whenever it returns. *)
Lemma normalizeParamName_clean (text name : string) :
  normalizeParamName text = Normal name -> clean_name name.
Proof.
  unfold normalizeParamName, stripToken_opt.
  repeat (case_match; simplify_eq; try done);
    intros; simplify_eq; try done; apply stripToken_clean.
Qed.

(** A clean, non-empty name is a fixed point of [normalizeParamName]. *)
Lemma normalizeParamName_id (s : string) :
  clean_name s -> truthy s = true -> normalizeParamName s = Normal s.
Proof.
  intros Hs Ht. unfold normalizeParamName. rewrite Ht. simpl.
  rewrite (trim_id s) by by apply clean_name_no_ws. rewrite Ht. simpl.
  assert (remove_prefix "..." s = s) as ->.
  { destruct s as [|c s]; [done|]. unfold remove_prefix. simpl.
    unfold clean_name in Hs. simpl in Hs. apply andb_true_iff in Hs as [Hc _].
    destruct (token_char_plain c Hc) as (_ & Hp & _).
    destruct (Ascii.eqb_spec "." c) as [<-|]; [discriminate Hp | done]. }
  rewrite sfilter_id by (by apply (clean_name_no "?")).
  rewrite split_char_id by (by apply (clean_name_no "=")). simpl.
  rewrite (trim_id s) by by apply clean_name_no_ws. rewrite Ht. simpl.
  rewrite includes_char_false by (by apply (clean_name_no ":")).
  rewrite split_ws_id by by apply clean_name_no_ws.
  simpl. rewrite Ht. by rewrite stripToken_id.
Qed.

Lemma mapM_Normal {A B : Type} (f : A -> completion B) (l : list A) (r : list B) :
  mapM f l = Normal r -> forall y, In y r -> exists x, In x l /\ f x = Normal y.
Proof.
  revert r. induction l as [|x l IH]; simpl; intros r.
  - intros [= <-] y [].
  - destruct (f x) as [y0| |] eqn:Hx; simpl; try done.
    destruct (mapM f l) as [k| |] eqn:Hl; simpl; try done.
    intros [= <-] y [<-|Hy]; [by eauto|].
    destruct (IH k eq_refl y Hy) as (x' & ? & ?). eauto.
Qed.

Lemma mapM_id {A : Type} (f : A -> completion A) (l : list A) :
  Forall (fun x => f x = Normal x) l -> mapM f l = Normal l.
Proof.
  induction 1 as [|x l Hx _ IH]; simpl; [done|].
  by rewrite Hx; simpl; rewrite IH.
Qed.

Lemma normalizeParamList_good (text : string) (names : list string) :
  normalizeParamList text = Normal names -> good_names names.
Proof.
  unfold normalizeParamList. destruct (truthy text); simpl.
  2: { intros [= <-]. constructor. }
  destruct (mapM normalizeParamName (splitParams text)) as [raw| |] eqn:Hraw;
    simpl; try done.
  intros [= <-].
  unfold good_names. apply List.Forall_forall. intros s Hin.
  apply List.filter_In in Hin as [Hin Hs]. split; [|done].
  destruct (mapM_Normal _ _ _ Hraw s Hin) as (x & _ & Hx).
  by eapply normalizeParamName_clean.
Qed.

Lemma splitParams_loop_clean (x rest : string) (parts : list string) (current : string) :
  clean_name x ->
  splitParams_loop (x ++ rest) parts current 0
  = splitParams_loop rest parts (current ++ x) 0.
Proof.
  revert current. induction x as [|c x IH]; intros current Hx.
  - by rewrite sapp_nil_r.
  - unfold clean_name in Hx. simpl in Hx. apply andb_true_iff in Hx as [Hc Hx].
    destruct (token_char_plain c Hc) as (_ & Hp & Ho & Hcl).
    rewrite sapp_cons. simpl. rewrite Ho, Hcl.
    destruct (Ascii.eqb_spec c ",") as [->|_]; [discriminate Hp|].
    simpl. rewrite IH by done. by rewrite sapp_assoc.
Qed.

(** Splitting the key of a list of good names gives the names back. *)
Lemma splitParams_paramKey (names parts : list string) :
  good_names names ->
  splitParams_loop (paramKey names) parts EmptyString 0 = (parts ++ names)%list.
Proof.
  intros Hgood. revert parts.
  induction Hgood as [|x names [Hx Ht] Hrest IH]; intros parts.
  - simpl. by rewrite app_nil_r.
  - destruct names as [|y names].
    + unfold paramKey, join. simpl.
      rewrite <- (sapp_nil_r x) at 1. rewrite splitParams_loop_clean by done.
      change (EmptyString ++ x) with x. simpl. by rewrite Ht.
    + change (paramKey (x :: y :: names)) with (x ++ String "," (paramKey (y :: names))).
      rewrite splitParams_loop_clean by done.
      change (EmptyString ++ x) with x. simpl.
      rewrite IH. by rewrite <- app_assoc.
Qed.

Lemma paramKey_truthy (x : string) (names : list string) :
  truthy x = true -> truthy (paramKey (x :: names)) = true.
Proof.
  destruct x as [|c x]; [done|]. intros _.
  unfold paramKey, join. simpl. by destruct names.
Qed.

Lemma filter_truthy_good (names : list string) :
  good_names names -> List.filter truthy names = names.
Proof.
  induction 1 as [|x names [_ Ht] _ IH]; simpl; [done|]. by rewrite Ht, IH.
Qed.

(** Normalising the key of an already normalised list changes nothing. *)
Lemma normalizeParamList_paramKey (names : list string) :
  good_names names -> normalizeParamList (paramKey names) = Normal names.
Proof.
  intros Hgood. unfold normalizeParamList.
  destruct names as [|x names]; [done|].
  rewrite paramKey_truthy by (by inversion Hgood as [|? ? [_ ?]]). simpl.
  unfold splitParams. rewrite splitParams_paramKey by done.
  rewrite app_nil_l, mapM_id.
  - change (Normal (List.filter truthy (x :: names)) = Normal (x :: names)).
    by rewrite filter_truthy_good.
  - eapply List.Forall_impl; [|exact Hgood].
    intros s [Hs Ht]. by apply normalizeParamName_id.
Qed.

(** C7. Parameter-list normalisation is idempotent: for every
    parameter-list string, normalising the serialised result of the
    normalisation ([paramKey], the names joined by commas) gives the same
    name list, and each name of the result is a fixed point of
    [normalizeParamName]. When the normalisation throws, so does the
    composition. *)
Theorem normalizeParamList_idempotent (text : string) :
  (names ← normalizeParamList text; normalizeParamList (paramKey names))
  = normalizeParamList text
  /\ (names ← normalizeParamList text; mapM normalizeParamName names)
     = normalizeParamList text.
Proof.
  destruct (normalizeParamList text) as [names| |] eqn:Hnames; simpl; [|done..].
  apply normalizeParamList_good in Hnames. split.
  - by apply normalizeParamList_paramKey.
  - apply mapM_id. eapply List.Forall_impl; [|exact Hnames].
    intros s [Hs Ht]. by apply normalizeParamName_id.
Qed.

(** ** Path templates *)

Lemma plain_char_facts (c : ascii) :
  plain_char c = true ->
  is_ws c = false /\ Ascii.eqb c "/" = false /\ Ascii.eqb c ":" = false
  /\ Ascii.eqb c "{" = false /\ Ascii.eqb c "}" = false /\ Ascii.eqb "}" c = false
  /\ Ascii.eqb "/" c = false.
Proof.
  destruct c as [[] [] [] [] [] [] [] []]; vm_compute; intuition congruence.
Qed.

Lemma drop_while_end_app (p : ascii -> bool) (s t : string) :
  drop_while_end p (s ++ t)
  = match drop_while_end p t with
    | EmptyString => drop_while_end p s
    | t' => s ++ t'
    end.
Proof.
  induction s as [|c s IH].
  { change (EmptyString ++ t) with t. by destruct (drop_while_end p t). }
  rewrite sapp_cons. simpl. rewrite IH.
  destruct (drop_while_end p t) as [|d t']; [done|].
  rewrite sapp_cons. by destruct s.
Qed.

Lemma drop_while_end_slashes (n : nat) :
  drop_while_end (Ascii.eqb "/") (slashes n) = EmptyString.
Proof. induction n as [|n IH]; simpl; [done|]. by rewrite IH. Qed.

Section Render.

Variable style : string -> string.

(** What the proofs need of a placeholder notation: it is not empty and
    has neither a slash nor white space. *)
Hypothesis style_truthy : forall name, truthy (style name) = true.
Hypothesis style_chars : forall name,
  sall plain_char name = true ->
  sall (fun c => negb (is_ws c) && negb (Ascii.eqb "/" c)) (style name) = true.

Lemma segment_text_chars (seg : segment) :
  wf_segment seg ->
  truthy (segment_text style seg) = true
  /\ sall (fun c => negb (is_ws c) && negb (Ascii.eqb "/" c)) (segment_text style seg) = true.
Proof.
  destruct seg as [text|name]; simpl; intros [Ht Hp]; split; auto.
  revert Hp. apply sall_impl. intros c Hc.
  destruct (plain_char_facts c Hc) as (-> & _ & _ & _ & _ & _ & ->). done.
Qed.

Lemma render_no_ws (template : list segment) :
  Forall wf_segment template ->
  sall (fun c => negb (is_ws c)) (render style template) = true.
Proof.
  induction 1 as [|seg rest Hseg _ IH]; [done|].
  simpl. rewrite sapp_nil_l, sall_app, IH, andb_true_r.
  destruct (segment_text_chars seg Hseg) as [_ Hc].
  revert Hc. apply sall_impl. intros c. by rewrite andb_true_iff; intros [-> _].
Qed.

Lemma render_truthy (template : list segment) :
  template <> [] -> truthy (render style template) = true.
Proof. by destruct template. Qed.

(** Trailing slashes are dropped and nothing else is. *)
Lemma render_strip_slashes (template : list segment) (n : nat) :
  Forall wf_segment template ->
  drop_while_end (Ascii.eqb "/") (render style template ++ slashes n)
  = render style template.
Proof.
  intros Hwf. rewrite drop_while_end_app, drop_while_end_slashes.
  induction Hwf as [|seg rest Hseg _ IH]; [done|].
  change (render style (seg :: rest))
    with (("/" ++ segment_text style seg) ++ render style rest).
  destruct (segment_text_chars seg Hseg) as [Ht Hc].
  rewrite drop_while_end_app, IH.
  destruct (render style rest) as [|d r] eqn:Hr; [|done].
  rewrite sapp_nil_r. rewrite drop_while_end_app.
  rewrite drop_while_end_id.
  - destruct (segment_text style seg); [done|]. done.
  - revert Hc. apply sall_impl. intros c. rewrite andb_true_iff. by intros [_ ->].
Qed.

End Render.

Lemma replaceColons_skip (s rest : string) :
  sall plain_char s = true ->
  replaceColons_from true (s ++ rest) = replaceColons_from true rest.
Proof.
  induction s as [|c s IH]; [done|]. intros Hcs.
  simpl in Hcs. apply andb_true_iff in Hcs as [Hc Hs].
  destruct (plain_char_facts c Hc) as (_ & Hslash & _).
  rewrite sapp_cons. simpl. by rewrite Hslash, IH.
Qed.

Lemma replaceColons_copy (s rest : string) :
  sall plain_char s = true ->
  replaceColons_from false (s ++ rest) = s ++ replaceColons_from false rest.
Proof.
  induction s as [|c s IH]; [done|]. intros Hcs.
  simpl in Hcs. apply andb_true_iff in Hcs as [Hc Hs].
  destruct (plain_char_facts c Hc) as (_ & _ & Hcolon & _).
  rewrite !sapp_cons. simpl. by rewrite Hcolon, IH.
Qed.

Lemma replaceColons_inside_render (style : string -> string) (template : list segment) :
  replaceColons_from true (render style template)
  = replaceColons_from false (render style template).
Proof. by destruct template. Qed.

(** A colon followed by a plain name becomes the canonical placeholder. *)
Lemma replaceColons_render (g : string -> string) (template : list segment) :
  (forall name, truthy name = true -> sall plain_char name = true ->
                truthy (g name) = true /\ sall plain_char (g name) = true) ->
  Forall wf_segment template ->
  replaceColons_from false (render (fun name => ":" ++ g name) template)
  = canonicalPath template.
Proof.
  intros Hg. induction 1 as [|seg rest Hseg _ IH]; [done|].
  unfold canonicalPath. simpl. rewrite !sapp_nil_l. f_equal.
  destruct seg as [text|name]; simpl in *; destruct Hseg as [Ht Hp].
  - rewrite replaceColons_copy by done. by rewrite IH.
  - destruct (Hg name Ht Hp) as [Hgt Hgp].
    destruct (g name) as [|d n] eqn:Hgn; [done|].
    rewrite !sapp_cons, sapp_nil_l. simpl.
    simpl in Hgp. apply andb_true_iff in Hgp as [Hd Hn].
    destruct (plain_char_facts d Hd) as (_ & Hslash & _).
    rewrite Hslash. simpl. rewrite replaceColons_skip by done.
    rewrite replaceColons_inside_render, IH. done.
Qed.

Lemma replaceBraces_skip (s rest : string) :
  sall plain_char s = true ->
  replaceBraces_from true (s ++ String "}" rest) = replaceBraces_from false rest.
Proof.
  induction s as [|c s IH]; [done|]. intros Hcs.
  simpl in Hcs. apply andb_true_iff in Hcs as [Hc Hs].
  destruct (plain_char_facts c Hc) as (_ & _ & _ & _ & Hclose & _).
  rewrite sapp_cons. simpl. by rewrite Hclose, IH.
Qed.

Lemma replaceBraces_copy (s rest : string) :
  sall (fun c => negb (Ascii.eqb c "{")) s = true ->
  replaceBraces_from false (s ++ rest) = s ++ replaceBraces_from false rest.
Proof.
  induction s as [|c s IH]; [done|]. intros Hcs.
  simpl in Hcs. apply andb_true_iff in Hcs as [Hc Hs]. apply negb_true_iff in Hc.
  rewrite !sapp_cons. simpl. by rewrite Hc, IH.
Qed.

Lemma sany_app_r (p : ascii -> bool) (s t : string) :
  sany p t = true -> sany p (s ++ t) = true.
Proof.
  intros Ht. induction s as [|c s IH]; [done|].
  rewrite sapp_cons. simpl. by rewrite IH, orb_true_r.
Qed.

Lemma plain_not_open_brace (s : string) :
  sall plain_char s = true -> sall (fun c => negb (Ascii.eqb c "{")) s = true.
Proof.
  apply sall_impl. intros c Hc.
  destruct (plain_char_facts c Hc) as (_ & _ & _ & -> & _). done.
Qed.

(** Each placeholder in braces becomes the canonical placeholder. *)
Lemma replaceBraces_braceStyle (template : list segment) :
  Forall wf_segment template ->
  replaceBraces_from false (braceStyle template) = canonicalPath template.
Proof.
  induction 1 as [|seg rest Hseg _ IH]; [done|].
  unfold braceStyle, canonicalPath in *. simpl. rewrite !sapp_nil_l. f_equal.
  destruct seg as [text|name]; simpl in *; destruct Hseg as [Ht Hp].
  - rewrite replaceBraces_copy by by apply plain_not_open_brace.
    by rewrite IH.
  - destruct name as [|d n]; [done|].
    rewrite !sapp_cons, sapp_nil_l, !sapp_cons. simpl.
    simpl in Hp. apply andb_true_iff in Hp as [Hd Hn].
    destruct (plain_char_facts d Hd) as (_ & _ & _ & _ & Hclose & Hclose' & _).
    rewrite Hclose, Hclose'. simpl.
    rewrite sapp_assoc, sapp_cons, !sapp_nil_l.
    rewrite sany_app_r by done.
    by rewrite replaceBraces_skip, IH.
Qed.

(** A path in colon notation has no brace to replace. *)
Lemma replaceBraces_colonStyle (template : list segment) :
  Forall wf_segment template ->
  replaceBraces_from false (colonStyle template) = colonStyle template.
Proof.
  intros Hwf. rewrite <- (sapp_nil_r (colonStyle template)) at 1.
  rewrite replaceBraces_copy; [by rewrite sapp_nil_r|].
  induction Hwf as [|seg rest Hseg _ IH]; [done|].
  unfold colonStyle. simpl. rewrite sapp_nil_l, sall_app.
  apply andb_true_iff. split; [|exact IH].
  destruct seg as [text|name]; simpl in *; destruct Hseg as [_ Hp].
  - by apply plain_not_open_brace.
  - by apply plain_not_open_brace.
Qed.

Lemma canonicalPath_truthy (template : list segment) :
  template <> [] -> String.eqb (canonicalPath template) EmptyString = false.
Proof. by destruct template. Qed.

Lemma normalizePath_colonStyle (template : list segment) (n : nat) :
  template <> [] -> Forall wf_segment template ->
  normalizePath (colonStyle template ++ slashes n) = canonicalPath template.
Proof.
  intros Hne Hwf. unfold normalizePath.
  assert (Hchars : forall name, sall plain_char name = true ->
            sall (fun c => negb (is_ws c) && negb (Ascii.eqb "/" c)) (":" ++ name) = true).
  { intros name. rewrite sapp_cons. simpl. apply sall_impl. intros c Hc.
    destruct (plain_char_facts c Hc) as (-> & _ & _ & _ & _ & _ & ->). done. }
  assert (truthy (colonStyle template ++ slashes n) = true) as ->
    by (by destruct template).
  simpl. rewrite trim_id.
  2: { rewrite sall_app. apply andb_true_iff. split.
       - by apply render_no_ws.
       - clear. induction n; simpl; auto. }
  unfold colonStyle. rewrite render_strip_slashes by done.
  unfold replaceBraces. fold colonStyle. rewrite replaceBraces_colonStyle by done.
  unfold replaceColons, colonStyle.
  rewrite (replaceColons_render (fun name => name)) by auto.
  by rewrite canonicalPath_truthy.
Qed.

Lemma normalizePath_braceStyle (template : list segment) (n : nat) :
  template <> [] -> Forall wf_segment template ->
  normalizePath (braceStyle template ++ slashes n) = canonicalPath template.
Proof.
  intros Hne Hwf. unfold normalizePath.
  assert (Hchars : forall name, sall plain_char name = true ->
            sall (fun c => negb (is_ws c) && negb (Ascii.eqb "/" c))
                 ("{" ++ name ++ "}") = true).
  { intros name Hname. rewrite sapp_cons, sapp_nil_l. simpl. rewrite sall_app.
    apply andb_true_iff. split; [|done]. revert Hname.
    apply sall_impl. intros c Hc.
    destruct (plain_char_facts c Hc) as (-> & _ & _ & _ & _ & _ & ->). done. }
  assert (truthy (braceStyle template ++ slashes n) = true) as ->
    by (by destruct template).
  simpl. rewrite trim_id.
  2: { rewrite sall_app. apply andb_true_iff. split.
       - by apply render_no_ws.
       - clear. induction n; simpl; auto. }
  unfold braceStyle. rewrite render_strip_slashes by done.
  unfold replaceBraces. fold braceStyle. rewrite replaceBraces_braceStyle by done.
  unfold replaceColons, canonicalPath.
  rewrite (replaceColons_render (fun _ => "param")) by auto.
  by rewrite canonicalPath_truthy.
Qed.

(** C4. [normalizePath] maps a path written with [:name] placeholders and
    the same path written with [{name}] placeholders to one canonical key,
    in which every placeholder is the token [:param] and trailing slashes
    are gone; the code endpoint [GET /users/:id] compared with the
    documented endpoint [GET /users/{id}] gives no finding. *)
Theorem normalizePath_placeholder_styles
  (template : list segment) (i j : nat) (config : Config.t) (fullScan : bool) :
  template <> [] -> Forall wf_segment template ->
  normalizePath (colonStyle template ++ slashes i) = canonicalPath template
  /\ normalizePath (braceStyle template ++ slashes j) = canonicalPath template
  /\ compareEndpoints
       [ {| Entity.type := "endpoint"; Entity.name := "GET /users/:id";
            Entity.signature := "GET /users/:id"; Entity.file := "src/api.js";
            Entity.line := 1 |} ]
       [ {| DocEntry.file := "README.md"; DocEntry.content := "GET /users/{id}" |} ]
       config fullScan = Normal [].
Proof.
  intros Hne Hwf. split; [|split].
  - by apply normalizePath_colonStyle.
  - by apply normalizePath_braceStyle.
  - destruct fullScan; vm_compute; reflexivity.
Qed.

Lemma normalizePath_placeholder_styles_witness :
  let template := [Static "users"; Placeholder "id"] in
  let config := {| Config.severity_docsDrift := "warning";
                   Config.severity_logicDrift := "error" |} in
  template <> [] /\ Forall wf_segment template
  /\ normalizePath (colonStyle template ++ slashes 0) = canonicalPath template
  /\ normalizePath (braceStyle template ++ slashes 1) = canonicalPath template
  /\ compareEndpoints
       [ {| Entity.type := "endpoint"; Entity.name := "GET /users/:id";
            Entity.signature := "GET /users/:id"; Entity.file := "src/api.js";
            Entity.line := 1 |} ]
       [ {| DocEntry.file := "README.md"; DocEntry.content := "GET /users/{id}" |} ]
       config true = Normal [].
Proof.
  intros template config.
  assert (Hne : template <> []) by discriminate.
  assert (Hwf : Forall wf_segment template) by (repeat constructor).
  split; [exact Hne|]. split; [exact Hwf|].
  exact (normalizePath_placeholder_styles template 0 1 config true Hne Hwf).
Defined.

(** ** Function comparison *)

(** *** The choice among documented variants *)

(** The invariant of the loop of [chooseBestParamMatch]: either no variant
    seen so far scores above -1 and [best] is still its initial value, or
    [best] is the first of the variants seen so far with the highest score,
    and that score is not negative. *)
Lemma chooseBest_fold (codeParams : list string) (variants seen_ : list Variant.t)
  (first : option Variant.t) (best : option Variant.t) (score : Z) :
  ((best = first /\ score = (-1)%Z
    /\ forall v, In v seen_ -> (paramScore codeParams v <= -1)%Z)
   \/ (exists pre b post, best = Some b /\ seen_ = (pre ++ b :: post)%list
       /\ score = paramScore codeParams b /\ (0 <= score)%Z
       /\ (forall v, In v pre -> (paramScore codeParams v < score)%Z)
       /\ (forall v, In v post -> (paramScore codeParams v <= score)%Z))) ->
  let out := List.fold_left (chooseBest_step codeParams) variants (best, score) in
  (fst out = first
   /\ forall v, In v (seen_ ++ variants)%list -> (paramScore codeParams v <= -1)%Z)
  \/ (exists pre b post, fst out = Some b /\ (seen_ ++ variants)%list = (pre ++ b :: post)%list
      /\ (0 <= paramScore codeParams b)%Z
      /\ (forall v, In v pre -> (paramScore codeParams v < paramScore codeParams b)%Z)
      /\ (forall v, In v post -> (paramScore codeParams v <= paramScore codeParams b)%Z)).
Proof.
  revert seen_ best score. induction variants as [|v variants IH]; intros seen_ best score Hinv.
  - simpl. rewrite app_nil_r. destruct Hinv as [(-> & -> & Hlow)|Hbest].
    + by left.
    + destruct Hbest as (pre & b & post & -> & -> & -> & Hpos & Hpre & Hpost).
      right. by exists pre, b, post.
  - replace (seen_ ++ v :: variants)%list
      with ((seen_ ++ [v]) ++ variants)%list by (by rewrite <- app_assoc).
    cbn [List.fold_left].
    assert (chooseBest_step codeParams (best, score) v
            = if (score <? paramScore codeParams v)%Z
              then (Some v, paramScore codeParams v) else (best, score)) as ->
      by reflexivity.
    destruct (score <? paramScore codeParams v)%Z eqn:Hlt.
    + apply Z.ltb_lt in Hlt. apply IH. right.
      exists seen_, v, []. repeat split; try done.
      * destruct Hinv as [(_ & -> & _)|(_ & _ & _ & _ & _ & _ & Hpos & _)]; lia.
      * intros w Hw.
        destruct Hinv as [(_ & -> & Hlow)|(pre & b & post & _ & -> & -> & _ & Hpre & Hpost)].
        -- specialize (Hlow w Hw). lia.
        -- apply in_app_or in Hw as [Hw|[<-|Hw]].
           ++ specialize (Hpre w Hw). lia.
           ++ lia.
           ++ specialize (Hpost w Hw). lia.
    + apply Z.ltb_ge in Hlt. apply IH.
      destruct Hinv as [(-> & -> & Hlow)|(pre & b & post & -> & -> & -> & Hpos & Hpre & Hpost)].
      * left. repeat split; try done. intros w Hw.
        apply in_app_or in Hw as [Hw|[<-|[]]]; [by apply Hlow | lia].
      * right. exists pre, b, (post ++ [v])%list. repeat split; try done.
        -- by rewrite <- app_assoc.
        -- intros w Hw. apply in_app_or in Hw as [Hw|[<-|[]]]; [by apply Hpost | lia].
Qed.

(** What [chooseBestParamMatch] returns: the first variant with the highest
    score when some score is not negative, and the first documented variant
    when every score is negative. *)
Lemma chooseBestParamMatch_spec (codeParams : list string) (variants : list Variant.t) :
  (chooseBestParamMatch codeParams variants = head variants
   /\ forall v, In v variants -> (paramScore codeParams v <= -1)%Z)
  \/ (exists pre b post,
        chooseBestParamMatch codeParams variants = Some b
        /\ variants = (pre ++ b :: post)%list
        /\ (0 <= paramScore codeParams b)%Z
        /\ (forall v, In v pre -> (paramScore codeParams v < paramScore codeParams b)%Z)
        /\ (forall v, In v post -> (paramScore codeParams v <= paramScore codeParams b)%Z)).
Proof.
  unfold chooseBestParamMatch.
  apply (chooseBest_fold codeParams variants [] (head variants) (head variants) (-1)%Z).
  left. repeat split; try done.
Qed.

(** The three-way classification of [compareFunctions]. *)
Lemma mismatchFinding_type (config : Config.t) (fn : Entity.t)
  (codeParams : list string) (best : Variant.t) :
  let missing := difference codeParams (Variant.params best) in
  let extra := difference (Variant.params best) codeParams in
  (missing <> [] -> extra = [] ->
   Finding.type (mismatchFinding config fn codeParams best) = "function-missing-params")
  /\ (extra <> [] -> missing = [] ->
      Finding.type (mismatchFinding config fn codeParams best) = "function-extra-params")
  /\ (missing <> [] -> extra <> [] ->
      Finding.type (mismatchFinding config fn codeParams best)
      = "function-signature-mismatch").
Proof.
  unfold mismatchFinding.
  destruct (difference codeParams (Variant.params best)) as [|m ms];
    destruct (difference (Variant.params best) codeParams) as [|e es];
    simpl; repeat split; intros; done.
Qed.

(** C1, on the code. With code parameters [a, b, c, d] and the documented
    variants [f(x, y)] and [f(a)], in this order, the scores are -6 and -1:
    the second variant has the highest score and leaves only code-side
    parameters undocumented, which is a [function-missing-params] finding.
    [chooseBestParamMatch] starts from the score -1 and replaces its choice
    on a strictly higher score only, so it keeps the first variant, and
    [compareFunctions] reports [function-signature-mismatch] against
    [f(x, y)]. *)
Theorem chooseBestParamMatch_negative_scores :
  let codeParams := ["a"; "b"; "c"; "d"] in
  let first := {| Variant.params := ["x"; "y"]; Variant.file := "README.md";
                  Variant.signature := "f(x, y)" |} in
  let second := {| Variant.params := ["a"]; Variant.file := "README.md";
                   Variant.signature := "f(a)" |} in
  let fn := {| Entity.type := "function"; Entity.name := "f";
               Entity.signature := "f(a, b, c, d)"; Entity.file := "src/f.js";
               Entity.line := 1 |} in
  let docs := [ {| DocEntry.file := "README.md";
                   DocEntry.content := "f(x, y) or f(a)" |} ] in
  let config := {| Config.severity_docsDrift := "warning";
                   Config.severity_logicDrift := "error" |} in
  paramScore codeParams first = (-6)%Z
  /\ paramScore codeParams second = (-1)%Z
  /\ chooseBestParamMatch codeParams [first; second] = Some first
  /\ Finding.type (mismatchFinding config fn codeParams second) = "function-missing-params"
  /\ compareFunctions [fn] docs config false
     = Normal [ docsFinding config "function-signature-mismatch" "src/f.js"
                  "Docs mention f(x, y) but code uses f(a, b, c, d)."
                  "Update docs or code to align parameters." ].
Proof. vm_compute. repeat split; reflexivity. Qed.

(** *** Exact matches *)

(** [docByName] keeps every variant it was given. *)
Lemma addDocVariant_keeps (docByName docByName' : gmap string (list Variant.t))
  (docFn : DocFunction.t) (key : string) (variants : list Variant.t) (v : Variant.t) :
  addDocVariant docByName docFn = Normal docByName' ->
  docByName !! key = Some variants -> In v variants ->
  exists variants', docByName' !! key = Some variants' /\ In v variants'.
Proof.
  unfold addDocVariant.
  destruct (normalizeParamList (DocFunction.params docFn)) as [params| |]; simpl; try done.
  intros [= <-] Hkey Hv.
  destruct (decide (DocFunction.name docFn = key)) as [->|Hne].
  - rewrite lookup_insert_eq, Hkey. simpl. eexists. split; [done|].
    apply in_or_app. by left.
  - rewrite lookup_insert_ne by done. eauto.
Qed.

Lemma addDocVariant_adds (docByName docByName' : gmap string (list Variant.t))
  (docFn : DocFunction.t) (params : list string) :
  addDocVariant docByName docFn = Normal docByName' ->
  normalizeParamList (DocFunction.params docFn) = Normal params ->
  exists variants v,
    docByName' !! DocFunction.name docFn = Some variants
    /\ In v variants /\ Variant.params v = params.
Proof.
  unfold addDocVariant. intros Hadd Hparams. rewrite Hparams in Hadd. simpl in Hadd.
  injection Hadd as <-. rewrite lookup_insert_eq.
  eexists _, _. split; [done|].
  split; [apply in_or_app; right; by left | done].
Qed.

Lemma docByName_keeps (docFunctions : list DocFunction.t)
  (docByName docByName' : gmap string (list Variant.t))
  (key : string) (variants : list Variant.t) (v : Variant.t) :
  foldM addDocVariant docByName docFunctions = Normal docByName' ->
  docByName !! key = Some variants -> In v variants ->
  exists variants', docByName' !! key = Some variants' /\ In v variants'.
Proof.
  revert docByName variants. induction docFunctions as [|d l IH]; simpl;
    intros docByName variants.
  - intros [= <-]. eauto.
  - destruct (addDocVariant docByName d) as [m| |] eqn:Hadd; simpl; try done.
    intros Hfold Hkey Hv.
    destruct (addDocVariant_keeps _ _ _ _ _ _ Hadd Hkey Hv) as (variants' & Hkey' & Hv').
    eauto.
Qed.

(** Every documented function is a variant under its name, with its
    normalised parameter list. *)
Lemma docByName_has (docFunctions : list DocFunction.t)
  (docByName docByName' : gmap string (list Variant.t))
  (docFn : DocFunction.t) (params : list string) :
  foldM addDocVariant docByName docFunctions = Normal docByName' ->
  In docFn docFunctions ->
  normalizeParamList (DocFunction.params docFn) = Normal params ->
  exists variants v,
    docByName' !! DocFunction.name docFn = Some variants
    /\ In v variants /\ Variant.params v = params.
Proof.
  revert docByName. induction docFunctions as [|d l IH]; simpl; intros docByName; [done|].
  destruct (addDocVariant docByName d) as [m| |] eqn:Hadd; simpl; try done.
  intros Hfold [->|Hin] Hparams.
  - destruct (addDocVariant_adds _ _ _ _ Hadd Hparams) as (variants & v & Hkey & Hv & Hp).
    destruct (docByName_keeps _ _ _ _ _ _ Hfold Hkey Hv) as (variants' & Hkey' & Hv').
    eauto.
  - eauto.
Qed.

(** The body of the main loop on a fact that has a variant with its
    parameter list. *)
Lemma compareFunctions_step_exact (docByName : gmap string (list Variant.t))
  (config : Config.t) (st : FnLoop) (fn : Entity.t)
  (codeParams : list string) (variants : list Variant.t) (v : Variant.t) :
  normalizeParamList (extractSignatureParams (Entity.signature fn)) = Normal codeParams ->
  docByName !! Entity.name fn = Some variants ->
  In v variants -> Variant.params v = codeParams ->
  exists st', compareFunctions_step docByName config st fn = Normal st'
              /\ results st' = results st.
Proof.
  intros Hcode Hdoc Hv Hparams. unfold compareFunctions_step.
  rewrite Hcode. simpl. case_bool_decide; [by eexists|].
  rewrite Hdoc. destruct variants as [|v0 variants]; [done|].
  assert (existsb (fun variant =>
                     String.eqb (paramKey (Variant.params variant)) (paramKey codeParams))
                  (v0 :: variants) = true) as ->.
  { apply existsb_exists. exists v. split; [done|]. rewrite Hparams. apply String.eqb_refl. }
  by eexists.
Qed.

(** C5. A code function fact that has a documented variant with the same
    name and an identical normalised parameter list adds no finding: the
    turn of the main loop of [compareFunctions] for this fact returns and
    leaves [results] as it was. *)
Theorem compareFunctions_exact_match_no_finding
  (docFunctions : list DocFunction.t) (docByName : gmap string (list Variant.t))
  (config : Config.t) (st : FnLoop) (fn : Entity.t) (docFn : DocFunction.t)
  (codeParams : list string) :
  foldM addDocVariant ∅ docFunctions = Normal docByName ->
  In docFn docFunctions ->
  DocFunction.name docFn = Entity.name fn ->
  normalizeParamList (extractSignatureParams (Entity.signature fn)) = Normal codeParams ->
  normalizeParamList (DocFunction.params docFn) = Normal codeParams ->
  exists st', compareFunctions_step docByName config st fn = Normal st'
              /\ results st' = results st.
Proof.
  intros Hmap Hin Hname Hcode Hdoc.
  destruct (docByName_has _ _ _ _ _ Hmap Hin Hdoc) as (variants & v & Hkey & Hv & Hp).
  rewrite Hname in Hkey. by eapply compareFunctions_step_exact.
Qed.

Lemma compareFunctions_exact_match_no_finding_witness :
  let docFn := {| DocFunction.name := "createUser";
                  DocFunction.params := "email, password";
                  DocFunction.signature := "createUser(email, password)";
                  DocFunction.file := "README.md" |} in
  let fn := {| Entity.type := "function"; Entity.name := "createUser";
               Entity.signature := "createUser(email, password)";
               Entity.file := "src/users.js"; Entity.line := 1 |} in
  let docByName : gmap string (list Variant.t) :=
    {[ "createUser" := [ {| Variant.params := ["email"; "password"];
                            Variant.file := "README.md";
                            Variant.signature := "createUser(email, password)" |} ] ]} in
  let config := {| Config.severity_docsDrift := "warning";
                   Config.severity_logicDrift := "error" |} in
  let st := {| results := []; codeNames := ∅; seen := ∅ |} in
  foldM addDocVariant ∅ [docFn] = Normal docByName
  /\ In docFn [docFn]
  /\ DocFunction.name docFn = Entity.name fn
  /\ normalizeParamList (extractSignatureParams (Entity.signature fn))
     = Normal ["email"; "password"]
  /\ normalizeParamList (DocFunction.params docFn) = Normal ["email"; "password"]
  /\ exists st', compareFunctions_step docByName config st fn = Normal st'
                 /\ results st' = results st.
Proof.
  intros docFn fn docByName config st.
  assert (H1 : foldM addDocVariant ∅ [docFn] = Normal docByName) by (vm_compute; reflexivity).
  assert (H2 : In docFn [docFn]) by (simpl; auto).
  assert (H3 : DocFunction.name docFn = Entity.name fn) by reflexivity.
  assert (H4 : normalizeParamList (extractSignatureParams (Entity.signature fn))
               = Normal ["email"; "password"]) by (vm_compute; reflexivity).
  assert (H5 : normalizeParamList (DocFunction.params docFn) = Normal ["email"; "password"])
    by (vm_compute; reflexivity).
  repeat (split; [assumption|]).
  exact (compareFunctions_exact_match_no_finding
           [docFn] docByName config st fn docFn ["email"; "password"] H1 H2 H3 H4 H5).
Defined.

(** When every code function has such a variant, the whole comparison
    without full scan returns the empty list. *)
Lemma compareFunctions_all_exact (entities : list Entity.t) (docEntries : list DocEntry.t)
  (docFunctions : list DocFunction.t) (docByName : gmap string (list Variant.t))
  (config : Config.t) :
  extractDocFunctions docEntries = Normal docFunctions ->
  foldM addDocVariant ∅ docFunctions = Normal docByName ->
  (forall fn, In fn entities -> Entity.type fn = "function" ->
     exists docFn codeParams,
       In docFn docFunctions /\ DocFunction.name docFn = Entity.name fn
       /\ normalizeParamList (extractSignatureParams (Entity.signature fn))
          = Normal codeParams
       /\ normalizeParamList (DocFunction.params docFn) = Normal codeParams) ->
  compareFunctions entities docEntries config false = Normal [].
Proof.
  intros Hdocs Hmap Hall. unfold compareFunctions.
  set (codeFunctions := List.filter _ entities).
  destruct (length codeFunctions =? 0)%nat; [done|].
  rewrite Hdocs. simpl. rewrite Hmap. simpl.
  assert (Hloop : forall st, exists st',
            foldM (compareFunctions_step docByName config) st codeFunctions = Normal st'
            /\ results st' = results st).
  { assert (Hfn : forall fn, In fn codeFunctions ->
              In fn entities /\ Entity.type fn = "function").
    { intros fn Hin. apply List.filter_In in Hin as [Hin Hty].
      split; [done|]. by apply String.eqb_eq. }
    clearbody codeFunctions. induction codeFunctions as [|fn l IH]; intros st.
    - by exists st.
    - destruct (Hfn fn (or_introl eq_refl)) as [Hin Hty].
      destruct (Hall fn Hin Hty) as (docFn & codeParams & Hd & Hname & Hc & Hp).
      destruct (docByName_has _ _ _ _ _ Hmap Hd Hp) as (variants & v & Hkey & Hv & Hpv).
      rewrite Hname in Hkey.
      destruct (compareFunctions_step_exact docByName config st fn codeParams variants v
                  Hc Hkey Hv Hpv) as (st1 & Hstep & Hres).
      simpl. rewrite Hstep. simpl.
      destruct (IH (fun f Hf => Hfn f (or_intror Hf)) st1) as (st' & Hfold & Hres').
      exists st'. split; [done|]. congruence. }
  destruct (Hloop {| results := []; codeNames := ∅; seen := ∅ |}) as (st' & -> & Hres).
  simpl. by rewrite Hres.
Qed.

(** ** Payload key renames *)

Lemma test_stateless (matcher : RegExp) (key : string) :
  global matcher = false -> sticky matcher = false ->
  snd (test matcher key) = matcher.
Proof.
  intros Hg Hy. unfold test, exec. rewrite Hg, Hy. simpl.
  rewrite drop_0.
  by destruct (search _ _ _ _) as [[i out]|].
Qed.

Lemma some_test_stateless (key : string) (allowlist : list RegExp) :
  stateless allowlist ->
  some_test key allowlist = (in_allowlist key allowlist, allowlist).
Proof.
  induction 1 as [|matcher rest [Hg Hy] _ IH]; [done|].
  simpl. pose proof (test_stateless matcher key Hg Hy) as Hsnd.
  destruct (test matcher key) as [ok matcher']. simpl in *. subst matcher'.
  destruct ok; [done|]. by rewrite IH.
Qed.

Lemma matchesAllowlist_stateless (key : string) (allowlist : list RegExp) :
  stateless allowlist ->
  matchesAllowlist key allowlist
  = (bool_decide (allowlist = []) || in_allowlist key allowlist, allowlist).
Proof.
  intros Hs. unfold matchesAllowlist. destruct allowlist as [|m l]; [done|].
  by rewrite some_test_stateless.
Qed.

(** A rename becomes a finding when the documentation index has the old
    key and lacks the new one. *)
Lemma renameFinding_spec (config : Config.t) (docPayloadKeys : gmap string (list string))
  (file : string) (rename : Rename.t) :
  (renameFinding config docPayloadKeys file rename <> []
   <-> is_Some (docPayloadKeys !! Rename.oldKey rename)
       /\ docPayloadKeys !! Rename.newKey rename = None)
  /\ forall finding, In finding (renameFinding config docPayloadKeys file rename) ->
       Finding.type finding = "payload-key-rename".
Proof.
  unfold renameFinding.
  destruct (docPayloadKeys !! Rename.oldKey rename) as [files|] eqn:Hold.
  - case_bool_decide as Hnew.
    + split; [|by intros ? []]. split; [done|].
      intros [_ Hnone]. rewrite Hnone in Hnew. by destruct Hnew.
    + split.
      * split; [|done]. intros _. split; [by eexists|].
        by apply eq_None_not_Some.
      * intros finding [<-|[]]. done.
  - split; [|by intros ? []]. split; [done|]. intros [[? ?] _]. done.
Qed.

(** *** The diff, hunk by hunk *)

Lemma startsWith_cons (c : ascii) (p line : string) :
  startsWith (String c p) line
  = match line with
    | String d rest => Ascii.eqb c d && startsWith p rest
    | EmptyString => false
    end.
Proof.
  unfold startsWith. destruct line as [|d rest]; [done|]. simpl.
  destruct (ascii_dec c d) as [->|Hne].
  - by rewrite Ascii.eqb_refl.
  - by apply Ascii.eqb_neq in Hne as ->.
Qed.

Lemma startsWith_plus_minus (p q line : string) :
  startsWith (String "+" p) line = true -> startsWith (String "-" q) line = false.
Proof.
  rewrite !startsWith_cons. destruct line as [|d rest]; [done|].
  destruct (Ascii.eqb_spec "+" d) as [<-|]; [|done]. done.
Qed.

Lemma startsWith_sign (c : ascii) (p line : string) :
  startsWith (String c p) line = true -> startsWith (String c EmptyString) line = true.
Proof.
  rewrite !startsWith_cons. destruct line as [|d rest]; [done|].
  intros [-> _]%andb_true_iff. by destruct rest.
Qed.

Lemma changedLineKeys_Normal (line : string) :
  extractPayloadKeysFromLine (slice_from 1 line) = Normal (changedLineKeys line).
Proof.
  unfold changedLineKeys.
  by destruct (extractPayloadKeysFromLine_total (slice_from 1 line)) as [keys ->].
Qed.

(** The turn of the loop for one line. *)
Lemma diffLine_step_eq (st : HunkState) (line : string) :
  diffLine_step st line
  = Normal (if startsWith "@@" line then finalizeHunk st
            else if readAsAdded line then
              {| renames := renames st; removed := removed st;
                 added := (added st ++ changedLineKeys line)%list;
                 matchers := matchers st |}
            else if readAsRemoved line then
              {| renames := renames st;
                 removed := (removed st ++ changedLineKeys line)%list;
                 added := added st; matchers := matchers st |}
            else st).
Proof.
  unfold diffLine_step, readAsAdded, readAsRemoved. rewrite changedLineKeys_Normal.
  destruct (startsWith "@@" line); [done|].
  destruct (startsWith "+++" line) eqn:Hp3.
  { apply startsWith_sign in Hp3 as Hp1. rewrite Hp1.
    by rewrite (startsWith_plus_minus _ EmptyString line Hp1). }
  destruct (startsWith "---" line) eqn:Hm3.
  { apply startsWith_sign in Hm3 as Hm1. rewrite Hm1.
    destruct (startsWith "+" line) eqn:Hp1; [|done].
    by rewrite (startsWith_plus_minus _ EmptyString line Hp1) in Hm1. }
  simpl. rewrite !andb_true_r.
  destruct (startsWith "+" line); [done|]. by destruct (startsWith "-" line).
Qed.

(** What [finalizeHunk] does, for matchers without state. *)
Lemma finalizeHunk_eq (st : HunkState) :
  stateless (matchers st) ->
  finalizeHunk st
  = {| renames := (renames st
                   ++ renameCandidate (matchers st) (removed st) (added st))%list;
       removed := []; added := []; matchers := matchers st |}.
Proof.
  intros Hs. unfold finalizeHunk, renameCandidate.
  destruct ((length (removed st) =? 0)%nat && (length (added st) =? 0)%nat) eqn:Hempty.
  { apply andb_true_iff in Hempty as [Hr Ha].
    apply Nat.eqb_eq, nil_length_inv in Hr. apply Nat.eqb_eq, nil_length_inv in Ha.
    destruct st as [rs r a ms]. simpl in *. subst. by rewrite app_nil_r. }
  destruct (uniqueKeys (removed st)) as [|oldKey [|? ?]]; try by rewrite app_nil_r.
  destruct (uniqueKeys (added st)) as [|newKey [|? ?]]; try by rewrite app_nil_r.
  destruct (String.eqb oldKey newKey); simpl; [by rewrite app_nil_r|].
  rewrite !matchesAllowlist_stateless by done.
  destruct (bool_decide (matchers st = []) || in_allowlist oldKey (matchers st))
    eqn:Hold; simpl; [done|].
  apply orb_false_iff in Hold as [-> _]. simpl.
  destruct (in_allowlist newKey (matchers st)); [done|]. by rewrite app_nil_r.
Qed.

Lemma hunksOf_cons (lines : list string) : exists hunk hunks, hunksOf lines = hunk :: hunks.
Proof.
  induction lines as [|line rest (hunk & hunks & IH)]; [by eexists _, _|].
  simpl. destruct (startsWith "@@" line); [by eexists _, _|]. rewrite IH. by eexists _, _.
Qed.

Lemma keysRead_cons (read : string -> bool) (line : string) (hunk : list string) :
  keysRead read (line :: hunk)
  = ((if read line then changedLineKeys line else []) ++ keysRead read hunk)%list.
Proof. unfold keysRead. simpl. by destruct (read line). Qed.

Lemma readAsAdded_not_removed (line : string) :
  readAsAdded line = true -> readAsRemoved line = false.
Proof.
  unfold readAsAdded, readAsRemoved. intros [Hp _]%andb_true_iff.
  by rewrite (startsWith_plus_minus _ EmptyString line Hp).
Qed.

(** The loop over the lines, from any state: the keys collected so far go
    to the first hunk of the lines that follow. *)
Lemma diffLines_fold (lines : list string) :
  forall st : HunkState,
    stateless (matchers st) ->
    exists st' hunk hunks,
      foldM diffLine_step st lines = Normal st'
      /\ matchers st' = matchers st
      /\ hunksOf lines = hunk :: hunks
      /\ renames (finalizeHunk st')
         = (renames st
            ++ renameCandidate (matchers st)
                 (removed st ++ keysRead readAsRemoved hunk)
                 (added st ++ keysRead readAsAdded hunk)
            ++ flat_map (candidateOf (matchers st)) hunks)%list.
Proof.
  induction lines as [|line rest IH]; intros st Hs.
  - exists st, [], []. split; [done|]. split; [done|]. split; [done|].
    rewrite finalizeHunk_eq by done. unfold keysRead. simpl. by rewrite !app_nil_r.
  - cbn [foldM]. rewrite diffLine_step_eq. cbn [mbind completion_bind hunksOf].
    destruct (startsWith "@@" line).
    + rewrite finalizeHunk_eq by done.
      edestruct IH as (st' & hunk & hunks & -> & Hm & -> & Hr); [done|].
      exists st', [], (hunk :: hunks). cbn [renames removed added matchers] in *.
      split; [done|]. split; [done|]. split; [done|]. rewrite Hr.
      unfold keysRead at 3 4. unfold candidateOf at 2. simpl.
      by rewrite !app_nil_r, <- app_assoc.
    + destruct (readAsAdded line) eqn:Hadded.
      * pose proof (readAsAdded_not_removed line Hadded) as Hremoved.
        edestruct IH as (st' & hunk & hunks & -> & Hm & -> & Hr); [done|].
        exists st', (line :: hunk), hunks. cbn [renames removed added matchers] in *.
        split; [done|]. split; [done|]. split; [done|]. rewrite Hr.
        rewrite !keysRead_cons, Hadded, Hremoved. by rewrite <- app_assoc.
      * destruct (readAsRemoved line) eqn:Hremoved.
        -- edestruct IH as (st' & hunk & hunks & -> & Hm & -> & Hr); [done|].
           exists st', (line :: hunk), hunks. cbn [renames removed added matchers] in *.
           split; [done|]. split; [done|]. split; [done|]. rewrite Hr.
           rewrite !keysRead_cons, Hadded, Hremoved. by rewrite <- app_assoc.
        -- edestruct IH as (st' & hunk & hunks & -> & Hm & -> & Hr); [done|].
           exists st', (line :: hunk), hunks.
           split; [done|]. split; [done|]. split; [done|]. rewrite Hr.
           by rewrite !keysRead_cons, Hadded, Hremoved.
Qed.

(** [findPayloadKeyRenames], for matchers without state: the candidates of
    the hunks, in their order. *)
Lemma findPayloadKeyRenames_renamesOf (diffText : string) (allowlist : list RegExp) :
  stateless allowlist ->
  findPayloadKeyRenames diffText allowlist = Normal (renamesOf allowlist diffText, allowlist).
Proof.
  intros Hs. unfold findPayloadKeyRenames, renamesOf.
  destruct (diffLines_fold (split_char "010" diffText)
              {| renames := []; removed := []; added := []; matchers := allowlist |} Hs)
    as (st' & hunk & hunks & -> & Hm & -> & Hrenames).
  cbn [mbind completion_bind]. rewrite Hrenames.
  rewrite finalizeHunk_eq by (by rewrite Hm). by rewrite Hm.
Qed.

(** In a hunk without a line of three signs, the lines read as removed
    and as added are the removed and the added lines. *)
Lemma keysRead_noFileHeader (hunk : list string) :
  noFileHeader hunk ->
  uniqueKeys (keysRead readAsRemoved hunk) = fieldTokens (removedLines hunk)
  /\ uniqueKeys (keysRead readAsAdded hunk) = fieldTokens (addedLines hunk).
Proof.
  intros Hplain. unfold keysRead, fieldTokens, removedLines, addedLines.
  assert (List.filter readAsRemoved hunk = List.filter (startsWith "-") hunk
          /\ List.filter readAsAdded hunk = List.filter (startsWith "+") hunk) as [-> ->];
    [|done].
  induction Hplain as [|line hunk [Hp3 Hm3] _ [IHr IHa]]; [done|].
  simpl. unfold readAsRemoved at 1, readAsAdded at 1. rewrite Hp3, Hm3, !andb_true_r.
  by rewrite IHr, IHa.
Qed.

(** When a candidate is declared, by the keys of the two sides. *)
Lemma renameCandidate_spec (allowlist : list RegExp) (removedKeys addedKeys : list string) :
  (renameCandidate allowlist removedKeys addedKeys = []
   \/ exists rename, renameCandidate allowlist removedKeys addedKeys = [rename])
  /\ forall oldKey newKey,
       renameCandidate allowlist removedKeys addedKeys
       = [ {| Rename.oldKey := oldKey; Rename.newKey := newKey |} ]
       <-> uniqueKeys removedKeys = [oldKey]
           /\ uniqueKeys addedKeys = [newKey]
           /\ oldKey <> newKey
           /\ (allowlist = []
               \/ in_allowlist oldKey allowlist = true
               \/ in_allowlist newKey allowlist = true).
Proof.
  unfold renameCandidate.
  destruct (uniqueKeys removedKeys) as [|o [|? ?]];
    try (split; [by left|]; intros oldKey newKey;
         split; [done | by intros [[=] _]]).
  destruct (uniqueKeys addedKeys) as [|n [|? ?]];
    try (split; [by left|]; intros oldKey newKey;
         split; [done | by intros (_ & [=] & _)]).
  destruct (String.eqb_spec o n) as [->|Hne]; simpl.
  { split; [by left|]. intros oldKey newKey. split; [done|].
    intros ([= <-] & [= <-] & Hdiff & _). done. }
  destruct (bool_decide (allowlist = []) || in_allowlist o allowlist
            || in_allowlist n allowlist) eqn:Hallow.
  - split; [right; by eexists|]. intros oldKey newKey. split.
    + intros [= <- <-]. repeat split; try done.
      apply orb_true_iff in Hallow as [Hallow|Hallow]; [|by auto].
      apply orb_true_iff in Hallow as [Hallow|Hallow]; [|by auto].
      left. by apply bool_decide_eq_true in Hallow.
    + by intros ([= <-] & [= <-] & _).
  - split; [by left|]. intros oldKey newKey. split; [done|].
    intros ([= <-] & [= <-] & _ & Hor).
    apply orb_false_iff in Hallow as [Hallow Hn].
    apply orb_false_iff in Hallow as [Hempty Ho].
    apply bool_decide_eq_false in Hempty.
    destruct Hor as [?|[?|?]]; [done | congruence | congruence].
Qed.

(** The loop of [comparePayloadKeyRenames] over the changed files. *)
Lemma comparePayloadKeyRenames_fold (getFileDiff : string -> string)
  (docPayloadKeys : gmap string (list string)) (config : Config.t)
  (allowlist : list RegExp) (changedCodeFiles : list string) :
  stateless allowlist ->
  forall results : list Finding.t,
    foldM (fun '(results, allowlist) file =>
             let diff := getFileDiff file in
             if negb (truthy diff) then Normal (results, allowlist)
             else
               '(renames, allowlist') ← findPayloadKeyRenames diff allowlist;
               Normal ((results
                        ++ flat_map (renameFinding config docPayloadKeys file) renames)%list,
                       allowlist'))
          (results, allowlist) changedCodeFiles
    = Normal ((results
               ++ flat_map (fun file =>
                              flat_map (renameFinding config docPayloadKeys file)
                                       (renamesOf allowlist (getFileDiff file)))
                           changedCodeFiles)%list,
              allowlist).
Proof.
  intros Hs. induction changedCodeFiles as [|file files IH]; intros results.
  - simpl. by rewrite app_nil_r.
  - cbn [foldM flat_map]. cbv zeta.
    destruct (getFileDiff file) as [|c diff] eqn:Hdiff.
    + cbn [truthy is_empty negb mbind completion_bind]. rewrite IH.
      assert (renamesOf allowlist EmptyString = []) as -> by reflexivity. done.
    + cbn [truthy is_empty negb]. rewrite findPayloadKeyRenames_renamesOf by done.
      cbn [mbind completion_bind]. rewrite IH. by rewrite <- app_assoc.
Qed.

(** C2, as the code has it, for an allowlist whose matchers have neither
    the flag [g] nor the flag [y]. [findPayloadKeyRenames] returns on every
    diff, leaves the allowlist as it is, and returns the candidates it
    declares hunk by hunk, none or one for each hunk. For a hunk without a
    line that starts with three minus or three plus signs it declares the
    candidate (old, new) exactly when the distinct field tokens of the
    removed lines are the singleton old, those of the added lines the
    singleton new, the two differ, and the compiled allowlist is empty or
    one of its matchers accepts one of the two keys.
    [comparePayloadKeyRenames] reports for each changed file the findings
    of the candidates of its diff, and a candidate gives a finding, of type
    payload-key-rename, exactly when the documentation index has the old
    key and not the new one. *)
Theorem findPayloadKeyRenames_candidates (diffText : string) (allowlist : list RegExp)
  (config : Config.t) (docPayloadKeys : gmap string (list string)) :
  stateless allowlist ->
  (exists declared : list (list Rename.t),
     findPayloadKeyRenames diffText allowlist = Normal (concat declared, allowlist)
     /\ Forall2 (fun hunk renames =>
                   (renames = [] \/ exists rename, renames = [rename])
                   /\ (noFileHeader hunk ->
                       forall oldKey newKey,
                         renames = [ {| Rename.oldKey := oldKey; Rename.newKey := newKey |} ]
                         <-> fieldTokens (removedLines hunk) = [oldKey]
                             /\ fieldTokens (addedLines hunk) = [newKey]
                             /\ oldKey <> newKey
                             /\ (allowlist = []
                                 \/ in_allowlist oldKey allowlist = true
                                 \/ in_allowlist newKey allowlist = true)))
                (hunksOf (split_char "010" diffText)) declared)
  /\ (forall (new_RegExp : string -> string -> completion RegExp)
             (changedCodeFiles : list string) (getFileDiff : string -> string)
             (ruleAllowlist configAllowlist : option (list AllowEntry)),
        compileAllowlist new_RegExp
          (match ruleAllowlist with
           | Some entries => entries
           | None => default [] configAllowlist
           end) = Normal allowlist ->
        exists renames : string -> list Rename.t,
          (forall file,
             findPayloadKeyRenames (getFileDiff file) allowlist
             = Normal (renames file, allowlist))
          /\ comparePayloadKeyRenames new_RegExp changedCodeFiles getFileDiff
               docPayloadKeys config ruleAllowlist configAllowlist
             = Normal (flat_map (fun file =>
                                   flat_map (renameFinding config docPayloadKeys file)
                                            (renames file))
                                changedCodeFiles))
  /\ (forall file rename,
        (renameFinding config docPayloadKeys file rename <> []
         <-> is_Some (docPayloadKeys !! Rename.oldKey rename)
             /\ docPayloadKeys !! Rename.newKey rename = None)
        /\ forall finding, In finding (renameFinding config docPayloadKeys file rename) ->
             Finding.type finding = "payload-key-rename").
Proof.
  intros Hs. split; [|split].
  - exists (List.map (candidateOf allowlist) (hunksOf (split_char "010" diffText))).
    split.
    + rewrite findPayloadKeyRenames_renamesOf by done. unfold renamesOf.
      by rewrite flat_map_concat_map.
    + induction (hunksOf (split_char "010" diffText)) as [|hunk hunks IH];
        [constructor|].
      cbn [List.map]. constructor; [|exact IH].
      unfold candidateOf.
      destruct (renameCandidate_spec allowlist (keysRead readAsRemoved hunk)
                  (keysRead readAsAdded hunk)) as [Hone Hiff].
      split; [exact Hone|]. intros Hplain oldKey newKey.
      destruct (keysRead_noFileHeader hunk Hplain) as [<- <-]. apply Hiff.
  - intros new_RegExp changedCodeFiles getFileDiff ruleAllowlist configAllowlist Hcompile.
    exists (fun file => renamesOf allowlist (getFileDiff file)). split.
    + intros file. by apply findPayloadKeyRenames_renamesOf.
    + pose proof (comparePayloadKeyRenames_fold getFileDiff docPayloadKeys config allowlist
                    changedCodeFiles Hs []) as Hfold.
      unfold comparePayloadKeyRenames. rewrite Hcompile.
      cbn [mbind completion_bind] in Hfold |- *. by rewrite Hfold.
  - intros file rename. apply renameFinding_spec.
Qed.

Lemma findPayloadKeyRenames_candidates_witness :
  let q := String dquote EmptyString in
  let nl := String "010" EmptyString in
  let diff :=
    "@@ -1,3 +1,3 @@" ++ nl
    ++ "-const payload = { " ++ q ++ "user_id" ++ q ++ ": userId };" ++ nl
    ++ "+const payload = { " ++ q ++ "uid" ++ q ++ ": userId };" in
  let allowlist := [literalRegExp "user_id"] in
  stateless allowlist
  /\ exists declared : list (list Rename.t),
       findPayloadKeyRenames diff allowlist = Normal (concat declared, allowlist)
       /\ length declared = 2.
Proof.
  intros q nl diff allowlist.
  assert (Hs : stateless allowlist) by (repeat constructor).
  split; [exact Hs|].
  destruct (findPayloadKeyRenames_candidates diff allowlist testConfig ∅ Hs)
    as ((declared & Hrun & Hhunks) & _).
  exists declared. split; [exact Hrun|].
  apply Forall2_length in Hhunks. rewrite <- Hhunks. reflexivity.
Defined.

(** C2, as the specification states it, fails: with an empty allowlist the hunk that
    replaces the key [user_id] by [uid] is a rename candidate, although no
    entry of the allowlist accepts either key. *)
Lemma rename_candidate_with_empty_allowlist :
  let q := String dquote EmptyString in
  let nl := String "010" EmptyString in
  let diff :=
    "@@ -1,3 +1,3 @@" ++ nl
    ++ "-const payload = { " ++ q ++ "user_id" ++ q ++ ": userId };" ++ nl
    ++ "+const payload = { " ++ q ++ "uid" ++ q ++ ": userId };" in
  compileAllowlist (fun _ _ => Throw (Error "Invalid regular expression")) [] = Normal []
  /\ findPayloadKeyRenames diff []
     = Normal ([ {| Rename.oldKey := "user_id"; Rename.newKey := "uid" |} ], [])
  /\ ~ (in_allowlist "user_id" [] = true \/ in_allowlist "uid" [] = true).
Proof.
  vm_compute. split; [reflexivity|]. split; [reflexivity|]. intros [H|H]; discriminate H.
Qed.

(** The matchers must be without state for this: a matcher with the flag
    [g] remembers where its last match ended, and of two hunks that both
    replace [user_id] by [uid] only the first is a candidate under the
    allowlist entry [/user/g]. *)
Lemma rename_candidate_depends_on_lastIndex :
  let q := String dquote EmptyString in
  let nl := String "010" EmptyString in
  let hunk :=
    "@@ -1,3 +1,3 @@" ++ nl
    ++ "-const payload = { " ++ q ++ "user_id" ++ q ++ ": userId };" ++ nl
    ++ "+const payload = { " ++ q ++ "uid" ++ q ++ ": userId };" in
  fst <$> findPayloadKeyRenames (hunk ++ nl ++ hunk) [regexp (lit "user") true]
  = Normal [ {| Rename.oldKey := "user_id"; Rename.newKey := "uid" |} ]
  /\ fst <$> findPayloadKeyRenames (hunk ++ nl ++ hunk) [regexp (lit "user") false]
     = Normal [ {| Rename.oldKey := "user_id"; Rename.newKey := "uid" |};
                {| Rename.oldKey := "user_id"; Rename.newKey := "uid" |} ].
Proof. vm_compute. split; reflexivity. Qed.

(** C10, as the code has it. With an empty compiled allowlist, which is
    what [compileAllowlist] returns when no entry is configured,
    [matchesAllowlist] accepts every key, and [findPayloadKeyRenames]
    declares, for every hunk without a line that starts with three minus or
    three plus signs, the candidate (old, new) exactly when the removed
    lines have the single distinct token old, the added lines the single
    distinct token new, and old and new differ: neither key has to be in
    an allowlist. *)
Theorem matchesAllowlist_empty (new_RegExp : string -> string -> completion RegExp)
  (key diffText : string) :
  compileAllowlist new_RegExp [] = Normal []
  /\ matchesAllowlist key [] = (true, [])
  /\ exists declared : list (list Rename.t),
       findPayloadKeyRenames diffText [] = Normal (concat declared, [])
       /\ Forall2 (fun hunk renames =>
                     (renames = [] \/ exists rename, renames = [rename])
                     /\ (noFileHeader hunk ->
                         forall oldKey newKey,
                           renames
                           = [ {| Rename.oldKey := oldKey; Rename.newKey := newKey |} ]
                           <-> fieldTokens (removedLines hunk) = [oldKey]
                               /\ fieldTokens (addedLines hunk) = [newKey]
                               /\ oldKey <> newKey))
                  (hunksOf (split_char "010" diffText)) declared.
Proof.
  split; [done|]. split; [done|].
  assert (Hs : stateless []) by constructor.
  exists (List.map (candidateOf []) (hunksOf (split_char "010" diffText))). split.
  - rewrite findPayloadKeyRenames_renamesOf by done. unfold renamesOf.
    by rewrite flat_map_concat_map.
  - induction (hunksOf (split_char "010" diffText)) as [|hunk hunks IH]; [constructor|].
    cbn [List.map]. constructor; [|exact IH]. unfold candidateOf.
    destruct (renameCandidate_spec [] (keysRead readAsRemoved hunk)
                (keysRead readAsAdded hunk)) as [Hone Hiff].
    split; [exact Hone|]. intros Hplain oldKey newKey.
    destruct (keysRead_noFileHeader hunk Hplain) as [<- <-]. rewrite Hiff.
    split; [by intros (? & ? & ? & _)|]. intros (? & ? & ?). by auto.
Qed.

(** C10, as the specification states it, fails: the allowlist is empty and the
    hunk replaces the key [user_id] of a comment line by [uid], but the
    removed line, whose text starts with two dashes, starts with three in
    the diff and is passed over as a file header, so no candidate is
    declared. *)
Lemma rename_candidate_missed_after_dashes :
  let nl := String "010" EmptyString in
  let removedText := "-- user_id: the owner of the row" in
  let addedText := "-- uid: the owner of the row" in
  let diff := "@@ -1,3 +1,3 @@" ++ nl ++ "-" ++ removedText ++ nl ++ "+" ++ addedText in
  extractPayloadKeysFromLine removedText = Normal ["user_id"]
  /\ extractPayloadKeysFromLine addedText = Normal ["uid"]
  /\ "user_id" <> "uid"
  /\ findPayloadKeyRenames diff [] = Normal ([], []).
Proof.
  vm_compute. split; [reflexivity|]. split; [reflexivity|]. split; [discriminate|reflexivity].
Qed.


(** ** Deterministic comparisons *)

Lemma sapp_length (s t : string) :
  String.length (s ++ t) = (String.length s + String.length t)%nat.
Proof. induction s as [|c s IH]; [done|]. rewrite sapp_cons. simpl. by rewrite IH. Qed.

Lemma sapp_inv_tail (s t u : string) : s ++ u = t ++ u -> s = t.
Proof.
  revert t. induction s as [|c s IH]; intros [|d t] Heq; try done.
  - apply (f_equal String.length) in Heq. rewrite !sapp_length in Heq.
    simpl in Heq. lia.
  - apply (f_equal String.length) in Heq. rewrite !sapp_length in Heq.
    simpl in Heq. lia.
  - rewrite !sapp_cons in Heq. injection Heq as <- Heq. f_equal. by apply IH.
Qed.

Lemma sapp_inv_head (s t u : string) : u ++ s = u ++ t -> s = t.
Proof.
  induction u as [|c u IH]; [done|]. rewrite !sapp_cons. intros [= Heq]. by apply IH.
Qed.

Section ValueLoop.

Variables (compare valueType severity ruleName file label : string).
Variable policyValues : list string.

Let finding (codeValue : string) : Finding.t :=
  LogicDrift.mismatchFinding severity ruleName file label policyValues codeValue.

Let key (codeValue : string) : string := mismatchKey label policyValues codeValue.

Let seen_matches (st : LogicDrift.CmpLoop) : Prop :=
  seen_matches_results severity ruleName file label policyValues st.

Let fails (codeValue : string) : bool :=
  forallb (fun policyValue =>
             negb (LogicDrift.compareValues codeValue policyValue compare valueType))
          policyValues.

Let step : LogicDrift.CmpLoop -> string -> LogicDrift.CmpLoop :=
  LogicDrift.codeValue_step compare valueType severity ruleName file label policyValues.

Lemma mismatch_finding_inj (v w : string) : finding v = finding w -> v = w.
Proof.
  intros Heq. apply (f_equal Finding.explanation) in Heq.
  unfold finding, LogicDrift.mismatchFinding, LogicDrift.logicFinding in Heq.
  cbn [Finding.explanation] in Heq.
  do 3 apply sapp_inv_head in Heq. by apply sapp_inv_tail in Heq.
Qed.

Lemma mismatch_key_inj (v w : string) : key v = key w -> v = w.
Proof.
  unfold key, mismatchKey. intros Heq.
  do 2 apply sapp_inv_head in Heq. by apply sapp_inv_tail in Heq.
Qed.

Lemma satisfied_fails (v : string) :
  existsb (fun policyValue => LogicDrift.compareValues v policyValue compare valueType)
          policyValues = negb (fails v).
Proof.
  unfold fails. induction policyValues as [|p ps IH]; simpl; [done|].
  rewrite IH. by destruct (LogicDrift.compareValues v p compare valueType).
Qed.

Lemma seen_matches_results_fresh :
  seen_matches {| LogicDrift.results := []; LogicDrift.seen := ∅ |}.
Proof.
  intros v. simpl. split; [|intros []].
  intros H. by apply not_elem_of_empty in H.
Qed.

Lemma codeValue_step_spec (st : LogicDrift.CmpLoop) (v0 : string) :
  seen_matches st ->
  seen_matches (step st v0)
  /\ forall v, In (finding v) (LogicDrift.results (step st v0))
               <-> In (finding v) (LogicDrift.results st) \/ (v = v0 /\ fails v0 = true).
Proof.
  intros Hinv. unfold step, LogicDrift.codeValue_step.
  rewrite satisfied_fails. fold (key v0). fold (finding v0).
  destruct (fails v0) eqn:Hfails; simpl.
  - case_bool_decide as Hseen.
    + split; [done|]. intros v. split; [by left|].
      intros [?|[-> _]]; [done|]. by apply Hinv.
    + split.
      * intros v. simpl. rewrite elem_of_union, elem_of_singleton, in_app_iff. simpl.
        rewrite (Hinv v). split.
        -- intros [Hk|?]; [|by left]. right. left. by rewrite (mismatch_key_inj _ _ Hk).
        -- intros [?|[Hf|[]]]; [by right|]. left.
           by rewrite (mismatch_finding_inj _ _ Hf).
      * intros v. simpl. rewrite in_app_iff. simpl. split.
        -- intros [?|[Hf|[]]]; [by left|]. right.
           by rewrite (mismatch_finding_inj _ _ Hf).
        -- intros [?|[-> _]]; [by left|]. right. by left.
  - split; [done|]. intros v. split; [by left|]. by intros [?|[_ [=]]].
Qed.

Lemma codeValue_fold_spec (codeValues : list string) (st : LogicDrift.CmpLoop) :
  seen_matches st ->
  forall v, In (finding v) (LogicDrift.results (List.fold_left step codeValues st))
            <-> In (finding v) (LogicDrift.results st)
                \/ (In v codeValues /\ fails v = true).
Proof.
  revert st. induction codeValues as [|v0 vs IH]; intros st Hinv v; simpl.
  - split; [by left|]. by intros [?|[[] _]].
  - destruct (codeValue_step_spec st v0 Hinv) as [Hinv' Hstep].
    rewrite (IH _ Hinv' v), (Hstep v). split.
    + intros [[?|[-> ?]]|[? ?]]; auto.
    + intros [?|[[<-|?] ?]]; auto.
Qed.

Lemma codeValue_step_eq (st : LogicDrift.CmpLoop) (v0 : string) :
  step st v0
  = if fails v0 && negb (bool_decide (key v0 ∈ LogicDrift.seen st))
    then {| LogicDrift.results := (LogicDrift.results st ++ [finding v0])%list;
            LogicDrift.seen := {[ key v0 ]} ∪ LogicDrift.seen st |}
    else st.
Proof.
  unfold step, LogicDrift.codeValue_step. rewrite satisfied_fails.
  destruct (fails v0); simpl; [|done].
  unfold key, mismatchKey, finding. by destruct (bool_decide _).
Qed.

(** The inner loop from any state: it appends one finding for each code
    value that fails against every policy value and whose key is not in
    [seen] yet, in the order of the values and once per value, and adds the
    keys of these values to [seen]. *)
Lemma codeValue_fold_reported (codeValues : list string) :
  forall st : LogicDrift.CmpLoop,
    exists reported,
      LogicDrift.results (List.fold_left step codeValues st)
      = (LogicDrift.results st ++ List.map finding reported)%list
      /\ List.NoDup reported
      /\ (forall v, In v reported
                    <-> In v codeValues /\ fails v = true
                        /\ key v ∉ LogicDrift.seen st)
      /\ (forall k, k ∈ LogicDrift.seen (List.fold_left step codeValues st)
                    <-> k ∈ LogicDrift.seen st \/ exists v, In v reported /\ k = key v).
Proof.
  induction codeValues as [|v0 vs IH]; intros st.
  - exists []. simpl. rewrite app_nil_r. split; [done|]. split; [constructor|].
    split; [intros v; tauto|]. intros k. split; [by left|]. by intros [?|(? & [] & _)].
  - cbn [List.fold_left]. destruct (IH (step st v0)) as (reported & Hres & Hnd & Hin & Hseen).
    rewrite (codeValue_step_eq st v0) in Hres, Hin, Hseen |- *.
    destruct (fails v0) eqn:Hfails; cbn [andb] in Hres, Hin, Hseen |- *.
    + destruct (bool_decide (key v0 ∈ LogicDrift.seen st)) eqn:Hkey;
        cbn [negb] in Hres, Hin, Hseen |- *.
      * apply bool_decide_eq_true in Hkey.
        exists reported. split; [done|]. split; [done|]. split; [|done].
        intros v. rewrite (Hin v). split.
        -- intros (? & ? & ?). split; [by right|done].
        -- intros ([<-|?] & ? & Hv); [done|done].
      * apply bool_decide_eq_false in Hkey. cbn [LogicDrift.results LogicDrift.seen] in *.
        exists (v0 :: reported). split; [|split; [|split]].
        -- rewrite Hres, <- app_assoc. reflexivity.
        -- constructor; [|done]. intros Hv0. apply Hin in Hv0 as (_ & _ & Hnot).
           apply Hnot. apply elem_of_union_l. by apply elem_of_singleton.
        -- intros v. cbn [In]. rewrite (Hin v). split.
           ++ intros [<-|(? & ? & Hnot)]; [by auto|].
              split; [by right|]. split; [done|]. intros Hv. apply Hnot.
              by apply elem_of_union_r.
           ++ intros ([<-|Hvs] & Hf & Hnot); [by left|].
              destruct (String.eqb_spec v0 v) as [->|Hne]; [by left|]. right.
              split; [done|]. split; [done|].
              intros [Hk|Hk]%elem_of_union; [|done].
              apply elem_of_singleton in Hk. by apply mismatch_key_inj in Hk.
        -- intros k. rewrite (Hseen k), elem_of_union, elem_of_singleton. split.
           ++ intros [[->|?]|(v & Hv & ->)].
              ** right. exists v0. split; [by left|done].
              ** by left.
              ** right. exists v. split; [by right|done].
           ++ intros [?|(v & [<-|Hv] & ->)].
              ** left. by right.
              ** left. by left.
              ** right. by exists v.
    + exists reported. split; [done|]. split; [done|]. split; [|done].
      intros v. rewrite (Hin v). split.
      * intros (? & ? & ?). split; [by right|done].
      * intros ([<-|?] & Hf & ?); [congruence|done].
Qed.

End ValueLoop.

Lemma codeValue_fold_only (compare valueType severity ruleName file label : string)
  (policyValues codeValues : list string) (st : LogicDrift.CmpLoop) (f : Finding.t) :
  In f (LogicDrift.results
          (List.fold_left
             (LogicDrift.codeValue_step compare valueType severity ruleName file label
                policyValues) codeValues st)) ->
  In f (LogicDrift.results st)
  \/ exists v, In v codeValues
               /\ f = LogicDrift.mismatchFinding severity ruleName file label policyValues v.
Proof.
  revert st. induction codeValues as [|v0 vs IH]; intros st; simpl; [by left|].
  intros Hin. destruct (IH _ Hin) as [Hst|(v & Hv & ->)]; [|by eauto].
  unfold LogicDrift.codeValue_step in Hst.
  destruct (existsb _ policyValues); [by left|].
  case_bool_decide; [by left|]. simpl in Hst.
  apply in_app_iff in Hst as [?|[<-|[]]]; [by left|]. right. eauto.
Qed.

Lemma normalizeValue_text (value valueType : string) :
  LogicDrift.Value.text (LogicDrift.normalizeValue value valueType) = trim value.
Proof. unfold LogicDrift.normalizeValue. by repeat case_match. Qed.

Lemma normalizeValue_finite (value valueType : string) :
  JsNumber.isFinite (LogicDrift.Value.numeric (LogicDrift.normalizeValue value valueType))
  = negb (String.eqb valueType "string")
    && JsNumber.isFinite (LogicDrift.parseNumber value).
Proof.
  unfold LogicDrift.normalizeValue.
  destruct (String.eqb valueType "string"); [done|].
  destruct (mem valueType _); [done|].
  by destruct (JsNumber.isFinite (LogicDrift.parseNumber value)) eqn:Hf.
Qed.

Lemma normalizeValue_numeric (value valueType : string) :
  JsNumber.isFinite (LogicDrift.Value.numeric (LogicDrift.normalizeValue value valueType))
  = true ->
  LogicDrift.Value.numeric (LogicDrift.normalizeValue value valueType)
  = LogicDrift.parseNumber value.
Proof.
  unfold LogicDrift.normalizeValue.
  destruct (String.eqb valueType "string"); [done|].
  destruct (mem valueType _); [done|].
  by destruct (JsNumber.isFinite (LogicDrift.parseNumber value)) eqn:Hf.
Qed.

(** Both values are numbers for the comparator: the numeric semantics. *)
Lemma compareValues_numeric (code policy compare valueType : string) :
  valueType <> "string" ->
  JsNumber.isFinite (LogicDrift.parseNumber code) = true ->
  JsNumber.isFinite (LogicDrift.parseNumber policy) = true ->
  LogicDrift.compareValues code policy compare valueType
  = let codeNum := LogicDrift.parseNumber code in
    let policyNum := LogicDrift.parseNumber policy in
    if mem compare ["eq"; "equals"] then JsNumber.strict_eq codeNum policyNum
    else if mem compare ["not_equals"; "ne"] then JsNumber.strict_ne codeNum policyNum
    else if mem compare ["gt"] then JsNumber.gt codeNum policyNum
    else if mem compare ["gte"; "ge"] then JsNumber.ge codeNum policyNum
    else if mem compare ["lt"] then JsNumber.lt codeNum policyNum
    else if mem compare ["lte"; "le"] then JsNumber.le codeNum policyNum
    else JsNumber.strict_eq codeNum policyNum.
Proof.
  intros Hty Hc Hp. unfold LogicDrift.compareValues.
  assert (String.eqb valueType "string" = false) as Hne by (by apply String.eqb_neq).
  assert (Hfc := normalizeValue_finite code valueType).
  assert (Hfp := normalizeValue_finite policy valueType).
  rewrite Hne, Hc in Hfc. rewrite Hne, Hp in Hfp. simpl in Hfc, Hfp.
  rewrite (normalizeValue_numeric code valueType Hfc).
  rewrite (normalizeValue_numeric policy valueType Hfp).
  by rewrite Hc, Hp.
Qed.

(** One of the values is not a number for the comparator: the text
    semantics, on the trimmed values in lower case. *)
Lemma compareValues_text (code policy compare valueType : string) :
  valueType = "string"
  \/ JsNumber.isFinite (LogicDrift.parseNumber code) = false
  \/ JsNumber.isFinite (LogicDrift.parseNumber policy) = false ->
  LogicDrift.compareValues code policy compare valueType
  = let left := toLowerCase (trim code) in
    let right := toLowerCase (trim policy) in
    if mem compare ["not_equals"; "ne"] then negb (String.eqb left right)
    else if mem compare ["contains"] then includes right left || includes left right
    else String.eqb left right.
Proof.
  intros Hcase. unfold LogicDrift.compareValues.
  assert (JsNumber.isFinite
            (LogicDrift.Value.numeric (LogicDrift.normalizeValue code valueType))
          && JsNumber.isFinite
               (LogicDrift.Value.numeric (LogicDrift.normalizeValue policy valueType))
          = false) as ->.
  { rewrite !normalizeValue_finite.
    destruct Hcase as [->|[->| ->]]; [done| |].
    - by rewrite andb_false_r.
    - by rewrite !andb_false_r. }
  by rewrite !normalizeValue_text.
Qed.

(** C3, as the code has it. Unless the value type is [string],
    [compareValues] compares two values that both parse as finite numbers
    (commas, spaces and underscores removed) by their numeric value under
    equals, not_equals, gt, gte, lt and lte; with the value type [string],
    or when one value is not a finite number, it compares the trimmed
    values in lower case, and contains holds when one contains the other.
    When policy values were extracted, the turn of a comparison, from
    whatever the run has reported so far, appends one policy-value-mismatch
    finding for each extracted code value that fails the operator against
    every policy value and whose key (label, code value, policy values) is
    not in the [seen] set of the run yet, once per value, appends nothing
    else, and adds the keys of these values to [seen]. In particular a
    comparison started on an empty result list reports a finding for a
    code value exactly when that value is among the extracted ones and
    fails against every policy value. Code 7 against policy 30 passes lte
    and fails equals. *)
Theorem compareValues_semantics
  (code policy valueType : string) (config : Config.t) (ruleName file : string)
  (comparison : LogicDrift.Comparison.t) (codeValues policyValues : list string) :
  let codeNum := LogicDrift.parseNumber code in
  let policyNum := LogicDrift.parseNumber policy in
  let left := toLowerCase (trim code) in
  let right := toLowerCase (trim policy) in
  let op := toLowerCase (LogicDrift.or_else (LogicDrift.Comparison.compare comparison)
                           "equals") in
  let type := toLowerCase (LogicDrift.or_else (LogicDrift.Comparison.valueType comparison)
                             "auto") in
  let severity := normalizeSeverity (LogicDrift.Comparison.severity comparison)
                    (Config.severity_logicDrift config) in
  let label := LogicDrift.or_else (LogicDrift.Comparison.name comparison)
                 (LogicDrift.or_else (LogicDrift.Comparison.label comparison) ruleName) in
  let finding := LogicDrift.mismatchFinding severity ruleName file label policyValues in
  let fails codeValue :=
    forallb (fun policyValue =>
               negb (LogicDrift.compareValues codeValue policyValue op type))
            policyValues in
  let turn := LogicDrift.compareExtracted config ruleName file comparison codeValues
                policyValues in
  (valueType <> "string" ->
   JsNumber.isFinite codeNum = true -> JsNumber.isFinite policyNum = true ->
   LogicDrift.compareValues code policy "equals" valueType
   = JsNumber.strict_eq codeNum policyNum
   /\ LogicDrift.compareValues code policy "not_equals" valueType
      = JsNumber.strict_ne codeNum policyNum
   /\ LogicDrift.compareValues code policy "gt" valueType = JsNumber.gt codeNum policyNum
   /\ LogicDrift.compareValues code policy "gte" valueType = JsNumber.ge codeNum policyNum
   /\ LogicDrift.compareValues code policy "lt" valueType = JsNumber.lt codeNum policyNum
   /\ LogicDrift.compareValues code policy "lte" valueType = JsNumber.le codeNum policyNum)
  /\ (valueType = "string" \/ JsNumber.isFinite codeNum = false
      \/ JsNumber.isFinite policyNum = false ->
      LogicDrift.compareValues code policy "equals" valueType = String.eqb left right
      /\ LogicDrift.compareValues code policy "not_equals" valueType
         = negb (String.eqb left right)
      /\ LogicDrift.compareValues code policy "contains" valueType
         = includes right left || includes left right)
  /\ (policyValues <> [] ->
      forall st : LogicDrift.CmpLoop,
      exists reported,
        LogicDrift.results (turn st)
        = (LogicDrift.results st ++ List.map finding reported)%list
        /\ List.NoDup reported
        /\ (forall codeValue,
              In codeValue reported
              <-> In codeValue codeValues /\ fails codeValue = true
                  /\ mismatchKey label policyValues codeValue ∉ LogicDrift.seen st)
        /\ (forall key,
              key ∈ LogicDrift.seen (turn st)
              <-> key ∈ LogicDrift.seen st
                  \/ exists codeValue,
                       In codeValue reported
                       /\ key = mismatchKey label policyValues codeValue)
        /\ forall codeValue, Finding.type (finding codeValue) = "policy-value-mismatch")
  /\ (policyValues <> [] ->
      let st := turn {| LogicDrift.results := []; LogicDrift.seen := ∅ |} in
      (forall codeValue,
         In (finding codeValue) (LogicDrift.results st)
         <-> In codeValue codeValues /\ fails codeValue = true)
      /\ forall f, In f (LogicDrift.results st) ->
                   Finding.type f = "policy-value-mismatch")
  /\ LogicDrift.compareValues "7" "30" "lte" "auto" = true
  /\ LogicDrift.compareValues "7" "30" "equals" "auto" = false
  /\ LogicDrift.compareValues "1,000" "1000" "equals" "auto" = true.
Proof.
  intros codeNum policyNum left right op type severity label finding fails turn.
  split; [|split; [|split; [|split]]].
  - intros Hty Hc Hp. rewrite !compareValues_numeric by done. done.
  - intros Hcase. rewrite !compareValues_text by done. done.
  - intros Hne st. subst turn. unfold LogicDrift.compareExtracted.
    fold op type severity label.
    destruct policyValues as [|p ps]; [done|]. simpl length. simpl Nat.eqb. cbv iota.
    destruct (codeValue_fold_reported op type severity ruleName file label (p :: ps)
                codeValues st) as (reported & Hres & Hnd & Hin & Hseen).
    exists reported. split; [exact Hres|]. split; [exact Hnd|].
    split; [exact Hin|]. split; [exact Hseen|]. done.
  - intros Hne st. subst st turn finding fails. cbv beta.
    unfold LogicDrift.compareExtracted. fold op type severity label.
    destruct policyValues as [|p ps]; [done|]. simpl length. simpl Nat.eqb. cbv iota.
    split.
    + intros codeValue.
      rewrite (codeValue_fold_spec op type severity ruleName file label (p :: ps)
                 codeValues _ (seen_matches_results_fresh _ _ _ _ _) codeValue).
      simpl. tauto.
    + intros f Hf. apply codeValue_fold_only in Hf as [[]|(v & _ & ->)]. done.
  - vm_compute. repeat split; reflexivity.
Qed.

Lemma compareValues_semantics_witness :
  let st := LogicDrift.compareExtracted testConfig "Billing" "src/billing/refund.js"
              (refundComparison "equals" EmptyString) ["7"] ["30"]
              {| LogicDrift.results := []; LogicDrift.seen := ∅ |} in
  "auto" <> "string"
  /\ JsNumber.isFinite (LogicDrift.parseNumber "7") = true
  /\ JsNumber.isFinite (LogicDrift.parseNumber "30") = true
  /\ ["30"] <> []
  /\ LogicDrift.compareValues "7" "30" "lte" "auto"
     = JsNumber.le (LogicDrift.parseNumber "7") (LogicDrift.parseNumber "30")
  /\ In (LogicDrift.mismatchFinding "error" "Billing" "src/billing/refund.js"
           "Refund window (days)" ["30"] "7")
        (LogicDrift.results st).
Proof.
  intros st.
  assert (H1 : "auto" <> "string") by discriminate.
  assert (H2 : JsNumber.isFinite (LogicDrift.parseNumber "7") = true) by reflexivity.
  assert (H3 : JsNumber.isFinite (LogicDrift.parseNumber "30") = true) by reflexivity.
  assert (H4 : ["30"] <> []) by discriminate.
  split; [exact H1|]. split; [exact H2|]. split; [exact H3|]. split; [exact H4|].
  destruct (compareValues_semantics "7" "30" "auto" testConfig "Billing"
              "src/billing/refund.js" (refundComparison "equals" EmptyString) ["7"] ["30"])
    as (Hnum & _ & _ & Hfind & _).
  split.
  - apply (Hnum H1 H2 H3).
  - apply (proj1 (Hfind H4)). split; [by left | reflexivity].
Defined.

(** C3, as the specification states it, fails: 7 and 7.0 both parse as numbers and
    are equal as numbers, yet with the value type [string] the operator
    equals compares them as text and rejects them. *)
Lemma compareValues_string_type_is_textual :
  JsNumber.isFinite (LogicDrift.parseNumber "7") = true
  /\ JsNumber.isFinite (LogicDrift.parseNumber "7.0") = true
  /\ JsNumber.strict_eq (LogicDrift.parseNumber "7") (LogicDrift.parseNumber "7.0") = true
  /\ LogicDrift.compareValues "7" "7.0" "equals" "string" = false.
Proof. vm_compute. repeat split; reflexivity. Qed.

(** The runs of the test file: 7 against 30 is a mismatch under equals and
    none under lte. *)
Lemma runDeterministicComparisons_refund :
  LogicDrift.runDeterministicComparisons refund_RegExp instant
    [refundComparison "equals" EmptyString] refundDiff "Refunds are allowed for 30 days."
    testConfig "Billing" "src/billing/refund.js"
  = Normal [ LogicDrift.mismatchFinding "error" "Billing" "src/billing/refund.js"
               "Refund window (days)" ["30"] "7" ]
  /\ LogicDrift.runDeterministicComparisons refund_RegExp instant
       [refundComparison "lte" EmptyString] refundDiff "Refunds are allowed for 30 days."
       testConfig "Billing" "src/billing/refund.js"
     = Normal [].
Proof. vm_compute. split; reflexivity. Qed.

(** *** Missing policy values *)




(** ** The regex safety check *)





(** The last probe leaves [lastIndex] at 30 on [/a+/g]; a regex in that
    state finds nothing in the text of the test, and the validated regex
    finds its value. *)
Lemma validateRegexSafety_reset_matters :
  snd (test aPlusRegex (LogicDrift.repeat_a 30 ++ "b")) = set_lastIndex 30 aPlusRegex
  /\ LogicDrift.extractMatches "aaaa" (set_lastIndex 30 aPlusRegex)
     = Normal ([], aPlusRegex)
  /\ (regex ← LogicDrift.validateRegexSafety instant aPlusRegex;
      LogicDrift.extractMatches "aaaa" regex) = Normal (["aaaa"], aPlusRegex).
Proof. vm_compute. repeat split; reflexivity. Qed.

Lemma includes_app_r (sub s t : string) :
  includes sub t = true -> includes sub (s ++ t) = true.
Proof.
  intros Ht. induction s as [|c s IH]; [done|].
  rewrite sapp_cons. simpl. rewrite IH. apply orb_true_r.
Qed.

Lemma redosMessage_mentions_ReDoS (elapsed : nat) :
  includes "ReDoS" (LogicDrift.redosMessage elapsed) = true.
Proof.
  unfold LogicDrift.redosMessage. do 4 apply includes_app_r. reflexivity.
Qed.

(** A probe that takes longer than the budget makes the check throw. *)
Lemma probe_too_slow (elapsedMs : RegExp -> string -> nat) (shouldReset : bool)
  (R : RegExp) (testCase : string) :
  let R0 := if shouldReset then set_lastIndex 0 R else R in
  (LogicDrift.MAX_REGEX_TIME_MS < elapsedMs R0 testCase)%nat ->
  LogicDrift.probe elapsedMs shouldReset R testCase
  = Throw (Error (LogicDrift.redosMessage (elapsedMs R0 testCase))).
Proof.
  intros R0 Hslow. unfold LogicDrift.probe. fold R0.
  destruct (test R0 testCase) as [ok R1].
  apply Nat.ltb_lt in Hslow. rewrite Hslow.
  by rewrite redosMessage_mentions_ReDoS.
Qed.

Lemma probe_fast (elapsedMs : RegExp -> string -> nat) (shouldReset : bool)
  (R : RegExp) (testCase : string) :
  (forall R text, (elapsedMs R text <= LogicDrift.MAX_REGEX_TIME_MS)%nat) ->
  exists R', LogicDrift.probe elapsedMs shouldReset R testCase = Normal R'.
Proof.
  intros Hfast. unfold LogicDrift.probe.
  set (R0 := if shouldReset then set_lastIndex 0 R else R).
  destruct (test R0 testCase) as [ok R1].
  assert ((LogicDrift.MAX_REGEX_TIME_MS <? elapsedMs R0 testCase)%nat = false) as ->
    by (apply Nat.ltb_ge, Hfast).
  by eexists.
Qed.

(** When every probe stays within the budget the regex is accepted. *)
Lemma validateRegexSafety_accepts (elapsedMs : RegExp -> string -> nat) (regex : RegExp) :
  (forall R text, (elapsedMs R text <= LogicDrift.MAX_REGEX_TIME_MS)%nat) ->
  exists regex', LogicDrift.validateRegexSafety elapsedMs regex = Normal regex'.
Proof.
  intros Hfast. unfold LogicDrift.validateRegexSafety.
  assert (Hfold : forall cases R, exists R',
            foldM (LogicDrift.probe elapsedMs (global regex || sticky regex)) R cases
            = Normal R').
  { induction cases as [|c cases IH]; intros R; [by eexists|].
    destruct (probe_fast elapsedMs (global regex || sticky regex) R c Hfast) as [R1 H1].
    cbn [foldM]. rewrite H1. apply IH. }
  destruct (Hfold LogicDrift.testCases regex) as [R' ->]. simpl. by eexists.
Qed.

(** ** Fact extraction *)

(** The invariant of the loop of [extractJsFunctions]: the kept matches
    have distinct keys, and [seen] holds exactly those keys. *)
Lemma jsFunction_fold_spec (found kept : list MatchResult) (seen_ : gset string) :
  NoDup (List.map jsSeenKey kept) ->
  (forall k, k ∈ seen_ <-> In k (List.map jsSeenKey kept)) ->
  let out := List.fold_left jsFunction_step found (kept, seen_) in
  NoDup (List.map jsSeenKey (fst out))
  /\ (forall m, In m (fst out) ->
        In m kept \/ (In m found /\ mem (group_or_empty 1 m) jsFalsePositives = false))
  /\ (forall m, In m found -> mem (group_or_empty 1 m) jsFalsePositives = false ->
        In (jsSeenKey m) (List.map jsSeenKey (fst out)))
  /\ (forall m, In m kept -> In m (fst out)).
Proof.
  revert kept seen_. induction found as [|m0 found IH]; intros kept seen_ Hnd Hseen.
  - simpl. repeat split; auto. intros m [].
  - cbn [List.fold_left].
    assert (jsFunction_step (kept, seen_) m0
            = if mem (group_or_empty 1 m0) jsFalsePositives then (kept, seen_)
              else if bool_decide (jsSeenKey m0 ∈ seen_) then (kept, seen_)
                   else ((kept ++ [m0])%list, {[ jsSeenKey m0 ]} ∪ seen_)) as ->
      by reflexivity.
    destruct (mem (group_or_empty 1 m0) jsFalsePositives) eqn:Hskip.
    + destruct (IH kept seen_ Hnd Hseen) as (H1 & H2 & H3 & H4).
      repeat split; auto.
      * intros m Hm. destruct (H2 m Hm) as [?|[? ?]]; [by left|]. right. split; [by right|done].
      * intros m [<-|Hm] Hok; [congruence|]. by apply H3.
    + case_bool_decide as Hin.
      * destruct (IH kept seen_ Hnd Hseen) as (H1 & H2 & H3 & H4).
        repeat split; auto.
        -- intros m Hm. destruct (H2 m Hm) as [?|[? ?]]; [by left|].
           right. split; [by right|done].
        -- intros m [<-|Hm] Hok; [|by apply H3].
           apply Hseen in Hin. apply in_map_iff in Hin as (m' & <- & Hm').
           apply in_map. by apply H4.
      * assert (Hnd' : NoDup (List.map jsSeenKey (kept ++ [m0]))).
        { rewrite map_app. simpl. apply NoDup_app. split; [done|]. split.
          - intros k Hk Hk0. apply list_elem_of_singleton in Hk0 as ->.
            apply Hin, Hseen. by apply list_elem_of_In.
          - apply NoDup_singleton. }
        assert (Hseen' : forall k, k ∈ {[ jsSeenKey m0 ]} ∪ seen_
                                   <-> In k (List.map jsSeenKey (kept ++ [m0]))).
        { intros k. rewrite elem_of_union, elem_of_singleton, map_app, in_app_iff, Hseen.
          simpl. intuition. }
        destruct (IH (kept ++ [m0])%list _ Hnd' Hseen') as (H1 & H2 & H3 & H4).
        repeat split; auto.
        -- intros m Hm. destruct (H2 m Hm) as [Hk|[? ?]].
           ++ apply in_app_iff in Hk as [?|[<-|[]]]; [by left|]. right. split; [by left|done].
           ++ right. split; [by right|done].
        -- intros m [<-|Hm] Hok; [|by apply H3].
           apply in_map, H4, in_app_iff. right. by left.
        -- intros m Hm. apply H4, in_app_iff. by left.
Qed.

(** C8, as the code has it. [extractJsFunctions] returns on every text and
    deduplicates by the key it builds from the name and the position of a
    match: the facts it returns come, in order, from matches with pairwise
    distinct (name, position), every match whose name is not one of the
    skipped keywords has a kept match with its key, and nothing else is
    dropped. Two matches with one name at different positions give two
    facts. [extractRubyFunctions] and [extractClassNames] return one fact
    for every match. *)
Theorem extractJsFunctions_dedupes_by_position (content file : string) :
  (exists found kept,
     allMatches jsFunctionPatterns content = Normal found
     /\ extractJsFunctions content file
        = Normal (List.map (functionOfMatch file content) kept)
     /\ NoDup (List.map (fun m => (group_or_empty 1 m, index m)) kept)
     /\ (forall m, In m kept ->
           In m found /\ mem (group_or_empty 1 m) jsFalsePositives = false)
     /\ (forall m, In m found -> mem (group_or_empty 1 m) jsFalsePositives = false ->
           exists m', In m' kept /\ jsSeenKey m' = jsSeenKey m))
  /\ (exists ms,
        matches classPattern content = Normal ms
        /\ extractClassNames content file
           = Normal (List.map (fun m => buildEntity "class" (group_or_empty 1 m)
                                          EmptyString file content (index m)) ms))
  /\ (exists paren bare,
        matches rubyParenPattern content = Normal paren
        /\ matches rubyBarePattern content = Normal bare
        /\ extractRubyFunctions content file
           = Normal (List.map (functionOfMatch file content) (paren ++ bare)%list)).
Proof.
  split; [|split].
  - destruct (allMatches_total jsFunctionPatterns content jsFunctionPatterns_progress)
      as [found Hfound].
    destruct (jsFunction_fold_spec found [] ∅) as (Hnd & Hfrom & Hkey & _).
    { constructor. }
    { intros k. simpl. split; [|done]. intros H. by apply not_elem_of_empty in H. }
    exists found, (fst (List.fold_left jsFunction_step found ([], ∅))).
    split; [done|]. split.
    { unfold extractJsFunctions, jsKeptMatches. by rewrite Hfound. }
    repeat split; try done.
    + apply (NoDup_fmap_1 (fun p : string * nat => fst p ++ ":" ++ pretty (snd p))).
      by rewrite <- list_fmap_compose.
    + by destruct (Hfrom m H) as [[]|[? ?]].
    + by destruct (Hfrom m H) as [[]|[? ?]].
    + intros m Hm Hok. specialize (Hkey m Hm Hok).
      apply in_map_iff in Hkey as (m' & ? & ?). eauto.
  - destruct (matches_total classPattern content) as [ms Hms]; [done..|].
    exists ms. split; [done|]. unfold extractClassNames. by rewrite Hms.
  - destruct (matches_total rubyParenPattern content) as [paren Hparen]; [done..|].
    destruct (matches_total rubyBarePattern content) as [bare Hbare]; [done..|].
    exists paren, bare. split; [done|]. split; [done|].
    unfold extractRubyFunctions. by rewrite Hparen, Hbare.
Qed.

Lemma extractJsFunctions_dedupes_by_position_witness :
  let content := "function f(a) {}" ++ String "010" "function f(b) {}" in
  let file := "src/f.js" in
  extractJsFunctions content file
  = Normal [ {| Entity.type := "function"; Entity.name := "f"; Entity.signature := "f(a)";
                Entity.file := "src/f.js"; Entity.line := 1 |};
             {| Entity.type := "function"; Entity.name := "f"; Entity.signature := "f(b)";
                Entity.file := "src/f.js"; Entity.line := 2 |} ]
  /\ exists found kept,
       allMatches jsFunctionPatterns content = Normal found
       /\ extractJsFunctions content file
          = Normal (List.map (functionOfMatch file content) kept)
       /\ NoDup (List.map (fun m => (group_or_empty 1 m, index m)) kept)
       /\ (forall m, In m kept ->
             In m found /\ mem (group_or_empty 1 m) jsFalsePositives = false)
       /\ (forall m, In m found -> mem (group_or_empty 1 m) jsFalsePositives = false ->
             exists m', In m' kept /\ jsSeenKey m' = jsSeenKey m).
Proof.
  intros content file. split; [vm_compute; reflexivity|].
  exact (proj1 (extractJsFunctions_dedupes_by_position content file)).
Defined.

(** C8, as the specification states it, fails: each of the three extraction rules
    returns two facts with the same name and the same kind from one file. *)
Lemma extractors_keep_same_name_and_kind :
  let nl := String "010" EmptyString in
  extractClassNames ("class A {}" ++ nl ++ "class A {}") "src/a.js"
  = Normal [ {| Entity.type := "class"; Entity.name := "A"; Entity.signature := "A";
                Entity.file := "src/a.js"; Entity.line := 1 |};
             {| Entity.type := "class"; Entity.name := "A"; Entity.signature := "A";
                Entity.file := "src/a.js"; Entity.line := 2 |} ]
  /\ extractJsFunctions ("function f(a) {}" ++ nl ++ "function f(b) {}") "src/f.js"
     = Normal [ {| Entity.type := "function"; Entity.name := "f";
                   Entity.signature := "f(a)"; Entity.file := "src/f.js";
                   Entity.line := 1 |};
                {| Entity.type := "function"; Entity.name := "f";
                   Entity.signature := "f(b)"; Entity.file := "src/f.js";
                   Entity.line := 2 |} ]
  /\ extractRubyFunctions ("def f(a)" ++ nl ++ "end" ++ nl ++ "def f(b)" ++ nl ++ "end")
       "lib/f.rb"
     = Normal [ {| Entity.type := "function"; Entity.name := "f";
                   Entity.signature := "f(a)"; Entity.file := "lib/f.rb";
                   Entity.line := 1 |};
                {| Entity.type := "function"; Entity.name := "f";
                   Entity.signature := "f(b)"; Entity.file := "lib/f.rb";
                   Entity.line := 3 |} ].
Proof. vm_compute. repeat split; reflexivity. Qed.

(** The runs of the payload tests of the repository: the rename of
    [user_id] to [uid] is a candidate under the allowlist
    [user_id, uid] and is none under [account_id]. *)
Lemma findPayloadKeyRenames_tests :
  let q := String dquote EmptyString in
  let nl := String "010" EmptyString in
  let diff :=
    nl ++ "diff --git a/src/handler.js b/src/handler.js" ++ nl
    ++ "@@ -1,3 +1,3 @@" ++ nl
    ++ "-const payload = { " ++ q ++ "user_id" ++ q ++ ": userId };" ++ nl
    ++ "+const payload = { " ++ q ++ "uid" ++ q ++ ": userId };" ++ nl in
  let new_RegExp : string -> string -> completion RegExp :=
    fun _ _ => Throw (Error "Invalid regular expression") in
  (allowlist ← compileAllowlist new_RegExp [EntryString "user_id"; EntryString "uid"];
   fst <$> findPayloadKeyRenames diff allowlist)
  = Normal [ {| Rename.oldKey := "user_id"; Rename.newKey := "uid" |} ]
  /\ (allowlist ← compileAllowlist new_RegExp [EntryString "account_id"];
      fst <$> findPayloadKeyRenames diff allowlist)
     = Normal [].
Proof. vm_compute. split; reflexivity. Qed.

(** The runs of the function tests of the repository. *)
Lemma compareFunctions_tests :
  let fn signature :=
    {| Entity.type := "function"; Entity.name := "createUser";
       Entity.signature := signature; Entity.file := "src/users.js"; Entity.line := 1 |} in
  let doc content := [ {| DocEntry.file := "README.md"; DocEntry.content := content |} ] in
  let types (out : completion (list Finding.t)) := List.map Finding.type <$> out in
  types (compareFunctions [fn "createUser(email, password)"]
           (doc "createUser(username, password)") testConfig false)
  = Normal ["function-signature-mismatch"]
  /\ types (compareFunctions [fn "createUser(email, password, role)"]
              (doc "createUser(email, password)") testConfig false)
     = Normal ["function-missing-params"]
  /\ types (compareFunctions [fn "createUser(email, password)"]
              (doc "createUser(email, password, role)") testConfig false)
     = Normal ["function-extra-params"]
  /\ types (compareFunctions [fn "createUser(email, password)"]
              (doc "createUser(email, password)") testConfig true)
     = Normal [].
Proof. vm_compute. repeat split; reflexivity. Qed.

(** A documented call whose argument starts with a colon makes the
    normalisation, and with it the whole comparison, throw. *)
Lemma normalizeParamList_throws :
  normalizeParamList ":json"
  = Throw (TypeError "Cannot read properties of undefined (reading 'replace')")
  /\ compareFunctions
       [ {| Entity.type := "function"; Entity.name := "createUser";
            Entity.signature := "createUser(email)"; Entity.file := "src/users.js";
            Entity.line := 1 |} ]
       [ {| DocEntry.file := "README.md";
            DocEntry.content := "createUser(email) then render(:json)" |} ]
       testConfig false
     = Throw (TypeError "Cannot read properties of undefined (reading 'replace')").
Proof. vm_compute. split; reflexivity. Qed.

(** * Further properties of the code *)

(** ** More on the regular expression matcher *)

(** The matcher reads its continuation only through its values. *)
Lemma run_ext (r : re) :
  forall (s : mstate) (k k' : mstate -> option mstate),
    (forall x, k x = k' x) -> run r s k = run r s k'.
Proof.
  induction r as [|p|a IHa b IHb|a IHa b IHb|a IHa|n a IHa| | |];
    intros s k k' Hk; simpl.
  - apply Hk.
  - destruct (m_rest s) as [|c t]; [done|]. destruct (p c); [apply Hk|done].
  - apply IHa. intros x. by apply IHb.
  - rewrite (IHa s k k' Hk), (IHb s k k' Hk). done.
  - generalize (length (m_rest s)). intros fuel. revert s.
    induction fuel as [|fuel IH]; intros s; [apply Hk|].
    rewrite (IHa (clear_captures a s) _ (fun s1 =>
               if (length (m_rest s1) <? length (m_rest s))%nat
               then (fix iterate (fuel : nat) (s : mstate) : option mstate :=
                       match fuel with
                       | O => k' s
                       | S fuel' =>
                           match run a (clear_captures a s) (fun s1 =>
                                   if (length (m_rest s1) <? length (m_rest s))%nat
                                   then iterate fuel' s1 else None) with
                           | Some out => Some out
                           | None => k' s
                           end
                       end) fuel s1
               else None)).
    + by rewrite Hk.
    + intros x. destruct (_ <? _)%nat; [apply IH|done].
  - apply IHa. intros x. apply Hk.
  - destruct (xorb _ _); [apply Hk|done].
  - destruct (m_prev s) as [c|]; [|apply Hk]. destruct (_ && _); [apply Hk|done].
  - destruct (m_rest s) as [|c t]; [apply Hk|]. destruct (_ && _); [apply Hk|done].
Qed.

Lemma run_seq_app (l1 l2 : list re) :
  forall (s : mstate) (k : mstate -> option mstate),
    run (seq (l1 ++ l2)) s k = run (seq l1) s (fun s1 => run (seq l2) s1 k).
Proof.
  induction l1 as [|a l1 IH]; intros s k; [reflexivity|].
  simpl. apply run_ext. intros x. apply IH.
Qed.

Lemma run_chrs (w : list ascii) :
  forall (s : mstate) (k : mstate -> option mstate),
    run (seq (List.map chr w)) s k = advance_by w s ≫= k.
Proof.
  induction w as [|c w IH]; intros s k; [reflexivity|].
  simpl. destruct (m_rest s) as [|d t]; [done|].
  destruct (Ascii.eqb c d); [apply IH|done].
Qed.

Lemma advance_by_rest (w : list ascii) :
  forall s s' : mstate, advance_by w s = Some s' -> m_rest s = (w ++ m_rest s')%list.
Proof.
  induction w as [|c w IH]; intros s s'; simpl; [by intros [= ->]|].
  destruct (m_rest s) as [|d t] eqn:Hrest; [done|].
  destruct (Ascii.eqb c d) eqn:Hcd; [|done].
  apply Ascii.eqb_eq in Hcd as ->. intros H. apply IH in H. simpl in H. by rewrite H.
Qed.

Lemma advance_by_app (w : list ascii) :
  forall (s : mstate) (t : list ascii),
    m_rest s = (w ++ t)%list -> exists s', advance_by w s = Some s' /\ m_rest s' = t.
Proof.
  induction w as [|c w IH]; intros s t Hrest; simpl; [by exists s|].
  rewrite Hrest. simpl. rewrite Ascii.eqb_refl. by apply IH.
Qed.

Lemma run_star_chr (p : ascii -> bool) (k : mstate -> option mstate) (s : mstate) :
  run (Star (Chr p)) s k = star_chr p k (m_rest s) s.
Proof.
  simpl.
  assert (H : forall fuel s, (length (m_rest s) <= fuel)%nat ->
            (fix iterate (fuel : nat) (s : mstate) : option mstate :=
               match fuel with
               | O => k s
               | S fuel' =>
                   match
                     match m_rest s with
                     | c :: t =>
                         if p c
                         then (fun s1 =>
                                 if (length (m_rest s1) <? length (m_rest s))%nat
                                 then iterate fuel' s1 else None) (advance c t s)
                         else None
                     | [] => None
                     end
                   with
                   | Some out => Some out
                   | None => k s
                   end
               end) fuel s = star_chr p k (m_rest s) s).
  { clear s. induction fuel as [|fuel IH]; intros s Hlen.
    - destruct (m_rest s); [done|simpl in Hlen; lia].
    - destruct (m_rest s) as [|c t] eqn:Hrest; [done|].
      simpl. destruct (p c); [|done].
      assert ((length t <? S (length t))%nat = true) as -> by (apply Nat.ltb_lt; lia).
      rewrite IH; [done|]. simpl in *. lia. }
  by apply H.
Qed.

(** ** utils/glob.js *)

Lemma search_bol (r : re) (rest : list ascii) :
  forall (c : ascii) (pos : nat), search (Seq (Bol false) r) (Some c) rest pos = None.
Proof.
  induction rest as [|d t IH]; intros c pos; simpl; [done|apply IH].
Qed.

Lemma search_anchored (r : re) (rest : list ascii) :
  search (Seq (Bol false) r) None rest 0
  = (fun out => (0, out)) <$> match_at r None rest 0.
Proof.
  destruct rest as [|c t]; simpl;
    change (match_at (Seq (Bol false) r) None ?l 0) with (match_at r None l 0).
  - by destruct (match_at r None [] 0).
  - destruct (match_at r None (c :: t) 0); [done|]. apply search_bol.
Qed.

(** A regex that starts with [^] and has no flag matches at position 0 or
    not at all, and [test] leaves it as it is. *)
Lemma test_anchored (r : re) (text : string) :
  test (regexp (Seq (Bol false) r) false) text
  = (bool_decide (is_Some (match_at r None (list_ascii_of_string text) 0)),
     regexp (Seq (Bol false) r) false).
Proof.
  unfold test, exec. cbn [global sticky regexp orb source lastIndex].
  cbn [Nat.ltb Nat.leb]. rewrite drop_0, search_anchored.
  destruct (match_at r None (list_ascii_of_string text) 0); simpl.
  - f_equal.
  - f_equal.
Qed.

Lemma chrs_eol (w : list ascii) (s : mstate) :
  is_Some (advance_by w s ≫= fun s1 => run (seq [Eol false]) s1 Some) <-> m_rest s = w.
Proof.
  split.
  - intros [out Hout]. destruct (advance_by w s) as [s1|] eqn:Hadv; [|done].
    apply advance_by_rest in Hadv. simpl in Hout.
    destruct (m_rest s1); [|done]. by rewrite app_nil_r in Hadv.
  - intros Hrest. destruct (advance_by_app w s []) as (s1 & -> & Hs1).
    { by rewrite app_nil_r. }
    simpl. rewrite Hs1. eauto.
Qed.

Lemma list_ascii_of_string_inj (a b : string) :
  list_ascii_of_string a = list_ascii_of_string b -> a = b.
Proof.
  intros H. rewrite <- (string_of_list_ascii_of_string a), H.
  apply string_of_list_ascii_of_string.
Qed.

Lemma list_ascii_of_string_app (a b : string) :
  list_ascii_of_string (a ++ b) = (list_ascii_of_string a ++ list_ascii_of_string b)%list.
Proof. induction a as [|c a IH]; [done|]. rewrite sapp_cons. simpl. by rewrite IH. Qed.

Lemma string_of_list_ascii_app (a b : list ascii) :
  string_of_list_ascii (a ++ b) = string_of_list_ascii a ++ string_of_list_ascii b.
Proof. induction a as [|c a IH]; [done|]. simpl. rewrite sapp_cons. by rewrite IH. Qed.

Lemma sall_forallb (p : ascii -> bool) (s : string) :
  sall p s = forallb p (list_ascii_of_string s).
Proof. induction s as [|c s IH]; [done|]. simpl. by rewrite IH. Qed.

Lemma plain_glob_char (c : ascii) (rest : list ascii) :
  negb (char_in "*?" c) = true ->
  Glob.globToRegExp_from (c :: rest) = chr c :: Glob.globToRegExp_from rest.
Proof.
  intros Hc. unfold char_in in Hc. simpl in Hc.
  destruct (Ascii.eqb c "*") eqn:Hstar; [done|].
  destruct (Ascii.eqb c "?") eqn:Hq; [done|].
  cbn [Glob.globToRegExp_from]. rewrite Hstar, Hq.
  destruct (Ascii.eqb c ".") eqn:Hdot; [by apply Ascii.eqb_eq in Hdot as ->|].
  destruct (Ascii.eqb c "/") eqn:Hslash; [by apply Ascii.eqb_eq in Hslash as ->|].
  done.
Qed.

Lemma globToRegExp_from_plain (w rest : list ascii) :
  forallb (fun c => negb (char_in "*?" c)) w = true ->
  Glob.globToRegExp_from (w ++ rest)
  = (List.map chr w ++ Glob.globToRegExp_from rest)%list.
Proof.
  induction w as [|c w IH]; intros Hw; [done|].
  simpl in Hw. apply andb_true_iff in Hw as [Hc Hw].
  rewrite <- app_comm_cons, plain_glob_char by done. simpl. by rewrite IH.
Qed.

Lemma test_globToRegExp (glob path : string) :
  test (Glob.globToRegExp glob) path
  = (bool_decide (is_Some
       (match_at (seq (Glob.globToRegExp_from (list_ascii_of_string glob))) None
          (list_ascii_of_string path) 0)),
     Glob.globToRegExp glob).
Proof. apply test_anchored. Qed.

(** A pattern without wildcards matches the path that is equal to it. *)
Lemma glob_plain_test (glob path : string) :
  plain_glob glob ->
  fst (test (Glob.globToRegExp glob) path) = true <-> path = glob.
Proof.
  intros Hplain. rewrite test_globToRegExp. simpl.
  rewrite bool_decide_eq_true.
  unfold plain_glob in Hplain. rewrite sall_forallb in Hplain.
  rewrite <- (app_nil_r (list_ascii_of_string glob)) at 1.
  rewrite globToRegExp_from_plain by done.
  unfold match_at. rewrite run_seq_app, run_chrs.
  change (Glob.globToRegExp_from []) with [Eol false].
  rewrite chrs_eol. simpl. split; [apply list_ascii_of_string_inj|by intros ->].
Qed.

Lemma star_chr_literal (p : ascii -> bool) (post rest : list ascii) :
  forall s : mstate,
    m_rest s = rest ->
    is_Some (star_chr p (fun s2 => advance_by post s2
                                   ≫= fun s3 => run (seq [Eol false]) s3 Some) rest s)
    <-> exists mid, rest = (mid ++ post)%list /\ forallb p mid = true.
Proof.
  induction rest as [|c t IH]; intros s Hrest; simpl.
  - rewrite chrs_eol, Hrest. split.
    + intros <-. by exists [].
    + intros (mid & H & _). symmetry in H. by apply app_eq_nil in H as [_ ->].
  - destruct (p c) eqn:Hpc.
    + specialize (IH (advance c t s) eq_refl).
      destruct (star_chr p _ t (advance c t s)) as [out|] eqn:Hstar.
      * split; [|eauto]. intros _.
        destruct (proj1 IH) as (mid & -> & Hmid); [eauto|].
        exists (c :: mid). simpl. by rewrite Hpc, Hmid.
      * rewrite chrs_eol, Hrest. split.
        -- intros <-. by exists [].
        -- intros ([|d mid] & H & Hmid); [done|].
           simpl in H, Hmid. injection H as <- ->.
           apply andb_true_iff in Hmid as [_ Hmid].
           destruct (proj2 IH) as [? ?]; [eauto|done].
    + rewrite chrs_eol, Hrest. split.
      * intros <-. by exists [].
      * intros ([|d mid] & H & Hmid); [done|].
        simpl in H, Hmid. injection H as <- ->. by rewrite Hpc in Hmid.
Qed.

Lemma run_star_literal (p : ascii -> bool) (post : list ascii) (s : mstate) :
  run (seq (Star (Chr p) :: List.map chr post ++ [Eol false])%list) s Some
  = star_chr p (fun s2 => advance_by post s2
                          ≫= fun s3 => run (seq [Eol false]) s3 Some) (m_rest s) s.
Proof.
  change (run (seq (Star (Chr p) :: ?l)) s Some)
    with (run (Star (Chr p)) s (fun s2 => run (seq l) s2 Some)).
  rewrite <- run_star_chr. apply run_ext. intros x.
  by rewrite run_seq_app, run_chrs.
Qed.

(** A single star stands for any text without a slash. *)
Lemma glob_star_test (pre post path : string) :
  plain_glob pre -> plain_glob post ->
  fst (test (Glob.globToRegExp (pre ++ "*" ++ post)) path) = true
  <-> exists mid, path = pre ++ mid ++ post /\ within_segment mid.
Proof.
  intros Hpre Hpost. rewrite test_globToRegExp. simpl.
  rewrite bool_decide_eq_true.
  unfold plain_glob in Hpre, Hpost. rewrite sall_forallb in Hpre, Hpost.
  rewrite list_ascii_of_string_app, globToRegExp_from_plain by done.
  rewrite sapp_cons, sapp_nil_l.
  assert (Glob.globToRegExp_from (list_ascii_of_string (String "*" post))
          = Star (none_of "/") :: (List.map chr (list_ascii_of_string post) ++ [Eol false])%list)
    as ->.
  { simpl. destruct (list_ascii_of_string post) as [|d t] eqn:Hp; [done|].
    simpl in Hpost. apply andb_true_iff in Hpost as [Hd Ht].
    assert (Ascii.eqb d "*" = false) as ->.
    { unfold char_in in Hd. simpl in Hd. by destruct (Ascii.eqb d "*"). }
    f_equal. rewrite <- (app_nil_r (d :: t)) at 1.
    rewrite globToRegExp_from_plain; [done|]. simpl. by rewrite Hd, Ht. }
  unfold match_at. rewrite run_seq_app, run_chrs.
  set (s0 := {| m_prev := None; m_rest := list_ascii_of_string path; m_pos := 0;
                m_caps := [] |}).
  unfold within_segment. split.
  - intros [out Hout].
    destruct (advance_by (list_ascii_of_string pre) s0) as [s1|] eqn:Hadv; [|done].
    apply advance_by_rest in Hadv. simpl in Hadv.
    change (run (seq (Star (Chr (fun c => negb (char_in "/" c)))
                        :: List.map chr (list_ascii_of_string post) ++ [Eol false])%list)
                s1 Some = Some out) in Hout.
    rewrite run_star_literal in Hout.
    destruct (proj1 (star_chr_literal (fun c => negb (char_in "/" c))
                       (list_ascii_of_string post) (m_rest s1) s1 eq_refl))
      as (mid & Hmid & Hall); [eauto|].
    exists (string_of_list_ascii mid). split.
    + apply list_ascii_of_string_inj.
      rewrite !list_ascii_of_string_app, list_ascii_of_string_of_list_ascii.
      by rewrite Hadv, Hmid.
    + by rewrite sall_forallb, list_ascii_of_string_of_list_ascii.
  - intros (mid & -> & Hmid).
    destruct (advance_by_app (list_ascii_of_string pre) s0
                (list_ascii_of_string (mid ++ post))) as (s1 & -> & Hs1).
    { simpl. by rewrite list_ascii_of_string_app. }
    change (is_Some (run (seq (Star (Chr (fun c => negb (char_in "/" c)))
                        :: List.map chr (list_ascii_of_string post) ++ [Eol false])%list)
                s1 Some)).
    rewrite run_star_literal.
    apply star_chr_literal; [done|].
    exists (list_ascii_of_string mid). split.
    + by rewrite Hs1, list_ascii_of_string_app.
    + by rewrite <- sall_forallb.
Qed.

Lemma coherent_empty : coherent ∅.
Proof. intros pattern regex H. by rewrite lookup_empty in H. Qed.

Lemma match_coherent (cache : gmap string RegExp) (filePath pattern : string) :
  coherent cache ->
  fst (Glob.match_ cache filePath pattern)
  = fst (test (Glob.globToRegExp pattern) filePath)
  /\ coherent (snd (Glob.match_ cache filePath pattern)).
Proof.
  intros Hcache. unfold Glob.match_.
  assert (default (Glob.globToRegExp pattern) (cache !! pattern)
          = Glob.globToRegExp pattern) as ->.
  { destruct (cache !! pattern) as [regex|] eqn:Hlookup; [|done].
    simpl. by apply Hcache. }
  rewrite test_globToRegExp. simpl. split; [done|].
  intros p R. destruct (decide (pattern = p)) as [->|Hne].
  - rewrite lookup_insert_eq. by intros [= <-].
  - rewrite lookup_insert_ne by done. apply Hcache.
Qed.

Lemma some_match_coherent (filePath : string) (patterns : list string) :
  forall cache : gmap string RegExp,
    coherent cache ->
    fst (Glob.some_match cache filePath patterns)
    = existsb (fun pattern => fst (test (Glob.globToRegExp pattern) filePath)) patterns
    /\ coherent (snd (Glob.some_match cache filePath patterns)).
Proof.
  induction patterns as [|pattern rest IH]; intros cache Hcache; [done|].
  cbn [Glob.some_match existsb].
  destruct (match_coherent cache filePath pattern Hcache) as [Hok Hcache'].
  destruct (Glob.match_ cache filePath pattern) as [ok cache'] eqn:Hmatch.
  simpl in Hok, Hcache'. rewrite <- Hok.
  destruct ok; [done|]. simpl. by apply IH.
Qed.

Lemma matchAny_one (cache : gmap string RegExp) (filePath glob : string) :
  coherent cache ->
  fst (Glob.matchAny cache filePath [glob])
  = fst (test (Glob.globToRegExp glob) (Glob.normalizePath filePath)).
Proof.
  intros Hcache. unfold Glob.matchAny. cbn [length Nat.eqb].
  rewrite (proj1 (some_match_coherent _ [glob] cache Hcache)).
  simpl. apply orb_false_r.
Qed.

(** X1. The cache of compiled globs never changes an answer: whatever
    patterns were matched before, [matchAny] accepts a path exactly when one
    of the patterns, compiled afresh, accepts the path with its backslashes
    turned into slashes; without patterns it accepts nothing. *)
Theorem matchAny_cache_transparent (cache : gmap string RegExp) (filePath : string)
  (patterns : list string) :
  coherent cache ->
  fst (Glob.matchAny cache filePath patterns)
  = existsb (fun pattern =>
               fst (test (Glob.globToRegExp pattern) (Glob.normalizePath filePath)))
            patterns
  /\ coherent (snd (Glob.matchAny cache filePath patterns)).
Proof.
  intros Hcache. unfold Glob.matchAny.
  destruct patterns as [|pattern rest]; [done|].
  change (length (pattern :: rest) =? 0)%nat with false. cbv iota.
  by apply some_match_coherent.
Qed.

Lemma matchAny_cache_transparent_witness :
  fst (Glob.matchAny ∅ "src\utils\file.js" ["docs/**/*.md"; "src/**/*.js"])
  = existsb (fun pattern =>
               fst (test (Glob.globToRegExp pattern)
                         (Glob.normalizePath "src\utils\file.js")))
            ["docs/**/*.md"; "src/**/*.js"]
  /\ coherent (snd (Glob.matchAny ∅ "src\utils\file.js" ["docs/**/*.md"; "src/**/*.js"])).
Proof. exact (matchAny_cache_transparent ∅ _ _ coherent_empty). Defined.


(** X2. A glob without wildcards accepts one path only: the path that,
    once its backslashes are slashes, is the glob itself. *)
Theorem matchAny_plain_glob (cache : gmap string RegExp) (filePath glob : string) :
  coherent cache -> plain_glob glob ->
  fst (Glob.matchAny cache filePath [glob]) = true <-> Glob.normalizePath filePath = glob.
Proof.
  intros Hcache Hplain. rewrite matchAny_one by done. by apply glob_plain_test.
Qed.

Lemma matchAny_plain_glob_witness :
  fst (Glob.matchAny ∅ "docs\README.md" ["docs/README.md"]) = true
  <-> Glob.normalizePath "docs\README.md" = "docs/README.md".
Proof.
  apply (matchAny_plain_glob ∅ "docs\README.md" "docs/README.md" coherent_empty).
  reflexivity.
Defined.

Lemma glob_double_star_test (pre post path : string) :
  plain_glob pre -> plain_glob post -> startsWith "/" post = false ->
  fst (test (Glob.globToRegExp (pre ++ "**" ++ post)) path) = true
  <-> exists mid, path = pre ++ mid ++ post /\ within_line mid.
Proof.
  intros Hpre Hpost Hslash. rewrite test_globToRegExp. simpl.
  rewrite bool_decide_eq_true.
  unfold plain_glob in Hpre, Hpost. rewrite sall_forallb in Hpre, Hpost.
  rewrite list_ascii_of_string_app, globToRegExp_from_plain by done.
  rewrite !sapp_cons, sapp_nil_l.
  assert (Glob.globToRegExp_from (list_ascii_of_string (String "*" (String "*" post)))
          = Star dot :: (List.map chr (list_ascii_of_string post) ++ [Eol false])%list)
    as ->.
  { destruct post as [|d t]; [done|].
    assert (Hd : Ascii.eqb d "/" = false).
    { unfold startsWith in Hslash. simpl in Hslash.
      destruct (Ascii.eqb d "/") eqn:Heq; [|done].
      apply Ascii.eqb_eq in Heq as ->. by destruct t. }
    cbn [list_ascii_of_string].
    assert (Glob.globToRegExp_from ("*"%char :: "*"%char :: d :: list_ascii_of_string t)
            = if Ascii.eqb d "/"
              then opt (Seq (Star dot) (chr "/"))
                   :: Glob.globToRegExp_from (list_ascii_of_string t)
              else Star dot :: Glob.globToRegExp_from (d :: list_ascii_of_string t))
      as -> by reflexivity.
    rewrite Hd. f_equal.
    rewrite <- (app_nil_r (d :: list_ascii_of_string t)) at 1.
    by rewrite globToRegExp_from_plain. }
  unfold match_at. rewrite run_seq_app, run_chrs.
  set (s0 := {| m_prev := None; m_rest := list_ascii_of_string path; m_pos := 0;
                m_caps := [] |}).
  unfold within_line. split.
  - intros [out Hout].
    destruct (advance_by (list_ascii_of_string pre) s0) as [s1|] eqn:Hadv; [|done].
    apply advance_by_rest in Hadv. simpl in Hadv.
    change (run (seq (Star (Chr (fun c => negb (is_line_terminator c)))
                        :: List.map chr (list_ascii_of_string post) ++ [Eol false])%list)
                s1 Some = Some out) in Hout.
    rewrite run_star_literal in Hout.
    destruct (proj1 (star_chr_literal (fun c => negb (is_line_terminator c))
                       (list_ascii_of_string post) (m_rest s1) s1 eq_refl))
      as (mid & Hmid & Hall); [eauto|].
    exists (string_of_list_ascii mid). split.
    + apply list_ascii_of_string_inj.
      rewrite !list_ascii_of_string_app, list_ascii_of_string_of_list_ascii.
      by rewrite Hadv, Hmid.
    + by rewrite sall_forallb, list_ascii_of_string_of_list_ascii.
  - intros (mid & -> & Hmid).
    destruct (advance_by_app (list_ascii_of_string pre) s0
                (list_ascii_of_string (mid ++ post))) as (s1 & -> & Hs1).
    { simpl. by rewrite list_ascii_of_string_app. }
    change (is_Some (run (seq (Star (Chr (fun c => negb (is_line_terminator c)))
                        :: List.map chr (list_ascii_of_string post) ++ [Eol false])%list)
                s1 Some)).
    rewrite run_star_literal.
    apply star_chr_literal; [done|].
    exists (list_ascii_of_string mid). split.
    + by rewrite Hs1, list_ascii_of_string_app.
    + by rewrite <- sall_forallb.
Qed.

(** X3. A single star stands for any text without a slash, and a double
    star that no slash follows for any text without a line break: between a
    prefix and a suffix without wildcards, the glob accepts exactly the
    paths that put such a text between the two. *)
Theorem matchAny_star (cache : gmap string RegExp) (filePath pre post : string) :
  coherent cache -> plain_glob pre -> plain_glob post ->
  (fst (Glob.matchAny cache filePath [pre ++ "*" ++ post]) = true
   <-> exists mid, Glob.normalizePath filePath = pre ++ mid ++ post /\ within_segment mid)
  /\ (startsWith "/" post = false ->
      (fst (Glob.matchAny cache filePath [pre ++ "**" ++ post]) = true
       <-> exists mid, Glob.normalizePath filePath = pre ++ mid ++ post /\ within_line mid)).
Proof.
  intros Hcache Hpre Hpost. split.
  - rewrite matchAny_one by done. by apply glob_star_test.
  - intros Hslash. rewrite matchAny_one by done. by apply glob_double_star_test.
Qed.

Lemma matchAny_star_witness :
  (fst (Glob.matchAny ∅ "src/file.js" ["src/" ++ "*" ++ ".js"]) = true
   <-> exists mid, Glob.normalizePath "src/file.js" = "src/" ++ mid ++ ".js"
                   /\ within_segment mid)
  /\ (startsWith "/" ".js" = false ->
      (fst (Glob.matchAny ∅ "src/file.js" ["src/" ++ "**" ++ ".js"]) = true
       <-> exists mid, Glob.normalizePath "src/file.js" = "src/" ++ mid ++ ".js"
                       /\ within_line mid)).
Proof.
  apply (matchAny_star ∅ "src/file.js" "src/" ".js" coherent_empty); reflexivity.
Defined.

(** The samples of test/utils-glob.test.js. *)
Lemma matchAny_tests :
  List.map (fun '(filePath, pattern) => fst (Glob.matchAny ∅ filePath [pattern]))
    [ ("src/utils/file.js", "src/**/*.js"); ("src/utils/file.ts", "src/**/*.js");
      ("README.md", "docs/**/*.md"); ("docs/readme.md", "docs/**/*.md");
      ("src/utils/file.js", "src/**/file.?s"); ("src/utils/file.jsx", "src/**/file.?s");
      ("config/.env", "**/.env"); ("src\utils\file.js", "src/**/*.js") ]
  = [true; false; false; true; true; false; true; true].
Proof. vm_compute. reflexivity. Qed.

(** ** Allowlist entries *)

Lemma includes_char_inv (x : ascii) (s : string) :
  includes (String x EmptyString) s = false ->
  sall (fun c => negb (Ascii.eqb c x)) s = true.
Proof.
  induction s as [|c s IH]; simpl; [done|].
  intros H. apply orb_false_iff in H as [Hc Hs].
  rewrite IH by done. rewrite andb_true_r.
  destruct (ascii_dec x c) as [->|Hne]; [by destruct s|].
  apply negb_true_iff, Ascii.eqb_neq. congruence.
Qed.

Lemma wildcardChar_no_star (l : list ascii) :
  forallb (fun c => negb (Ascii.eqb c "*")) l = true ->
  List.map wildcardChar l
  = List.map chr (List.map (fun c => if Ascii.eqb c "?" then "."%char else c) l).
Proof.
  induction l as [|c l IH]; simpl; [done|].
  intros H. apply andb_true_iff in H as [Hc Hl]. rewrite IH by done.
  unfold wildcardChar at 1. apply negb_true_iff in Hc. rewrite Hc.
  by destruct (Ascii.eqb c "?").
Qed.

Lemma list_ascii_of_string_smap (f : ascii -> ascii) (s : string) :
  list_ascii_of_string (smap f s) = List.map f (list_ascii_of_string s).
Proof. induction s as [|c s IH]; [done|]. simpl. by rewrite IH. Qed.

Lemma question_as_dot_id (raw : string) :
  includes "?" raw = false -> question_as_dot raw = raw.
Proof.
  intros H. apply includes_char_inv in H. unfold question_as_dot.
  induction raw as [|c raw IH]; [done|]. simpl in *.
  apply andb_true_iff in H as [Hc Hraw]. rewrite IH by done.
  apply negb_true_iff in Hc. by rewrite Hc.
Qed.

Lemma test_literalRegExp (raw key : string) :
  fst (test (literalRegExp raw) key) = true <-> key = raw.
Proof.
  unfold literalRegExp.
  change (seq [Bol false; lit raw; Eol false])
    with (Seq (Bol false) (seq [lit raw; Eol false])).
  rewrite test_anchored. cbn [fst]. rewrite bool_decide_eq_true.
  unfold match_at.
  change (run (seq [lit raw; Eol false]) ?s Some)
    with (run (seq (List.map chr (list_ascii_of_string raw))) s
              (fun s1 => run (seq [Eol false]) s1 Some)).
  rewrite run_chrs, chrs_eol. cbn [m_rest].
  split; [apply list_ascii_of_string_inj|by intros ->].
Qed.

Lemma test_wildcardToRegExp (raw key : string) :
  includes "*" raw = false ->
  fst (test (wildcardToRegExp raw) key) = true <-> key = question_as_dot raw.
Proof.
  intros Hstar. apply includes_char_inv in Hstar. rewrite sall_forallb in Hstar.
  unfold wildcardToRegExp.
  change (seq ([Bol false] ++ ?l)%list) with (Seq (Bol false) (seq l)).
  rewrite test_anchored. cbn [fst]. rewrite bool_decide_eq_true.
  unfold match_at. rewrite wildcardChar_no_star by done.
  rewrite run_seq_app, run_chrs, chrs_eol. cbn [m_rest].
  unfold question_as_dot. rewrite <- list_ascii_of_string_smap.
  split; [apply list_ascii_of_string_inj|by intros ->].
Qed.

(** X4. An allowlist entry that is not written between slashes and has no
    star compiles to one matcher, and that matcher accepts one key only:
    the trimmed entry, with a dot in place of each question mark. *)
Theorem compileAllowlist_plain_entry
  (new_RegExp : string -> string -> completion RegExp) (entry key : string) :
  truthy (trim entry) = true ->
  startsWith "/" (trim entry) = false ->
  includes "*" (trim entry) = false ->
  exists matcher,
    compileAllowlist new_RegExp [EntryString entry] = Normal [matcher]
    /\ snd (matchesAllowlist key [matcher]) = [matcher]
    /\ (fst (matchesAllowlist key [matcher]) = true
        <-> key = question_as_dot (trim entry)).
Proof.
  intros Htruthy Hslash Hstar.
  assert (Hentry : truthy entry = true) by (by destruct entry).
  assert (Hcompiled :
    compileAllowlist new_RegExp [EntryString entry]
    = Normal [if includes "?" (trim entry) then wildcardToRegExp (trim entry)
              else literalRegExp (trim entry)]).
  { unfold compileAllowlist. cbn [foldM]. unfold compileEntry.
    rewrite Hentry, Htruthy, Hslash, Hstar. cbn [negb orb].
    destruct (lastIndexOf "/" (trim entry)) as [[|lastSlash]|];
      by destruct (includes "?" (trim entry)). }
  eexists. split; [exact Hcompiled|].
  unfold matchesAllowlist. cbn [length Nat.eqb some_test].
  destruct (includes "?" (trim entry)) eqn:Hq.
  - pose proof (test_wildcardToRegExp (trim entry) key Hstar) as Htest.
    pose proof (test_stateless (wildcardToRegExp (trim entry)) key eq_refl eq_refl) as Hsnd.
    destruct (test (wildcardToRegExp (trim entry)) key) as [ok matcher'].
    simpl in Htest, Hsnd. subst matcher'. by destruct ok.
  - pose proof (test_literalRegExp (trim entry) key) as Htest.
    pose proof (test_stateless (literalRegExp (trim entry)) key eq_refl eq_refl) as Hsnd.
    rewrite <- (question_as_dot_id (trim entry) Hq) in Htest at 2.
    destruct (test (literalRegExp (trim entry)) key) as [ok matcher'].
    simpl in Htest, Hsnd. subst matcher'. by destruct ok.
Qed.

Lemma compileAllowlist_plain_entry_witness :
  exists matcher,
    compileAllowlist (fun _ _ => Throw (Error "Invalid regular expression"))
      [EntryString " user?id "] = Normal [matcher]
    /\ snd (matchesAllowlist "user.id" [matcher]) = [matcher]
    /\ (fst (matchesAllowlist "user.id" [matcher]) = true
        <-> "user.id" = question_as_dot (trim " user?id ")).
Proof.
  apply (compileAllowlist_plain_entry _ " user?id " "user.id"); reflexivity.
Defined.

(** ** Limits on the extracted facts *)

Lemma ofType_app (type : string) (a b : list Entity.t) :
  ofType type (a ++ b) = (ofType type a ++ ofType type b)%list.
Proof. apply List.filter_app. Qed.

(** The invariant of the loop of [limitEntitiesByType] once the facts
    [read_] are read. *)
Lemma limitByType_fold (maxPerType : Z) (entities : list Entity.t) :
  forall (read_ : list Entity.t) (limits : gmap string nat) (limited : list Entity.t),
    limited `sublist_of` read_ ->
    (forall type, ofType type limited = take (Z.to_nat maxPerType) (ofType type read_)) ->
    (forall type, default 0%nat (limits !! type) = length (ofType type limited)) ->
    let limited' :=
      snd (List.fold_left (limitByType_step maxPerType) entities (limits, limited)) in
    limited' `sublist_of` (read_ ++ entities)%list
    /\ forall type,
         ofType type limited' = take (Z.to_nat maxPerType) (ofType type (read_ ++ entities)%list).
Proof.
  induction entities as [|entity rest IH]; intros read_ limits limited Hsub Htake Hcount.
  - simpl. by rewrite app_nil_r.
  - cbn [List.fold_left].
    assert (Hstep : limitByType_step maxPerType (limits, limited) entity
                    = if (maxPerType
                          <=? Z.of_nat (default 0%nat (limits !! typeOrUnknown entity)))%Z
                      then (limits, limited)
                      else (<[ typeOrUnknown entity :=
                               S (default 0%nat (limits !! typeOrUnknown entity)) ]> limits,
                            (limited ++ [entity])%list)) by reflexivity.
    rewrite Hstep. clear Hstep.
    replace (read_ ++ entity :: rest)%list with ((read_ ++ [entity]) ++ rest)%list
      by (by rewrite <- app_assoc).
    set (type0 := typeOrUnknown entity).
    assert (Hself : ofType type0 [entity] = [entity]).
    { unfold ofType. simpl. fold type0. by rewrite String.eqb_refl. }
    assert (Hother : forall type, type <> type0 -> ofType type [entity] = []).
    { intros type Hne. unfold ofType. simpl. fold type0.
      destruct (String.eqb type0 type) eqn:Heq; [|done].
      apply String.eqb_eq in Heq. congruence. }
    pose proof (Hcount type0) as Hc0. rewrite Htake in Hc0.
    rewrite length_take in Hc0.
    destruct (maxPerType <=? Z.of_nat (default 0%nat (limits !! type0)))%Z eqn:Hfull.
    + apply Z.leb_le in Hfull. apply IH.
      * by apply sublist_inserts_r.
      * intros type. rewrite ofType_app. destruct (decide (type = type0)) as [->|Hne].
        -- rewrite Hself, Htake. rewrite take_app_le by lia. done.
        -- rewrite (Hother type Hne), app_nil_r. apply Htake.
      * done.
    + apply Z.leb_gt in Hfull. apply IH.
      * apply sublist_app; [done|]. reflexivity.
      * intros type. rewrite !ofType_app. destruct (decide (type = type0)) as [->|Hne].
        -- rewrite Hself, Htake.
           rewrite (take_ge (ofType type0 read_)) by lia.
           rewrite take_ge; [done|]. rewrite length_app. simpl. lia.
        -- rewrite (Hother type Hne), !app_nil_r. apply Htake.
      * intros type. rewrite ofType_app. destruct (decide (type = type0)) as [->|Hne].
        -- rewrite lookup_insert_eq, Hself, length_app. simpl.
           rewrite <- Hcount. lia.
        -- rewrite lookup_insert_ne by done. rewrite (Hother type Hne), app_nil_r.
           apply Hcount.
Qed.

(** X5. [limitEntitiesByType] keeps the facts in their order and, of each
    type, exactly the first [maxPerType] ones. *)
Theorem limitEntitiesByType_keeps_first (entities : list Entity.t) (maxPerType : Z) :
  limitEntitiesByType entities maxPerType `sublist_of` entities
  /\ forall type,
       ofType type (limitEntitiesByType entities maxPerType)
       = take (Z.to_nat maxPerType) (ofType type entities).
Proof.
  apply (limitByType_fold maxPerType entities [] ∅ []).
  - reflexivity.
  - intros type. by destruct (Z.to_nat maxPerType).
  - intros type. by rewrite lookup_empty.
Qed.

#[local] Arguments mem : simpl never.

Lemma mem_In (x : string) (l : list string) : mem x l = true <-> In x l.
Proof.
  unfold mem. rewrite existsb_exists. split.
  - intros (y & Hy & Heq). apply String.eqb_eq in Heq. by subst.
  - intros H. exists x. split; [done|apply String.eqb_refl].
Qed.

Lemma mem_cons (x y : string) (l : list string) :
  mem x (y :: l) = String.eqb x y || mem x l.
Proof. reflexivity. Qed.

Lemma uniq_from_In (l : list string) :
  forall (seen : list string) (x : string),
    In x (uniq_from seen l) <-> In x l /\ ~ In x seen.
Proof.
  induction l as [|y l IH]; intros seen x; simpl; [tauto|].
  destruct (mem y seen) eqn:Hmem.
  - rewrite IH. apply mem_In in Hmem. split; [tauto|].
    intros [[<-|H] Hn]; tauto.
  - simpl. rewrite IH. simpl.
    assert (~ In y seen) by (rewrite <- mem_In, Hmem; done).
    destruct (decide (y = x)) as [<-|Hne]; tauto.
Qed.

Lemma uniq_from_NoDup (l : list string) :
  forall seen : list string, List.NoDup (uniq_from seen l).
Proof.
  induction l as [|y l IH]; intros seen; simpl; [constructor|].
  destruct (mem y seen); [apply IH|].
  constructor; [|apply IH]. rewrite uniq_from_In. simpl. tauto.
Qed.

Lemma uniq_from_snoc (l : list string) :
  forall (seen : list string) (x : string),
    uniq_from seen (l ++ [x])
    = (uniq_from seen l ++ if mem x seen || mem x l then [] else [x])%list.
Proof.
  induction l as [|y l IH]; intros seen x; simpl.
  - change (mem x []) with false. rewrite orb_false_r. by destruct (mem x seen).
  - destruct (mem y seen) eqn:Hmem.
    + rewrite IH, mem_cons. destruct (String.eqb x y) eqn:Heq; [|done].
      apply String.eqb_eq in Heq as ->. by rewrite Hmem.
    + rewrite IH, !mem_cons. simpl.
      by destruct (String.eqb x y), (mem x seen), (mem x l).
Qed.

Lemma uniq_snoc (l : list string) (x : string) :
  uniq (l ++ [x]) = (uniq l ++ if mem x l then [] else [x])%list.
Proof. unfold uniq. by rewrite uniq_from_snoc. Qed.

Lemma mem_uniq (x : string) (l : list string) : mem x (uniq l) = mem x l.
Proof.
  apply eq_true_iff_eq. rewrite !mem_In. unfold uniq. rewrite uniq_from_In. simpl. tauto.
Qed.

(** *** Grouping by type *)

Lemma ofType_self (entity : Entity.t) : ofType (typeOrUnknown entity) [entity] = [entity].
Proof. unfold ofType. simpl. by rewrite String.eqb_refl. Qed.

Lemma ofType_other (type : string) (entity : Entity.t) :
  type <> typeOrUnknown entity -> ofType type [entity] = [].
Proof.
  intros Hne. unfold ofType. simpl.
  destruct (String.eqb (typeOrUnknown entity) type) eqn:Heq; [|done].
  apply String.eqb_eq in Heq. congruence.
Qed.

Lemma ofType_none (type : string) (entities : list Entity.t) :
  mem type (List.map typeOrUnknown entities) = false -> ofType type entities = [].
Proof.
  induction entities as [|e l IH]; [done|]. simpl. rewrite mem_cons.
  intros H. apply orb_false_iff in H as [Hne Hl]. unfold ofType in *. simpl.
  rewrite String.eqb_sym, Hne. by apply IH.
Qed.

Lemma byType_push_groups (entity : Entity.t) (read_ : list Entity.t) (types : list string) :
  List.NoDup types ->
  (mem (typeOrUnknown entity) types = false -> ofType (typeOrUnknown entity) read_ = []) ->
  byType_push (typeOrUnknown entity) entity
    (List.map (fun type => (type, ofType type read_)) types)
  = List.map (fun type => (type, ofType type (read_ ++ [entity])%list))
      (types ++ if mem (typeOrUnknown entity) types then [] else [typeOrUnknown entity])%list.
Proof.
  induction types as [|type types IH]; intros Hnodup Hnone.
  - simpl. rewrite ofType_app, ofType_self. by rewrite Hnone.
  - apply List.NoDup_cons_iff in Hnodup as [Hnotin Hnodup].
    cbn [List.map byType_push]. rewrite mem_cons.
    destruct (String.eqb type (typeOrUnknown entity)) eqn:Heq.
    + apply String.eqb_eq in Heq as ->. rewrite String.eqb_refl. cbn [orb].
      rewrite app_nil_r. cbn [List.map]. rewrite ofType_app, ofType_self. f_equal.
      apply List.map_ext_in. intros type Hin. rewrite ofType_app, ofType_other.
      * by rewrite app_nil_r.
      * by intros ->.
    + rewrite String.eqb_sym, Heq. cbn [orb]. rewrite mem_cons, String.eqb_sym, Heq in Hnone.
      rewrite IH by done. rewrite <- app_comm_cons. cbn [List.map].
      rewrite ofType_app, (ofType_other type entity), app_nil_r; [done|].
      intros ->. by rewrite String.eqb_refl in Heq.
Qed.

Lemma byType_fold_groups (entities : list Entity.t) :
  forall read_ : list Entity.t,
    List.fold_left (fun byType entity => byType_push (typeOrUnknown entity) entity byType)
      entities (List.map (fun type => (type, ofType type read_)) (typesOf read_))
    = List.map (fun type => (type, ofType type (read_ ++ entities)%list))
        (typesOf (read_ ++ entities)%list).
Proof.
  induction entities as [|entity rest IH]; intros read_.
  - simpl. by rewrite app_nil_r.
  - cbn [List.fold_left]. rewrite byType_push_groups.
    + replace (read_ ++ entity :: rest)%list with ((read_ ++ [entity]) ++ rest)%list
        by (by rewrite <- app_assoc).
      rewrite <- IH. f_equal. f_equal.
      unfold typesOf. rewrite List.map_app. cbn [List.map].
      by rewrite uniq_snoc, mem_uniq.
    + apply uniq_from_NoDup.
    + unfold typesOf. rewrite mem_uniq. apply ofType_none.
Qed.

Lemma byType_groups (entities : list Entity.t) :
  List.map snd
    (List.fold_left (fun byType entity => byType_push (typeOrUnknown entity) entity byType)
       entities [])
  = groupsByType entities.
Proof.
  change (@nil (string * list Entity.t))
    with (List.map (fun type => (type, ofType type [])) (typesOf [])).
  rewrite (byType_fold_groups entities []). rewrite List.map_map. done.
Qed.

(** *** The rounds *)

Lemma column_cons (index : nat) (group : list Entity.t) (lists : list (list Entity.t)) :
  column index (group :: lists)
  = match group !! index with
    | Some entity => entity :: column index lists
    | None => column index lists
    end.
Proof. reflexivity. Qed.

Lemma llmRound_spec (index : nat) (maxTotal : Z) (lists : list (list Entity.t)) :
  forall (result : list Entity.t) (added : bool),
    (Z.of_nat (length result) < maxTotal)%Z ->
    llmRound index maxTotal lists result added
    = if (Z.of_nat (length result + length (column index lists)) <? maxTotal)%Z
      then ((result ++ column index lists)%list,
            added || negb (bool_decide (column index lists = [])))
      else ((result ++ take (Z.to_nat maxTotal - length result) (column index lists))%list,
            true).
Proof.
  induction lists as [|group rest IH]; intros result added Hroom.
  - simpl. rewrite Nat.add_0_r, app_nil_r, orb_false_r.
    by apply Z.ltb_lt in Hroom as ->.
  - cbn [llmRound]. rewrite column_cons. destruct (group !! index) as [entity|]; [|by apply IH].
    rewrite length_app. cbn [length].
    destruct (maxTotal <=? Z.of_nat (length result + 1))%Z eqn:Hfull.
    + apply Z.leb_le in Hfull.
      assert ((Z.of_nat (length result + S (length (column index rest))) <? maxTotal)%Z
              = false) as -> by (apply Z.ltb_ge; lia).
      replace (Z.to_nat maxTotal - length result)%nat with 1%nat by lia.
      simpl. by rewrite take_0.
    + apply Z.leb_gt in Hfull. rewrite IH by (rewrite length_app; simpl; lia).
      rewrite length_app. cbn [length].
      replace (length result + 1 + length (column index rest))%nat
        with (length result + S (length (column index rest)))%nat by lia.
      destruct (_ <? _)%Z.
      * rewrite <- app_assoc. simpl. by rewrite orb_true_r.
      * rewrite <- app_assoc. simpl.
        replace (Z.to_nat maxTotal - length result)%nat
          with (S (Z.to_nat maxTotal - (length result + 1)))%nat by lia.
        done.
Qed.

Lemma column_empty (index : nat) (lists : list (list Entity.t)) :
  column index lists = [] <-> Forall (fun group => (length group <= index)%nat) lists.
Proof.
  induction lists as [|group rest IH]; [split; [constructor|done]|].
  rewrite column_cons, Forall_cons. destruct (group !! index) as [entity|] eqn:Hlookup.
  - apply lookup_lt_Some in Hlookup. split; [done|]. intros [? _]. lia.
  - apply lookup_ge_None in Hlookup. rewrite IH. tauto.
Qed.

Lemma column_empty_S (index : nat) (lists : list (list Entity.t)) :
  column index lists = [] -> column (S index) lists = [].
Proof.
  rewrite !column_empty. intros H. eapply Forall_impl; [exact H|]. simpl. lia.
Qed.

Lemma columns_empty (lists : list (list Entity.t)) (count : nat) :
  forall index : nat,
    column index lists = [] ->
    concat (List.map (fun index => column index lists) (List.seq index count)) = [].
Proof.
  induction count as [|count IH]; intros index Hempty; [done|].
  simpl. rewrite Hempty. simpl. apply IH. by apply column_empty_S.
Qed.

Lemma llmRounds_full (fuel : nat) (maxTotal : Z) (lists : list (list Entity.t))
  (index : nat) (result : list Entity.t) :
  (maxTotal <= Z.of_nat (length result))%Z ->
  llmRounds fuel maxTotal lists index result = Normal result.
Proof.
  intros Hfull. destruct fuel; simpl;
    by assert ((Z.of_nat (length result) <? maxTotal)%Z = false) as ->
      by (apply Z.ltb_ge; lia).
Qed.

Lemma llmRounds_spec (maxTotal : Z) (lists : list (list Entity.t)) (fuel : nat) :
  forall (index : nat) (result : list Entity.t),
    (Z.to_nat maxTotal - length result < fuel)%nat ->
    llmRounds fuel maxTotal lists index result
    = Normal (result
              ++ take (Z.to_nat maxTotal - length result)
                   (concat (List.map (fun index => column index lists)
                                     (List.seq index fuel))))%list.
Proof.
  induction fuel as [|fuel IH]; intros index result Hfuel; [lia|].
  destruct (Z.of_nat (length result) <? maxTotal)%Z eqn:Hroom.
  - apply Z.ltb_lt in Hroom. cbn [llmRounds].
    assert ((Z.of_nat (length result) <? maxTotal)%Z = true) as -> by (apply Z.ltb_lt; lia).
    rewrite llmRound_spec by done. cbn [orb List.seq List.map concat].
    destruct (Z.of_nat (length result + length (column index lists)) <? maxTotal)%Z
      eqn:Hfits.
    + apply Z.ltb_lt in Hfits.
      destruct (column index lists) as [|entity column'] eqn:Hcolumn.
      * simpl. rewrite columns_empty by (by apply column_empty_S).
        by rewrite take_nil.
      * rewrite bool_decide_eq_false_2 by done. cbn [negb].
        rewrite IH by (rewrite length_app; simpl in *; lia).
        rewrite take_app_ge by (simpl in *; lia).
        rewrite <- app_assoc, length_app. by rewrite Nat.sub_add_distr.
    + apply Z.ltb_ge in Hfits. cbn [negb].
      rewrite llmRounds_full.
      * by rewrite take_app_le by lia.
      * rewrite length_app, length_take. lia.
  - apply Z.ltb_ge in Hroom. rewrite llmRounds_full by done.
    replace (Z.to_nat maxTotal - length result)%nat with 0%nat by lia.
    by rewrite take_0, app_nil_r.
Qed.

(** *** Counting *)

Lemma roundRobin_S (lists : list (list Entity.t)) (rounds : nat) :
  roundRobin lists (S rounds) = (roundRobin lists rounds ++ column rounds lists)%list.
Proof.
  unfold roundRobin. rewrite List.seq_S, List.map_app, concat_app. simpl.
  by rewrite app_nil_r.
Qed.

Lemma length_column (index : nat) (lists : list (list Entity.t)) :
  (length (concat (List.map (take index) lists)) + length (column index lists)
   = length (concat (List.map (take (S index)) lists)))%nat.
Proof.
  induction lists as [|group rest IH]; [done|].
  rewrite column_cons. cbn [List.map concat]. rewrite !length_app, !length_take, <- IH.
  destruct (group !! index) as [entity|] eqn:Hlookup.
  - apply lookup_lt_Some in Hlookup. cbn [length]. lia.
  - apply lookup_ge_None in Hlookup. lia.
Qed.

Lemma length_roundRobin (lists : list (list Entity.t)) (rounds : nat) :
  length (roundRobin lists rounds) = length (concat (List.map (take rounds) lists)).
Proof.
  induction rounds as [|rounds IH].
  - unfold roundRobin. simpl. induction lists as [|group rest IHl]; [done|].
    simpl. by rewrite <- IHl.
  - rewrite roundRobin_S, length_app, IH. apply length_column.
Qed.

Lemma take_all (lists : list (list Entity.t)) (rounds : nat) :
  Forall (fun group => (length group <= rounds)%nat) lists ->
  List.map (take rounds) lists = lists.
Proof.
  induction 1 as [|group rest Hle _ IH]; [done|].
  simpl. by rewrite IH, take_ge.
Qed.

Lemma byType_push_length (type : string) (entity : Entity.t)
  (byType : list (string * list Entity.t)) :
  length (concat (List.map snd (byType_push type entity byType)))
  = S (length (concat (List.map snd byType))).
Proof.
  induction byType as [|[key group] rest IH]; [done|].
  simpl. destruct (String.eqb key type); simpl.
  - rewrite !length_app. simpl. lia.
  - rewrite !length_app, IH. lia.
Qed.

Lemma length_groupsByType (entities : list Entity.t) :
  length (concat (groupsByType entities)) = length entities.
Proof.
  rewrite <- byType_groups.
  assert (H : forall byType,
            length (concat (List.map snd
              (List.fold_left
                 (fun byType entity => byType_push (typeOrUnknown entity) entity byType)
                 entities byType)))
            = (length (concat (List.map snd byType)) + length entities)%nat).
  { induction entities as [|entity rest IH]; intros byType; simpl; [lia|].
    rewrite IH, byType_push_length. lia. }
  by rewrite H.
Qed.

Lemma groupsByType_short (entities : list Entity.t) :
  Forall (fun group => (length group <= length entities)%nat) (groupsByType entities).
Proof.
  rewrite <- length_groupsByType. generalize (groupsByType entities). intros lists.
  induction lists as [|group rest IH]; [constructor|].
  simpl. rewrite length_app. constructor; [lia|].
  eapply Forall_impl; [exact IH|]. simpl. lia.
Qed.

Lemma roundRobin_In (lists : list (list Entity.t)) (rounds : nat) (entity : Entity.t) :
  In entity (roundRobin lists rounds) -> exists group, In group lists /\ In entity group.
Proof.
  unfold roundRobin. rewrite in_concat. intros (col & Hcol & Hin).
  apply in_map_iff in Hcol as (index & <- & _).
  induction lists as [|group rest IH]; [done|].
  rewrite column_cons in Hin. destruct (group !! index) as [e|] eqn:Hlookup.
  - destruct Hin as [->|Hin].
    + exists group. split; [by left|]. apply list_elem_of_In. by eapply list_elem_of_lookup_2.
    + destruct (IH Hin) as (l & ? & ?). exists l. split; [by right|done].
  - destruct (IH Hin) as (l & ? & ?). exists l. split; [by right|done].
Qed.

(** X6. [limitEntitiesForLlm] returns the facts as they are when there are
    at most [maxTotal] of them. Otherwise it returns exactly [maxTotal]
    facts (none when [maxTotal] is negative), all of them facts it was
    given: the first [maxTotal] of the round robin over the types, which
    takes the first fact of every type in the order in which the types
    first occur, then the second of every type that has one, and so on. *)
Theorem limitEntitiesForLlm_round_robin (entities : list Entity.t) (maxTotal : Z) :
  ((Z.of_nat (length entities) <= maxTotal)%Z ->
   limitEntitiesForLlm entities maxTotal = Normal entities)
  /\ ((maxTotal < Z.of_nat (length entities))%Z ->
      let result :=
        take (Z.to_nat maxTotal) (roundRobin (groupsByType entities) (length entities)) in
      limitEntitiesForLlm entities maxTotal = Normal result
      /\ length result = Z.to_nat maxTotal
      /\ forall entity, In entity result -> In entity entities).
Proof.
  split.
  - intros Hle. unfold limitEntitiesForLlm. by apply Z.leb_le in Hle as ->.
  - intros Hlt result. unfold limitEntitiesForLlm.
    assert ((Z.of_nat (length entities) <=? maxTotal)%Z = false) as ->
      by (apply Z.leb_gt; lia).
    assert (Hlength : length (roundRobin (groupsByType entities) (length entities))
                      = length entities).
    { rewrite length_roundRobin, take_all by apply groupsByType_short.
      apply length_groupsByType. }
    split; [|split].
    + rewrite byType_groups, llmRounds_spec by (simpl; lia).
      simpl length. rewrite Nat.sub_0_r. cbn [app]. f_equal.
      change (concat (List.map (fun index => column index (groupsByType entities))
                               (List.seq 0 (S (length entities)))))
        with (roundRobin (groupsByType entities) (S (length entities))).
      rewrite roundRobin_S.
      rewrite (proj2 (column_empty (length entities) (groupsByType entities)))
        by apply groupsByType_short.
      by rewrite app_nil_r.
    + unfold result. rewrite length_take, Hlength. lia.
    + intros entity Hin. unfold result in Hin.
      apply list_elem_of_In, elem_of_take in Hin as (i & Hi & _).
      apply list_elem_of_lookup_2, list_elem_of_In, roundRobin_In in Hi as (group & Hlist & Hin).
      unfold groupsByType in Hlist. apply in_map_iff in Hlist as (type & <- & _).
      unfold ofType in Hin. by apply List.filter_In in Hin as [? _].
Qed.

Lemma limitEntitiesForLlm_round_robin_witness :
  let fact type name :=
    {| Entity.type := type; Entity.name := name; Entity.signature := name;
       Entity.file := "src/api.js"; Entity.line := 1 |} in
  let entities :=
    [fact "function" "a"; fact "function" "b"; fact "function" "c"; fact "endpoint" "GET /"] in
  limitEntitiesForLlm entities 3
  = Normal [fact "function" "a"; fact "endpoint" "GET /"; fact "function" "b"]
  /\ length (take (Z.to_nat 3) (roundRobin (groupsByType entities) (length entities)))
     = Z.to_nat 3.
Proof.
  intros fact entities.
  destruct (proj2 (limitEntitiesForLlm_round_robin entities 3)) as (Hrun & Hlen & _).
  - simpl. lia.
  - split; [exact Hrun|exact Hlen].
Defined.

(** ** utils/text.js and utils/yaml.js *)

Lemma length_substring_0 (n : nat) (s : string) :
  String.length (String.substring 0 n s) = (n `min` String.length s)%nat.
Proof.
  revert n. induction s as [|c s IH]; intros [|n]; simpl; try done.
  by rewrite IH.
Qed.

Lemma substring_0_prefix (n : nat) (s : string) :
  exists rest, s = String.substring 0 n s ++ rest.
Proof.
  revert n. induction s as [|c s IH]; intros [|n]; simpl.
  - by exists "".
  - by exists "".
  - by exists (String c s).
  - destruct (IH n) as [rest Hrest]. exists rest. rewrite sapp_cons. by rewrite <- Hrest.
Qed.

(** X7. [truncateText] with a positive limit returns at most [maxChars]
    characters of the text, followed by the marker of 12 characters when
    the text was longer: the result is never longer than [maxChars + 12],
    a text within the limit is returned as it is, and a longer one is cut
    after its first [maxChars] characters. *)
Theorem truncateText_bound (text : string) (maxChars : Z) :
  (0 < maxChars)%Z ->
  (Z.of_nat (String.length (Text.truncateText text maxChars)) <= maxChars + 12)%Z
  /\ ((Z.of_nat (String.length text) <= maxChars)%Z ->
      Text.truncateText text maxChars = text)
  /\ ((maxChars < Z.of_nat (String.length text))%Z ->
      Text.truncateText text maxChars
      = String.substring 0 (Z.to_nat maxChars) text ++ String "010" "[truncated]"
      /\ String.length (String.substring 0 (Z.to_nat maxChars) text) = Z.to_nat maxChars).
Proof.
  intros Hpos. unfold Text.truncateText.
  assert ((maxChars =? 0)%Z = false) as -> by (apply Z.eqb_neq; lia). cbn [orb].
  destruct (Z.of_nat (String.length text) <=? maxChars)%Z eqn:Hle.
  - apply Z.leb_le in Hle. split; [lia|]. split; [done|]. intros Hlt. lia.
  - apply Z.leb_gt in Hle.
    assert (Hslice : Text.slice_to maxChars text
                     = String.substring 0 (Z.to_nat maxChars) text).
    { unfold Text.slice_to.
      assert ((maxChars <? 0)%Z = false) as -> by (apply Z.ltb_ge; lia).
      f_equal. lia. }
    rewrite Hslice.
    assert (Hlen : String.length (String.substring 0 (Z.to_nat maxChars) text)
                   = Z.to_nat maxChars) by (rewrite length_substring_0; lia).
    split; [|split; [intros; lia|done]].
    rewrite sapp_length, Hlen. simpl. lia.
Qed.

Lemma truncateText_bound_witness :
  (Z.of_nat (String.length (Text.truncateText "hello" 3)) <= 3 + 12)%Z
  /\ Text.truncateText "hello" 3 = "hel" ++ String "010" "[truncated]".
Proof.
  destruct (truncateText_bound "hello" 3) as (Hbound & _ & Hcut); [lia|].
  split; [exact Hbound|]. apply Hcut. simpl. lia.
Defined.

(** The samples of test/utils-text.test.js, and a negative limit, which
    [slice] counts from the end of the text. *)
Lemma truncateText_tests :
  Text.truncateText "hello" 10 = "hello"
  /\ Text.truncateText "hello" 3 = "hel" ++ String "010" "[truncated]"
  /\ Text.truncateText "hello" 0 = "hello"
  /\ Text.truncateText "hello" (-2) = "hel" ++ String "010" "[truncated]".
Proof. repeat split. Qed.

Lemma stripComments_loop_prefix (line : string) :
  forall inSingle inDouble : bool,
    is_prefix_of (Yaml.stripComments_loop line inSingle inDouble) line.
Proof.
  induction line as [|c line IH]; intros inSingle inDouble; simpl.
  - by exists "".
  - repeat (match goal with |- context [if ?b then _ else _] => destruct b end);
      try (by eexists);
      match goal with
      | |- is_prefix_of (String c (Yaml.stripComments_loop line ?s ?d)) _ =>
          destruct (IH s d) as [rest Hrest]; exists rest;
          rewrite sapp_cons; by rewrite <- Hrest
      end.
Qed.

Lemma stripComments_loop_idem (line : string) :
  forall inSingle inDouble : bool,
    Yaml.stripComments_loop (Yaml.stripComments_loop line inSingle inDouble)
      inSingle inDouble
    = Yaml.stripComments_loop line inSingle inDouble.
Proof.
  induction line as [|c line IH]; intros inSingle inDouble; [done|].
  cbn [Yaml.stripComments_loop].
  destruct (Ascii.eqb c "'" && negb inDouble) eqn:H1.
  { cbn [Yaml.stripComments_loop]. by rewrite H1, IH. }
  destruct (Ascii.eqb c dquote && negb inSingle) eqn:H2.
  { cbn [Yaml.stripComments_loop]. by rewrite H1, H2, IH. }
  destruct (Ascii.eqb c "#" && negb inSingle && negb inDouble) eqn:H3; [done|].
  cbn [Yaml.stripComments_loop]. by rewrite H1, H2, H3, IH.
Qed.

Lemma stripComments_loop_no_hash (line : string) :
  forall inSingle inDouble : bool,
    sall (fun c => negb (Ascii.eqb c "#")) line = true ->
    Yaml.stripComments_loop line inSingle inDouble = line.
Proof.
  induction line as [|c line IH]; intros inSingle inDouble Hno; [done|].
  simpl in Hno. apply andb_true_iff in Hno as [Hc Hline]. apply negb_true_iff in Hc.
  cbn [Yaml.stripComments_loop]. rewrite Hc. cbn [andb].
  repeat (match goal with |- context [if ?b then _ else _] => destruct b end);
    by rewrite IH.
Qed.

(** X8. [stripComments] returns a beginning of the line, returns a line
    without a hash sign as it is, and stripping twice is stripping once. *)
Theorem stripComments_prefix_idempotent (line : string) :
  is_prefix_of (Yaml.stripComments line) line
  /\ Yaml.stripComments (Yaml.stripComments line) = Yaml.stripComments line
  /\ (sall (fun c => negb (Ascii.eqb c "#")) line = true -> Yaml.stripComments line = line).
Proof.
  split; [apply stripComments_loop_prefix|].
  split; [apply stripComments_loop_idem|apply stripComments_loop_no_hash].
Qed.

Lemma endsWith_from_app (p s : string) : endsWith_from p (s ++ p) = true.
Proof.
  induction s as [|c s IH].
  - rewrite sapp_nil_l. destruct p; cbn [endsWith_from]; by rewrite String.eqb_refl.
  - rewrite sapp_cons. cbn [endsWith_from]. rewrite IH. apply orb_true_r.
Qed.

Lemma substring_0_app (s t : string) : String.substring 0 (String.length s) (s ++ t) = s.
Proof.
  induction s as [|c s IH].
  - rewrite sapp_nil_l. by destruct t.
  - rewrite sapp_cons. simpl. by rewrite IH.
Qed.

Lemma unquote_quoted (q : ascii) (s : string) :
  Yaml.unquote (String q (s ++ String q EmptyString)) = s.
Proof.
  unfold Yaml.unquote. cbn [String.length]. rewrite sapp_length. cbn [String.length].
  replace (S (String.length s + 1) - 2)%nat with (String.length s) by lia.
  cbn [String.substring]. apply substring_0_app.
Qed.

Lemma startsWith_char (c d : ascii) (s : string) :
  startsWith (String c EmptyString) (String d s) = Ascii.eqb c d.
Proof.
  unfold startsWith. simpl. destruct (ascii_dec c d) as [->|Hne].
  - rewrite Ascii.eqb_refl. by destruct s.
  - symmetry. apply Ascii.eqb_neq. exact Hne.
Qed.

(** X9. Quotes protect a scalar: between two double quotes, or between
    two single quotes, any text is read as that text, whether it looks like
    a number, a boolean or [null], and whatever quotes it contains. *)
Theorem parseScalar_quoted (s : string) :
  Yaml.parseScalar (String dquote (s ++ String dquote EmptyString)) = Yaml.SString s
  /\ Yaml.parseScalar (String "'" (s ++ "'")) = Yaml.SString s.
Proof.
  unfold Yaml.parseScalar. split.
  - change (truthy (String dquote ?x)) with true.
    change (String.eqb (String dquote ?x) "null") with false.
    change (String.eqb (String dquote ?x) "~") with false.
    change (String.eqb (String dquote ?x) "true") with false.
    change (String.eqb (String dquote ?x) "false") with false.
    cbn [negb orb].
    rewrite startsWith_char, Ascii.eqb_refl.
    unfold endsWith.
    change (String dquote (s ++ String dquote "")) with (String dquote s ++ String dquote "").
    rewrite endsWith_from_app. cbn [andb].
    change (String dquote s ++ String dquote "") with (String dquote (s ++ String dquote "")).
    by rewrite unquote_quoted.
  - change (truthy (String "'" ?x)) with true.
    change (String.eqb (String "'" ?x) "null") with false.
    change (String.eqb (String "'" ?x) "~") with false.
    change (String.eqb (String "'" ?x) "true") with false.
    change (String.eqb (String "'" ?x) "false") with false.
    cbn [negb orb].
    rewrite !startsWith_char, Ascii.eqb_refl.
    change (Ascii.eqb dquote "'") with false. cbn [andb].
    unfold endsWith.
    change (String "'" (s ++ "'")) with (String "'" s ++ "'").
    rewrite endsWith_from_app. cbn [andb].
    change (String "'" s ++ "'") with (String "'" (s ++ "'")).
    by rewrite unquote_quoted.
Qed.

(** The scalars of test/utils-yaml.test.js. *)
Lemma parseScalar_tests :
  Yaml.parseScalar "true" = Yaml.SBool true
  /\ Yaml.parseScalar "null" = Yaml.SNull
  /\ Yaml.parseScalar "10" = Yaml.SNumber (JsNumber.Number "10")
  /\ JsNumber.strict_eq (JsNumber.Number "10") (JsNumber.Finite 10 0) = true
  /\ Yaml.parseScalar "0.5" = Yaml.SNumber (JsNumber.Number "0.5")
  /\ JsNumber.strict_eq (JsNumber.Number "0.5") (JsNumber.Finite 1 (-1)) = true
  /\ Yaml.parseScalar "1e3" = Yaml.SString "1e3"
  /\ Yaml.parseScalar "llm7" = Yaml.SString "llm7"
  /\ Yaml.stripComments "name: 'Bar # still text' # note" = "name: 'Bar # still text' ".
Proof. vm_compute. repeat split. Qed.

(** ** Names and positions *)

Lemma drop_while_end_idem (p : ascii -> bool) (s : string) :
  drop_while_end p (drop_while_end p s) = drop_while_end p s.
Proof.
  induction s as [|c s IH]; [done|]. simpl.
  destruct (drop_while_end p s) as [|d t] eqn:Hs.
  - destruct (p c) eqn:Hc; [done|]. simpl. by rewrite Hc.
  - simpl. simpl in IH. by rewrite IH.
Qed.

Lemma drop_while_end_head (p : ascii -> bool) (c : ascii) (s : string) :
  p c = false -> exists t, drop_while_end p (String c s) = String c t.
Proof.
  intros Hc. simpl. destruct (drop_while_end p s); rewrite ?Hc; eauto.
Qed.

Lemma drop_while_head (p : ascii -> bool) (s : string) :
  drop_while p s = EmptyString \/ exists c t, drop_while p s = String c t /\ p c = false.
Proof.
  induction s as [|c s IH]; [by left|]. simpl.
  destruct (p c) eqn:Hc; [done|]. right. eauto.
Qed.

Lemma trim_trim (s : string) : trim (trim s) = trim s.
Proof.
  unfold trim, trimStart, trimEnd.
  destruct (drop_while_head is_ws s) as [->|(c & t & -> & Hc)]; [done|].
  destruct (drop_while_end_head is_ws c t Hc) as [t' Ht']. rewrite Ht'.
  simpl drop_while. rewrite Hc. rewrite <- Ht'. apply drop_while_end_idem.
Qed.

(** X10. [normalizeGraphQLOpType] returns one of the three operation
    types or the empty string, and what it returns it leaves as it is: the
    type of a documented operation, which is normalised when it is read and
    again when it is compared, is not changed by the second pass. *)
Theorem normalizeGraphQLOpType_idempotent (value : option string) :
  In (normalizeGraphQLOpType value) [""; "Query"; "Mutation"; "Subscription"]
  /\ normalizeGraphQLOpType (Some (normalizeGraphQLOpType value))
     = normalizeGraphQLOpType value.
Proof.
  assert (H : In (normalizeGraphQLOpType value) [""; "Query"; "Mutation"; "Subscription"]).
  { unfold normalizeGraphQLOpType. destruct value as [value|]; [|by left].
    repeat (match goal with
            | |- context [if ?b then _ else _] => destruct b
            end); simpl; tauto. }
  split; [exact H|].
  destruct H as [<-|[<-|[<-|[<-|[]]]]]; reflexivity.
Qed.

(** X11. [normalizeWebSocketEventName] leaves its own results as they
    are: an event name that is normalised when it is read from the docs and
    again when it is compared is not changed by the second pass. *)
Theorem normalizeWebSocketEventName_idempotent (value : string) :
  normalizeWebSocketEventName (normalizeWebSocketEventName value)
  = normalizeWebSocketEventName value.
Proof.
  unfold normalizeWebSocketEventName at 2 3.
  destruct (negb (truthy value)); [done|].
  destruct (String.eqb (toLowerCase (trim value)) "onopen") eqn:H1; [done|].
  destruct (String.eqb (toLowerCase (trim value)) "onclose") eqn:H2; [done|].
  destruct (String.eqb (toLowerCase (trim value)) "onmessage") eqn:H3; [done|].
  destruct (String.eqb (toLowerCase (trim value)) "onerror") eqn:H4; [done|].
  unfold normalizeWebSocketEventName. rewrite trim_trim, H1, H2, H3, H4.
  destruct (trim value) eqn:Htrim; [done|]. done.
Qed.

(** *** Severities *)

Lemma normalize_level (value : string) :
  normalize value = EmptyString \/ In (normalize value) severityLevels.
Proof.
  unfold normalize. destruct (negb (truthy value)); [by left|].
  destruct (mem (toLowerCase value) _) eqn:Hmem; [|by left].
  right. by apply mem_In.
Qed.

(** X12. [normalizeSeverity] always returns one of the four severities,
    whatever the value and the fallback are, and a severity it returned is
    returned again whatever fallback it is given next. *)
Theorem normalizeSeverity_level (value fallback : string) :
  In (normalizeSeverity value fallback) severityLevels
  /\ forall fallback', normalizeSeverity (normalizeSeverity value fallback) fallback'
                       = normalizeSeverity value fallback.
Proof.
  assert (H : In (normalizeSeverity value fallback) severityLevels).
  { unfold normalizeSeverity.
    destruct (normalize_level value) as [->|Hv].
    - simpl. destruct (normalize_level fallback) as [->|Hf]; [simpl; tauto|].
      destruct (normalize fallback) eqn:Hn; [simpl; tauto|done].
    - destruct (normalize value) eqn:Hn; [simpl in Hv; intuition discriminate|done]. }
  split; [exact H|]. intros fallback'.
  destruct H as [<-|[<-|[<-|[<-|[]]]]]; reflexivity.
Qed.

(** *** Line numbers *)

Lemma length_split_char (sep : ascii) (s : string) :
  length (split_char sep s)
  = S (String.length (sfilter (fun c => Ascii.eqb c sep) s)).
Proof.
  induction s as [|c s IH]; [done|]. simpl.
  destruct (Ascii.eqb c sep); simpl; [by rewrite IH|].
  destruct (split_char sep s); [discriminate IH|exact IH].
Qed.

Lemma lineBreaks_substring (content : string) :
  forall i j : nat,
    (i <= j)%nat ->
    (lineBreaks (String.substring 0 i content) <= lineBreaks (String.substring 0 j content)
     <= lineBreaks content)%nat.
Proof.
  unfold lineBreaks.
  induction content as [|c content IH]; intros i j Hij.
  - destruct i, j; simpl; lia.
  - destruct i as [|i], j as [|j]; simpl; try lia.
    + specialize (IH 0%nat j ltac:(lia)).
      destruct (Ascii.eqb c "010"); simpl; lia.
    + specialize (IH i j ltac:(lia)).
      destruct (Ascii.eqb c "010"); simpl; lia.
Qed.

(** X13. The line number of a position is one more than the number of
    line feeds before it: it is at least 1, at most one more than the number
    of line feeds of the text, and a later position never has a smaller
    line number. *)
Theorem getLineNumber_monotone (content : string) (i j : nat) :
  (i <= j)%nat ->
  getLineNumber content i = S (lineBreaks (String.substring 0 i content))
  /\ (1 <= getLineNumber content i <= getLineNumber content j)%nat
  /\ (getLineNumber content j <= S (lineBreaks content))%nat.
Proof.
  intros Hij. unfold getLineNumber, slice. rewrite !Nat.sub_0_r, !length_split_char.
  fold (lineBreaks (String.substring 0 i content)).
  fold (lineBreaks (String.substring 0 j content)).
  pose proof (lineBreaks_substring content i j Hij). split; [done|]. lia.
Qed.

Lemma getLineNumber_monotone_witness :
  let content := "a" ++ String "010" ("b" ++ String "010" "c") in
  getLineNumber content 1 = 1 /\ getLineNumber content 2 = 2
  /\ (1 <= getLineNumber content 1 <= getLineNumber content 2)%nat.
Proof.
  intros content.
  destruct (getLineNumber_monotone content 1 2) as (H1 & H2 & _); [lia|].
  split; [exact H1|]. split; [reflexivity|exact H2].
Defined.

(** *** Parameter lists: what [splitParams] keeps *)

Lemma join_snoc (sep : string) (l : list string) (x y : string) :
  join sep (l ++ [x ++ y]) = join sep (l ++ [x]) ++ y.
Proof.
  unfold join. induction l as [|a l IH]; simpl; [done|].
  destruct l as [|b l]; simpl in *.
  - by rewrite !sapp_assoc.
  - rewrite IH. by rewrite !sapp_assoc.
Qed.

Lemma join_snoc_empty (sep : string) (l : list string) (x : string) :
  join sep ((l ++ [x]) ++ [EmptyString]) = join sep (l ++ [x]) ++ sep.
Proof.
  unfold join. induction l as [|a l IH]; simpl.
  - by rewrite sapp_nil_r.
  - destruct l as [|b l]; simpl in *.
    + by rewrite sapp_nil_r, !sapp_assoc.
    + rewrite IH. by rewrite !sapp_assoc.
Qed.

Lemma join_app_empty (sep : string) (a : string) (l : list string) :
  join sep ((a :: l) ++ [EmptyString]) = join sep (a :: l) ++ sep.
Proof.
  unfold join. revert a. induction l as [|b l IH]; intros a; simpl.
  - by rewrite sapp_nil_r.
  - specialize (IH b). simpl in IH. rewrite IH. by rewrite !sapp_assoc.
Qed.

Lemma splitParams_loop_join (text : string) :
  forall (parts : list string) (current : string) (depth : nat),
    let result := splitParams_loop text parts current depth in
    join "," result = join "," (parts ++ [current]) ++ text
    \/ join "," (result ++ [EmptyString]) = join "," (parts ++ [current]) ++ text.
Proof.
  induction text as [|c text IH]; intros parts current depth; simpl.
  - rewrite sapp_nil_r. destruct current as [|d current]; simpl; [by right|by left].
  - destruct (Ascii.eqb c "," && (_ =? 0)%nat) eqn:Hcomma.
    + apply andb_true_iff in Hcomma as [Hc _]. apply Ascii.eqb_eq in Hc as ->.
      specialize (IH (parts ++ [current])%list EmptyString
                     (if is_open "," then S depth
                      else if is_close "," then Nat.max 0 (depth - 1) else depth)).
      simpl in IH. rewrite join_snoc_empty in IH.
      rewrite !sapp_assoc in IH. exact IH.
    + specialize (IH parts (current ++ String c EmptyString)
                     (if is_open c then S depth
                      else if is_close c then Nat.max 0 (depth - 1) else depth)).
      simpl in IH. rewrite join_snoc in IH. rewrite !sapp_assoc in IH. exact IH.
Qed.

(** X14. [splitParams] loses nothing but a trailing comma: joined with
    commas, the parts give the text back, or the text without its last
    comma. *)
Theorem splitParams_join (text : string) :
  join "," (splitParams text) = text \/ join "," (splitParams text) ++ "," = text.
Proof.
  unfold splitParams.
  destruct (splitParams_loop_join text [] EmptyString 0) as [H|H];
    change (join "," ([] ++ [EmptyString]) ++ text) with text in H.
  - by left.
  - destruct (splitParams_loop text [] "" 0) as [|part parts] eqn:Hparts.
    + left. exact H.
    + right. rewrite <- H. symmetry. apply join_app_empty.
Qed.

(** *** Braced blocks *)

Lemma substring_split (n : nat) (s : string) :
  (n <= String.length s)%nat ->
  s = String.substring 0 n s ++ String.substring n (String.length s - n) s.
Proof.
  revert n. induction s as [|c s IH]; intros [|n] Hn; simpl in *; try lia.
  - done.
  - rewrite sapp_nil_l. f_equal. clear. induction s as [|d s IH]; [done|].
    simpl. by rewrite <- IH.
  - rewrite sapp_cons. f_equal. apply IH. lia.
Qed.

Lemma substring_all (s : string) : String.substring 0 (String.length s) s = s.
Proof. induction s as [|c s IH]; [done|]. simpl. by rewrite IH. Qed.

Lemma substring_skip (a t : string) (n m : nat) :
  String.substring (String.length a + n) m (a ++ t) = String.substring n m t.
Proof. induction a as [|c a IH]; [done|]. rewrite sapp_cons. simpl. apply IH. Qed.

Lemma skipToBrace_spec (rest : string) :
  forall index start : nat,
    skipToBrace rest index = Some start ->
    exists a b, rest = a ++ String "{" b
                /\ start = (index + String.length a)%nat
                /\ sall (fun c => negb (Ascii.eqb c "{")) a = true.
Proof.
  induction rest as [|c rest IH]; intros index start; simpl; [done|].
  destruct (Ascii.eqb c "{") eqn:Hc.
  - intros [= <-]. apply Ascii.eqb_eq in Hc as ->.
    exists EmptyString, rest. split; [done|]. split; [simpl; lia|done].
  - intros H. apply IH in H as (a & b & -> & -> & Ha).
    exists (String c a), b. split; [done|]. split; [simpl; lia|].
    simpl. by rewrite Hc, Ha.
Qed.

Lemma closingBrace_spec (rest : string) :
  forall (i : nat) (depth : nat) (j : nat),
    closingBrace rest i (Z.of_nat (S depth)) = Some j ->
    exists block after, rest = block ++ String "}" after
                        /\ j = (i + String.length block)%nat
                        /\ balanced_from depth block = true.
Proof.
  induction rest as [|c rest IH]; intros i depth j; cbn [closingBrace]; [done|].
  destruct (Ascii.eqb c "{") eqn:Hopen.
  - replace (Z.of_nat (S depth) + 1)%Z with (Z.of_nat (S (S depth))) by lia.
    intros H. apply IH in H as (block & after & -> & -> & Hb).
    exists (String c block), after. split; [done|]. split; [simpl; lia|].
    simpl. by rewrite Hopen.
  - destruct (Ascii.eqb c "}") eqn:Hclose.
    + destruct depth as [|depth].
      * change (Z.of_nat 1 - 1 =? 0)%Z with true. cbv iota. intros [= <-].
        apply Ascii.eqb_eq in Hclose as ->.
        exists EmptyString, rest. split; [done|]. split; [simpl; lia|done].
      * assert ((Z.of_nat (S (S depth)) - 1 =? 0)%Z = false) as ->
          by (apply Z.eqb_neq; lia).
        replace (Z.of_nat (S (S depth)) - 1)%Z with (Z.of_nat (S depth)) by lia.
        intros H. apply IH in H as (block & after & -> & -> & Hb).
        exists (String c block), after. split; [done|]. split; [simpl; lia|].
        simpl. by rewrite Hopen, Hclose.
    + intros H. apply IH in H as (block & after & -> & -> & Hb).
      exists (String c block), after. split; [done|]. split; [simpl; lia|].
      simpl. by rewrite Hopen, Hclose.
Qed.

Lemma slice_from_app (a t : string) : slice_from (String.length a) (a ++ t) = t.
Proof.
  unfold slice_from. rewrite sapp_length.
  replace (String.length a + String.length t - String.length a)%nat
    with (String.length t) by lia.
  rewrite <- (Nat.add_0_r (String.length a)) at 1.
  rewrite substring_skip. apply substring_all.
Qed.

Lemma slice_app (a block t : string) :
  slice (String.length a) (String.length a + String.length block) (a ++ block ++ t) = block.
Proof.
  unfold slice.
  replace (String.length a + String.length block - String.length a)%nat
    with (String.length block) by lia.
  rewrite <- (Nat.add_0_r (String.length a)) at 1.
  rewrite substring_skip. apply substring_0_app.
Qed.

(** X15. When [extractBracedBlock] returns a block, the block stands in
    the text between the first opening brace at or after [startIndex] and
    the closing brace at [endIndex], and its own braces are balanced. A
    start outside the text gives nothing. *)
Theorem extractBracedBlock_balanced (content : string) (startIndex : Z) :
  ((startIndex < 0 \/ Z.of_nat (String.length content) <= startIndex)%Z ->
   extractBracedBlock content startIndex = None)
  /\ forall block endIndex,
       extractBracedBlock content startIndex = Some (block, endIndex) ->
       exists before skipped after,
         content = before ++ skipped ++ String "{" (block ++ String "}" after)
         /\ String.length before = Z.to_nat startIndex
         /\ sall (fun c => negb (Ascii.eqb c "{")) skipped = true
         /\ endIndex
            = (String.length before + String.length skipped + 1 + String.length block)%nat
         /\ balanced block.
Proof.
  unfold extractBracedBlock. split.
  - intros [H|H].
    + by apply Z.ltb_lt in H as ->.
    + apply Z.leb_le in H as ->. by rewrite orb_true_r.
  - intros block endIndex.
    destruct (startIndex <? 0)%Z eqn:Hneg; [done|].
    destruct (Z.of_nat (String.length content) <=? startIndex)%Z eqn:Hlarge; [done|].
    apply Z.ltb_ge in Hneg. apply Z.leb_gt in Hlarge. cbn [orb].
    assert (Hsplit : exists before rest0,
              content = before ++ rest0 /\ String.length before = Z.to_nat startIndex).
    { exists (String.substring 0 (Z.to_nat startIndex) content),
             (String.substring (Z.to_nat startIndex)
                (String.length content - Z.to_nat startIndex) content).
      split; [apply substring_split; lia|]. rewrite length_substring_0. lia. }
    destruct Hsplit as (before & rest0 & -> & Hbefore). rewrite <- Hbefore.
    rewrite slice_from_app.
    destruct (skipToBrace rest0 _) as [start|] eqn:Hskip; [|done].
    apply skipToBrace_spec in Hskip as (skipped & rest & -> & -> & Hskipped).
    assert (Hslice : slice_from (String.length before + String.length skipped)
                       (before ++ skipped ++ String "{" rest) = String "{" rest).
    { rewrite <- sapp_length, <- sapp_assoc. apply slice_from_app. }
    rewrite Hslice. cbn [closingBrace]. rewrite Ascii.eqb_refl.
    change (0 + 1)%Z with (Z.of_nat 1).
    destruct (closingBrace rest _ _) as [i|] eqn:Hclose; [|done].
    apply closingBrace_spec in Hclose as (blk & after & -> & -> & Hbalanced).
    assert (Hblock : slice (String.length before + String.length skipped + 1)
                       (S (String.length before + String.length skipped)
                        + String.length blk)
                       (before ++ skipped ++ String "{" (blk ++ String "}" after)) = blk).
    { replace (before ++ skipped ++ String "{" (blk ++ String "}" after))
        with ((before ++ skipped ++ "{") ++ blk ++ String "}" after)
        by (by rewrite !sapp_assoc).
      replace (String.length before + String.length skipped + 1)%nat
        with (String.length (before ++ skipped ++ "{"))
        by (rewrite !sapp_length; simpl; lia).
      replace (S (String.length before + String.length skipped) + String.length blk)%nat
        with (String.length (before ++ skipped ++ "{") + String.length blk)%nat
        by (rewrite !sapp_length; simpl; lia).
      apply slice_app. }
    rewrite Hblock. intros [= <- <-].
    exists before, skipped, after. repeat split; try done. lia.
Qed.

Lemma extractBracedBlock_balanced_witness :
  exists before skipped after,
    "type Query { user: User { id } }"
    = before ++ skipped ++ String "{" (" user: User { id } " ++ String "}" after)
    /\ String.length before = Z.to_nat 4
    /\ sall (fun c => negb (Ascii.eqb c "{")) skipped = true
    /\ 31%nat = (String.length before + String.length skipped + 1
                 + String.length " user: User { id } ")%nat
    /\ balanced " user: User { id } ".
Proof.
  apply (proj2 (extractBracedBlock_balanced "type Query { user: User { id } }" 4)).
  reflexivity.
Defined.

(** *** Command-line flags *)

(** The invariant of the loop of [compareCliFlags]: [reported] are the
    flags that have a finding. *)
Lemma cliFlag_fold (config : Config.t) (docsText : string) (flags : list Entity.t) :
  forall (read_ reported : list Entity.t) (seen : gset string),
    NoDup (List.map (fun flag => toLowerCase (Entity.name flag)) reported) ->
    (forall flag, In flag reported -> In flag read_ /\ flagDocumented docsText flag = false) ->
    (forall key, key ∈ seen
                 <-> In key (List.map (fun flag => toLowerCase (Entity.name flag)) read_)) ->
    (forall flag, In flag read_ -> flagDocumented docsText flag = false ->
       In (toLowerCase (Entity.name flag))
          (List.map (fun flag => toLowerCase (Entity.name flag)) reported)) ->
    exists reported',
      fst (List.fold_left (cliFlag_step config docsText) flags
             (List.map (cliFlagFinding config) reported, seen))
      = List.map (cliFlagFinding config) reported'
      /\ NoDup (List.map (fun flag => toLowerCase (Entity.name flag)) reported')
      /\ (forall flag, In flag reported' ->
            In flag (read_ ++ flags)%list /\ flagDocumented docsText flag = false)
      /\ (forall flag, In flag (read_ ++ flags)%list -> flagDocumented docsText flag = false ->
            In (toLowerCase (Entity.name flag))
               (List.map (fun flag => toLowerCase (Entity.name flag)) reported')).
Proof.
  induction flags as [|flag rest IH]; intros read_ reported seen Hnodup Hfrom Hseen Hall.
  - exists reported. rewrite app_nil_r. done.
  - cbn [List.fold_left].
    assert (Hstep : cliFlag_step config docsText
                      (List.map (cliFlagFinding config) reported, seen) flag
                    = if bool_decide (toLowerCase (Entity.name flag) ∈ seen)
                      then (List.map (cliFlagFinding config) reported, seen)
                      else if flagDocumented docsText flag
                           then (List.map (cliFlagFinding config) reported,
                                 {[ toLowerCase (Entity.name flag) ]} ∪ seen)
                           else (List.map (cliFlagFinding config) (reported ++ [flag]),
                                 {[ toLowerCase (Entity.name flag) ]} ∪ seen)).
    { unfold cliFlag_step, flagDocumented. cbn [fst snd].
      rewrite List.map_app. done. }
    rewrite Hstep. clear Hstep.
    replace (read_ ++ flag :: rest)%list with ((read_ ++ [flag]) ++ rest)%list
      by (by rewrite <- app_assoc).
    destruct (bool_decide (toLowerCase (Entity.name flag) ∈ seen)) eqn:Hin.
    + apply bool_decide_eq_true in Hin. apply Hseen in Hin.
      apply in_map_iff in Hin as (other & Hkey & Hother).
      apply IH; try done.
      * intros f Hf. destruct (Hfrom f Hf). split; [apply in_app_iff; by left|done].
      * intros key. rewrite Hseen, List.map_app, in_app_iff. simpl.
        split; [tauto|]. intros [H|[<-|[]]]; [done|].
        apply in_map_iff. eauto.
      * intros f Hf Hdoc. apply in_app_iff in Hf as [Hf|[<-|[]]]; [by apply Hall|].
        rewrite <- Hkey. apply Hall; [done|].
        unfold flagDocumented in *. by rewrite Hkey.
    + apply bool_decide_eq_false in Hin.
      assert (Hfresh : ~ In (toLowerCase (Entity.name flag))
                            (List.map (fun flag => toLowerCase (Entity.name flag)) read_))
        by (by rewrite <- Hseen).
      assert (Hseen' : forall key,
                key ∈ ({[ toLowerCase (Entity.name flag) ]} ∪ seen : gset string)
                <-> In key (List.map (fun flag => toLowerCase (Entity.name flag))
                              (read_ ++ [flag]))).
      { intros key. rewrite elem_of_union, elem_of_singleton, Hseen.
        rewrite List.map_app, in_app_iff. simpl. split.
        - intros [->|H]; [right; by left|by left].
        - intros [H|[<-|[]]]; [by right|by left]. }
      destruct (flagDocumented docsText flag) eqn:Hdoc.
      * apply IH; try done.
        -- intros f Hf. destruct (Hfrom f Hf). split; [apply in_app_iff; by left|done].
        -- intros f Hf Hd. apply in_app_iff in Hf as [Hf|[<-|[]]]; [by apply Hall|].
           congruence.
      * apply IH; try done.
        -- rewrite List.map_app. apply NoDup_app. split; [done|].
           split; [|apply NoDup_singleton].
           intros key Hkey Hone. apply list_elem_of_singleton in Hone as ->.
           apply list_elem_of_In, in_map_iff in Hkey as (f & Hf & Hfin).
           apply Hfresh. apply in_map_iff. exists f. split; [done|]. by apply Hfrom.
        -- intros f Hf. apply in_app_iff in Hf as [Hf|[<-|[]]].
           ++ destruct (Hfrom f Hf). split; [apply in_app_iff; by left|done].
           ++ split; [apply in_app_iff; right; by left|done].
        -- intros f Hf Hd. rewrite List.map_app, in_app_iff.
           apply in_app_iff in Hf as [Hf|[<-|[]]]; [left; by apply Hall|].
           right. by left.
Qed.

(** X16. [compareCliFlags] reports a flag exactly when the docs do not
    contain its name, whatever the case of the letters, and reports it once
    however often the code has it: its findings are those of a list of
    undocumented flags with pairwise different lowercase names, and every
    undocumented flag has its lowercase name in that list. *)
Theorem compareCliFlags_reports_undocumented (entities : list Entity.t)
  (docsText : string) (config : Config.t) :
  let flags :=
    List.filter (fun entity => String.eqb (Entity.type entity) "cli-flag") entities in
  let name flag := toLowerCase (Entity.name flag) in
  exists reported,
    compareCliFlags entities docsText config = List.map (cliFlagFinding config) reported
    /\ NoDup (List.map name reported)
    /\ (forall flag, In flag reported ->
          In flag flags /\ flagDocumented docsText flag = false)
    /\ (forall flag, In flag flags -> flagDocumented docsText flag = false ->
          In (name flag) (List.map name reported)).
Proof.
  intros flags name. unfold compareCliFlags. fold flags.
  destruct (length flags =? 0)%nat eqn:Hlen.
  - apply Nat.eqb_eq, nil_length_inv in Hlen. rewrite Hlen.
    exists []. repeat split; try done. constructor.
  - destruct (cliFlag_fold config docsText flags [] [] ∅) as (reported & H1 & H2 & H3 & H4).
    + constructor.
    + done.
    + intros key. split; [by intros ?%not_elem_of_empty|done].
    + done.
    + exists reported. done.
Qed.

(** ** The operators of [compareValues] *)

Lemma compare_finite_antisym (m1 e1 m2 e2 : Z) :
  JsNumber.compare_finite m2 e2 m1 e1 = CompOpp (JsNumber.compare_finite m1 e1 m2 e2).
Proof.
  unfold JsNumber.compare_finite. rewrite (Z.min_comm e2 e1). apply Z.compare_antisym.
Qed.

Lemma compare_antisym (x y : JsNumber.number) :
  JsNumber.compare y x = CompOpp <$> JsNumber.compare x y.
Proof.
  destruct x as [|a|m1 e1], y as [|b|m2 e2]; simpl; try done.
  - by destruct a, b.
  - by destruct a.
  - by destruct b.
  - by rewrite compare_finite_antisym.
Qed.

Lemma number_gt_lt (x y : JsNumber.number) : JsNumber.gt x y = JsNumber.lt y x.
Proof.
  unfold JsNumber.gt, JsNumber.lt. rewrite (compare_antisym x y).
  by destruct (JsNumber.compare x y) as [[]|].
Qed.

Lemma number_ge_le (x y : JsNumber.number) : JsNumber.ge x y = JsNumber.le y x.
Proof.
  unfold JsNumber.ge, JsNumber.le. rewrite (compare_antisym x y).
  by destruct (JsNumber.compare x y) as [[]|].
Qed.

Lemma number_eq_sym (x y : JsNumber.number) :
  JsNumber.strict_eq x y = JsNumber.strict_eq y x.
Proof.
  unfold JsNumber.strict_eq. rewrite (compare_antisym x y).
  by destruct (JsNumber.compare x y) as [[]|].
Qed.

Lemma number_ge_gt_eq (x y : JsNumber.number) :
  JsNumber.ge x y = JsNumber.gt x y || JsNumber.strict_eq x y.
Proof.
  unfold JsNumber.ge, JsNumber.gt, JsNumber.strict_eq.
  by destruct (JsNumber.compare x y) as [[]|].
Qed.

Lemma number_le_lt_eq (x y : JsNumber.number) :
  JsNumber.le x y = JsNumber.lt x y || JsNumber.strict_eq x y.
Proof.
  unfold JsNumber.le, JsNumber.lt, JsNumber.strict_eq.
  by destruct (JsNumber.compare x y) as [[]|].
Qed.

(** The two ways in which [compareValues] reads a pair of values. *)
Lemma compareValues_mode (code policy valueType : string) :
  (valueType <> "string"
   /\ JsNumber.isFinite (LogicDrift.parseNumber code) = true
   /\ JsNumber.isFinite (LogicDrift.parseNumber policy) = true)
  \/ (valueType = "string"
      \/ JsNumber.isFinite (LogicDrift.parseNumber code) = false
      \/ JsNumber.isFinite (LogicDrift.parseNumber policy) = false).
Proof.
  destruct (decide (valueType = "string")) as [->|Hne]; [right; by left|].
  destruct (JsNumber.isFinite (LogicDrift.parseNumber code)); [|right; right; by left].
  destruct (JsNumber.isFinite (LogicDrift.parseNumber policy)); [by left|].
  right. right. by right.
Qed.

(** X17. The operators of [compareValues] fit together, for every pair of
    values and every value type: [not_equals] is the negation of [equals],
    [equals] does not depend on the order of its operands, [gt] and [gte]
    are [lt] and [lte] with the operands exchanged, and [gte] and [lte]
    hold when [gt] or [lt] holds or [equals] does. *)
Theorem compareValues_operators (code policy valueType : string) :
  LogicDrift.compareValues code policy "not_equals" valueType
  = negb (LogicDrift.compareValues code policy "equals" valueType)
  /\ LogicDrift.compareValues code policy "equals" valueType
     = LogicDrift.compareValues policy code "equals" valueType
  /\ LogicDrift.compareValues code policy "gt" valueType
     = LogicDrift.compareValues policy code "lt" valueType
  /\ LogicDrift.compareValues code policy "gte" valueType
     = LogicDrift.compareValues policy code "lte" valueType
  /\ LogicDrift.compareValues code policy "gte" valueType
     = LogicDrift.compareValues code policy "gt" valueType
       || LogicDrift.compareValues code policy "equals" valueType
  /\ LogicDrift.compareValues code policy "lte" valueType
     = LogicDrift.compareValues code policy "lt" valueType
       || LogicDrift.compareValues code policy "equals" valueType.
Proof.
  destruct (compareValues_mode code policy valueType) as [(Hty & Hc & Hp)|Htext].
  - rewrite !(compareValues_numeric code policy) by done.
    rewrite !(compareValues_numeric policy code) by done.
    cbv zeta.
    change (mem "not_equals" ["eq"; "equals"]) with false.
    change (mem "not_equals" ["not_equals"; "ne"]) with true.
    change (mem "equals" ["eq"; "equals"]) with true.
    change (mem "gt" ["eq"; "equals"]) with false.
    change (mem "gt" ["not_equals"; "ne"]) with false.
    change (mem "gt" ["gt"]) with true.
    change (mem "gte" ["eq"; "equals"]) with false.
    change (mem "gte" ["not_equals"; "ne"]) with false.
    change (mem "gte" ["gt"]) with false.
    change (mem "gte" ["gte"; "ge"]) with true.
    change (mem "lt" ["eq"; "equals"]) with false.
    change (mem "lt" ["not_equals"; "ne"]) with false.
    change (mem "lt" ["gt"]) with false.
    change (mem "lt" ["gte"; "ge"]) with false.
    change (mem "lt" ["lt"]) with true.
    change (mem "lte" ["eq"; "equals"]) with false.
    change (mem "lte" ["not_equals"; "ne"]) with false.
    change (mem "lte" ["gt"]) with false.
    change (mem "lte" ["gte"; "ge"]) with false.
    change (mem "lte" ["lt"]) with false.
    change (mem "lte" ["lte"; "le"]) with true.
    cbv iota.
    repeat split.
    + apply number_eq_sym.
    + apply number_gt_lt.
    + apply number_ge_le.
    + apply number_ge_gt_eq.
    + apply number_le_lt_eq.
  - assert (Htext' : valueType = "string"
                     \/ JsNumber.isFinite (LogicDrift.parseNumber policy) = false
                     \/ JsNumber.isFinite (LogicDrift.parseNumber code) = false) by tauto.
    rewrite !(compareValues_text code policy) by done.
    rewrite !(compareValues_text policy code) by done.
    cbv zeta.
    change (mem "not_equals" ["not_equals"; "ne"]) with true.
    change (mem "equals" ["not_equals"; "ne"]) with false.
    change (mem "equals" ["contains"]) with false.
    change (mem "gt" ["not_equals"; "ne"]) with false.
    change (mem "gt" ["contains"]) with false.
    change (mem "gte" ["not_equals"; "ne"]) with false.
    change (mem "gte" ["contains"]) with false.
    change (mem "lt" ["not_equals"; "ne"]) with false.
    change (mem "lt" ["contains"]) with false.
    change (mem "lte" ["not_equals"; "ne"]) with false.
    change (mem "lte" ["contains"]) with false.
    cbv iota.
    rewrite (String.eqb_sym (toLowerCase (trim policy))).
    repeat split; by rewrite orb_diag.
Qed.

(** X18. On values that are not both numbers, and on all values when the
    value type is [string], the ordering operators do not order: [gt],
    [gte], [lt] and [lte] hold exactly when the two values, trimmed and in
    lower case, are the same text, so a text is greater than itself. *)
Theorem compareValues_orders_text_by_equality (code policy compare valueType : string) :
  valueType = "string"
  \/ JsNumber.isFinite (LogicDrift.parseNumber code) = false
  \/ JsNumber.isFinite (LogicDrift.parseNumber policy) = false ->
  In compare ["gt"; "gte"; "ge"; "lt"; "lte"; "le"] ->
  LogicDrift.compareValues code policy compare valueType
  = String.eqb (toLowerCase (trim code)) (toLowerCase (trim policy)).
Proof.
  intros Htext Hop. rewrite compareValues_text by done.
  simpl in Hop.
  destruct Hop as [<-|[<-|[<-|[<-|[<-|[<-|[]]]]]]]; reflexivity.
Qed.

Lemma compareValues_orders_text_by_equality_witness :
  LogicDrift.compareValues "Net 30" "net 30" "gt" "auto" = true
  /\ LogicDrift.compareValues "7" "30" "lt" "string" = false.
Proof.
  split.
  - rewrite (compareValues_orders_text_by_equality "Net 30" "net 30" "gt" "auto").
    + reflexivity.
    + right. left. reflexivity.
    + left. reflexivity.
  - reflexivity.
Defined.

(** ** Documented endpoints *)

Lemma mem_app (x : string) (a b : list string) : mem x (a ++ b) = mem x a || mem x b.
Proof. unfold mem. apply existsb_app. Qed.

Lemma mem_set_add (x y : string) (l : list string) :
  mem x l = true -> mem x (set_add y l) = true.
Proof.
  intros H. unfold set_add. destruct (mem y l); [done|]. by rewrite mem_app, H.
Qed.

Lemma mem_set_add_self (x : string) (l : list string) : mem x (set_add x l) = true.
Proof.
  unfold set_add. destruct (mem x l) eqn:H; [done|].
  rewrite mem_app, H. unfold mem. simpl. by rewrite String.eqb_refl.
Qed.

Lemma addDocEndpoint_keeps (docMap : gmap string (list string)) (doc : DocEndpoint.t)
  (path method : string) (methods : list string) :
  docMap !! path = Some methods -> mem method methods = true ->
  exists methods', addDocEndpoint docMap doc !! path = Some methods'
                   /\ mem method methods' = true.
Proof.
  intros Hpath Hmem. unfold addDocEndpoint.
  destruct (decide (normalizePath (DocEndpoint.path doc) = path)) as [<-|Hne].
  - rewrite lookup_insert_eq, Hpath. simpl. eexists. split; [done|]. by apply mem_set_add.
  - rewrite lookup_insert_ne by done. eauto.
Qed.

Lemma docMap_has (docEndpoints : list DocEndpoint.t) :
  forall (docMap : gmap string (list string)) (doc : DocEndpoint.t),
    In doc docEndpoints ->
    exists methods,
      List.fold_left addDocEndpoint docEndpoints docMap
        !! normalizePath (DocEndpoint.path doc) = Some methods
      /\ mem (DocEndpoint.method doc) methods = true.
Proof.
  assert (Hkeeps : forall docs docMap path method methods,
            docMap !! path = Some methods -> mem method methods = true ->
            exists methods', List.fold_left addDocEndpoint docs docMap !! path = Some methods'
                             /\ mem method methods' = true).
  { induction docs as [|d docs IH]; intros docMap path method methods Hpath Hmem; [eauto|].
    simpl. destruct (addDocEndpoint_keeps docMap d path method methods Hpath Hmem)
      as (methods' & Hpath' & Hmem'). eauto. }
  induction docEndpoints as [|d docs IH]; intros docMap doc Hin; [done|].
  simpl. destruct Hin as [->|Hin]; [|by apply IH].
  eapply Hkeeps.
  - unfold addDocEndpoint. apply lookup_insert_eq.
  - apply mem_set_add_self.
Qed.

(** X19. A code endpoint whose method and normalised path are those of a
    documented endpoint adds no finding: the turn of the main loop of
    [compareEndpoints] for it leaves the results as they are. *)
Theorem compareEndpoints_documented_no_finding
  (docEndpoints : list DocEndpoint.t) (config : Config.t) (st : EpLoop)
  (endpoint : Entity.t) (parsed : Endpoint.t) (doc : DocEndpoint.t) :
  parseEndpointName (Entity.name endpoint) = Some parsed ->
  In doc docEndpoints ->
  DocEndpoint.method doc = Endpoint.method parsed ->
  normalizePath (DocEndpoint.path doc) = normalizePath (Endpoint.path parsed) ->
  ep_results (compareEndpoints_step (List.fold_left addDocEndpoint docEndpoints ∅)
                config st endpoint)
  = ep_results st.
Proof.
  intros Hparsed Hin Hmethod Hpath.
  destruct (docMap_has docEndpoints ∅ doc Hin) as (methods & Hlookup & Hmem).
  unfold compareEndpoints_step. rewrite Hparsed.
  destruct (bool_decide _); [done|].
  rewrite <- Hpath, Hlookup, <- Hmethod, Hmem. done.
Qed.

Lemma compareEndpoints_documented_no_finding_witness :
  let endpoint :=
    {| Entity.type := "endpoint"; Entity.name := "get /users/:id/";
       Entity.signature := "get /users/:id/"; Entity.file := "src/api.js";
       Entity.line := 1 |} in
  let doc :=
    {| DocEndpoint.method := "GET"; DocEndpoint.path := "/users/{userId}";
       DocEndpoint.file := "README.md" |} in
  let st := {| ep_results := []; codeEndpointSet := ∅; ep_seen := ∅ |} in
  ep_results (compareEndpoints_step (List.fold_left addDocEndpoint [doc] ∅)
                testConfig st endpoint)
  = ep_results st.
Proof.
  intros endpoint doc st.
  apply (compareEndpoints_documented_no_finding [doc] testConfig st endpoint
           {| Endpoint.method := "GET"; Endpoint.path := "/users/:id/" |} doc).
  - reflexivity.
  - by left.
  - reflexivity.
  - reflexivity.
Defined.

(** ** The verdict on the results of the docs comparisons *)

Lemma docsFinding_result (config : Config.t) (type file explanation suggestion : string) :
  docsDriftResult config (docsFinding config type file explanation suggestion).
Proof. done. Qed.

Lemma mismatchFinding_result (config : Config.t) (fn : Entity.t)
  (codeParams : list string) (best : Variant.t) :
  docsDriftResult config (mismatchFinding config fn codeParams best).
Proof. unfold mismatchFinding. repeat case_match; apply docsFinding_result. Qed.

Lemma compareEndpoints_results (entities : list Entity.t) (docEntries : list DocEntry.t)
  (config : Config.t) (fullScan : bool) (rs : list Finding.t) :
  compareEndpoints entities docEntries config fullScan = Normal rs ->
  Forall (docsDriftResult config) rs.
Proof.
  unfold compareEndpoints. destruct (length _ =? 0)%nat; [by intros [= <-]|].
  destruct (extractDocEndpoints docEntries) as [docEndpoints| |]; simpl; try done.
  set (docMap := List.fold_left addDocEndpoint docEndpoints ∅).
  assert (Hloop : forall endpoints st,
            Forall (docsDriftResult config) (ep_results st) ->
            Forall (docsDriftResult config)
              (ep_results (List.fold_left (compareEndpoints_step docMap config)
                             endpoints st))).
  { induction endpoints as [|e l IH]; intros st Hst; [done|].
    simpl. apply IH. unfold compareEndpoints_step.
    repeat case_match; simpl; try done;
      apply Forall_app; (split; [done|]); apply Forall_singleton, docsFinding_result. }
  specialize (Hloop (List.filter (fun entity => String.eqb (Entity.type entity) "endpoint")
                       entities)
                {| ep_results := []; codeEndpointSet := ∅; ep_seen := ∅ |}
                (Forall_nil_2 _)).
  destruct fullScan; intros [= <-]; [|done].
  apply Forall_app. split; [done|].
  apply Forall_forall. intros f Hf. apply list_elem_of_In, in_flat_map in Hf as (d & _ & Hf).
  unfold missingEndpoint in Hf. destruct (bool_decide _); [done|].
  destruct Hf as [<-|[]]. apply docsFinding_result.
Qed.

Lemma compareFunctions_results (entities : list Entity.t) (docEntries : list DocEntry.t)
  (config : Config.t) (fullScan : bool) (rs : list Finding.t) :
  compareFunctions entities docEntries config fullScan = Normal rs ->
  Forall (docsDriftResult config) rs.
Proof.
  unfold compareFunctions. destruct (length _ =? 0)%nat; [by intros [= <-]|].
  destruct (extractDocFunctions docEntries) as [docFunctions| |]; simpl; try done.
  destruct (foldM addDocVariant ∅ docFunctions) as [docByName| |]; simpl; try done.
  assert (Hloop : forall fns st st',
            Forall (docsDriftResult config) (results st) ->
            foldM (compareFunctions_step docByName config) st fns = Normal st' ->
            Forall (docsDriftResult config) (results st')).
  { induction fns as [|fn l IH]; intros st st' Hst; simpl; [by intros [= <-]|].
    destruct (compareFunctions_step docByName config st fn) as [st1| |] eqn:Hstep;
      simpl; try done.
    apply IH. unfold compareFunctions_step in Hstep.
    destruct (normalizeParamList _) as [codeParams| |]; simpl in Hstep; try done.
    repeat case_match; simplify_eq; simpl; try done;
      apply Forall_app; (split; [done|]); apply Forall_singleton;
      first [apply docsFinding_result | apply mismatchFinding_result]. }
  destruct (foldM (compareFunctions_step docByName config) _ _) as [st| |] eqn:Hfold;
    simpl; try done.
  apply Hloop in Hfold; [|by constructor].
  destruct fullScan; intros [= <-]; [|done].
  assert (Hmissing : forall docs acc,
            Forall (docsDriftResult config) (fst acc) ->
            Forall (docsDriftResult config)
              (fst (List.fold_left (missingFunction_step config (codeNames st)) docs acc))).
  { induction docs as [|d l IH]; intros acc Hacc; [done|].
    simpl. apply IH. unfold missingFunction_step. repeat case_match; try done.
    simpl. apply Forall_app. split; [done|]. apply Forall_singleton, docsFinding_result. }
  by apply Hmissing.
Qed.

Lemma compareCliFlags_results (entities : list Entity.t) (docsText : string)
  (config : Config.t) :
  Forall (docsDriftResult config) (compareCliFlags entities docsText config).
Proof.
  unfold compareCliFlags. destruct (length _ =? 0)%nat; [done|].
  assert (Hloop : forall flags acc,
            Forall (docsDriftResult config) (fst acc) ->
            Forall (docsDriftResult config)
              (fst (List.fold_left (cliFlag_step config docsText) flags acc))).
  { induction flags as [|flag l IH]; intros acc Hacc; [done|].
    simpl. apply IH. unfold cliFlag_step. repeat case_match; try done.
    simpl. apply Forall_app. split; [done|]. apply Forall_singleton, docsFinding_result. }
  by apply Hloop.
Qed.

Lemma shouldFail_docsDrift (config : Config.t) (rs : list Finding.t)
  (failOnError allowNonDeterministicFail : bool) :
  Forall (docsDriftResult config) rs ->
  Verdict.shouldFail rs failOnError allowNonDeterministicFail
  = failOnError && bool_decide (rs <> [])
    && mem (normalizeSeverity (Config.severity_docsDrift config) "warning")
           ["error"; "critical"].
Proof.
  intros Hrs. unfold Verdict.shouldFail. destruct failOnError; [|done]. cbn [negb andb].
  induction Hrs as [|f rs (_ & Hseverity & Hdet) Hrs IH]; [done|].
  cbn [existsb]. rewrite Hdet, Hseverity. cbn [negb andb].
  rewrite bool_decide_eq_true_2 by done. cbn [andb].
  unfold mem at 1. cbn [existsb]. rewrite orb_false_r.
  destruct (String.eqb _ "error" || String.eqb _ "critical") eqn:Hlevel; [done|].
  rewrite IH. unfold mem. cbn [existsb]. rewrite orb_false_r, Hlevel.
  by rewrite andb_false_r.
Qed.

(** X20. The results of the deterministic docs comparisons fail a run
    exactly when [failOnError] is set, there is a result, and the severity
    the configuration gives to docs drift is [error] or [critical]: with
    the default severity, [warning], they never do, and the flag for
    results that are not deterministic plays no part. *)
Theorem shouldFail_docs_results (entities : list Entity.t) (docEntries : list DocEntry.t)
  (docsText : string) (config : Config.t) (fullScan : bool) (rs : list Finding.t)
  (failOnError allowNonDeterministicFail : bool) :
  compareFunctions entities docEntries config fullScan = Normal rs
  \/ compareEndpoints entities docEntries config fullScan = Normal rs
  \/ compareCliFlags entities docsText config = rs ->
  Verdict.shouldFail rs failOnError allowNonDeterministicFail
  = failOnError && bool_decide (rs <> [])
    && mem (normalizeSeverity (Config.severity_docsDrift config) "warning")
           ["error"; "critical"].
Proof.
  intros Hrs. apply shouldFail_docsDrift.
  destruct Hrs as [H|[H|<-]].
  - by eapply compareFunctions_results.
  - by eapply compareEndpoints_results.
  - apply compareCliFlags_results.
Qed.

Lemma shouldFail_docs_results_witness :
  let flag :=
    {| Entity.type := "cli-flag"; Entity.name := "--dry-run"; Entity.signature := "--dry-run";
       Entity.file := "src/cli.js"; Entity.line := 1 |} in
  Verdict.shouldFail (compareCliFlags [flag] "Usage: tool --help" testConfig) true false
  = false.
Proof.
  intros flag.
  rewrite (shouldFail_docs_results [flag] [] "Usage: tool --help" testConfig false
             (compareCliFlags [flag] "Usage: tool --help" testConfig) true false).
  - reflexivity.
  - right. right. reflexivity.
Defined.

(** ** What a match captures *)

Lemma search_match_at (r : re) (rest : list ascii) :
  forall (prev : option ascii) (pos i : nat) (out : mstate),
    search r prev rest pos = Some (i, out) ->
    exists prev' rest', match_at r prev' rest' i = Some out.
Proof.
  induction rest as [|c t IH]; intros prev pos i out; simpl.
  - destruct (match_at r prev [] pos) eqn:Hm; [|done]. intros [= <- <-]. eauto.
  - destruct (match_at r prev (c :: t) pos) eqn:Hm.
    + intros [= <- <-]. eauto.
    + apply IH.
Qed.

Lemma exec_groups (R R' : RegExp) (text : string) (mr : MatchResult) :
  exec R text = (Some mr, R') ->
  exists prev rest pos out,
    match_at (source R) prev rest pos = Some out /\ groups mr = m_caps out.
Proof.
  unfold exec. destruct (_ <? _)%nat; [done|].
  destruct (sticky R).
  - destruct (match_at _ _ _ _) as [out|] eqn:Hm; simpl; [|done].
    intros [= <- _]. simpl. eauto 6.
  - destruct (search _ _ _ _) as [[i out]|] eqn:Hs; [|done].
    intros [= <- _]. simpl. apply search_match_at in Hs as (prev & rest & Hm). eauto 6.
Qed.

(** What holds of the captures of every run of the matcher holds of the
    groups of every match of a loop. *)
Lemma exec_loop_groups (P : list (nat * string) -> Prop) (text : string) (fuel : nat) :
  forall (R R' : RegExp) (ms : list MatchResult),
    (forall prev rest pos out,
       match_at (source R) prev rest pos = Some out -> P (m_caps out)) ->
    exec_loop fuel R text = Normal (ms, R') ->
    Forall (fun mr => P (groups mr)) ms.
Proof.
  induction fuel as [|fuel IH]; intros R R' ms HP; [done|].
  rewrite exec_loop_S. pose proof (exec_same_regex R text) as Hsame.
  destruct (exec R text) as [[mr|] R1] eqn:Hexec; [|by intros [= <- _]].
  destruct (_ <=? _)%nat; [done|].
  destruct (exec_loop fuel R1 text) as [[more R2]| |] eqn:Hloop; simpl; try done.
  intros [= <- _]. constructor.
  - apply exec_groups in Hexec as (prev & rest & pos & out & Hm & ->). by eapply HP.
  - eapply IH; [|exact Hloop]. destruct Hsame as (Hsource & _). simpl in Hsource.
    rewrite Hsource. exact HP.
Qed.

Lemma advance_by_state (w : list ascii) :
  forall s s' : mstate,
    advance_by w s = Some s' ->
    m_pos s' = (m_pos s + length w)%nat /\ m_caps s' = m_caps s.
Proof.
  induction w as [|c w IH]; intros s s'; simpl; [intros [= ->]; split; [lia|done]|].
  destruct (m_rest s) as [|d t]; [done|]. destruct (Ascii.eqb c d); [|done].
  intros H. apply IH in H as [-> ->]. simpl. split; [lia|done].
Qed.

Lemma run_lit_capture (n : nat) (w : string) (s out : mstate) :
  run (lit w) s (fun s2 => Some (capture n s s2)) = Some out ->
  m_caps out = (n, w) :: m_caps s.
Proof.
  unfold lit. rewrite run_chrs.
  destruct (advance_by (list_ascii_of_string w) s) as [s2|] eqn:Hadv; [|done].
  simpl. intros [= <-]. simpl.
  pose proof (advance_by_rest _ _ _ Hadv) as Hrest.
  apply advance_by_state in Hadv as [-> ->].
  replace (m_pos s + length (list_ascii_of_string w) - m_pos s)%nat
    with (length (list_ascii_of_string w)) by lia.
  rewrite Hrest, take_app_length. by rewrite string_of_list_ascii_of_string.
Qed.

Lemma run_alt (a b : re) (s out : mstate) (k : mstate -> option mstate) :
  run (Alt a b) s k = Some out -> run a s k = Some out \/ run b s k = Some out.
Proof. simpl. destruct (run a s k); [by left|by right]. Qed.

Lemma springMethodPattern_captures (prev : option ascii) (rest : list ascii) (pos : nat)
  (out : mstate) :
  match_at (source springMethodPattern) prev rest pos = Some out ->
  exists method, m_caps out = [(1%nat, method)]
                 /\ In method ["GET"; "POST"; "PUT"; "DELETE"; "PATCH"].
Proof.
  unfold match_at.
  change (source springMethodPattern)
    with (Seq (lit "RequestMethod.")
              (Seq (Group 1 (Alt (Alt (Alt (Alt (lit "GET") (lit "POST")) (lit "PUT"))
                                      (lit "DELETE")) (lit "PATCH"))) Eps)).
  cbn [run]. unfold lit at 1. rewrite run_chrs.
  destruct (advance_by _ _) as [s1|] eqn:Hadv; [|done].
  apply advance_by_state in Hadv as [_ Hcaps]. simpl in Hcaps.
  cbn [mbind option_bind].
  change (match
            match
              match
                match run (lit "GET") s1 ?k with
                | Some o => Some o
                | None => run (lit "POST") s1 ?k
                end
              with
              | Some o => Some o
              | None => run (lit "PUT") s1 ?k
              end
            with
            | Some o => Some o
            | None => run (lit "DELETE") s1 ?k
            end
          with
          | Some o => Some o
          | None => run (lit "PATCH") s1 ?k
          end)
    with (run (Alt (Alt (Alt (Alt (lit "GET") (lit "POST")) (lit "PUT")) (lit "DELETE"))
                   (lit "PATCH")) s1 k).
  intros H.
  apply run_alt in H as [H|H]; [apply run_alt in H as [H|H];
    [apply run_alt in H as [H|H]; [apply run_alt in H as [H|H]|]|]|];
    apply run_lit_capture in H; rewrite Hcaps in H;
    eexists; (split; [exact H|]); simpl; tauto.
Qed.

Lemma springMethod_fold (ms : list MatchResult) :
  forall methods : list string,
    NoDup methods ->
    NoDup (List.fold_left springMethod_step ms methods)
    /\ forall method, In method (List.fold_left springMethod_step ms methods) ->
         In method methods \/ exists m, In m ms /\ group_or_empty 1 m = method.
Proof.
  induction ms as [|m ms IH]; intros methods Hnodup; [by split; [|left]|].
  cbn [List.fold_left]. unfold springMethod_step at 2 4.
  destruct (mem (group_or_empty 1 m) methods) eqn:Hmem.
  - destruct (IH methods Hnodup) as [H1 H2]. split; [done|].
    intros method Hin. destruct (H2 method Hin) as [?|(m' & ? & ?)]; [by left|].
    right. exists m'. split; [by right|done].
  - assert (Hnew : NoDup (methods ++ [group_or_empty 1 m])).
    { apply NoDup_app. split; [done|]. split; [|apply NoDup_singleton].
      intros x Hx ->%list_elem_of_singleton.
      apply list_elem_of_In, mem_In in Hx. congruence. }
    destruct (IH _ Hnew) as [H1 H2]. split; [done|].
    intros method Hin. destruct (H2 method Hin) as [Hold|(m' & ? & ?)].
    + apply in_app_iff in Hold as [?|[<-|[]]]; [by left|].
      right. exists m. split; [by left|done].
    + right. exists m'. split; [by right|done].
Qed.

(** X21. [parseSpringMethods] returns on every text, and what it returns
    are request methods among GET, POST, PUT, DELETE and PATCH, each of them
    once. *)
Theorem parseSpringMethods_distinct (text : string) :
  exists methods,
    parseSpringMethods text = Normal methods
    /\ NoDup methods
    /\ forall method, In method methods ->
         In method ["GET"; "POST"; "PUT"; "DELETE"; "PATCH"].
Proof.
  unfold parseSpringMethods. destruct (negb (truthy text)).
  { exists []. split; [done|]. split; [constructor|done]. }
  destruct (exec_all_total springMethodPattern text) as (ms & R' & Hexec & _); [done..|].
  unfold matches. rewrite Hexec. simpl.
  eexists. split; [done|].
  destruct (springMethod_fold ms []) as [Hnodup Hfrom]; [constructor|].
  split; [done|]. intros method Hin.
  destruct (Hfrom method Hin) as [[]|(m & Hm & <-)].
  unfold exec_all in Hexec.
  eapply (exec_loop_groups
            (fun caps => exists method,
               caps = [(1%nat, method)]
               /\ In method ["GET"; "POST"; "PUT"; "DELETE"; "PATCH"])) in Hexec.
  - rewrite Forall_forall in Hexec.
    destruct (Hexec m) as (method & Hgroups & Hmethod); [by apply list_elem_of_In|].
    unfold group_or_empty, group. by rewrite Hgroups.
  - intros prev rest pos out. apply springMethodPattern_captures.
Qed.

Lemma parseSpringMethods_tests :
  parseSpringMethods
    "value = Q/usersQ, method = {RequestMethod.GET, RequestMethod.POST, RequestMethod.GET}"
  = Normal ["GET"; "POST"]
  /\ parseSpringMethods "RequestMethod.TRACE" = Normal [].
Proof. vm_compute. split; reflexivity. Qed.

(** ** Payload keys *)

Lemma pushKey_key (key : option string) (x : string) :
  In x (pushKey key) ->
  truthy x = true /\ trim x = x /\ x <> "-" /\ sall is_digit x = false.
Proof.
  unfold pushKey. destruct key as [key|]; [|done].
  destruct (negb (truthy key)); [done|].
  destruct (negb (truthy (trim key))) eqn:Htruthy; [done|].
  destruct (String.eqb (trim key) "-") eqn:Hdash; [done|]. cbn [orb].
  destruct (sall is_digit (trim key)) eqn:Hdigits; [done|].
  intros [<-|[]]. apply negb_false_iff in Htruthy. apply String.eqb_neq in Hdash.
  split; [done|]. split; [apply trim_trim|done].
Qed.

(** X22. [extractPayloadKeysFromLine] returns on every line, and the keys
    it returns are pairwise different, not empty, without white space
    around them, and neither a lone dash nor a number written in digits. *)
Theorem extractPayloadKeysFromLine_keys (line : string) :
  exists keys,
    extractPayloadKeysFromLine line = Normal keys
    /\ NoDup keys
    /\ forall key, In key keys ->
         truthy key = true /\ trim key = key /\ key <> "-" /\ sall is_digit key = false.
Proof.
  unfold extractPayloadKeysFromLine.
  repeat (match goal with
          | |- exists _, (if ?b then _ else _) = _ /\ _ =>
              destruct b; [exists []; split; [done|]; split; [constructor|done]|]
          end).
  destruct (matches_total quotedKeyPattern line) as [quoted ->]; [done..|].
  destruct (matches_total unquotedKeyPattern (stripStringLiterals line))
    as [unquoted ->]; [done..|].
  destruct (matches_total jsonTagPattern line) as [tags ->]; [done..|].
  destruct (matches_total annotationPattern line) as [annotations ->]; [done..|].
  cbn [mbind completion_bind].
  eexists. split; [done|]. split; [apply NoDup_ListNoDup, uniq_from_NoDup|].
  intros key Hkey. unfold uniq in Hkey. apply uniq_from_In in Hkey as [Hkey _].
  repeat (apply in_app_iff in Hkey as [Hkey|Hkey]);
    apply in_flat_map in Hkey as (m & _ & Hkey).
  - by eapply pushKey_key.
  - destruct (group 1 m) as [k|]; [|done].
    destruct (negb (truthy k) || mem k EXCLUDED_PAYLOAD_KEYS); [done|].
    by eapply pushKey_key.
  - by eapply pushKey_key.
  - destruct (fst (exec annotationLiteralPattern (group_or_empty 1 m))) as [literal|];
      [|done].
    by eapply pushKey_key.
Qed.

(** ** The question mark of a glob *)

Lemma glob_question_test (pre post path : string) :
  plain_glob pre -> plain_glob post ->
  fst (test (Glob.globToRegExp (pre ++ "?" ++ post)) path) = true
  <-> exists c, path = pre ++ String c post /\ is_line_terminator c = false.
Proof.
  intros Hpre Hpost. rewrite test_globToRegExp. cbn [fst].
  rewrite bool_decide_eq_true.
  unfold plain_glob in Hpre, Hpost. rewrite sall_forallb in Hpre, Hpost.
  rewrite list_ascii_of_string_app, globToRegExp_from_plain by done.
  rewrite sapp_cons, sapp_nil_l.
  assert (Glob.globToRegExp_from (list_ascii_of_string (String "?" post))
          = dot :: (List.map chr (list_ascii_of_string post) ++ [Eol false])%list) as ->.
  { cbn [list_ascii_of_string].
    assert (forall l, Glob.globToRegExp_from ("?"%char :: l) = dot :: Glob.globToRegExp_from l)
      as -> by reflexivity.
    f_equal. rewrite <- (app_nil_r (list_ascii_of_string post)) at 1.
    by rewrite globToRegExp_from_plain. }
  unfold match_at. rewrite run_seq_app, run_chrs.
  set (s0 := {| m_prev := None; m_rest := list_ascii_of_string path; m_pos := 0;
                m_caps := [] |}).
  split.
  - intros [out Hout].
    destruct (advance_by (list_ascii_of_string pre) s0) as [s1|] eqn:Hadv; [|done].
    apply advance_by_rest in Hadv. simpl in Hadv.
    change (run dot s1 (fun s2 => run (seq (List.map chr (list_ascii_of_string post)
                                             ++ [Eol false])%list) s2 Some) = Some out)
      in Hout.
    unfold dot in Hout. cbn [run] in Hout.
    destruct (m_rest s1) as [|c t] eqn:Hrest; [done|].
    destruct (negb (is_line_terminator c)) eqn:Hc; [|done].
    rewrite run_seq_app, run_chrs in Hout.
    assert (Hpost' : m_rest (advance c t s1) = list_ascii_of_string post).
    { apply chrs_eol. by rewrite Hout. }
    exists c. split; [|by apply negb_true_iff].
    apply list_ascii_of_string_inj. rewrite list_ascii_of_string_app. simpl.
    rewrite Hadv. simpl in Hpost'. by rewrite Hpost'.
  - intros (c & -> & Hc).
    destruct (advance_by_app (list_ascii_of_string pre) s0
                (list_ascii_of_string (String c post))) as (s1 & -> & Hs1).
    { simpl. by rewrite list_ascii_of_string_app. }
    change (is_Some (run dot s1 (fun s2 =>
              run (seq (List.map chr (list_ascii_of_string post) ++ [Eol false])%list)
                  s2 Some))).
    unfold dot. cbn [run]. rewrite Hs1. cbn [list_ascii_of_string]. rewrite Hc. cbn [negb].
    rewrite run_seq_app, run_chrs. by apply chrs_eol.
Qed.

(** X23. The question mark of a glob stands for exactly one character,
    which may be a slash but not a line break. *)
Theorem matchAny_question (cache : gmap string RegExp) (filePath pre post : string) :
  coherent cache -> plain_glob pre -> plain_glob post ->
  fst (Glob.matchAny cache filePath [pre ++ "?" ++ post]) = true
  <-> exists c, Glob.normalizePath filePath = pre ++ String c post
                /\ is_line_terminator c = false.
Proof.
  intros Hcache Hpre Hpost. rewrite matchAny_one by done. by apply glob_question_test.
Qed.

Lemma matchAny_question_witness :
  fst (Glob.matchAny ∅ "src/a/b" ["src/a" ++ "?" ++ "b"]) = true
  <-> exists c, Glob.normalizePath "src/a/b" = "src/a" ++ String c "b"
                /\ is_line_terminator c = false.
Proof.
  apply (matchAny_question ∅ "src/a/b" "src/a" "b" coherent_empty); reflexivity.
Defined.

(** ** The lines of the YAML reader *)

Lemma indexOf_spec (c : ascii) (s : string) :
  match Yaml.indexOf c s with
  | None => sall (fun d => negb (Ascii.eqb d c)) s = true
  | Some index =>
      exists before after,
        s = before ++ String c after
        /\ String.length before = index
        /\ sall (fun d => negb (Ascii.eqb d c)) before = true
  end.
Proof.
  induction s as [|d s IH]; [done|]. simpl.
  destruct (Ascii.eqb d c) eqn:Hd.
  - apply Ascii.eqb_eq in Hd as ->. by exists EmptyString, s.
  - destruct (Yaml.indexOf c s) as [index|]; simpl.
    + destruct IH as (before & after & -> & <- & Hbefore).
      exists (String d before), after. simpl. by rewrite Hd, Hbefore.
    + by rewrite IH.
Qed.

(** X24. [parseKeyValue] throws on a line without a colon and on no
    other line. On a line with a colon it splits at the first one: the key
    is what stands before it and the value what stands after it, both
    trimmed, so the key has no colon and the value keeps every later one. *)
Theorem parseKeyValue_first_colon (line : string) :
  (sall (fun c => negb (Ascii.eqb c ":")) line = true ->
   Yaml.parseKeyValue line = Throw (Error ("Invalid YAML line: " ++ line)))
  /\ (sall (fun c => negb (Ascii.eqb c ":")) line = false ->
      exists before after,
        line = before ++ String ":" after
        /\ sall (fun c => negb (Ascii.eqb c ":")) before = true
        /\ Yaml.parseKeyValue line
           = Normal {| Yaml.KeyValue.key := trim before;
                       Yaml.KeyValue.value := trim after;
                       Yaml.KeyValue.hasValue := truthy (trim after) |}).
Proof.
  unfold Yaml.parseKeyValue. pose proof (indexOf_spec ":" line) as Hspec.
  destruct (Yaml.indexOf ":" line) as [index|].
  - destruct Hspec as (before & after & -> & <- & Hbefore). split.
    + intros Hno. exfalso. clear -Hno. induction before as [|c before IH].
      * simpl in Hno. done.
      * rewrite sapp_cons in Hno. simpl in Hno.
        apply andb_true_iff in Hno as [_ Hno]. by apply IH.
    + intros _. exists before, after. split; [done|]. split; [done|].
      unfold slice. rewrite Nat.sub_0_r, substring_0_app.
      replace (before ++ String ":" after) with ((before ++ ":") ++ after)
        by (by rewrite sapp_assoc).
      replace (String.length before + 1)%nat with (String.length (before ++ ":"))
        by (rewrite sapp_length; simpl; lia).
      rewrite slice_from_app. do 2 f_equal. by destruct (trim after).
  - split; [done|]. intros Hsome. congruence.
Qed.

(** ** The results of the deterministic comparisons *)

Lemma bind_Normal {A B : Type} (m : completion A) (f : A -> completion B) (b : B) :
  m ≫= f = Normal b -> exists a, m = Normal a /\ f a = Normal b.
Proof. destruct m as [a| |]; [|done..]. intros H. by exists a. Qed.

(** X25. Every result of [runDeterministicComparisons] is marked as a
    deterministic result of the logic-drift detector, names the rule, is a
    missing policy value or a mismatch, and carries one of the four
    severities. *)
Theorem runDeterministicComparisons_results
  (new_RegExp : string -> string -> completion RegExp)
  (elapsedMs : RegExp -> string -> nat)
  (comparisons : list LogicDrift.Comparison.t) (diffText policyText : string)
  (config : Config.t) (ruleName file : string) (rs : list Finding.t) :
  LogicDrift.runDeterministicComparisons new_RegExp elapsedMs comparisons diffText
    policyText config ruleName file = Normal rs ->
  Forall (fun f =>
            Finding.source f = "logic-drift"
            /\ Finding.deterministic f = true
            /\ Finding.rule f = Some ruleName
            /\ Finding.file f = file
            /\ In (Finding.type f) ["policy-value-missing"; "policy-value-mismatch"]
            /\ In (Finding.severity f) severityLevels) rs.
Proof.
  set (ok := fun f : Finding.t =>
               Finding.source f = "logic-drift"
               /\ Finding.deterministic f = true
               /\ Finding.rule f = Some ruleName
               /\ Finding.file f = file
               /\ In (Finding.type f) ["policy-value-missing"; "policy-value-mismatch"]
               /\ In (Finding.severity f) severityLevels).
  assert (Hlevel : forall value fallback, In (normalizeSeverity value fallback) severityLevels).
  { intros value fallback. unfold normalizeSeverity.
    destruct (normalize_level value) as [->|Hv].
    - simpl. destruct (normalize_level fallback) as [->|Hf]; [simpl; tauto|].
      destruct (normalize fallback) eqn:Hn; [simpl; tauto|done].
    - destruct (normalize value) eqn:Hn; [simpl in Hv; intuition discriminate|done]. }
  assert (Hvalues : forall compare valueType severity label policyValues codeValues st,
            In severity severityLevels ->
            Forall ok (LogicDrift.results st) ->
            Forall ok (LogicDrift.results
                         (List.fold_left
                            (LogicDrift.codeValue_step compare valueType severity ruleName
                               file label policyValues) codeValues st))).
  { intros compare valueType severity label policyValues codeValues.
    induction codeValues as [|v l IH]; intros st Hsev Hst; [done|].
    simpl. apply IH; [done|]. unfold LogicDrift.codeValue_step.
    repeat case_match; try done. simpl. apply Forall_app. split; [done|].
    apply Forall_singleton. unfold ok. simpl. tauto. }
  assert (Hextracted : forall comparison codeValues policyValues st,
            Forall ok (LogicDrift.results st) ->
            Forall ok (LogicDrift.results
                         (LogicDrift.compareExtracted config ruleName file comparison
                            codeValues policyValues st))).
  { intros comparison codeValues policyValues st Hst. unfold LogicDrift.compareExtracted.
    destruct (length policyValues =? 0)%nat.
    - destruct (bool_decide _); [done|]. simpl. apply Forall_app. split; [done|].
      apply Forall_singleton. unfold ok. simpl.
      pose proof (Hlevel (LogicDrift.Comparison.severity comparison)
                    (Config.severity_logicDrift config)).
      tauto.
    - apply Hvalues; [apply Hlevel|done]. }
  assert (Hloop : forall cs st st',
            Forall ok (LogicDrift.results st) ->
            foldM (LogicDrift.comparison_step new_RegExp elapsedMs diffText policyText
                     config ruleName file) st cs = Normal st' ->
            Forall ok (LogicDrift.results st')).
  { intros cs. induction cs as [|c l IH]; intros st st' Hst; simpl.
    - by intros [= <-].
    - destruct (LogicDrift.comparison_step _ _ _ _ _ _ _ st c) as [st1| |] eqn:Hstep;
        simpl; try done.
      apply IH. unfold LogicDrift.comparison_step in Hstep.
      destruct (LogicDrift.pattern_truthy (LogicDrift.Comparison.codePattern c));
        [|by simplify_eq].
      destruct (LogicDrift.pattern_truthy (LogicDrift.Comparison.policyPattern c));
        [|by simplify_eq].
      apply bind_Normal in Hstep as (codeRegex & _ & Hstep).
      apply bind_Normal in Hstep as (policyRegex & _ & Hstep).
      apply bind_Normal in Hstep as ([codeValues ?] & _ & Hstep).
      destruct (length codeValues =? 0)%nat; [by simplify_eq|].
      apply bind_Normal in Hstep as ([policyValues ?] & _ & Hstep).
      simplify_eq. by apply Hextracted. }
  unfold LogicDrift.runDeterministicComparisons.
  destruct (foldM _ _ comparisons) as [st| |] eqn:Hfold; simpl; try done.
  intros [= <-]. eapply Hloop; [|exact Hfold]. constructor.
Qed.

Lemma runDeterministicComparisons_results_witness :
  Forall (fun f =>
            Finding.source f = "logic-drift"
            /\ Finding.deterministic f = true
            /\ Finding.rule f = Some "Billing"
            /\ Finding.file f = "src/billing/refund.js"
            /\ In (Finding.type f) ["policy-value-missing"; "policy-value-mismatch"]
            /\ In (Finding.severity f) severityLevels)
         [LogicDrift.mismatchFinding "error" "Billing" "src/billing/refund.js"
            "Refund window (days)" ["30"] "7"].
Proof.
  apply (runDeterministicComparisons_results refund_RegExp instant
           [refundComparison "equals" EmptyString] refundDiff
           "Refunds are allowed for 30 days." testConfig "Billing" "src/billing/refund.js").
  vm_compute. reflexivity.
Defined.

(** ** String literals blanked out *)

Lemma stripStringLiterals_loop_spec (line : string) :
  forall inSingle inDouble inBacktick escaped : bool,
    let result := stripStringLiterals_loop line inSingle inDouble inBacktick escaped in
    String.length result = String.length line
    /\ sall (fun c => negb (is_quote3 c) && negb (Ascii.eqb c "\")) result = true
    /\ forall i, String.get i result = String.get i line
                 \/ String.get i result = Some " "%char.
Proof.
  induction line as [|char line IH]; intros inSingle inDouble inBacktick escaped.
  - simpl. split; [done|]. split; [done|]. intros i. by left.
  - assert (Hblank : forall a b c d,
              let result := String " " (stripStringLiterals_loop line a b c d) in
              String.length result = String.length (String char line)
              /\ sall (fun c => negb (is_quote3 c) && negb (Ascii.eqb c "\")) result = true
              /\ forall i, String.get i result = String.get i (String char line)
                           \/ String.get i result = Some " "%char).
    { intros a b c d. destruct (IH a b c d) as (Hlen & Hall & Hget).
      cbn zeta. split; [simpl; by rewrite Hlen|]. split.
      - cbn [sall]. rewrite Hall. reflexivity.
      - intros [|i]; [by right|]. simpl. apply Hget. }
    cbn zeta. cbn [stripStringLiterals_loop].
    destruct escaped; [apply Hblank|].
    destruct (Ascii.eqb char "\") eqn:Hescape; [apply Hblank|].
    destruct inSingle; [apply Hblank|].
    destruct inDouble; [apply Hblank|].
    destruct inBacktick; [apply Hblank|].
    destruct (Ascii.eqb char "'") eqn:Hsingle; [apply Hblank|].
    destruct (Ascii.eqb char dquote) eqn:Hdouble; [apply Hblank|].
    destruct (Ascii.eqb char "`") eqn:Hbacktick; [apply Hblank|].
    destruct (IH false false false false) as (Hlen & Hall & Hget).
    split; [simpl; by rewrite Hlen|]. split.
    + cbn [sall]. rewrite Hall, Hescape. unfold is_quote3, char_in.
      cbn [list_ascii_of_string existsb]. by rewrite Hdouble, Hsingle, Hbacktick.
    + intros [|i]; [by left|]. simpl. apply Hget.
Qed.

(** X26. [stripStringLiterals] blanks characters out and moves none: the
    result is as long as the line, each of its characters is the one of the
    line at that place or a space, and no quote, backtick or backslash is
    left in it. *)
Theorem stripStringLiterals_blanks (line : string) :
  String.length (stripStringLiterals line) = String.length line
  /\ sall (fun c => negb (is_quote3 c) && negb (Ascii.eqb c "\")) (stripStringLiterals line)
     = true
  /\ forall i, String.get i (stripStringLiterals line) = String.get i line
               \/ String.get i (stripStringLiterals line) = Some " "%char.
Proof.
  unfold stripStringLiterals.
  destruct (stripStringLiterals_loop_spec line false false false false)
    as (Hlength & Hquotes & Hplaces).
  split; [exact Hlength|]. split; [exact Hquotes|exact Hplaces].
Qed.

(** ** More on the greedy star *)

(** The star over a class reads the characters of the class and stops at
    the first other character, when what follows the star matches there. *)
Lemma star_chr_stop (p : ascii -> bool) (k : mstate -> option mstate) (t : list ascii) :
  match t with d :: _ => p d = false | [] => True end ->
  forall (w : list ascii) (s sw : mstate),
    forallb p w = true ->
    m_rest s = (w ++ t)%list ->
    advance_by w s = Some sw ->
    is_Some (k sw) ->
    star_chr p k (w ++ t) s = k sw.
Proof.
  intros Ht. induction w as [|c w IH]; intros s sw Hw Hrest Hadv Hk.
  - simpl in Hadv. injection Hadv as ->. simpl.
    destruct t as [|d t]; [done|]. simpl. by rewrite Ht.
  - simpl in Hw. apply andb_true_iff in Hw as [Hc Hw].
    simpl in Hadv. rewrite Hrest in Hadv. simpl in Hadv.
    rewrite Ascii.eqb_refl in Hadv.
    simpl. rewrite Hc. rewrite (IH (advance c (w ++ t) s) sw Hw eq_refl Hadv Hk).
    by destruct Hk as [out ->].
Qed.

(** When the whole rest of the text is in the class and what follows the
    star needs one more character, the star gives the last one back. *)
Lemma star_chr_last (p : ascii -> bool) (k : mstate -> option mstate) (d : ascii) :
  p d = true ->
  (forall s, m_rest s = [] -> k s = None) ->
  forall (w : list ascii) (s sw : mstate),
    forallb p w = true ->
    m_rest s = (w ++ [d])%list ->
    advance_by w s = Some sw ->
    is_Some (k sw) ->
    star_chr p k (w ++ [d]) s = k sw.
Proof.
  intros Hd Hend. induction w as [|c w IH]; intros s sw Hw Hrest Hadv Hk.
  - simpl in Hadv. injection Hadv as ->. simpl. rewrite Hd.
    by rewrite (Hend (advance d [] sw)).
  - simpl in Hw. apply andb_true_iff in Hw as [Hc Hw].
    simpl in Hadv. rewrite Hrest in Hadv. simpl in Hadv.
    rewrite Ascii.eqb_refl in Hadv.
    simpl. rewrite Hc. rewrite (IH (advance c (w ++ [d]) s) sw Hw eq_refl Hadv Hk).
    by destruct Hk as [out ->].
Qed.

(** A regex that starts with a character is not found before the first
    occurrence of this character. *)
Lemma search_skip_chr (c : ascii) (r : re) (pre rest : list ascii) :
  forallb (fun d => negb (Ascii.eqb c d)) pre = true ->
  forall (prev : option ascii) (pos : nat),
    exists prev',
      search (Seq (chr c) r) prev (pre ++ c :: rest) pos
      = search (Seq (chr c) r) prev' (c :: rest) (pos + length pre).
Proof.
  induction pre as [|d pre IH]; intros Hpre prev pos.
  - exists prev. simpl. by rewrite Nat.add_0_r.
  - simpl in Hpre. apply andb_true_iff in Hpre as [Hd Hpre].
    apply negb_true_iff in Hd.
    destruct (IH Hpre (Some d) (S pos)) as [prev' IH'].
    exists prev'. cbn [length].
    replace (pos + S (length pre))%nat with (S pos + length pre)%nat by lia.
    rewrite <- IH'.
    change ((d :: pre) ++ c :: rest)%list with (d :: (pre ++ c :: rest))%list.
    assert (Hstep : forall x t,
              search (Seq (chr c) r) prev (x :: t) pos
              = match match_at (Seq (chr c) r) prev (x :: t) pos with
                | Some out => Some (pos, out)
                | None => search (Seq (chr c) r) (Some x) t (S pos)
                end) by reflexivity.
    rewrite Hstep.
    assert (match_at (Seq (chr c) r) prev (d :: pre ++ c :: rest) pos = None) as ->.
    { unfold match_at, chr. cbn [run m_rest]. by rewrite Hd. }
    done.
Qed.

(** ** Signatures written and read *)

Lemma exec_signatureParamsPattern (name params : string) :
  sall (fun c => negb (Ascii.eqb c "(")) name = true ->
  sall (fun c => negb (is_line_terminator c)) params = true ->
  exists m, fst (exec signatureParamsPattern (name ++ "(" ++ params ++ ")")) = Some m
            /\ groups m = [(1, params)].
Proof.
  intros Hname Hparams. rewrite sall_forallb in Hname, Hparams.
  unfold exec, signatureParamsPattern.
  cbn [global sticky regexp orb source lastIndex]. cbn [Nat.ltb Nat.leb]. rewrite drop_0.
  rewrite list_ascii_of_string_app. rewrite sapp_cons, sapp_nil_l.
  cbn [list_ascii_of_string]. rewrite list_ascii_of_string_app.
  cbn [list_ascii_of_string].
  set (w := list_ascii_of_string params) in *.
  change (seq [chr "("; Group 1 (Star dot); chr ")"])
    with (Seq (chr "(") (seq [Group 1 (Star dot); chr ")"])).
  destruct (search_skip_chr "(" (seq [Group 1 (Star dot); chr ")"])
              (list_ascii_of_string name) (w ++ [")"%char])%list) with (prev := @None ascii)
              (pos := 0) as [prev' ->].
  { apply forallb_forall. intros d Hd. rewrite forallb_forall in Hname.
    rewrite Ascii.eqb_sym. by apply Hname. }
  set (i := (0 + length (list_ascii_of_string name))%nat).
  cbn [search]. unfold match_at at 1.
  set (s0 := {| m_prev := prev'; m_rest := "("%char :: (w ++ [")"%char])%list;
                m_pos := i; m_caps := [] |}).
  set (s1 := advance "(" (w ++ [")"%char])%list s0).
  assert (Hrun : run (Seq (chr "(") (seq [Group 1 (Star dot); chr ")"])) s0 Some
                 = star_chr (fun c => negb (is_line_terminator c))
                     (fun s2 => run (seq [chr ")"]) (capture 1 s1 s2) Some)
                     (w ++ [")"%char])%list s1).
  { change (run (Seq (chr "(") (seq [Group 1 (Star dot); chr ")"])) s0 Some)
      with (run (chr "(") s0 (fun s => run (Star dot) s
              (fun s2 => run (seq [chr ")"]) (capture 1 s s2) Some))).
    assert (Hchr : forall p s K,
              run (Chr p) s K
              = match m_rest s with
                | c :: t => if p c then K (advance c t s) else None
                | [] => None
                end) by reflexivity.
    unfold chr at 1. rewrite Hchr.
    change (m_rest s0) with ("("%char :: (w ++ [")"%char])%list).
    cbn iota. rewrite Ascii.eqb_refl. fold s1. unfold dot. by rewrite run_star_chr. }
  rewrite Hrun.
  destruct (advance_by_app w s1 [")"%char] eq_refl) as (sw & Hadv & Hsw).
  pose proof (advance_by_state _ _ _ Hadv) as [Hpos Hcaps].
  assert (Hk : run (seq [chr ")"]) (capture 1 s1 sw) Some
               = Some (advance ")" [] (capture 1 s1 sw))).
  { unfold seq, chr. cbn [fold_right run capture m_rest]. rewrite Hsw.
    by rewrite Ascii.eqb_refl. }
  rewrite (star_chr_last _ _ ")" eq_refl) with (sw := sw); [| |done|done|done|by rewrite Hk].
  - rewrite Hk. cbn [fst]. eexists. split; [reflexivity|].
    cbn [groups advance capture m_caps]. rewrite Hcaps, Hpos.
    replace (m_pos s1 + length w - m_pos s1)%nat with (length w) by lia.
    cbn [s1 advance m_rest m_caps s0]. rewrite take_app_length.
    unfold w. by rewrite string_of_list_ascii_of_string.
  - intros s Hs. unfold seq, chr. cbn [fold_right run capture m_rest]. by rewrite Hs.
Qed.

Lemma sall_join (p : ascii -> bool) (sep : string) (l : list string) :
  sall p sep = true -> Forall (fun s => sall p s = true) l -> sall p (join sep l) = true.
Proof.
  intros Hsep. induction 1 as [|s l Hs Hl IH]; [done|].
  destruct l as [|t l]; [done|].
  change (join sep (s :: t :: l)) with (s ++ sep ++ join sep (t :: l)).
  by rewrite !sall_app, Hs, Hsep, IH.
Qed.

(** X27. What [buildEntity] writes, [extractSignatureParams] reads back:
    when the name has no opening parenthesis and no parameter has a line
    break inside it, the parameters read from the signature of a fact are
    the trimmed, non-empty parameters it was built with, joined by a comma
    and a space. *)
Theorem extractSignatureParams_buildEntity
  (type name params file content : string) (index : nat) :
  truthy params = true ->
  sall (fun c => negb (Ascii.eqb c "(")) name = true ->
  Forall (fun param => sall (fun c => negb (is_line_terminator c)) (trim param) = true)
         (split_char "," params) ->
  extractSignatureParams (Entity.signature (buildEntity type name params file content index))
  = join ", " (List.filter truthy (List.map trim (split_char "," params))).
Proof.
  intros Hparams Hname Hlines. unfold buildEntity. cbn [Entity.signature]. rewrite Hparams.
  unfold extractSignatureParams.
  destruct (exec_signatureParamsPattern name
              (join ", " (List.filter truthy (List.map trim (split_char "," params)))) Hname)
    as (m & -> & Hgroups).
  - apply sall_join; [reflexivity|].
    apply Forall_forall. intros s Hs. apply list_elem_of_In in Hs.
    apply filter_In in Hs as [Hs _]. apply in_map_iff in Hs as (param & <- & Hin).
    rewrite Forall_forall in Hlines. apply Hlines. by apply list_elem_of_In.
  - unfold group_or_empty, group. by rewrite Hgroups.
Qed.

Lemma extractSignatureParams_buildEntity_witness :
  extractSignatureParams
    (Entity.signature (buildEntity "function" "createUser" " email ,, name" "a.js" "" 0))
  = join ", " (List.filter truthy (List.map trim (split_char "," " email ,, name"))).
Proof.
  apply (extractSignatureParams_buildEntity "function" "createUser" " email ,, name"
           "a.js" "" 0); [reflexivity|reflexivity|].
  repeat constructor.
Defined.

(** ** config.js: references to the environment *)

(** A regex that starts with [^] and has no flag matches at position 0 or
    not at all. *)
Lemma exec_anchored (r : re) (text : string) :
  fst (exec (regexp (Seq (Bol false) r) false) text)
  = (fun out =>
       {| index := 0;
          matched := string_of_list_ascii
                       (take (m_pos out - 0) (drop 0 (list_ascii_of_string text)));
          groups := m_caps out |})
    <$> match_at r None (list_ascii_of_string text) 0.
Proof.
  unfold exec. cbn [global sticky regexp orb source lastIndex].
  cbn [Nat.ltb Nat.leb]. rewrite (drop_0 (list_ascii_of_string text)) at 1.
  rewrite search_anchored.
  by destruct (match_at r None (list_ascii_of_string text) 0).
Qed.

Lemma run_lit_seq (w : string) (rs : list re) (s : mstate) (k : mstate -> option mstate) :
  run (seq (lit w :: rs)) s k
  = advance_by (list_ascii_of_string w) s ≫= fun s1 => run (seq rs) s1 k.
Proof.
  change (run (seq (lit w :: rs)) s k) with (run (lit w) s (fun s1 => run (seq rs) s1 k)).
  unfold lit. by rewrite run_chrs.
Qed.

Lemma run_star_seq (p : ascii -> bool) (rs : list re) (s : mstate)
  (k : mstate -> option mstate) :
  run (seq (Star (Chr p) :: rs)) s k
  = star_chr p (fun s1 => run (seq rs) s1 k) (m_rest s) s.
Proof.
  change (run (seq (Star (Chr p) :: rs)) s k)
    with (run (Star (Chr p)) s (fun s1 => run (seq rs) s1 k)).
  apply run_star_chr.
Qed.

Lemma run_group_plus_seq (n : nat) (p : ascii -> bool) (rs : list re) (s : mstate)
  (k : mstate -> option mstate) :
  run (seq (Group n (plus (Chr p)) :: rs)) s k
  = match m_rest s with
    | c :: t =>
        if p c
        then star_chr p (fun s2 => run (seq rs) (capture n s s2) k) t (advance c t s)
        else None
    | [] => None
    end.
Proof.
  change (run (seq (Group n (plus (Chr p)) :: rs)) s k)
    with (match m_rest s with
          | c :: t =>
              if p c
              then run (Star (Chr p)) (advance c t s)
                     (fun s2 => run (seq rs) (capture n s s2) k)
              else None
          | [] => None
          end).
  destruct (m_rest s) as [|c t]; [done|]. destruct (p c); [|done].
  by rewrite run_star_chr.
Qed.

Lemma advance_by_split (a b : list ascii) (s : mstate) :
  advance_by (a ++ b) s = advance_by a s ≫= advance_by b.
Proof.
  revert s. induction a as [|c a IH]; intros s; [done|]. simpl.
  destruct (m_rest s) as [|d t]; [done|]. destruct (Ascii.eqb c d); [apply IH|done].
Qed.

Lemma advance_by_caps (w t : list ascii) (s : mstate) :
  m_rest s = (w ++ t)%list ->
  exists s', advance_by w s = Some s' /\ m_rest s' = t
             /\ m_pos s' = (m_pos s + length w)%nat /\ m_caps s' = m_caps s.
Proof.
  intros Hrest. destruct (advance_by_app w s t Hrest) as (s' & Hadv & Hs').
  exists s'. split; [done|]. split; [done|]. by apply advance_by_state.
Qed.

Lemma ws_not_env_name (c : ascii) :
  is_ws c = true -> LoadConfig.isEnvNameChar c = false.
Proof.
  destruct c as [[] [] [] [] [] [] [] []]; vm_compute; congruence.
Qed.

Lemma exec_group_1 (r : re) (text name : string) (out : mstate) :
  match_at r None (list_ascii_of_string text) 0 = Some out ->
  m_caps out = [(1, name)] ->
  exists m, fst (exec (regexp (Seq (Bol false) r) false) text) = Some m
            /\ group_or_empty 1 m = name.
Proof.
  intros Hm Hcaps. rewrite exec_anchored, Hm. eexists. split; [reflexivity|].
  unfold group_or_empty, group. cbn [groups]. by rewrite Hcaps.
Qed.

(** The shell style: [${NAME}]. *)
Lemma exec_shellReferencePattern (name : string) :
  truthy name = true -> sall LoadConfig.isEnvNameChar name = true ->
  exists m, fst (exec LoadConfig.shellReferencePattern ("${" ++ name ++ "}")) = Some m
            /\ group_or_empty 1 m = name.
Proof.
  intros Hname Hchars. destruct name as [|c name']; [done|].
  cbn [sall] in Hchars. apply andb_true_iff in Hchars as [Hc Hchars].
  rewrite sall_forallb in Hchars.
  set (value := "${" ++ String c name' ++ "}").
  set (s0 := {| m_prev := None; m_rest := list_ascii_of_string value; m_pos := 0;
                m_caps := [] |}).
  assert (Hvalue : list_ascii_of_string value
                   = (list_ascii_of_string "${"
                      ++ c :: list_ascii_of_string name' ++ ["}"%char])%list).
  { unfold value. rewrite !list_ascii_of_string_app. reflexivity. }
  destruct (advance_by_caps (list_ascii_of_string "${") _ s0 Hvalue)
    as (s1 & Hadv1 & Hrest1 & Hpos1 & Hcaps1).
  set (s2 := advance c (list_ascii_of_string name' ++ ["}"%char])%list s1).
  destruct (advance_by_caps (list_ascii_of_string name') ["}"%char] s2 eq_refl)
    as (s3 & Hadv3 & Hrest3 & Hpos3 & Hcaps3).
  set (s4 := capture 1 s1 s3).
  destruct (advance_by_caps (list_ascii_of_string "}") [] s4 Hrest3)
    as (s5 & Hadv5 & Hrest5 & Hpos5 & Hcaps5).
  assert (E2 : run (seq [lit "}"; Eol false]) s4 Some = Some s5).
  { rewrite run_lit_seq, Hadv5. simpl. by rewrite Hrest5. }
  assert (E1 : run (seq [Group 1 (plus (Chr LoadConfig.isEnvNameChar)); lit "}"; Eol false])
                 s1 Some = Some s5).
  { rewrite run_group_plus_seq, Hrest1, Hc.
    rewrite (star_chr_stop _ _ ["}"%char] eq_refl _ s2 s3 Hchars eq_refl Hadv3).
    - exact E2.
    - fold s4. by rewrite E2. }
  apply (exec_group_1
           (seq [lit "${"; Group 1 (plus (Chr LoadConfig.isEnvNameChar)); lit "}"; Eol false])
           value (String c name') s5).
  - unfold match_at. fold s0. rewrite run_lit_seq, Hadv1. exact E1.
  - rewrite Hcaps5. unfold s4. cbn [capture m_caps]. rewrite Hcaps3, Hpos3.
    cbn [s2 advance m_caps m_pos]. rewrite Hcaps1, Hrest1.
    replace (S (m_pos s1) + length (list_ascii_of_string name') - m_pos s1)%nat
      with (S (length (list_ascii_of_string name'))) by lia.
    cbn [take]. rewrite take_app_length. cbn [string_of_list_ascii].
    by rewrite string_of_list_ascii_of_string.
Qed.

(** The style of GitHub Actions: [${{ env.NAME }}]. *)
Lemma exec_actionsReferencePattern (before name after : string) :
  sall is_ws before = true -> sall is_ws after = true ->
  truthy name = true -> sall LoadConfig.isEnvNameChar name = true ->
  exists m,
    fst (exec LoadConfig.actionsReferencePattern
           ("${{" ++ before ++ "env." ++ name ++ after ++ "}}")) = Some m
    /\ group_or_empty 1 m = name.
Proof.
  intros Hbefore Hafter Hname Hchars. destruct name as [|c name']; [done|].
  cbn [sall] in Hchars. apply andb_true_iff in Hchars as [Hc Hchars].
  rewrite sall_forallb in Hbefore, Hafter, Hchars.
  set (value := "${{" ++ before ++ "env." ++ String c name' ++ after ++ "}}").
  set (s0 := {| m_prev := None; m_rest := list_ascii_of_string value; m_pos := 0;
                m_caps := [] |}).
  set (close := list_ascii_of_string "}}").
  set (tail2 := (list_ascii_of_string after ++ close)%list).
  set (tail1 := (list_ascii_of_string "env."
                 ++ c :: list_ascii_of_string name' ++ tail2)%list).
  assert (Hvalue : list_ascii_of_string value
                   = (list_ascii_of_string "${{"
                      ++ list_ascii_of_string before ++ tail1)%list).
  { unfold value, tail1, tail2, close. rewrite !list_ascii_of_string_app. reflexivity. }
  destruct (advance_by_caps (list_ascii_of_string "${{") _ s0 Hvalue)
    as (s1 & Hadv1 & Hrest1 & Hpos1 & Hcaps1).
  destruct (advance_by_caps (list_ascii_of_string before) tail1 s1 Hrest1)
    as (s2 & Hadv2 & Hrest2 & Hpos2 & Hcaps2).
  destruct (advance_by_caps (list_ascii_of_string "env.") _ s2 Hrest2)
    as (s3 & Hadv3 & Hrest3 & Hpos3 & Hcaps3).
  set (s4 := advance c (list_ascii_of_string name' ++ tail2)%list s3).
  destruct (advance_by_caps (list_ascii_of_string name') tail2 s4 eq_refl)
    as (s5 & Hadv5 & Hrest5 & Hpos5 & Hcaps5).
  set (s6 := capture 1 s3 s5).
  destruct (advance_by_caps (list_ascii_of_string after) close s6 Hrest5)
    as (s7 & Hadv7 & Hrest7 & Hpos7 & Hcaps7).
  destruct (advance_by_caps close [] s7) as (s8 & Hadv8 & Hrest8 & Hpos8 & Hcaps8).
  { by rewrite app_nil_r. }
  assert (E4 : run (seq [lit "}}"; Eol false]) s7 Some = Some s8).
  { rewrite run_lit_seq. fold close. rewrite Hadv8. simpl. by rewrite Hrest8. }
  assert (E3 : run (seq [Star ws; lit "}}"; Eol false]) s6 Some = Some s8).
  { unfold ws. rewrite run_star_seq. change (m_rest s6) with (m_rest s5). rewrite Hrest5.
    unfold tail2.
    rewrite (star_chr_stop _ _ close eq_refl _ s6 s7 Hafter Hrest5 Hadv7).
    - exact E4.
    - by rewrite E4. }
  assert (Htail2 : match tail2 with
                   | d :: _ => LoadConfig.isEnvNameChar d = false
                   | [] => True
                   end).
  { unfold tail2. destruct (list_ascii_of_string after) as [|d l] eqn:Hl; [reflexivity|].
    simpl in Hafter. apply andb_true_iff in Hafter as [Hd _].
    by apply ws_not_env_name. }
  assert (E2 : run (seq [Group 1 (plus (Chr LoadConfig.isEnvNameChar)); Star ws; lit "}}";
                         Eol false]) s3 Some = Some s8).
  { rewrite run_group_plus_seq, Hrest3, Hc.
    rewrite (star_chr_stop _ _ tail2 Htail2 _ s4 s5 Hchars eq_refl Hadv5).
    - exact E3.
    - fold s6. by rewrite E3. }
  assert (E1 : run (seq [lit "env."; Group 1 (plus (Chr LoadConfig.isEnvNameChar));
                         Star ws; lit "}}"; Eol false]) s2 Some = Some s8).
  { rewrite run_lit_seq, Hadv3. exact E2. }
  assert (E0 : run (seq [Star ws; lit "env.";
                         Group 1 (plus (Chr LoadConfig.isEnvNameChar));
                         Star ws; lit "}}"; Eol false]) s1 Some = Some s8).
  { unfold ws at 1. rewrite run_star_seq, Hrest1.
    rewrite (star_chr_stop _ _ tail1 eq_refl _ s1 s2 Hbefore Hrest1 Hadv2).
    - exact E1.
    - by rewrite E1. }
  apply (exec_group_1
           (seq [lit "${{"; Star ws; lit "env.";
                 Group 1 (plus (Chr LoadConfig.isEnvNameChar)); Star ws; lit "}}";
                 Eol false])
           value (String c name') s8).
  - unfold match_at. fold s0. rewrite run_lit_seq, Hadv1. exact E0.
  - rewrite Hcaps8, Hcaps7. unfold s6. cbn [capture m_caps]. rewrite Hcaps5, Hpos5.
    cbn [s4 advance m_caps m_pos]. rewrite Hcaps3, Hcaps2, Hcaps1, Hrest3.
    replace (S (m_pos s3) + length (list_ascii_of_string name') - m_pos s3)%nat
      with (S (length (list_ascii_of_string name'))) by lia.
    cbn [take]. rewrite take_app_length. cbn [string_of_list_ascii].
    by rewrite string_of_list_ascii_of_string.
Qed.

(** A value that does not begin with a dollar sign and a brace matches
    neither pattern. *)
Lemma exec_reference_none (rs : list re) (w value : string) :
  startsWith "${" value = false ->
  fst (exec (regexp (seq (Bol false :: lit ("${" ++ w) :: rs)) false) value) = None.
Proof.
  intros Hstarts.
  assert (Hvalue : forall rest, value <> "${" ++ rest).
  { intros rest ->. destruct rest; vm_compute in Hstarts; discriminate. }
  change (seq (Bol false :: lit ("${" ++ w) :: rs))
    with (Seq (Bol false) (seq (lit ("${" ++ w) :: rs))).
  rewrite exec_anchored. unfold match_at. rewrite run_lit_seq.
  rewrite list_ascii_of_string_app, advance_by_split.
  destruct (advance_by (list_ascii_of_string "${") _) as [s1|] eqn:Hadv; [|done].
  apply advance_by_rest in Hadv. cbn [m_rest] in Hadv.
  destruct (Hvalue (string_of_list_ascii (m_rest s1))).
  apply list_ascii_of_string_inj.
  by rewrite list_ascii_of_string_app, list_ascii_of_string_of_list_ascii.
Qed.

(** A shell-style reference matches the first pattern nowhere: after the
    dollar sign and the brace comes the name, not a second brace. *)
Lemma exec_actions_on_shell (name : string) :
  truthy name = true -> sall LoadConfig.isEnvNameChar name = true ->
  fst (exec LoadConfig.actionsReferencePattern ("${" ++ name ++ "}")) = None.
Proof.
  intros Hname Hchars. destruct name as [|c name']; [done|].
  cbn [sall] in Hchars. apply andb_true_iff in Hchars as [Hc _].
  unfold LoadConfig.actionsReferencePattern.
  change (seq [Bol false; lit "${{"; Star ws; lit "env.";
               Group 1 (plus (Chr LoadConfig.isEnvNameChar)); Star ws; lit "}}"; Eol false])
    with (Seq (Bol false)
            (seq (lit ("${" ++ "{")
                  :: [Star ws; lit "env."; Group 1 (plus (Chr LoadConfig.isEnvNameChar));
                      Star ws; lit "}}"; Eol false]))).
  rewrite exec_anchored. unfold match_at. rewrite run_lit_seq.
  rewrite (list_ascii_of_string_app "${" "{"), advance_by_split.
  set (s0 := {| m_prev := None; m_rest := _; m_pos := 0; m_caps := [] |}).
  destruct (advance_by_caps (list_ascii_of_string "${")
              (c :: list_ascii_of_string name' ++ ["}"%char])%list s0)
    as (s1 & -> & Hrest1 & _).
  { unfold s0. cbn [m_rest]. rewrite !list_ascii_of_string_app. reflexivity. }
  cbn [mbind completion_bind option_bind list_ascii_of_string advance_by].
  rewrite Hrest1. destruct (Ascii.eqb "{" c) eqn:Hbrace; [|done].
  apply Ascii.eqb_eq in Hbrace as <-. discriminate Hc.
Qed.

Lemma envOrEmpty_default (env : gmap string string) (name : string) :
  LoadConfig.envOrEmpty env name = default EmptyString (env !! name).
Proof.
  unfold LoadConfig.envOrEmpty. destruct (env !! name) as [[|c value]|]; reflexivity.
Qed.

(** What a successful greedy star has read: characters of the class, after
    which the rest of the regex matched. *)
Lemma star_chr_inv (p : ascii -> bool) (k : mstate -> option mstate) (rest : list ascii) :
  forall (s out : mstate),
    m_rest s = rest ->
    star_chr p k rest s = Some out ->
    exists w sw,
      rest = (w ++ m_rest sw)%list /\ forallb p w = true
      /\ advance_by w s = Some sw /\ k sw = Some out.
Proof.
  induction rest as [|c t IH]; intros s out Hrest Hstar.
  - exists [], s. simpl. by rewrite Hrest.
  - simpl in Hstar. destruct (p c) eqn:Hc.
    + destruct (star_chr p k t (advance c t s)) as [out'|] eqn:Hinner.
      * injection Hstar as ->.
        destruct (IH (advance c t s) out eq_refl Hinner) as (w & sw & Ht & Hw & Hadv & Hk).
        exists (c :: w), sw. simpl. rewrite Hrest, Ascii.eqb_refl, Hc, Hw.
        split; [by rewrite <- Ht|]. done.
      * exists [], s. simpl. by rewrite Hrest.
    + exists [], s. simpl. by rewrite Hrest.
Qed.

Lemma run_eol_inv (s out : mstate) :
  run (seq [Eol false]) s Some = Some out -> m_rest s = [].
Proof. simpl. by destruct (m_rest s). Qed.

Lemma string_of_list_ascii_inv (value : string) (l : list ascii) :
  list_ascii_of_string value = l -> value = string_of_list_ascii l.
Proof. intros <-. by rewrite string_of_list_ascii_of_string. Qed.

Lemma sall_string_of_list_ascii (p : ascii -> bool) (l : list ascii) :
  sall p (string_of_list_ascii l) = forallb p l.
Proof. by rewrite sall_forallb, list_ascii_of_string_of_list_ascii. Qed.

(** Only a shell-style reference matches the second pattern. *)
Lemma exec_shellReferencePattern_inv (value : string) (m : MatchResult) :
  fst (exec LoadConfig.shellReferencePattern value) = Some m ->
  exists name,
    truthy name = true /\ sall LoadConfig.isEnvNameChar name = true
    /\ value = "${" ++ name ++ "}".
Proof.
  unfold LoadConfig.shellReferencePattern.
  change (seq [Bol false; lit "${"; Group 1 (plus (Chr LoadConfig.isEnvNameChar)); lit "}";
               Eol false])
    with (Seq (Bol false)
            (seq [lit "${"; Group 1 (plus (Chr LoadConfig.isEnvNameChar)); lit "}";
                  Eol false])).
  rewrite exec_anchored.
  destruct (match_at _ None (list_ascii_of_string value) 0) as [out|] eqn:Hm; [|done].
  intros _. unfold match_at in Hm. rewrite run_lit_seq in Hm.
  destruct (advance_by (list_ascii_of_string "${") _) as [s1|] eqn:Hadv1; [|done].
  apply advance_by_rest in Hadv1. cbn [m_rest] in Hadv1.
  cbn [mbind option_bind] in Hm. rewrite run_group_plus_seq in Hm.
  destruct (m_rest s1) as [|c t] eqn:Hrest1; [done|].
  destruct (LoadConfig.isEnvNameChar c) eqn:Hc; [|done].
  apply star_chr_inv in Hm as (w & sw & Ht & Hw & _ & Hk); [|done].
  rewrite run_lit_seq in Hk. cbn [capture m_rest] in Hk.
  destruct (advance_by (list_ascii_of_string "}") _) as [s5|] eqn:Hadv5; [|done].
  apply advance_by_rest in Hadv5. cbn [m_rest capture] in Hadv5.
  cbn [mbind option_bind] in Hk. apply run_eol_inv in Hk.
  rewrite Hk in Hadv5. rewrite Hadv5 in Ht. rewrite Ht in Hadv1.
  exists (string_of_list_ascii (c :: w)). split; [done|]. split.
  - rewrite sall_string_of_list_ascii. simpl. by rewrite Hc, Hw.
  - apply list_ascii_of_string_inj. rewrite Hadv1, !list_ascii_of_string_app.
    by rewrite list_ascii_of_string_of_list_ascii, app_nil_r.
Qed.

(** Only a reference in the style of GitHub Actions matches the first. *)
Lemma exec_actionsReferencePattern_inv (value : string) (m : MatchResult) :
  fst (exec LoadConfig.actionsReferencePattern value) = Some m ->
  exists before name after,
    sall is_ws before = true /\ sall is_ws after = true
    /\ truthy name = true /\ sall LoadConfig.isEnvNameChar name = true
    /\ value = "${{" ++ before ++ "env." ++ name ++ after ++ "}}".
Proof.
  unfold LoadConfig.actionsReferencePattern.
  change (seq [Bol false; lit "${{"; Star ws; lit "env.";
               Group 1 (plus (Chr LoadConfig.isEnvNameChar)); Star ws; lit "}}"; Eol false])
    with (Seq (Bol false)
            (seq [lit "${{"; Star ws; lit "env.";
                  Group 1 (plus (Chr LoadConfig.isEnvNameChar)); Star ws; lit "}}";
                  Eol false])).
  rewrite exec_anchored.
  destruct (match_at _ None (list_ascii_of_string value) 0) as [out|] eqn:Hm; [|done].
  intros _. unfold match_at in Hm. rewrite run_lit_seq in Hm.
  destruct (advance_by (list_ascii_of_string "${{") _) as [s1|] eqn:Hadv1; [|done].
  apply advance_by_rest in Hadv1. cbn [m_rest] in Hadv1.
  cbn [mbind option_bind] in Hm. unfold ws at 1 in Hm. rewrite run_star_seq in Hm.
  apply star_chr_inv in Hm as (w1 & s2 & Hrest1 & Hw1 & _ & Hm); [|done].
  rewrite run_lit_seq in Hm.
  destruct (advance_by (list_ascii_of_string "env.") s2) as [s3|] eqn:Hadv3; [|done].
  apply advance_by_rest in Hadv3.
  cbn [mbind option_bind] in Hm. rewrite run_group_plus_seq in Hm.
  destruct (m_rest s3) as [|c t] eqn:Hrest3; [done|].
  destruct (LoadConfig.isEnvNameChar c) eqn:Hc; [|done].
  apply star_chr_inv in Hm as (w & s5 & Ht & Hw & _ & Hm); [|done].
  unfold ws in Hm. rewrite run_star_seq in Hm. cbn [capture m_rest] in Hm.
  apply star_chr_inv in Hm as (w2 & s7 & Hrest5 & Hw2 & _ & Hm); [|done].
  rewrite run_lit_seq in Hm.
  destruct (advance_by (list_ascii_of_string "}}") s7) as [s8|] eqn:Hadv8; [|done].
  apply advance_by_rest in Hadv8.
  cbn [mbind option_bind] in Hm. apply run_eol_inv in Hm.
  rewrite Hm, app_nil_r in Hadv8. rewrite Hadv8 in Hrest5. rewrite Hrest5 in Ht.
  rewrite Ht in Hadv3. rewrite Hadv3 in Hrest1. rewrite Hrest1 in Hadv1.
  exists (string_of_list_ascii w1), (string_of_list_ascii (c :: w)),
         (string_of_list_ascii w2).
  rewrite !sall_string_of_list_ascii. simpl forallb. rewrite Hc, Hw.
  split; [done|]. split; [done|]. split; [done|]. split; [done|].
  apply list_ascii_of_string_inj. rewrite Hadv1, !list_ascii_of_string_app.
  by rewrite !list_ascii_of_string_of_list_ascii.
Qed.

(** X28. [resolveEnv] replaces a reference to the environment and nothing
    else. A value it changes is a reference: a non-empty name of capitals,
    digits and underscores, written between a dollar sign with a brace and a
    closing brace, or as [env.NAME] between double braces with any white
    space around it; every other value is returned as it is, also one that
    begins with a dollar sign and a brace. A reference is replaced by the
    variable of that name, and by the empty string when it is not set. *)
Theorem resolveEnv_references (env : gmap string string) :
  (forall value,
     LoadConfig.resolveEnv env value = value
     \/ (exists name,
           truthy name = true /\ sall LoadConfig.isEnvNameChar name = true
           /\ value = "${" ++ name ++ "}")
     \/ (exists before name after,
           sall is_ws before = true /\ sall is_ws after = true
           /\ truthy name = true /\ sall LoadConfig.isEnvNameChar name = true
           /\ value = "${{" ++ before ++ "env." ++ name ++ after ++ "}}"))
  /\ (forall value, startsWith "${" value = false -> LoadConfig.resolveEnv env value = value)
  /\ (forall name,
        truthy name = true -> sall LoadConfig.isEnvNameChar name = true ->
        LoadConfig.resolveEnv env ("${" ++ name ++ "}") = default EmptyString (env !! name))
  /\ (forall before name after,
        sall is_ws before = true -> sall is_ws after = true ->
        truthy name = true -> sall LoadConfig.isEnvNameChar name = true ->
        LoadConfig.resolveEnv env ("${{" ++ before ++ "env." ++ name ++ after ++ "}}")
        = default EmptyString (env !! name)).
Proof.
  split; [|split; [|split]].
  - intros value. unfold LoadConfig.resolveEnv.
    destruct (fst (exec LoadConfig.actionsReferencePattern value)) as [envMatch|] eqn:Henv.
    { right. right. by apply exec_actionsReferencePattern_inv in Henv. }
    destruct (fst (exec LoadConfig.shellReferencePattern value)) as [simpleMatch|] eqn:Hsimple.
    { right. left. by apply exec_shellReferencePattern_inv in Hsimple. }
    by left.
  - intros value Hvalue. unfold LoadConfig.resolveEnv.
    unfold LoadConfig.actionsReferencePattern, LoadConfig.shellReferencePattern.
    rewrite (exec_reference_none _ "{" value Hvalue).
    by rewrite (exec_reference_none _ EmptyString value Hvalue).
  - intros name Hname Hchars. unfold LoadConfig.resolveEnv.
    rewrite exec_actions_on_shell by done.
    destruct (exec_shellReferencePattern name Hname Hchars) as (m & -> & ->).
    apply envOrEmpty_default.
  - intros before name after Hbefore Hafter Hname Hchars. unfold LoadConfig.resolveEnv.
    destruct (exec_actionsReferencePattern before name after Hbefore Hafter Hname Hchars)
      as (m & -> & ->).
    apply envOrEmpty_default.
Qed.

Lemma resolveEnv_references_witness :
  LoadConfig.resolveEnv ∅ "plain" = "plain"
  /\ LoadConfig.resolveEnv ∅ ("${" ++ "API_KEY" ++ "}")
     = default EmptyString ((∅ : gmap string string) !! "API_KEY")
  /\ LoadConfig.resolveEnv ∅ ("${{" ++ " " ++ "env." ++ "API_KEY" ++ " " ++ "}}")
     = default EmptyString ((∅ : gmap string string) !! "API_KEY").
Proof.
  destruct (resolveEnv_references ∅) as (_ & Hplain & Hshell & Hactions).
  split; [|split].
  - apply Hplain. reflexivity.
  - apply Hshell; reflexivity.
  - apply Hactions; reflexivity.
Defined.

(** Some values, run through the definition. *)
Lemma resolveEnv_tests :
  let env : gmap string string := {[ "API_KEY" := "secret" ]} in
  LoadConfig.resolveEnv env "${API_KEY}" = "secret"
  /\ LoadConfig.resolveEnv env "${{ env.API_KEY }}" = "secret"
  /\ LoadConfig.resolveEnv env "${{env.API_KEY}}" = "secret"
  /\ LoadConfig.resolveEnv env "${OTHER}" = ""
  /\ LoadConfig.resolveEnv env "${api_key}" = "${api_key}"
  /\ LoadConfig.resolveEnv env "${API_KEY} " = "${API_KEY} "
  /\ LoadConfig.resolveEnv env "key: ${API_KEY}" = "key: ${API_KEY}"
  /\ LoadConfig.resolveEnv env "${{ secrets.API_KEY }}" = "${{ secrets.API_KEY }}".
Proof. vm_compute. repeat split; reflexivity. Qed.
